(** * Message Bar v2: the simulation core of the "serve the customer" game

    A shallow embedding of [message-bar-v2/src/game]: [constants.js],
    [Bottle.js], [Customer.js] and [Game.js], and of the chat ids and the
    polling of [api.js].

    Conventions of the embedding.
    - A JavaScript number is a rational [Q].  The arithmetic of the patience
      meter, of the patience bonus and of [getCooldownProgress] is that of
      IEEE 754 doubles: each operation is rounded to the nearest double, ties
      to even ([Double]).  The remaining fractions (elapsed deltas,
      coordinates, fill levels, difficulty) are computed exactly: their
      rounding is not modelled.  Integer-valued numbers (score, counters,
      [Date.now()] in milliseconds) are [Z], all far below 2^53; array
      indices and customer ids are [nat].
    - Every method is a pure function from the object before the call to the
      object after it; a method with a return value returns a pair.
    - [Date.now()] and [Math.random()] are inputs of the function that reads
      them.  [getCooldownProgress] takes its two reads of the clock apart;
      the updates of a bottle and of the game see one value of the clock.
    - A string is a [string], compared and joined as a whole; the text of a
      message, which the code cuts by length, is the list of its UTF-16 code
      units ([text]).
    - Rendering, sound and particle effects are left out: no method of the
      core reads what they write.  Of [Bottle], [isSelected], [glowIntensity]
      and [hoverScale] are render-only and are left out with them. *)

From Stdlib Require Import String Ascii ZArith QArith Qround Qpower Lia Lqa.
From Stdlib Require Import List Bool.
From Stdlib Require Import DecimalString PeanoNat Permutation Sorted.
Import ListNotations.

Local Open Scope Z_scope.

(** ** JavaScript helpers *)

(** [a <= b] and [a < b] on numbers, as booleans. *)
Definition Qleb (a b : Q) : bool := Qle_bool a b.
Definition Qltb (a b : Q) : bool := negb (Qle_bool b a).

(** [Math.max] and [Math.min]. *)
Definition Math_max (a b : Q) : Q := if Qleb a b then b else a.
Definition Math_min (a b : Q) : Q := if Qleb a b then a else b.

(** [a || b] on strings: the empty string is falsy. *)
Definition str_or (a b : string) : string :=
  if String.eqb a EmptyString then b else a.

(** The text of a message: its UTF-16 code units, each below 2^16, which
    [length] and [substring] count. *)
Definition text : Type := list N.

(** A literal of ASCII characters: one code unit for each character. *)
Definition utf16 (s : string) : text :=
  map N_of_ascii (list_ascii_of_string s).

(** [!s] on texts. *)
Definition is_empty (s : text) : bool :=
  match s with
  | [] => true
  | _ :: _ => false
  end.

(** [a || b] on texts: the empty text is falsy. *)
Definition text_or (a b : text) : text :=
  match a with
  | [] => b
  | _ :: _ => a
  end.

(** [s.substring(0, n)]: the first [n] code units, or all of them. *)
Definition substring (n : nat) (s : text) : text := firstn n s.

(** Template literal [`${n}`] of a non-negative integer. *)
Definition string_of_nat (n : nat) : string :=
  NilEmpty.string_of_uint (Nat.to_uint n).

(** [arr[i] = v]; every write of the core is in range, where JavaScript
    would extend the array this leaves it as it is. *)
Fixpoint array_set {A : Type} (l : list A) (i : nat) (v : A) : list A :=
  match l, i with
  | [], _ => []
  | _ :: t, O => v :: t
  | h :: t, S j => h :: array_set t j v
  end.

(** [arr.findIndex(p)]: [None] stands for -1. *)
Fixpoint findIndex {A : Type} (p : A -> bool) (l : list A) : option nat :=
  match l with
  | [] => None
  | h :: t => if p h then Some O else option_map S (findIndex p t)
  end.

(** [Math.floor(Math.random() * len)]: some index below [len], chosen by the
    random source [r]. *)
Definition random_index (r len : nat) : nat := Nat.modulo r len.

(** ** The arithmetic of doubles *)

(** IEEE 754 binary64, round to nearest, ties to even: a mantissa of 53
    bits, subnormal numbers below 2^-1022.  Infinity and NaN are left out: a
    result of magnitude 2^1024 or more is rounded as if the exponents went
    on, and [x / 0] is 0 as in [Q]; the game divides by [maxPatience], by
    1000 and by the cooldown, none of which is 0. *)
Module Double.

Definition pow2 (e : Z) : Q := Qpower 2 e.

(** The nearest integer, the even one of two that are equally near. *)
Definition roundTiesToEven (q : Q) : Z :=
  let f := Qfloor q in
  match (q - inject_Z f ?= 1 # 2)%Q with
  | Lt => f
  | Gt => f + 1
  | Eq => if Z.even f then f else f + 1
  end.

(** The [e] with [2^e <= q < 2^(e+1)], of a positive [q]. *)
Definition exponent (q : Q) : Z :=
  let k := Z.log2 (Qnum q) - Z.log2 (Zpos (Qden q)) in
  if Qle_bool (pow2 k) q then k else k - 1.

(** The exponent of the unit in the last place. *)
Definition ulp_exponent (q : Q) : Z := Z.max (exponent q - 52) (-1074).

Definition round_pos (q : Q) : Q :=
  let e := ulp_exponent q in
  Qred (inject_Z (roundTiesToEven (q / pow2 e)) * pow2 e).

(** The double nearest to [q]. *)
Definition round (q : Q) : Q :=
  match Qnum q with
  | Z0 => 0
  | Zpos _ => round_pos q
  | Zneg _ => - round_pos (- q)
  end.

(** [a + b], [a - b], [a * b] and [a / b] on doubles. *)
Definition add (a b : Q) : Q := round (a + b).
Definition sub (a b : Q) : Q := round (a - b).
Definition mul (a b : Q) : Q := round (a * b).
Definition div (a b : Q) : Q := round (a / b).

End Double.

Arguments Double.round q : simpl never.
Arguments Double.add a b : simpl never.
Arguments Double.sub a b : simpl never.
Arguments Double.mul a b : simpl never.
Arguments Double.div a b : simpl never.

(** ** constants.js *)

Module GAME_CONFIG.
Definition MAX_CUSTOMERS : nat := 6.
Definition MAX_LOST : Z := 5.
Definition BASE_SPAWN_INTERVAL : Q := 6000.
Definition MIN_SPAWN_INTERVAL : Q := 2500.
Definition PATIENCE_DECAY_RATE : Q := 1.5.
Definition BOTTLE_COOLDOWN : Z := 3000.
Definition COMBO_TIMEOUT : Q := 3000.
Definition BASE_SCORE : Z := 100.
Definition PATIENCE_BONUS_MULTIPLIER : Q := 1.
Definition COMBO_BONUS : Z := 25.
End GAME_CONFIG.

Module POSITIONS.
Definition BAR_Y : Q := 480.
Definition CUSTOMER_SPAWN_X : Q := 1350.
Definition CUSTOMER_EXIT_X : Q := -150.
Definition CUSTOMER_SLOTS : list Q := [200; 350; 500; 650; 800; 950]%Q.
Definition BOTTLE_SHELF_Y : Q := 120.
Definition BOTTLE_SPACING : Q := 140.
Definition BOTTLE_START_X : Q := 240.
End POSITIONS.

Record CustomerType : Type := mkCustomerType {
  ct_id : string;
  ct_patience : Q;
  ct_walkSpeed : Q
}.

Definition CUSTOMER_TYPES : list CustomerType :=
  [ mkCustomerType "office_worker" 100 2;
    mkCustomerType "punk_girl" 80 2.5;
    mkCustomerType "robot" 120 1.8;
    mkCustomerType "business_woman" 70 3;
    mkCustomerType "old_hacker" 110 1.5;
    mkCustomerType "drone_pilot" 60 3.5 ]%Q.

Record BottleType : Type := mkBottleType {
  bt_id : string;
  bt_text : string;
  bt_locked : bool
}.

Definition BOTTLE_TYPES : list BottleType :=
  [ mkBottleType "welcome"
      "Hey! Welcome aboard! We're excited to have you here!" false;
    mkBottleType "thankyou"
      "Thank you so much for your support! It means a lot!" false;
    mkBottleType "reminder"
      "Quick reminder! Don't forget about our meeting today!" false;
    mkBottleType "celebration"
      "Congratulations! You did it! So proud of you!" false;
    mkBottleType "ai" "AI Generated Response" true ].

Inductive CUSTOMER_STATES : Type :=
  | WALKING_IN | IDLE | IMPATIENT | ANGRY | HAPPY | WALKING_OUT | STORMING_OFF.

Inductive BOTTLE_STATES : Type :=
  | B_IDLE | POURING | EMPTY | REFILLING.

Definition DEMO_MESSAGES : list text :=
  map utf16
    [ "Hey, are you there?"; "Need help ASAP!"; "Quick question...";
      "Hello???"; "Is anyone working?"; "I have a problem";
      "Can you help me?"; "Urgent request!"; "Hi, got a minute?";
      "Need assistance"; "Where are you?"; "Please respond";
      "Important matter"; "Help needed!" ]%string.

Definition DEMO_NAMES : list string :=
  [ "Alex"; "Jordan"; "Taylor"; "Morgan"; "Casey";
    "Riley"; "Quinn"; "Avery"; "Reese"; "Sage";
    "Blake"; "Drew"; "Emery"; "Finley"; "Charlie" ]%string.

Definition customer_state_eqb (a b : CUSTOMER_STATES) : bool :=
  match a, b with
  | WALKING_IN, WALKING_IN | IDLE, IDLE | IMPATIENT, IMPATIENT
  | ANGRY, ANGRY | HAPPY, HAPPY | WALKING_OUT, WALKING_OUT
  | STORMING_OFF, STORMING_OFF => true
  | _, _ => false
  end.

(** ** Bottle.js *)

Module Bottle.

Record t : Type := mk {
  type : BottleType;
  index : nat;
  x : Q;
  y : Q;
  state : BOTTLE_STATES;
  cooldownEnd : Z;
  frame : Z;
  frameTimer : Q;
  animationSpeed : Q;
  fillLevel : Q
}.

(** [new Bottle(typeId, index)], with the type already looked up. *)
Definition new (ty : BottleType) (idx : nat) : t :=
  {| type := ty;
     index := idx;
     x := POSITIONS.BOTTLE_START_X + inject_Z (Z.of_nat idx) * POSITIONS.BOTTLE_SPACING;
     y := POSITIONS.BOTTLE_SHELF_Y;
     state := if bt_locked ty then EMPTY else B_IDLE;
     cooldownEnd := 0;
     frame := 0;
     frameTimer := 0;
     animationSpeed := 150;
     fillLevel := if bt_locked ty then 0 else 1 |}.

Definition isOnCooldown (now : Z) (b : t) : bool := now <? cooldownEnd b.

(** [getCooldownProgress()]; [now1] is the clock as [isOnCooldown()] reads
    it and [now2] the clock as the next line reads it. *)
Definition getCooldownProgress (now1 now2 : Z) (b : t) : Q :=
  if negb (isOnCooldown now1 b) then 1
  else
    let remaining := cooldownEnd b - now2 in
    Double.sub 1 (Double.div (inject_Z remaining)
                             (inject_Z GAME_CONFIG.BOTTLE_COOLDOWN)).

Definition use (now : Z) (b : t) : bool * t :=
  if bt_locked (type b) || isOnCooldown now b then (false, b)
  else
    (true,
     {| type := type b; index := index b; x := x b; y := y b;
        state := POURING;
        cooldownEnd := now + GAME_CONFIG.BOTTLE_COOLDOWN;
        frame := 0;
        frameTimer := frameTimer b;
        animationSpeed := animationSpeed b;
        fillLevel := 0 |}).

Definition with_state (s : BOTTLE_STATES) (fr : Z) (fl : Q) (b : t) : t :=
  {| type := type b; index := index b; x := x b; y := y b;
     state := s; cooldownEnd := cooldownEnd b; frame := fr;
     frameTimer := frameTimer b; animationSpeed := animationSpeed b;
     fillLevel := fl |}.

(** The animation clock at the head of [update]. *)
Definition tickFrame (deltaTime : Q) (b : t) : t :=
  let ft := (frameTimer b + deltaTime)%Q in
  {| type := type b; index := index b; x := x b; y := y b;
     state := state b; cooldownEnd := cooldownEnd b;
     frame := if Qleb (animationSpeed b) ft then frame b + 1 else frame b;
     frameTimer := if Qleb (animationSpeed b) ft then 0 else ft;
     animationSpeed := animationSpeed b;
     fillLevel := fillLevel b |}.

(** [update(deltaTime)]; [now] is the clock of this update, for each of its
    reads. *)
Definition update (deltaTime : Q) (now : Z) (b0 : t) : t :=
  let b := tickFrame deltaTime b0 in
  match state b with
  | POURING =>
      let fl := Math_max 0 (fillLevel b - deltaTime / 300)%Q in
      if Qleb fl 0 then with_state EMPTY 0 fl b
      else with_state POURING (frame b) fl b
  | EMPTY =>
      if isOnCooldown now b then with_state REFILLING 0 (fillLevel b) b
      else b
  | REFILLING =>
      let fl := getCooldownProgress now now b in
      if negb (isOnCooldown now b) then with_state B_IDLE 0 1 b
      else with_state REFILLING (frame b) fl b
  | B_IDLE => b
  end.

(** [containsPoint(px, py)]. *)
Definition containsPoint (px py : Q) (b : t) : bool :=
  Qleb (x b) px && Qleb px (x b + 64)%Q &&
  Qleb (y b) py && Qleb py (y b + 96)%Q.

End Bottle.

(** ** Customer.js *)

Module Customer.

(** The [options] of the constructor; an absent string option is the empty
    string, which [||] treats like [undefined]. *)
Record Options : Type := mkOptions {
  o_typeIndex : option nat;
  o_name : string;
  o_message : text;
  o_phone : string;
  o_isReal : bool
}.

Definition noOptions : Options := mkOptions None EmptyString [] EmptyString false.

(** The values [Math.random()] yields in one constructor call. *)
Record Random : Type := mkRandom {
  r_type : nat;
  r_name : nat;
  r_message : nat
}.

Record t : Type := mk {
  id : nat;
  type : CustomerType;
  name : string;
  message : text;
  phone : string;
  isReal : bool;
  x : Q;
  y : Q;
  targetX : option Q;
  slotIndex : option nat;
  state : CUSTOMER_STATES;
  patience : Q;
  maxPatience : Q;
  arrivedAt : Z;
  frame : Z;
  frameTimer : Q;
  animationSpeed : Q;
  isServed : bool;
  isLeaving : bool;
  isRemovable : bool;
  scale : Q;
  alpha : Q;
  shakeOffset : Q;
  (** set by [Game.update]; absent, hence falsy, until then *)
  countedAsLost : bool
}.

(** [new Customer(options)]; [counter] is the module's [customerIdCounter],
    returned incremented. *)
Definition new (options : Options) (rnd : Random) (now : Z) (counter : nat)
  : t * nat :=
  let id' := S counter in
  let typeIndex :=
    match o_typeIndex options with
    | Some i => i
    | None => random_index (r_type rnd) (length CUSTOMER_TYPES)
    end in
  let ty := nth typeIndex CUSTOMER_TYPES (mkCustomerType EmptyString 0 0) in
  ({| id := id';
      type := ty;
      name := str_or (o_name options)
                (nth (random_index (r_name rnd) (length DEMO_NAMES)) DEMO_NAMES EmptyString);
      message := text_or (o_message options)
                (nth (random_index (r_message rnd) (length DEMO_MESSAGES))
                     DEMO_MESSAGES []);
      phone := str_or (o_phone options) (String.append "demo_"%string (string_of_nat id'));
      isReal := o_isReal options;
      x := POSITIONS.CUSTOMER_SPAWN_X;
      y := (POSITIONS.BAR_Y - 120)%Q;
      targetX := None;
      slotIndex := None;
      state := WALKING_IN;
      patience := ct_patience ty;
      maxPatience := ct_patience ty;
      arrivedAt := now;
      frame := 0;
      frameTimer := 0;
      animationSpeed := 150;
      isServed := false;
      isLeaving := false;
      isRemovable := false;
      scale := 1;
      alpha := 1;
      shakeOffset := 0;
      countedAsLost := false |},
   id').

(** Field writes. *)
Definition set_slot (i : nat) (tx : option Q) (c : t) : t :=
  mk (id c) (type c) (name c) (message c) (phone c) (isReal c) (x c) (y c)
     tx (Some i) (state c) (patience c) (maxPatience c) (arrivedAt c)
     (frame c) (frameTimer c) (animationSpeed c) (isServed c) (isLeaving c)
     (isRemovable c) (scale c) (alpha c) (shakeOffset c) (countedAsLost c).

Definition set_anim (fr : Z) (ft : Q) (c : t) : t :=
  mk (id c) (type c) (name c) (message c) (phone c) (isReal c) (x c) (y c)
     (targetX c) (slotIndex c) (state c) (patience c) (maxPatience c)
     (arrivedAt c) fr ft (animationSpeed c) (isServed c) (isLeaving c)
     (isRemovable c) (scale c) (alpha c) (shakeOffset c) (countedAsLost c).

Definition set_x (x' : Q) (c : t) : t :=
  mk (id c) (type c) (name c) (message c) (phone c) (isReal c) x' (y c)
     (targetX c) (slotIndex c) (state c) (patience c) (maxPatience c)
     (arrivedAt c) (frame c) (frameTimer c) (animationSpeed c) (isServed c)
     (isLeaving c) (isRemovable c) (scale c) (alpha c) (shakeOffset c)
     (countedAsLost c).

(** [state], [frame] and [animationSpeed] are written together at every
    transition. *)
Definition set_state (s : CUSTOMER_STATES) (fr : Z) (speed : Q) (c : t) : t :=
  mk (id c) (type c) (name c) (message c) (phone c) (isReal c) (x c) (y c)
     (targetX c) (slotIndex c) s (patience c) (maxPatience c)
     (arrivedAt c) fr (frameTimer c) speed (isServed c)
     (isLeaving c) (isRemovable c) (scale c) (alpha c) (shakeOffset c)
     (countedAsLost c).

Definition set_patience (p : Q) (c : t) : t :=
  mk (id c) (type c) (name c) (message c) (phone c) (isReal c) (x c) (y c)
     (targetX c) (slotIndex c) (state c) p (maxPatience c)
     (arrivedAt c) (frame c) (frameTimer c) (animationSpeed c) (isServed c)
     (isLeaving c) (isRemovable c) (scale c) (alpha c) (shakeOffset c)
     (countedAsLost c).

Definition set_isServed (b : bool) (c : t) : t :=
  mk (id c) (type c) (name c) (message c) (phone c) (isReal c) (x c) (y c)
     (targetX c) (slotIndex c) (state c) (patience c) (maxPatience c)
     (arrivedAt c) (frame c) (frameTimer c) (animationSpeed c) b
     (isLeaving c) (isRemovable c) (scale c) (alpha c) (shakeOffset c)
     (countedAsLost c).

Definition set_isLeaving (b : bool) (c : t) : t :=
  mk (id c) (type c) (name c) (message c) (phone c) (isReal c) (x c) (y c)
     (targetX c) (slotIndex c) (state c) (patience c) (maxPatience c)
     (arrivedAt c) (frame c) (frameTimer c) (animationSpeed c) (isServed c)
     b (isRemovable c) (scale c) (alpha c) (shakeOffset c)
     (countedAsLost c).

Definition set_isRemovable (b : bool) (c : t) : t :=
  mk (id c) (type c) (name c) (message c) (phone c) (isReal c) (x c) (y c)
     (targetX c) (slotIndex c) (state c) (patience c) (maxPatience c)
     (arrivedAt c) (frame c) (frameTimer c) (animationSpeed c) (isServed c)
     (isLeaving c) b (scale c) (alpha c) (shakeOffset c)
     (countedAsLost c).

Definition set_alpha (a : Q) (c : t) : t :=
  mk (id c) (type c) (name c) (message c) (phone c) (isReal c) (x c) (y c)
     (targetX c) (slotIndex c) (state c) (patience c) (maxPatience c)
     (arrivedAt c) (frame c) (frameTimer c) (animationSpeed c) (isServed c)
     (isLeaving c) (isRemovable c) (scale c) a (shakeOffset c)
     (countedAsLost c).

Definition set_shakeOffset (s : Q) (c : t) : t :=
  mk (id c) (type c) (name c) (message c) (phone c) (isReal c) (x c) (y c)
     (targetX c) (slotIndex c) (state c) (patience c) (maxPatience c)
     (arrivedAt c) (frame c) (frameTimer c) (animationSpeed c) (isServed c)
     (isLeaving c) (isRemovable c) (scale c) (alpha c) s
     (countedAsLost c).

Definition set_countedAsLost (b : bool) (c : t) : t :=
  mk (id c) (type c) (name c) (message c) (phone c) (isReal c) (x c) (y c)
     (targetX c) (slotIndex c) (state c) (patience c) (maxPatience c)
     (arrivedAt c) (frame c) (frameTimer c) (animationSpeed c) (isServed c)
     (isLeaving c) (isRemovable c) (scale c) (alpha c) (shakeOffset c) b.

Definition assignSlot (i : nat) (c : t) : t :=
  set_slot i (nth_error POSITIONS.CUSTOMER_SLOTS i) c.

Definition getPatiencePercent (c : t) : Q :=
  Double.mul (Double.div (patience c) (maxPatience c)) 100.

Definition stormOff (c : t) : t :=
  if isLeaving c then c
  else set_state STORMING_OFF 0 80 (set_isLeaving true c).

Definition serve (c : t) : bool * t :=
  if isServed c || isLeaving c then (false, c)
  else (true, set_state HAPPY 0 150 (set_isServed true c)).

Definition updateWalkingIn (deltaTime : Q) (c : t) : t :=
  match targetX c with
  | None => c
  | Some tx =>
      let speed := (ct_walkSpeed (type c) * (deltaTime / 16))%Q in
      let c1 := set_x (x c - speed * 3)%Q c in
      if Qleb (x c1) tx
      then set_state IDLE 0 (animationSpeed c1) (set_x tx c1)
      else c1
  end.

Definition updateWaiting (deltaTime difficulty : Q) (c : t) : t :=
  let decayRate :=
    Double.mul (Double.mul GAME_CONFIG.PATIENCE_DECAY_RATE difficulty)
               (Double.div deltaTime 1000) in
  let c1 := set_patience (Math_max 0 (Double.sub (patience c) decayRate)) c in
  let patiencePercent := Double.mul (Double.div (patience c1) (maxPatience c1)) 100 in
  if Qleb patiencePercent 0 then stormOff c1
  else if Qltb patiencePercent 25 && negb (customer_state_eqb (state c1) ANGRY)
  then set_state ANGRY 0 100 c1
  else if Qltb patiencePercent 50 && customer_state_eqb (state c1) IDLE
  then set_state IMPATIENT 0 150 c1
  else c1.

Definition updateHappy (deltaTime : Q) (c : t) : t :=
  if 3 <=? frame c
  then set_isLeaving true (set_state WALKING_OUT 0 (animationSpeed c) c)
  else c.

Definition updateLeaving (deltaTime : Q) (c : t) : t :=
  let speed := (ct_walkSpeed (type c) * (deltaTime / 16))%Q in
  let c1 :=
    if customer_state_eqb (state c) WALKING_OUT
    then set_alpha (Math_max 0 (alpha c - 0.01)%Q) (set_x (x c - speed * 2)%Q c)
    else set_x (x c + speed * 4)%Q c in
  if Qltb (x c1) POSITIONS.CUSTOMER_EXIT_X
     || Qltb POSITIONS.CUSTOMER_SPAWN_X (x c1)
  then set_isRemovable true c1
  else c1.

(** The animation clock at the head of [update]. *)
Definition tickFrame (deltaTime : Q) (c : t) : t :=
  let ft := (frameTimer c + deltaTime)%Q in
  if Qleb (animationSpeed c) ft then set_anim (frame c + 1) 0 c
  else set_anim (frame c) ft c.

(** [update(deltaTime, difficulty)]; [rnd] is the value of [Math.random()]
    read by the shake effect. *)
Definition update (rnd : Q) (deltaTime difficulty : Q) (c0 : t) : t :=
  let c := tickFrame deltaTime c0 in
  let c1 :=
    match state c with
    | WALKING_IN => updateWalkingIn deltaTime c
    | IDLE | IMPATIENT | ANGRY => updateWaiting deltaTime difficulty c
    | HAPPY => updateHappy deltaTime c
    | WALKING_OUT | STORMING_OFF => updateLeaving deltaTime c
    end in
  if customer_state_eqb (state c1) ANGRY
  then set_shakeOffset ((rnd - 0.5) * 6)%Q c1
  else set_shakeOffset 0 c1.

(** [containsPoint(px, py)]. *)
Definition containsPoint (px py : Q) (c : t) : bool :=
  Qleb (x c - 40)%Q px && Qleb px (x c - 40 + 80)%Q &&
  Qleb (y c) py && Qleb py (y c + 120)%Q.

End Customer.

(** ** Game.js *)

Module Game.

Inductive State : Type := menu | playing | paused | gameover.

Definition state_eqb (a b : State) : bool :=
  match a, b with
  | menu, menu | playing, playing | paused, paused | gameover, gameover => true
  | _, _ => false
  end.

(** A record of [fetchIncomingMessages]; an absent string is empty. *)
Record ApiMessage : Type := mkApiMessage {
  m_id : string;
  m_phone : string;
  m_message : text;
  m_sender_name : string
}.

(** An entry of [pendingRealMessages]. *)
Record Pending : Type := mkPending {
  p_name : string;
  p_message : text;
  p_phone : string;
  p_isReal : bool;
  p_messageId : string
}.

(** What one call of [update] reads from outside the game: the frame's
    delta, the clock, and the random source ([shake] by customer id). *)
Record TickInput : Type := mkTickInput {
  deltaTime : Q;
  now : Z;
  rnd : Customer.Random;
  shake : nat -> Q
}.

Record t : Type := mk {
  state : State;
  score : Z;
  customersServed : Z;
  customersLost : Z;
  comboCount : Z;
  maxCombo : Z;
  difficulty : Q;
  lastSpawnTime : Q;
  comboTimer : Q;
  customers : list Customer.t;
  bottles : list Bottle.t;
  customerSlots : list (option nat);
  selectedBottleIndex : option nat;
  muted : bool;
  demoMode : bool;
  lastApiPoll : Q;
  apiPollInterval : Q;
  pendingRealMessages : list Pending;
  (** [customerIdCounter], the module variable of Customer.js *)
  customerIdCounter : nat;
  (** customers dropped from [customers] that a suspended
      [serveCustomer] may still hold *)
  detached : list Customer.t;
  (** calls of [pollIncomingMessages] suspended at their [await] *)
  pollsInFlight : nat;
  (** calls of [serveCustomer] suspended at their [await]: the id of
      the customer and the index of the bottle each one holds *)
  servesInFlight : list (nat * nat)
}.

(** Field writes. *)
Definition set_state (v : State) (g : t) : t :=
  mk v (score g) (customersServed g) (customersLost g) (comboCount g)
     (maxCombo g) (difficulty g) (lastSpawnTime g) (comboTimer g)
     (customers g) (bottles g) (customerSlots g) (selectedBottleIndex g)
     (muted g) (demoMode g) (lastApiPoll g) (apiPollInterval g)
     (pendingRealMessages g) (customerIdCounter g) (detached g)
     (pollsInFlight g) (servesInFlight g).

Definition set_score (v : Z) (g : t) : t :=
  mk (state g) v (customersServed g) (customersLost g) (comboCount g)
     (maxCombo g) (difficulty g) (lastSpawnTime g) (comboTimer g)
     (customers g) (bottles g) (customerSlots g) (selectedBottleIndex g)
     (muted g) (demoMode g) (lastApiPoll g) (apiPollInterval g)
     (pendingRealMessages g) (customerIdCounter g) (detached g)
     (pollsInFlight g) (servesInFlight g).

Definition set_customersServed (v : Z) (g : t) : t :=
  mk (state g) (score g) v (customersLost g) (comboCount g) (maxCombo g)
     (difficulty g) (lastSpawnTime g) (comboTimer g) (customers g)
     (bottles g) (customerSlots g) (selectedBottleIndex g) (muted g)
     (demoMode g) (lastApiPoll g) (apiPollInterval g)
     (pendingRealMessages g) (customerIdCounter g) (detached g)
     (pollsInFlight g) (servesInFlight g).

Definition set_customersLost (v : Z) (g : t) : t :=
  mk (state g) (score g) (customersServed g) v (comboCount g) (maxCombo g)
     (difficulty g) (lastSpawnTime g) (comboTimer g) (customers g)
     (bottles g) (customerSlots g) (selectedBottleIndex g) (muted g)
     (demoMode g) (lastApiPoll g) (apiPollInterval g)
     (pendingRealMessages g) (customerIdCounter g) (detached g)
     (pollsInFlight g) (servesInFlight g).

Definition set_comboCount (v : Z) (g : t) : t :=
  mk (state g) (score g) (customersServed g) (customersLost g) v
     (maxCombo g) (difficulty g) (lastSpawnTime g) (comboTimer g)
     (customers g) (bottles g) (customerSlots g) (selectedBottleIndex g)
     (muted g) (demoMode g) (lastApiPoll g) (apiPollInterval g)
     (pendingRealMessages g) (customerIdCounter g) (detached g)
     (pollsInFlight g) (servesInFlight g).

Definition set_maxCombo (v : Z) (g : t) : t :=
  mk (state g) (score g) (customersServed g) (customersLost g)
     (comboCount g) v (difficulty g) (lastSpawnTime g) (comboTimer g)
     (customers g) (bottles g) (customerSlots g) (selectedBottleIndex g)
     (muted g) (demoMode g) (lastApiPoll g) (apiPollInterval g)
     (pendingRealMessages g) (customerIdCounter g) (detached g)
     (pollsInFlight g) (servesInFlight g).

Definition set_difficulty (v : Q) (g : t) : t :=
  mk (state g) (score g) (customersServed g) (customersLost g)
     (comboCount g) (maxCombo g) v (lastSpawnTime g) (comboTimer g)
     (customers g) (bottles g) (customerSlots g) (selectedBottleIndex g)
     (muted g) (demoMode g) (lastApiPoll g) (apiPollInterval g)
     (pendingRealMessages g) (customerIdCounter g) (detached g)
     (pollsInFlight g) (servesInFlight g).

Definition set_lastSpawnTime (v : Q) (g : t) : t :=
  mk (state g) (score g) (customersServed g) (customersLost g)
     (comboCount g) (maxCombo g) (difficulty g) v (comboTimer g)
     (customers g) (bottles g) (customerSlots g) (selectedBottleIndex g)
     (muted g) (demoMode g) (lastApiPoll g) (apiPollInterval g)
     (pendingRealMessages g) (customerIdCounter g) (detached g)
     (pollsInFlight g) (servesInFlight g).

Definition set_comboTimer (v : Q) (g : t) : t :=
  mk (state g) (score g) (customersServed g) (customersLost g)
     (comboCount g) (maxCombo g) (difficulty g) (lastSpawnTime g) v
     (customers g) (bottles g) (customerSlots g) (selectedBottleIndex g)
     (muted g) (demoMode g) (lastApiPoll g) (apiPollInterval g)
     (pendingRealMessages g) (customerIdCounter g) (detached g)
     (pollsInFlight g) (servesInFlight g).

Definition set_customers (v : list Customer.t) (g : t) : t :=
  mk (state g) (score g) (customersServed g) (customersLost g)
     (comboCount g) (maxCombo g) (difficulty g) (lastSpawnTime g)
     (comboTimer g) v (bottles g) (customerSlots g) (selectedBottleIndex g)
     (muted g) (demoMode g) (lastApiPoll g) (apiPollInterval g)
     (pendingRealMessages g) (customerIdCounter g) (detached g)
     (pollsInFlight g) (servesInFlight g).

Definition set_bottles (v : list Bottle.t) (g : t) : t :=
  mk (state g) (score g) (customersServed g) (customersLost g)
     (comboCount g) (maxCombo g) (difficulty g) (lastSpawnTime g)
     (comboTimer g) (customers g) v (customerSlots g)
     (selectedBottleIndex g) (muted g) (demoMode g) (lastApiPoll g)
     (apiPollInterval g) (pendingRealMessages g) (customerIdCounter g)
     (detached g) (pollsInFlight g) (servesInFlight g).

Definition set_customerSlots (v : list (option nat)) (g : t) : t :=
  mk (state g) (score g) (customersServed g) (customersLost g)
     (comboCount g) (maxCombo g) (difficulty g) (lastSpawnTime g)
     (comboTimer g) (customers g) (bottles g) v (selectedBottleIndex g)
     (muted g) (demoMode g) (lastApiPoll g) (apiPollInterval g)
     (pendingRealMessages g) (customerIdCounter g) (detached g)
     (pollsInFlight g) (servesInFlight g).

Definition set_selectedBottleIndex (v : option nat) (g : t) : t :=
  mk (state g) (score g) (customersServed g) (customersLost g)
     (comboCount g) (maxCombo g) (difficulty g) (lastSpawnTime g)
     (comboTimer g) (customers g) (bottles g) (customerSlots g) v (muted g)
     (demoMode g) (lastApiPoll g) (apiPollInterval g)
     (pendingRealMessages g) (customerIdCounter g) (detached g)
     (pollsInFlight g) (servesInFlight g).

Definition set_muted (v : bool) (g : t) : t :=
  mk (state g) (score g) (customersServed g) (customersLost g)
     (comboCount g) (maxCombo g) (difficulty g) (lastSpawnTime g)
     (comboTimer g) (customers g) (bottles g) (customerSlots g)
     (selectedBottleIndex g) v (demoMode g) (lastApiPoll g)
     (apiPollInterval g) (pendingRealMessages g) (customerIdCounter g)
     (detached g) (pollsInFlight g) (servesInFlight g).

Definition set_demoMode (v : bool) (g : t) : t :=
  mk (state g) (score g) (customersServed g) (customersLost g)
     (comboCount g) (maxCombo g) (difficulty g) (lastSpawnTime g)
     (comboTimer g) (customers g) (bottles g) (customerSlots g)
     (selectedBottleIndex g) (muted g) v (lastApiPoll g) (apiPollInterval g)
     (pendingRealMessages g) (customerIdCounter g) (detached g)
     (pollsInFlight g) (servesInFlight g).

Definition set_lastApiPoll (v : Q) (g : t) : t :=
  mk (state g) (score g) (customersServed g) (customersLost g)
     (comboCount g) (maxCombo g) (difficulty g) (lastSpawnTime g)
     (comboTimer g) (customers g) (bottles g) (customerSlots g)
     (selectedBottleIndex g) (muted g) (demoMode g) v (apiPollInterval g)
     (pendingRealMessages g) (customerIdCounter g) (detached g)
     (pollsInFlight g) (servesInFlight g).

Definition set_apiPollInterval (v : Q) (g : t) : t :=
  mk (state g) (score g) (customersServed g) (customersLost g)
     (comboCount g) (maxCombo g) (difficulty g) (lastSpawnTime g)
     (comboTimer g) (customers g) (bottles g) (customerSlots g)
     (selectedBottleIndex g) (muted g) (demoMode g) (lastApiPoll g) v
     (pendingRealMessages g) (customerIdCounter g) (detached g)
     (pollsInFlight g) (servesInFlight g).

Definition set_pendingRealMessages (v : list Pending) (g : t) : t :=
  mk (state g) (score g) (customersServed g) (customersLost g)
     (comboCount g) (maxCombo g) (difficulty g) (lastSpawnTime g)
     (comboTimer g) (customers g) (bottles g) (customerSlots g)
     (selectedBottleIndex g) (muted g) (demoMode g) (lastApiPoll g)
     (apiPollInterval g) v (customerIdCounter g) (detached g)
     (pollsInFlight g) (servesInFlight g).

Definition set_customerIdCounter (v : nat) (g : t) : t :=
  mk (state g) (score g) (customersServed g) (customersLost g)
     (comboCount g) (maxCombo g) (difficulty g) (lastSpawnTime g)
     (comboTimer g) (customers g) (bottles g) (customerSlots g)
     (selectedBottleIndex g) (muted g) (demoMode g) (lastApiPoll g)
     (apiPollInterval g) (pendingRealMessages g) v (detached g)
     (pollsInFlight g) (servesInFlight g).

Definition set_detached (v : list Customer.t) (g : t) : t :=
  mk (state g) (score g) (customersServed g) (customersLost g)
     (comboCount g) (maxCombo g) (difficulty g) (lastSpawnTime g)
     (comboTimer g) (customers g) (bottles g) (customerSlots g)
     (selectedBottleIndex g) (muted g) (demoMode g) (lastApiPoll g)
     (apiPollInterval g) (pendingRealMessages g) (customerIdCounter g) v
     (pollsInFlight g) (servesInFlight g).

Definition set_pollsInFlight (v : nat) (g : t) : t :=
  mk (state g) (score g) (customersServed g) (customersLost g)
     (comboCount g) (maxCombo g) (difficulty g) (lastSpawnTime g)
     (comboTimer g) (customers g) (bottles g) (customerSlots g)
     (selectedBottleIndex g) (muted g) (demoMode g) (lastApiPoll g)
     (apiPollInterval g) (pendingRealMessages g) (customerIdCounter g)
     (detached g) v (servesInFlight g).

Definition set_servesInFlight (v : list (nat * nat)) (g : t) : t :=
  mk (state g) (score g) (customersServed g) (customersLost g)
     (comboCount g) (maxCombo g) (difficulty g) (lastSpawnTime g)
     (comboTimer g) (customers g) (bottles g) (customerSlots g)
     (selectedBottleIndex g) (muted g) (demoMode g) (lastApiPoll g)
     (apiPollInterval g) (pendingRealMessages g) (customerIdCounter g)
     (detached g) (pollsInFlight g) v.
(** [new Game(canvas)] followed by the bottle creation of [init]. *)
Definition new : t :=
  {| state := menu;
     score := 0; customersServed := 0; customersLost := 0;
     comboCount := 0; maxCombo := 0; difficulty := 1;
     lastSpawnTime := 0; comboTimer := 0;
     customers := [];
     bottles := map (fun p => Bottle.new (snd p) (fst p))
                    (combine (seq 0 (length BOTTLE_TYPES)) BOTTLE_TYPES);
     customerSlots := repeat None GAME_CONFIG.MAX_CUSTOMERS;
     selectedBottleIndex := None;
     muted := false;
     demoMode := true;
     lastApiPoll := 0; apiPollInterval := 3000;
     pendingRealMessages := [];
     customerIdCounter := O;
     detached := [];
     pollsInFlight := O;
     servesInFlight := [] |}.

Definition gameOver (g : t) : t := set_state gameover g.

(** *** update, step by step *)

Definition updateComboTimer (dt : Q) (g : t) : t :=
  if 0 <? comboCount g then
    let g1 := set_comboTimer (comboTimer g - dt)%Q g in
    if Qleb (comboTimer g1) 0 then set_comboCount 0 g1 else g1
  else g.

(** [pollIncomingMessages()] up to its [await]. *)
Definition pollIncomingMessages (g : t) : t :=
  if demoMode g then g else set_pollsInFlight (S (pollsInFlight g)) g.

Definition isNull (slot : option nat) : bool :=
  match slot with None => true | Some _ => false end.

Definition phoneIs (p : string) (q : string) : bool := String.eqb q p.

(** The body of the [for] loop of [pollIncomingMessages]. *)
Definition enqueueMessage (g : t) (msg : ApiMessage) : t :=
  let alreadyExists :=
    existsb (fun c => phoneIs (m_phone msg) (Customer.phone c)) (customers g)
    || existsb (fun m => phoneIs (m_phone msg) (p_phone m))
               (pendingRealMessages g) in
  if negb alreadyExists then
    set_pendingRealMessages
      (pendingRealMessages g ++
       [ {| p_name := str_or (m_sender_name msg) (m_phone msg);
            p_message := text_or (substring 50 (m_message msg))
                                 (utf16 "New message");
            p_phone := m_phone msg;
            p_isReal := true;
            p_messageId := m_id msg |} ]) g
  else g.

(** [pollIncomingMessages()] from its [await] on, with the [result] of
    [fetchIncomingMessages]. *)
Definition pollIncomingMessages_resume
    (success : bool) (messages : list ApiMessage) (g : t) : t :=
  match pollsInFlight g with
  | O => g
  | S n =>
      let g1 := set_pollsInFlight n g in
      if success && negb (Nat.eqb (length messages) 0)
      then fold_left enqueueMessage messages g1
      else g1
  end.

Definition updateApiPoll (dt : Q) (g : t) : t :=
  let g1 := set_lastApiPoll (lastApiPoll g + dt)%Q g in
  if negb (demoMode g1) && Qleb (apiPollInterval g1) (lastApiPoll g1)
  then pollIncomingMessages (set_lastApiPoll 0 g1)
  else g1.

Definition spawnCustomer (rnd : Customer.Random) (now : Z) (g : t) : t :=
  match findIndex isNull (customerSlots g) with
  | None => g
  | Some emptySlotIndex =>
      let '(options, queue) :=
        match pendingRealMessages g with
        | msgData :: rest =>
            (Customer.mkOptions None (p_name msgData) (p_message msgData)
               (p_phone msgData) true, rest)
        | [] => (Customer.noOptions, [])
        end in
      let '(customer0, counter) :=
        Customer.new options rnd now (customerIdCounter g) in
      let customer := Customer.assignSlot emptySlotIndex customer0 in
      set_customers (customers g ++ [customer])
        (set_customerSlots
           (array_set (customerSlots g) emptySlotIndex
                      (Some (Customer.id customer)))
           (set_customerIdCounter counter
              (set_pendingRealMessages queue g)))
  end.

Definition spawnInterval (g : t) : Q :=
  Math_max GAME_CONFIG.MIN_SPAWN_INTERVAL
           (GAME_CONFIG.BASE_SPAWN_INTERVAL / difficulty g)%Q.

Definition updateSpawn (inp : TickInput) (g : t) : t :=
  let g1 := set_lastSpawnTime (lastSpawnTime g + deltaTime inp)%Q g in
  if Qleb (spawnInterval g1) (lastSpawnTime g1)
  then spawnCustomer (rnd inp) (now inp) (set_lastSpawnTime 0 g1)
  else g1.

Definition updateCustomers (inp : TickInput) (g : t) : t :=
  set_customers
    (map (fun c => Customer.update (shake inp (Customer.id c))
                     (deltaTime inp) (difficulty g) c)
         (customers g)) g.

(** The loop "check for customers who left angry": [cs] are the customers
    still to visit; the visited ones are returned with their mark. *)
Fixpoint checkLost (cs : list Customer.t) (g : t) : list Customer.t * t :=
  match cs with
  | [] => ([], g)
  | c :: rest =>
      if customer_state_eqb (Customer.state c) STORMING_OFF
         && negb (Customer.countedAsLost c)
      then
        let c' := Customer.set_countedAsLost true c in
        let g1 := set_comboCount 0
                    (set_customersLost (customersLost g + 1) g) in
        let g2 := if GAME_CONFIG.MAX_LOST <=? customersLost g1
                  then gameOver g1 else g1 in
        let '(rest', g3) := checkLost rest g2 in
        (c' :: rest', g3)
      else
        let '(rest', g') := checkLost rest g in
        (c :: rest', g')
  end.

Definition updateLost (g : t) : t :=
  let '(cs, g1) := checkLost (customers g) g in
  set_customers cs g1.

(** The [filter] that drops removable customers and frees their slots;
    returns the customers kept, the slots, and the customers dropped. *)
Fixpoint removeFinished (cs : list Customer.t) (slots : list (option nat))
  : list Customer.t * list (option nat) * list Customer.t :=
  match cs with
  | [] => ([], slots, [])
  | c :: rest =>
      if Customer.isRemovable c then
        let slots1 :=
          match Customer.slotIndex c with
          | Some i => array_set slots i None
          | None => slots
          end in
        let '(kept, slots2, dropped) := removeFinished rest slots1 in
        (kept, slots2, c :: dropped)
      else
        let '(kept, slots2, dropped) := removeFinished rest slots in
        (c :: kept, slots2, dropped)
  end.

Definition updateRemove (g : t) : t :=
  let '(kept, slots, dropped) :=
    removeFinished (customers g) (customerSlots g) in
  set_customers kept
    (set_customerSlots slots (set_detached (detached g ++ dropped) g)).

Definition updateBottles (inp : TickInput) (g : t) : t :=
  set_bottles (map (Bottle.update (deltaTime inp) (now inp)) (bottles g)) g.

Definition updateDifficulty (g : t) : t :=
  if (0 <? customersServed g) && (Z.rem (customersServed g) 10 =? 0)
  then set_difficulty
         (Math_min 3 (1 + inject_Z (customersServed g) / 20)%Q) g
  else g.

Definition update (inp : TickInput) (g : t) : t :=
  if negb (state_eqb (state g) playing) then g
  else
    let g1 := updateComboTimer (deltaTime inp) g in
    let g2 := updateApiPoll (deltaTime inp) g1 in
    let g3 := updateSpawn inp g2 in
    let g4 := updateCustomers inp g3 in
    let g5 := updateLost g4 in
    let g6 := updateRemove g5 in
    let g7 := updateBottles inp g6 in
    updateDifficulty g7.

(** *** serveCustomer *)

(** The customer object with this id: in [customers], or dropped from it. *)
Definition findCustomer (cid : nat) (g : t) : option Customer.t :=
  find (fun c => Nat.eqb (Customer.id c) cid) (customers g ++ detached g).

(** [serveCustomer] from "Use the bottle" on. *)
Definition scoreServe (now : Z) (customer : Customer.t) (bi : nat) (g : t)
  : t :=
  let g1 :=
    match nth_error (bottles g) bi with
    | Some bottle =>
        set_bottles (array_set (bottles g) bi (snd (Bottle.use now bottle))) g
    | None => g
    end in
  let patienceBonus :=
    Qfloor (Double.mul (Customer.getPatiencePercent customer)
                       GAME_CONFIG.PATIENCE_BONUS_MULTIPLIER) in
  let comboBonus := comboCount g1 * GAME_CONFIG.COMBO_BONUS in
  let points := GAME_CONFIG.BASE_SCORE + patienceBonus + comboBonus in
  let g2 := set_score (score g1 + points) g1 in
  let g3 := set_customersServed (customersServed g2 + 1) g2 in
  let g4 := set_comboCount (comboCount g3 + 1) g3 in
  let g5 := set_maxCombo (Z.max (maxCombo g4) (comboCount g4)) g4 in
  set_comboTimer GAME_CONFIG.COMBO_TIMEOUT g5.

(** [serveCustomer(customer)] for the customer at position [i] of
    [customers], up to its [await] when it sends a real message, to its end
    when it does not. *)
Definition serveCustomer (now : Z) (i : nat) (g : t) : t :=
  match selectedBottleIndex g with
  | None => g
  | Some bi =>
      match nth_error (bottles g) bi, nth_error (customers g) i with
      | Some bottle, Some customer =>
          if bt_locked (Bottle.type bottle) then g
          else if Bottle.isOnCooldown now bottle then g
          else
            let '(ok, customer') := Customer.serve customer in
            if negb ok then g
            else
              let g1 := set_customers
                          (array_set (customers g) i customer') g in
              if Customer.isReal customer' && negb (demoMode g1)
              then set_servesInFlight
                     (servesInFlight g1 ++ [(Customer.id customer', bi)]) g1
              else scoreServe now customer' bi g1
      | _, _ => g
      end
  end.

Fixpoint remove_nth {A : Type} (k : nat) (l : list A) : list A :=
  match l, k with
  | [], _ => []
  | _ :: t, O => t
  | h :: t, S j => h :: remove_nth j t
  end.

(** The [k]-th suspended [serveCustomer] runs on from its [await]; what
    [sendWhatsAppMessage] answered is only logged. *)
Definition serveCustomer_resume (now : Z) (k : nat) (g : t) : t :=
  match nth_error (servesInFlight g) k with
  | None => g
  | Some (cid, bi) =>
      let g1 := set_servesInFlight (remove_nth k (servesInFlight g)) g in
      match findCustomer cid g1 with
      | Some customer => scoreServe now customer bi g1
      | None => g1
      end
  end.

(** *** The round *)

Definition resetBottle (bottle : Bottle.t) : Bottle.t :=
  {| Bottle.type := Bottle.type bottle;
     Bottle.index := Bottle.index bottle;
     Bottle.x := Bottle.x bottle;
     Bottle.y := Bottle.y bottle;
     Bottle.state := if bt_locked (Bottle.type bottle) then EMPTY else B_IDLE;
     Bottle.cooldownEnd := 0;
     Bottle.frame := Bottle.frame bottle;
     Bottle.frameTimer := Bottle.frameTimer bottle;
     Bottle.animationSpeed := Bottle.animationSpeed bottle;
     Bottle.fillLevel := if bt_locked (Bottle.type bottle) then 0 else 1 |}.

Definition startGame (g : t) : t :=
  {| state := playing;
     score := 0; customersServed := 0; customersLost := 0;
     comboCount := 0; maxCombo := 0; difficulty := 1;
     lastSpawnTime := 0;
     comboTimer := comboTimer g;
     customers := [];
     bottles := map resetBottle (bottles g);
     customerSlots := repeat None GAME_CONFIG.MAX_CUSTOMERS;
     selectedBottleIndex := None;
     muted := muted g;
     demoMode := demoMode g;
     lastApiPoll := 0;
     apiPollInterval := apiPollInterval g;
     pendingRealMessages := [];
     customerIdCounter := customerIdCounter g;
     detached := detached g ++ customers g;
     pollsInFlight := pollsInFlight g;
     servesInFlight := servesInFlight g |}.

Definition start (g : t) : t := startGame g.
Definition restart (g : t) : t := startGame g.

Definition pause (g : t) : t :=
  if state_eqb (state g) playing then set_state paused g else g.

Definition resume (g : t) : t :=
  if state_eqb (state g) paused then set_state playing g else g.

(** *** handleClick, at canvas coordinates [(x, y)] *)

Definition WIDTH : Q := 1280.

Definition onStartButton (x y : Q) : bool :=
  Qleb 550 y && Qleb y 610 &&
  Qleb (WIDTH / 2 - 125)%Q x && Qleb x (WIDTH / 2 + 125)%Q.

Definition onMuteButton (x y : Q) : bool :=
  Qleb 20 y && Qleb y 60 &&
  Qleb (WIDTH - 70)%Q x && Qleb x (WIDTH - 30)%Q.

Definition clickBottles (x y : Q) (g : t) : t :=
  fold_left
    (fun g' p =>
       let '(index, bottle) := p in
       if Bottle.containsPoint x y bottle
          && negb (bt_locked (Bottle.type bottle))
       then set_selectedBottleIndex (Some index) g'
       else g')
    (combine (seq 0 (length (bottles g))) (bottles g)) g.

Definition clickCustomers (now : Z) (x y : Q) (g : t) : t :=
  fold_left
    (fun g' i =>
       match nth_error (customers g') i with
       | Some customer =>
           if Customer.containsPoint x y customer
              && negb (Customer.isLeaving customer)
              && negb (Customer.isServed customer)
           then serveCustomer now i g'
           else g'
       | None => g'
       end)
    (seq 0 (length (customers g))) g.

Definition handleClick (now : Z) (x y : Q) (g : t) : t :=
  if state_eqb (state g) menu || state_eqb (state g) gameover then
    if onStartButton x y then startGame g else g
  else if onMuteButton x y then set_muted (negb (muted g)) g
  else if negb (state_eqb (state g) playing) then g
  else clickCustomers now x y (clickBottles x y g).

(** *** What can happen to a game *)

Inductive Event : Type :=
| ETick (inp : TickInput)
| EClick (now : Z) (x y : Q)
| EServe (now : Z) (i : nat)
| EServeResume (now : Z) (k : nat)
| EPollResume (success : bool) (messages : list ApiMessage)
| EStart
| ERestart
| EPause
| EResume
| ESetDemoMode (b : bool).

Definition step (g : t) (e : Event) : t :=
  match e with
  | ETick inp => update inp g
  | EClick now x y => handleClick now x y g
  | EServe now i => serveCustomer now i g
  | EServeResume now k => serveCustomer_resume now k g
  | EPollResume success messages =>
      pollIncomingMessages_resume success messages g
  | EStart => start g
  | ERestart => restart g
  | EPause => pause g
  | EResume => resume g
  | ESetDemoMode b => set_demoMode b g
  end.

Definition run (events : list Event) (g : t) : t := fold_left step events g.

End Game.

(** ** Customer.js, the patience meter *)

(** The levels [getPatienceLevel()] returns. *)
Inductive PatienceLevel : Type := high | medium | low | critical.

(** [getPatienceLevel()]. *)
Definition getPatienceLevel (c : Customer.t) : PatienceLevel :=
  let percent := Customer.getPatiencePercent c in
  if Qltb 70 percent then high
  else if Qltb 40 percent then medium
  else if Qltb 20 percent then low
  else critical.

(** ** api.js, the chat ids *)

Module Api.

(** [\d] of a regular expression without the unicode flag: an ASCII digit. *)
Definition is_digit (c : ascii) : bool :=
  (48 <=? nat_of_ascii c)%nat && (nat_of_ascii c <=? 57)%nat.

(** [phone.replace(/\D/g, '')]. *)
Fixpoint digits_only (s : string) : string :=
  match s with
  | EmptyString => EmptyString
  | String c t => if is_digit c then String c (digits_only t) else digits_only t
  end.

(** [s.includes(pat)]. *)
Fixpoint includes (s pat : string) : bool :=
  String.prefix pat s
  || match s with
     | EmptyString => false
     | String _ t => includes t pat
     end.

(** The chat id [sendWhatsAppMessage(phone, message)] sends to. *)
Definition chatIdOf (phone : string) : string :=
  let cleanPhone := digits_only phone in
  if includes cleanPhone "@" then cleanPhone
  else String.append cleanPhone "@c.us".

(** [isPrivateChat(chatId)]; an absent chat id is the empty string. *)
Definition isPrivateChat (chatId : string) : bool :=
  if String.eqb chatId EmptyString then false
  else if includes chatId "@g.us" then false
  else if includes chatId "@broadcast" then false
  else if includes chatId "status@" then false
  else if includes chatId "@newsletter" then false
  else includes chatId "@c.us" || includes chatId "@s.whatsapp.net".

(** [chatId.split('@')[0]], the phone [fetchIncomingMessages] reports. *)
Fixpoint phoneOf (chatId : string) : string :=
  match chatId with
  | EmptyString => EmptyString
  | String c t => if Ascii.eqb c "@" then EmptyString else String c (phoneOf t)
  end.

(** A message of a chat as WAHA lists it.  The ids are strings;
    [msg_checkedAt] is the value of [Date.now()] when the loop examines the
    message. *)
Record Message : Type := mkMessage {
  msg_id : string;
  msg_fromMe : bool;
  msg_body : text;
  msg_timestamp : Z;
  msg_checkedAt : Z
}.

(** A chat of the list of chats, with the answer to the request for its
    messages: [None] when the request fails. *)
Record Chat : Type := mkChat {
  chat_id : string;
  chat_name : string;
  chat_messages : option (list Message)
}.

(** An entry of [newMessages]. *)
Record Incoming : Type := mkIncoming {
  in_id : string;
  in_phone : string;
  in_chat_id : string;
  in_message : text;
  in_sender_name : string;
  in_timestamp : Z;
  in_is_from_me : bool
}.

(** [seenMessageIds.has(id)]; the set is the list of the ids added. *)
Definition seen_has (seen : list string) (id : string) : bool :=
  existsb (String.eqb id) seen.

(** The body of the loop over the messages of one chat, on
    [seenMessageIds] and [newMessages]. *)
Definition readMessage (chat : Chat) (st : list string * list Incoming)
    (msg : Message) : list string * list Incoming :=
  let '(seen, newMessages) := st in
  if seen_has seen (msg_id msg) then st
  else if msg_fromMe msg then st
  else if is_empty (msg_body msg) then st
  else
    let msgTime := msg_timestamp msg * 1000 in
    let fiveMinutesAgo := msg_checkedAt msg - 5 * 60 * 1000 in
    if msgTime <? fiveMinutesAgo then st
    else
      (msg_id msg :: seen,
       newMessages ++
       [ {| in_id := msg_id msg;
            in_phone := phoneOf (chat_id chat);
            in_chat_id := chat_id chat;
            in_message := msg_body msg;
            in_sender_name := str_or (chat_name chat) (phoneOf (chat_id chat));
            in_timestamp := msg_timestamp msg;
            in_is_from_me := msg_fromMe msg |} ]).

(** The body of the loop over the chats. *)
Definition readChat (st : list string * list Incoming) (chat : Chat)
  : list string * list Incoming :=
  if negb (isPrivateChat (chat_id chat)) then st
  else
    match chat_messages chat with
    | Some messages => fold_left (readMessage chat) messages st
    | None => st
    end.

(** [newMessages.sort((a, b) => b.timestamp - a.timestamp)]: the stable
    sort of the language, newest first. *)
Fixpoint insert_newest (x : Incoming) (l : list Incoming) : list Incoming :=
  match l with
  | [] => [x]
  | y :: t =>
      if in_timestamp y <=? in_timestamp x then x :: l
      else y :: insert_newest x t
  end.

Definition sort_newest_first (l : list Incoming) : list Incoming :=
  fold_right insert_newest [] l.

Record Result : Type := mkResult {
  success : bool;
  messages : list Incoming
}.

(** [fetchIncomingMessages(limit)] on the module's [demoMode] and
    [seenMessageIds], with the answer to the request for the chats ([None]
    when it fails); returns [seenMessageIds] as the call leaves it, and the
    result.  One call runs to its end before the next one starts. *)
Definition fetchIncomingMessages (limit : nat) (demoMode : bool)
    (seen : list string) (chats : option (list Chat))
  : list string * Result :=
  if demoMode then (seen, mkResult true [])
  else
    match chats with
    | None => (seen, mkResult false [])
    | Some cs =>
        let '(seen', newMessages) :=
          fold_left readChat (firstn 10 cs) (seen, []) in
        (seen', mkResult true (firstn limit (sort_newest_first newMessages)))
    end.

(** [resetMessageTracking()]: [seenMessageIds.clear()].  [lastPollTime],
    which it also writes, is read nowhere.  [startGame] of Game.js calls
    it. *)
Definition resetMessageTracking (seen : list string) : list string := [].

(** The variables of the module: [demoMode] and [seenMessageIds]. *)
Record State : Type := mkState {
  st_demoMode : bool;
  st_seen : list string
}.

(** A call that reads or writes them: [fetchIncomingMessages(limit)] with
    the answer to its request for the chats, [setDemoMode(value)] (and the
    write of [testConnection()]), [resetMessageTracking()]. *)
Inductive Call : Type :=
  | CFetch (limit : nat) (chats : option (list Chat))
  | CSetDemoMode (value : bool)
  | CReset.

Definition call (s : State) (c : Call) : State * option Result :=
  match c with
  | CFetch limit chats =>
      let r := fetchIncomingMessages limit (st_demoMode s) (st_seen s) chats in
      (mkState (st_demoMode s) (fst r), Some (snd r))
  | CSetDemoMode value => (mkState value (st_seen s), None)
  | CReset => (mkState (st_demoMode s) (resetMessageTracking (st_seen s)), None)
  end.

(** Calls one after the other, with the results of the fetches among them,
    in order. *)
Fixpoint calls (s : State) (cs : list Call) : State * list Result :=
  match cs with
  | [] => (s, [])
  | c :: rest =>
      let s1 := fst (call s c) in
      let rs := snd (calls s1 rest) in
      (fst (calls s1 rest),
       match snd (call s c) with
       | Some r => r :: rs
       | None => rs
       end)
  end.

End Api.

(** * Properties *)

(** ** Rounding to a double *)

Section DoubleFacts.

Import Double.
Local Open Scope Q_scope.

Lemma pow2_pos (e : Z) : 0 < pow2 e.
Proof. apply Qpower_0_lt. reflexivity. Qed.

Lemma pow2_add (a b : Z) : pow2 (a + b) == pow2 a * pow2 b.
Proof. apply Qpower_plus. discriminate. Qed.

Lemma pow2_inject (k : Z) : (0 <= k)%Z -> pow2 k == inject_Z (2 ^ k).
Proof. intros H. unfold pow2. rewrite Zpower_Qpower by exact H. reflexivity. Qed.

Lemma pow2_le (a b : Z) : (a <= b)%Z -> pow2 a <= pow2 b.
Proof. intros H. apply Qpower_le_compat_l; [exact H | discriminate]. Qed.

Lemma pow2_lt (a b : Z) : (a < b)%Z -> pow2 a < pow2 b.
Proof. intros H. apply Qpower_lt_compat_l; [exact H | reflexivity]. Qed.

(** A multiple of [pow2 e] is a multiple of every smaller power. *)
Lemma pow2_grid (j : Z) (e e' : Z) :
  (e' <= e)%Z ->
  inject_Z j * pow2 e == inject_Z (j * 2 ^ (e - e')) * pow2 e'.
Proof.
  intros H. rewrite inject_Z_mult, <- pow2_inject by lia.
  rewrite <- Qmult_assoc, <- pow2_add.
  replace (e - e' + e')%Z with e by lia. reflexivity.
Qed.

Lemma exponent_spec (q : Q) :
  0 < q -> pow2 (exponent q) <= q /\ q < pow2 (exponent q + 1).
Proof.
  intros Hq. destruct q as [n d].
  assert (Hn : (0 < n)%Z).
  { unfold Qlt in Hq. simpl in Hq. lia. }
  unfold exponent. cbn [Qnum Qden].
  set (a := Z.log2 n). set (b := Z.log2 (Z.pos d)).
  destruct (Z.log2_spec n Hn) as [Ha1 Ha2]. fold a in Ha1, Ha2.
  destruct (Z.log2_spec (Z.pos d) eq_refl) as [Hb1 Hb2]. fold b in Hb1, Hb2.
  assert (Ha0 : (0 <= a)%Z) by apply Z.log2_nonneg.
  assert (Hb0 : (0 <= b)%Z) by apply Z.log2_nonneg.
  assert (Hq' : n # d == inject_Z n / inject_Z (Z.pos d)) by apply Qmake_Qdiv.
  assert (Hd : 0 < inject_Z (Z.pos d)) by reflexivity.
  assert (Hup : n # d < pow2 (a - b + 1)).
  { replace (a - b + 1)%Z with ((a + 1) - b)%Z by lia.
    unfold pow2. rewrite Qpower_minus by discriminate.
    fold (pow2 (a + 1)). fold (pow2 b).
    rewrite !pow2_inject by lia. rewrite Hq'.
    apply Qlt_shift_div_l; [rewrite <- pow2_inject by lia; apply pow2_pos|].
    unfold Qdiv. rewrite <- Qmult_assoc, (Qmult_comm (/ _)), Qmult_assoc.
    apply Qlt_shift_div_r; [exact Hd|].
    rewrite <- !inject_Z_mult. rewrite <- Zlt_Qlt.
    replace (2 ^ (a + 1))%Z with (2 * 2 ^ a)%Z in * by (rewrite Z.pow_add_r by lia; lia).
    unfold Z.succ in *.
    replace (2 ^ (a + 1))%Z with (2 * 2 ^ a)%Z in * by (rewrite Z.pow_add_r by lia; lia).
    assert (0 < 2 ^ b)%Z by (apply Z.pow_pos_nonneg; lia). nia. }
  assert (Hlow : pow2 (a - b - 1) <= n # d).
  { replace (a - b - 1)%Z with (a - (b + 1))%Z by lia.
    unfold pow2. rewrite Qpower_minus by discriminate.
    fold (pow2 a). fold (pow2 (b + 1)).
    rewrite !pow2_inject by lia. rewrite Hq'.
    apply Qle_shift_div_l; [exact Hd|].
    unfold Qdiv. rewrite <- Qmult_assoc, (Qmult_comm (/ _)), Qmult_assoc.
    apply Qle_shift_div_r; [rewrite <- pow2_inject by lia; apply pow2_pos|].
    rewrite <- !inject_Z_mult. rewrite <- Zle_Qle.
    unfold Z.succ in *.
    replace (2 ^ (b + 1))%Z with (2 * 2 ^ b)%Z in * by (rewrite Z.pow_add_r by lia; lia).
    assert (0 < 2 ^ a)%Z by (apply Z.pow_pos_nonneg; lia). nia. }
  destruct (Qle_bool (pow2 (a - b)) (n # d)) eqn:E.
  - apply Qle_bool_iff in E. split; assumption.
  - assert (E' : ~ pow2 (a - b) <= n # d).
    { intros H. apply Qle_bool_iff in H. congruence. }
    apply Qnot_le_lt in E'. split; [exact Hlow|].
    replace (a - b - 1 + 1)%Z with (a - b)%Z by lia. exact E'.
Qed.

Lemma exponent_unique (q : Q) (k : Z) :
  pow2 k <= q -> q < pow2 (k + 1) -> exponent q = k.
Proof.
  intros H1 H2.
  assert (Hq : 0 < q) by (eapply Qlt_le_trans; [apply (pow2_pos k) | exact H1]).
  destruct (exponent_spec q Hq) as [E1 E2].
  destruct (Z.lt_trichotomy (exponent q) k) as [L | [L | L]]; [|exact L|]; exfalso.
  - assert (pow2 (exponent q + 1) <= pow2 k) by (apply pow2_le; lia). lra.
  - assert (pow2 (k + 1) <= pow2 (exponent q)) by (apply pow2_le; lia). lra.
Qed.

Lemma exponent_comp (q q' : Q) : 0 < q -> q == q' -> exponent q = exponent q'.
Proof.
  intros Hq E. symmetry. destruct (exponent_spec q Hq).
  apply exponent_unique; rewrite <- E; assumption.
Qed.

Lemma exponent_mono (q q' : Q) : 0 < q -> q <= q' -> (exponent q <= exponent q')%Z.
Proof.
  intros Hq L.
  destruct (exponent_spec q Hq) as [A _].
  destruct (exponent_spec q') as [_ B]; [lra|].
  assert (H : pow2 (exponent q) < pow2 (exponent q' + 1)) by lra.
  apply Qpower_lt_compat_l_inv in H; [lia | reflexivity].
Qed.

(** Rounding to an integer. *)
Lemma roundTiesToEven_cases (q : Q) :
  (roundTiesToEven q = Qfloor q /\ q - inject_Z (Qfloor q) <= 1 # 2) \/
  (roundTiesToEven q = (Qfloor q + 1)%Z /\ 1 # 2 <= q - inject_Z (Qfloor q)).
Proof.
  unfold roundTiesToEven.
  destruct (q - inject_Z (Qfloor q) ?= 1 # 2) eqn:E.
  - apply Qeq_alt in E. destruct (Z.even (Qfloor q)); [left | right]; split; auto; lra.
  - apply Qlt_alt in E. left. split; auto; lra.
  - apply Qgt_alt in E. right. split; auto; lra.
Qed.

Lemma roundTiesToEven_comp (q q' : Q) :
  q == q' -> roundTiesToEven q = roundTiesToEven q'.
Proof.
  intros E. unfold roundTiesToEven.
  rewrite (Qfloor_comp _ _ E).
  assert (H : (q - inject_Z (Qfloor q') ?= 1 # 2) = (q' - inject_Z (Qfloor q') ?= 1 # 2)).
  { apply Qcompare_comp; [rewrite E|]; reflexivity. }
  rewrite H. reflexivity.
Qed.

Lemma roundTiesToEven_Z (z : Z) : roundTiesToEven (inject_Z z) = z.
Proof.
  unfold roundTiesToEven. rewrite Qfloor_Z.
  assert (H : (inject_Z z - inject_Z z ?= 1 # 2) = Lt).
  { apply Qlt_alt. unfold Qminus. rewrite Qplus_opp_r. reflexivity. }
  rewrite H. reflexivity.
Qed.

Lemma roundTiesToEven_ge (q : Q) (z : Z) :
  inject_Z z <= q -> (z <= roundTiesToEven q)%Z.
Proof.
  intros H.
  assert (Hz : (z <= Qfloor q)%Z).
  { rewrite <- (Qfloor_Z z). apply Qfloor_resp_le. exact H. }
  destruct (roundTiesToEven_cases q) as [[-> _] | [-> _]]; lia.
Qed.

Lemma roundTiesToEven_le (q : Q) (z : Z) :
  q <= inject_Z z -> (roundTiesToEven q <= z)%Z.
Proof.
  intros H.
  pose proof (Qfloor_le q) as Hf.
  destruct (roundTiesToEven_cases q) as [[-> _] | [-> Hr]].
  - rewrite Zle_Qle. lra.
  - assert (Hlt : inject_Z (Qfloor q) < inject_Z z) by lra.
    rewrite <- Zlt_Qlt in Hlt. lia.
Qed.

Lemma roundTiesToEven_mono (q q' : Q) :
  q <= q' -> (roundTiesToEven q <= roundTiesToEven q')%Z.
Proof.
  intros H.
  assert (Hf : (Qfloor q <= Qfloor q')%Z) by (apply Qfloor_resp_le; exact H).
  destruct (Z.eq_dec (Qfloor q) (Qfloor q')) as [E | N].
  - unfold roundTiesToEven. rewrite E.
    destruct (q - inject_Z (Qfloor q') ?= 1 # 2) eqn:C1;
      destruct (q' - inject_Z (Qfloor q') ?= 1 # 2) eqn:C2;
      try (destruct (Z.even (Qfloor q'))); try lia; exfalso;
      repeat match goal with
             | H : (_ ?= _) = Eq |- _ => apply Qeq_alt in H
             | H : (_ ?= _) = Lt |- _ => apply Qlt_alt in H
             | H : (_ ?= _) = Gt |- _ => apply Qgt_alt in H
             end; lra.
  - assert (Hlt : (Qfloor q + 1 <= Qfloor q')%Z) by lia.
    pose proof (roundTiesToEven_ge q' (Qfloor q') (Qfloor_le q')).
    destruct (roundTiesToEven_cases q) as [[-> _] | [-> _]]; lia.
Qed.


Lemma ulp_exponent_min (q : Q) : (-1074 <= ulp_exponent q)%Z.
Proof. unfold ulp_exponent. lia. Qed.

Lemma ulp_exponent_mono (q q' : Q) :
  0 < q -> q <= q' -> (ulp_exponent q <= ulp_exponent q')%Z.
Proof.
  intros Hq L. pose proof (exponent_mono q q' Hq L). unfold ulp_exponent. lia.
Qed.

Lemma round_pos_eq (q : Q) :
  round_pos q ==
  inject_Z (roundTiesToEven (q / pow2 (ulp_exponent q))) * pow2 (ulp_exponent q).
Proof. unfold round_pos. cbv zeta. apply Qred_correct. Qed.

(** Rounding does not cross a multiple of a power of two that is a multiple
    of the unit in the last place. *)
Lemma round_pos_ge (q : Q) (j e : Z) :
  (ulp_exponent q <= e)%Z ->
  inject_Z j * pow2 e <= q -> inject_Z j * pow2 e <= round_pos q.
Proof.
  intros He H. rewrite round_pos_eq.
  rewrite (pow2_grid j e (ulp_exponent q) He) in *.
  apply Qmult_le_compat_r; [|apply Qlt_le_weak, pow2_pos].
  rewrite <- Zle_Qle. apply roundTiesToEven_ge.
  apply Qle_shift_div_l; [apply pow2_pos | exact H].
Qed.

Lemma round_pos_le (q : Q) (j e : Z) :
  (ulp_exponent q <= e)%Z ->
  q <= inject_Z j * pow2 e -> round_pos q <= inject_Z j * pow2 e.
Proof.
  intros He H. rewrite round_pos_eq.
  rewrite (pow2_grid j e (ulp_exponent q) He) in *.
  apply Qmult_le_compat_r; [|apply Qlt_le_weak, pow2_pos].
  rewrite <- Zle_Qle. apply roundTiesToEven_le.
  apply Qle_shift_div_r; [apply pow2_pos | exact H].
Qed.

Lemma round_pos_nonneg (q : Q) : 0 < q -> 0 <= round_pos q.
Proof.
  intros Hq.
  assert (H : inject_Z 0 * pow2 (ulp_exponent q) <= round_pos q).
  { apply round_pos_ge; [lia|]. rewrite Qmult_0_l. apply Qlt_le_weak, Hq. }
  rewrite Qmult_0_l in H. exact H.
Qed.

Lemma round_pos_comp (q q' : Q) : 0 < q -> q == q' -> round_pos q = round_pos q'.
Proof.
  intros Hq E. unfold round_pos, ulp_exponent. cbv zeta.
  rewrite <- (exponent_comp q q' Hq E).
  apply Qred_complete.
  apply Qmult_comp; [|reflexivity].
  apply inject_Z_injective. apply roundTiesToEven_comp.
  apply Qmult_comp; [exact E | reflexivity].
Qed.

Lemma round_pos_mono (q q' : Q) :
  0 < q -> q <= q' -> round_pos q <= round_pos q'.
Proof.
  intros Hq L.
  assert (Hq' : 0 < q') by lra.
  pose proof (ulp_exponent_mono q q' Hq L) as HE.
  destruct (Z.eq_dec (ulp_exponent q) (ulp_exponent q')) as [E | N].
  - rewrite !round_pos_eq, E.
    apply Qmult_le_compat_r; [|apply Qlt_le_weak, pow2_pos].
    rewrite <- Zle_Qle. apply roundTiesToEven_mono.
    apply Qmult_le_compat_r; [exact L|].
    apply Qlt_le_weak, Qinv_lt_0_compat, pow2_pos.
  - pose proof (ulp_exponent_min q) as Hmin.
    assert (Hlt : (exponent q < exponent q')%Z) by (unfold ulp_exponent in *; lia).
    assert (He' : (ulp_exponent q' <= exponent q')%Z) by (unfold ulp_exponent in *; lia).
    assert (He : (ulp_exponent q <= exponent q')%Z) by lia.
    destruct (exponent_spec q Hq) as [_ U].
    destruct (exponent_spec q' Hq') as [D _].
    assert (Hx : q <= inject_Z 1 * pow2 (exponent q')).
    { rewrite Qmult_1_l.
      assert (pow2 (exponent q + 1) <= pow2 (exponent q')) by (apply pow2_le; lia).
      lra. }
    assert (Hy : inject_Z 1 * pow2 (exponent q') <= q').
    { rewrite Qmult_1_l. exact D. }
    eapply Qle_trans.
    + apply (round_pos_le q 1 (exponent q') He Hx).
    + apply (round_pos_ge q' 1 (exponent q') He' Hy).
Qed.

(** The mantissa has at most 53 bits. *)
Lemma mantissa_bound (q : Q) :
  0 < q ->
  (0 <= roundTiesToEven (q / pow2 (ulp_exponent q)) <= 2 ^ 53)%Z.
Proof.
  intros Hq. split.
  - apply roundTiesToEven_ge.
    apply Qle_shift_div_l; [apply pow2_pos|].
    change (inject_Z 0) with 0. rewrite Qmult_0_l. apply Qlt_le_weak, Hq.
  - apply roundTiesToEven_le.
    apply Qle_shift_div_r; [apply pow2_pos|].
    rewrite <- pow2_inject by lia. rewrite <- pow2_add.
    destruct (exponent_spec q Hq) as [_ U].
    assert (pow2 (exponent q + 1) <= pow2 (53 + ulp_exponent q))
      by (apply pow2_le; unfold ulp_exponent; lia).
    lra.
Qed.

(** A mantissa of at most 53 bits at an exponent in range is a double. *)
Lemma round_pos_representable (m e : Z) :
  (0 < m <= 2 ^ 53)%Z -> (-1074 <= e)%Z ->
  round_pos (inject_Z m * pow2 e) == inject_Z m * pow2 e.
Proof.
  intros Hm He.
  set (q := inject_Z m * pow2 e).
  destruct (Z.log2_spec m) as [L1 L2]; [lia|].
  assert (L0 : (0 <= Z.log2 m)%Z) by apply Z.log2_nonneg.
  assert (Hex : exponent q = (Z.log2 m + e)%Z).
  { apply exponent_unique; subst q.
    - rewrite pow2_add, (pow2_inject (Z.log2 m)) by lia.
      apply Qmult_le_compat_r; [|apply Qlt_le_weak, pow2_pos].
      rewrite <- Zle_Qle. exact L1.
    - replace (Z.log2 m + e + 1)%Z with (Z.succ (Z.log2 m) + e)%Z by lia.
      rewrite pow2_add, (pow2_inject (Z.succ (Z.log2 m))) by lia.
      apply Qmult_lt_compat_r; [apply pow2_pos|].
      rewrite <- Zlt_Qlt. exact L2. }
  assert (Hgrid : exists j, q == inject_Z j * pow2 (ulp_exponent q)).
  { unfold ulp_exponent. rewrite Hex.
    destruct (Z_le_gt_dec (Z.log2 m) 52) as [S | B].
    - eexists. subst q. apply pow2_grid. lia.
    - assert (Hl : Z.log2 m = 53%Z).
      { assert (Z.log2 m <= Z.log2 (2 ^ 53))%Z by (apply Z.log2_le_mono; lia).
        rewrite Z.log2_pow2 in H by lia. lia. }
      rewrite Hl in *.
      assert (Hm53 : m = (2 ^ 53)%Z) by lia.
      exists (2 ^ 52)%Z. subst q. rewrite Hm53.
      replace (Z.max (53 + e - 52) (-1074)) with (1 + e)%Z by lia.
      rewrite pow2_add. rewrite Qmult_assoc.
      apply Qmult_comp; [|reflexivity].
      reflexivity. }
  destruct Hgrid as [j Hj].
  rewrite round_pos_eq.
  assert (Hdiv : q / pow2 (ulp_exponent q) == inject_Z j).
  { rewrite Hj at 1. apply Qdiv_mult_l.
    intros H. pose proof (pow2_pos (ulp_exponent q)). lra. }
  rewrite (roundTiesToEven_comp _ _ Hdiv), roundTiesToEven_Z.
  symmetry. exact Hj.
Qed.

Lemma Qnum_pos (q : Q) (p : positive) : Qnum q = Z.pos p -> 0 < q.
Proof. intros H. unfold Qlt. simpl. lia. Qed.

Lemma Qnum_neg (q : Q) (p : positive) : Qnum q = Z.neg p -> 0 < - q.
Proof. intros H. unfold Qlt. simpl. lia. Qed.

Lemma Qnum_zero (q : Q) : Qnum q = 0%Z -> q == 0.
Proof. intros H. unfold Qeq. simpl. lia. Qed.

Lemma round_comp (q q' : Q) : q == q' -> round q = round q'.
Proof.
  intros E. unfold round.
  destruct (Qnum q) eqn:N; destruct (Qnum q') eqn:N';
    try reflexivity;
    try (exfalso; unfold Qeq in E; rewrite N, N' in E; lia).
  - apply round_pos_comp; [apply (Qnum_pos _ _ N) | exact E].
  - f_equal. apply round_pos_comp; [apply (Qnum_neg _ _ N) | rewrite E; reflexivity].
Qed.

Lemma round_0 : round 0 = 0.
Proof. reflexivity. Qed.

Lemma round_nonneg (q : Q) : 0 <= q -> 0 <= round q.
Proof.
  intros H. unfold round. destruct (Qnum q) eqn:N.
  - apply Qle_refl.
  - apply round_pos_nonneg, (Qnum_pos _ _ N).
  - exfalso. pose proof (Qnum_neg _ _ N). lra.
Qed.

Lemma round_nonpos (q : Q) : q <= 0 -> round q <= 0.
Proof.
  intros H. unfold round. destruct (Qnum q) eqn:N.
  - apply Qle_refl.
  - exfalso. pose proof (Qnum_pos _ _ N). lra.
  - pose proof (round_pos_nonneg (- q) (Qnum_neg _ _ N)). lra.
Qed.

Lemma round_mono (q q' : Q) : q <= q' -> round q <= round q'.
Proof.
  intros L.
  destruct (Qlt_le_dec 0 q) as [P | NP].
  - unfold round.
    destruct (Qnum q) eqn:N;
      [pose proof (Qnum_zero _ N); lra | | pose proof (Qnum_neg _ _ N); lra].
    destruct (Qnum q') eqn:N';
      [pose proof (Qnum_zero _ N'); lra | | pose proof (Qnum_neg _ _ N'); lra].
    apply round_pos_mono; assumption.
  - destruct (Qlt_le_dec q' 0) as [P' | NP'].
    + unfold round.
      destruct (Qnum q) eqn:N;
        [pose proof (Qnum_zero _ N); lra | pose proof (Qnum_pos _ _ N); lra |].
      destruct (Qnum q') eqn:N';
        [pose proof (Qnum_zero _ N'); lra | pose proof (Qnum_pos _ _ N'); lra |].
      apply Qopp_le_compat.
      apply round_pos_mono; [apply (Qnum_neg _ _ N') | lra].
    + apply Qle_trans with 0; [apply round_nonpos | apply round_nonneg]; assumption.
Qed.

Lemma round_pos_idem (q : Q) :
  0 < q -> round (round_pos q) == round_pos q.
Proof.
  intros Hq.
  destruct (mantissa_bound q Hq) as [M0 M53].
  set (m := roundTiesToEven (q / pow2 (ulp_exponent q))) in *.
  pose proof (round_pos_eq q) as E. fold m in E.
  destruct (Z.eq_dec m 0) as [Z0 | NZ].
  - rewrite Z0 in E. change (inject_Z 0) with 0 in E. rewrite Qmult_0_l in E.
    rewrite (round_comp _ _ E). rewrite E. reflexivity.
  - rewrite (round_comp _ _ E).
    assert (P : 0 < inject_Z m * pow2 (ulp_exponent q)).
    { apply Qmult_lt_0_compat; [|apply pow2_pos].
      change 0 with (inject_Z 0). rewrite <- Zlt_Qlt. lia. }
    unfold round.
    destruct (Qnum (inject_Z m * pow2 (ulp_exponent q))) eqn:N;
      [pose proof (Qnum_zero _ N); lra | | pose proof (Qnum_neg _ _ N); lra].
    rewrite round_pos_representable; [symmetry; exact E | lia | apply ulp_exponent_min].
Qed.

#[global] Instance round_Proper : Proper (Qeq ==> Qeq) round.
Proof. intros a b E. rewrite (round_comp a b E). reflexivity. Qed.

#[global] Instance add_Proper : Proper (Qeq ==> Qeq ==> Qeq) add.
Proof. intros a a' Ha b b' Hb. unfold add. now rewrite Ha, Hb. Qed.

#[global] Instance sub_Proper : Proper (Qeq ==> Qeq ==> Qeq) sub.
Proof. intros a a' Ha b b' Hb. unfold sub. now rewrite Ha, Hb. Qed.

#[global] Instance mul_Proper : Proper (Qeq ==> Qeq ==> Qeq) mul.
Proof. intros a a' Ha b b' Hb. unfold mul. now rewrite Ha, Hb. Qed.

#[global] Instance div_Proper : Proper (Qeq ==> Qeq ==> Qeq) div.
Proof. intros a a' Ha b b' Hb. unfold div. now rewrite Ha, Hb. Qed.

Lemma round_opp (q : Q) : round (- q) == - round q.
Proof.
  unfold round. destruct q as [n d]. destruct n as [|p|p]; cbn [Qopp Qnum Z.opp].
  - reflexivity.
  - reflexivity.
  - rewrite Qopp_involutive. reflexivity.
Qed.

Lemma round_idem (q : Q) : round (round q) == round q.
Proof.
  destruct (Qnum q) eqn:N.
  - assert (R : round q = 0) by (unfold round; rewrite N; reflexivity).
    rewrite R. reflexivity.
  - assert (R : round q = round_pos q) by (unfold round; rewrite N; reflexivity).
    rewrite R. apply round_pos_idem, (Qnum_pos _ _ N).
  - assert (R : round q = - round_pos (- q)) by (unfold round; rewrite N; reflexivity).
    rewrite R, round_opp.
    rewrite (round_pos_idem (- q) (Qnum_neg _ _ N)). reflexivity.
Qed.

(** A number that rounding leaves as it is. *)
Definition is_double (q : Q) : Prop := round q == q.

Lemma round_is_double (q : Q) : is_double (round q).
Proof. apply round_idem. Qed.

Lemma is_double_Z (z : Z) : (Z.abs z <= 2 ^ 53)%Z -> is_double (inject_Z z).
Proof.
  intros H. unfold is_double.
  destruct (Z.lt_trichotomy z 0) as [L | [-> | L]].
  - setoid_replace (inject_Z z) with (- inject_Z (- z))
      by (rewrite inject_Z_opp, Qopp_involutive; reflexivity).
    rewrite round_opp. apply Qopp_comp.
    assert (P : 0 < inject_Z (- z)).
    { change 0 with (inject_Z 0). rewrite <- Zlt_Qlt. lia. }
    assert (E : inject_Z (- z) == inject_Z (- z) * pow2 0)
      by (change (pow2 0) with 1; rewrite Qmult_1_r; reflexivity).
    rewrite (round_comp _ _ E). rewrite E at 2.
    unfold round.
    destruct (Qnum (inject_Z (- z) * pow2 0)) eqn:N;
      [pose proof (Qnum_zero _ N); lra | | pose proof (Qnum_neg _ _ N); lra].
    apply round_pos_representable; lia.
  - reflexivity.
  - assert (P : 0 < inject_Z z).
    { change 0 with (inject_Z 0). rewrite <- Zlt_Qlt. lia. }
    assert (E : inject_Z z == inject_Z z * pow2 0)
      by (change (pow2 0) with 1; rewrite Qmult_1_r; reflexivity).
    rewrite (round_comp _ _ E). rewrite E at 2.
    unfold round.
    destruct (Qnum (inject_Z z * pow2 0)) eqn:N;
      [pose proof (Qnum_zero _ N); lra | | pose proof (Qnum_neg _ _ N); lra].
    apply round_pos_representable; lia.
Qed.

Lemma is_double_0 : is_double 0.
Proof. reflexivity. Qed.

Lemma round_le_double (q p : Q) : is_double p -> q <= p -> round q <= p.
Proof.
  intros Hp L. apply Qle_trans with (round p); [apply round_mono, L|].
  unfold is_double in Hp. rewrite Hp. apply Qle_refl.
Qed.

Lemma round_ge_double (q p : Q) : is_double p -> p <= q -> p <= round q.
Proof.
  intros Hp L. apply Qle_trans with (round p); [|apply round_mono, L].
  unfold is_double in Hp. rewrite Hp. apply Qle_refl.
Qed.

Lemma mul_nonneg (a b : Q) : 0 <= a -> 0 <= b -> 0 <= mul a b.
Proof. intros Ha Hb. apply round_nonneg, Qmult_le_0_compat; assumption. Qed.

Lemma div_nonneg (a b : Q) : 0 <= a -> 0 < b -> 0 <= div a b.
Proof.
  intros Ha Hb. apply round_nonneg. apply Qle_shift_div_l; [exact Hb|].
  rewrite Qmult_0_l. exact Ha.
Qed.

(** Taking away what is not negative does not raise a double. *)
Lemma sub_le (p d : Q) : is_double p -> 0 <= d -> sub p d <= p.
Proof. intros Hp Hd. apply round_le_double; [exact Hp | lra]. Qed.

End DoubleFacts.

(** ** Comparisons and [Math.max] *)

Lemma Qleb_true (a b : Q) : Qleb a b = true <-> (a <= b)%Q.
Proof. unfold Qleb. apply Qle_bool_iff. Qed.

Lemma Qleb_false (a b : Q) : Qleb a b = false <-> (b < a)%Q.
Proof.
  unfold Qleb. split; intros H.
  - apply Qnot_le_lt. intros Hle. apply Qle_bool_iff in Hle. congruence.
  - destruct (Qle_bool a b) eqn:E; [|reflexivity].
    apply Qle_bool_iff in E. exfalso. apply (Qlt_not_le _ _ H E).
Qed.

Lemma Qltb_true (a b : Q) : Qltb a b = true <-> (a < b)%Q.
Proof.
  unfold Qltb. rewrite negb_true_iff. apply (Qleb_false b a).
Qed.

Lemma Qltb_false (a b : Q) : Qltb a b = false <-> (b <= a)%Q.
Proof.
  unfold Qltb. rewrite negb_false_iff. apply (Qleb_true b a).
Qed.

Lemma Math_max_0_nonneg (a : Q) : (0 <= Math_max 0 a)%Q.
Proof.
  unfold Math_max. destruct (Qleb 0 a) eqn:E.
  - now apply Qleb_true.
  - apply Qle_refl.
Qed.

Lemma Math_max_0_le (a p : Q) : (0 <= p)%Q -> (a <= p)%Q -> (Math_max 0 a <= p)%Q.
Proof.
  intros Hp Ha. unfold Math_max. now destruct (Qleb 0 a).
Qed.

Lemma Math_max_0_pos (a : Q) : (0 < a)%Q -> Math_max 0 a = a.
Proof.
  intros Ha. unfold Math_max.
  destruct (Qleb 0 a) eqn:E; [reflexivity|].
  apply Qleb_false in E. exfalso. apply (Qlt_irrefl a). now apply Qlt_trans with 0%Q.
Qed.

(** ** The bottle *)

Section BottleProperties.

Variables (now : Z) (b : Bottle.t).

Lemma isOnCooldown_true : Bottle.isOnCooldown now b = true <-> now < Bottle.cooldownEnd b.
Proof. unfold Bottle.isOnCooldown. apply Z.ltb_lt. Qed.

Lemma isOnCooldown_false : Bottle.isOnCooldown now b = false <-> Bottle.cooldownEnd b <= now.
Proof. unfold Bottle.isOnCooldown. apply Z.ltb_ge. Qed.

Lemma use_accepted :
  fst (Bottle.use now b) = true <->
  bt_locked (Bottle.type b) = false /\ Bottle.cooldownEnd b <= now.
Proof.
  unfold Bottle.use. rewrite <- isOnCooldown_false.
  destruct (bt_locked (Bottle.type b)), (Bottle.isOnCooldown now b); simpl;
    intuition congruence.
Qed.

Lemma use_rejected : fst (Bottle.use now b) = false -> snd (Bottle.use now b) = b.
Proof.
  unfold Bottle.use.
  destruct (bt_locked (Bottle.type b) || Bottle.isOnCooldown now b); simpl;
    [reflexivity | discriminate].
Qed.

Lemma use_effect :
  fst (Bottle.use now b) = true ->
  Bottle.state (snd (Bottle.use now b)) = POURING /\
  Bottle.cooldownEnd (snd (Bottle.use now b)) = now + GAME_CONFIG.BOTTLE_COOLDOWN /\
  Bottle.fillLevel (snd (Bottle.use now b)) = 0%Q.
Proof.
  unfold Bottle.use.
  destruct (bt_locked (Bottle.type b) || Bottle.isOnCooldown now b); simpl;
    [discriminate | auto].
Qed.

Variable deltaTime : Q.

Lemma bottle_tickFrame_keeps :
  Bottle.state (Bottle.tickFrame deltaTime b) = Bottle.state b /\
  Bottle.cooldownEnd (Bottle.tickFrame deltaTime b) = Bottle.cooldownEnd b /\
  Bottle.fillLevel (Bottle.tickFrame deltaTime b) = Bottle.fillLevel b /\
  Bottle.type (Bottle.tickFrame deltaTime b) = Bottle.type b.
Proof. unfold Bottle.tickFrame; simpl; auto. Qed.

Lemma update_cooldownEnd :
  Bottle.cooldownEnd (Bottle.update deltaTime now b) = Bottle.cooldownEnd b.
Proof.
  unfold Bottle.update.
  destruct (Bottle.state (Bottle.tickFrame deltaTime b));
    repeat match goal with |- context [if ?c then _ else _] => destruct c end;
    reflexivity.
Qed.

(** What one tick does to a depleted bottle. *)
Lemma update_EMPTY :
  Bottle.state b = EMPTY ->
  Bottle.state (Bottle.update deltaTime now b) =
    if Bottle.isOnCooldown now b then REFILLING else EMPTY.
Proof.
  intros He. unfold Bottle.update.
  destruct bottle_tickFrame_keeps as (Hs & Hc & _). rewrite Hs, He.
  unfold Bottle.isOnCooldown. rewrite Hc.
  destruct (now <? Bottle.cooldownEnd b); [reflexivity|].
  rewrite He in Hs. exact Hs.
Qed.

(** What one tick does to a replenishing bottle. *)
Lemma update_REFILLING :
  Bottle.state b = REFILLING ->
  Bottle.state (Bottle.update deltaTime now b) =
    if Bottle.isOnCooldown now b then REFILLING else B_IDLE.
Proof.
  intros He. unfold Bottle.update.
  destruct bottle_tickFrame_keeps as (Hs & Hc & _). rewrite Hs, He.
  unfold Bottle.isOnCooldown. rewrite Hc.
  now destruct (now <? Bottle.cooldownEnd b).
Qed.

(** A pouring bottle whose fill is already 0 is depleted by the next tick,
    whatever its length. *)
Lemma update_POURING_drained :
  Bottle.state b = POURING -> (Bottle.fillLevel b == 0)%Q -> (0 <= deltaTime)%Q ->
  Bottle.state (Bottle.update deltaTime now b) = EMPTY.
Proof.
  intros Hp Hf Hd. unfold Bottle.update.
  destruct bottle_tickFrame_keeps as (Hs & _ & Hfl & _). rewrite Hs, Hp, Hfl.
  assert (Hm : (Math_max 0 (Bottle.fillLevel b - deltaTime / 300) <= 0)%Q).
  { apply Math_max_0_le; [apply Qle_refl|].
    rewrite Hf. assert (0 <= deltaTime / 300)%Q by (apply Qle_shift_div_l; lra). lra. }
  apply Qleb_true in Hm. now rewrite Hm.
Qed.

End BottleProperties.

(** The first unlocked bottle of the shelf, as [init] creates it. *)
Definition welcomeBottle : Bottle.t :=
  Bottle.new (mkBottleType "welcome"
                "Hey! Welcome aboard! We're excited to have you here!" false) 0.

(** The same bottle used at time 0 and then ticked once, 16 ms later: it is
    depleted and its cooldown runs until 3000. *)
Definition depletedBottle : Bottle.t :=
  Bottle.update 16 16 (snd (Bottle.use 0 welcomeBottle)).

(** C7, as the spec states it, fails: a depleted bottle ticked at time 32,
    with its cooldown pending until 3000, does not stay depleted; it enters
    the replenishing state, so the transition does not wait for the
    deadline. *)
Lemma C7_counterexample :
  ~ (forall (deltaTime : Q) (now : Z) (b : Bottle.t),
        Bottle.state b = EMPTY ->
        (now < Bottle.cooldownEnd b ->
         Bottle.state (Bottle.update deltaTime now b) = EMPTY) /\
        (Bottle.state (Bottle.update deltaTime now b) = REFILLING ->
         Bottle.cooldownEnd b <= now)).
Proof.
  intros H.
  destruct (H 16%Q 32 depletedBottle eq_refl) as [_ Hlate].
  specialize (Hlate eq_refl).
  vm_compute in Hlate. now apply Hlate.
Qed.

(** C7 (amended): for every depleted bottle, a tick moves it to replenishing
    exactly while the cooldown is still pending ([now < cooldownEnd]); once
    the deadline has passed a depleted bottle does not enter replenishing.  It
    is the replenishing bottle that waits for the deadline: it turns idle
    exactly when the deadline has passed. *)
Theorem C7_depleted_refills_while_cooling :
  forall (deltaTime : Q) (now : Z) (b : Bottle.t),
    (Bottle.state b = EMPTY ->
       (now < Bottle.cooldownEnd b <->
        Bottle.state (Bottle.update deltaTime now b) = REFILLING) /\
       (Bottle.cooldownEnd b <= now ->
        Bottle.state (Bottle.update deltaTime now b) = EMPTY)) /\
    (Bottle.state b = REFILLING ->
       (Bottle.cooldownEnd b <= now <->
        Bottle.state (Bottle.update deltaTime now b) = B_IDLE) /\
       (now < Bottle.cooldownEnd b ->
        Bottle.state (Bottle.update deltaTime now b) = REFILLING)).
Proof.
  intros deltaTime now b. split; intros Hs.
  - rewrite (update_EMPTY now b deltaTime Hs).
    rewrite <- isOnCooldown_true, <- isOnCooldown_false.
    destruct (Bottle.isOnCooldown now b); intuition congruence.
  - rewrite (update_REFILLING now b deltaTime Hs).
    rewrite <- isOnCooldown_true, <- isOnCooldown_false.
    destruct (Bottle.isOnCooldown now b); intuition congruence.
Qed.

Lemma C7_witness :
  Bottle.state depletedBottle = EMPTY /\
  32 < Bottle.cooldownEnd depletedBottle /\
  Bottle.state (Bottle.update 16 32 depletedBottle) = REFILLING.
Proof.
  split; [reflexivity|]. split; [reflexivity|].
  apply (proj1 (C7_depleted_refills_while_cooling 16 32 depletedBottle)).
  - reflexivity.
  - reflexivity.
Defined.

(** C8: evaluating the code where the claim fails.  [use()] at time 1000 on
    the full, idle, unlocked bottle is accepted and leaves the fill level at 0
    at that very moment; the first tick after it, 16 ms later, finds nothing
    to drain and moves the bottle to the depleted state. *)
Theorem C8_use_empties_at_once :
  Bottle.fillLevel welcomeBottle = 1%Q /\
  fst (Bottle.use 1000 welcomeBottle) = true /\
  Bottle.fillLevel (snd (Bottle.use 1000 welcomeBottle)) = 0%Q /\
  Bottle.state (Bottle.update 16 1016 (snd (Bottle.use 1000 welcomeBottle))) = EMPTY.
Proof. repeat split. Qed.

(** C9: for every unlocked bottle, [use()] is accepted exactly when the clock
    has reached [cooldownEnd], whatever the [state] field holds.  A bottle
    that sits in the depleted state with its cooldown expired stays depleted
    under further ticks, and still accepts [use()], which starts a new pour
    and a new cooldown. *)
Theorem C9_use_reads_the_cooldown_only :
  forall (now : Z) (b : Bottle.t),
    bt_locked (Bottle.type b) = false ->
    (fst (Bottle.use now b) = true <-> Bottle.cooldownEnd b <= now) /\
    (Bottle.state b = EMPTY -> Bottle.cooldownEnd b <= now ->
       (forall deltaTime, Bottle.state (Bottle.update deltaTime now b) = EMPTY) /\
       fst (Bottle.use now b) = true /\
       Bottle.state (snd (Bottle.use now b)) = POURING /\
       Bottle.cooldownEnd (snd (Bottle.use now b)) =
         now + GAME_CONFIG.BOTTLE_COOLDOWN).
Proof.
  intros now b Hl. split.
  - rewrite use_accepted. intuition.
  - intros He Hc.
    assert (Hu : fst (Bottle.use now b) = true) by (apply use_accepted; auto).
    split; [|split; [exact Hu|]].
    + intros deltaTime. rewrite (update_EMPTY now b deltaTime He).
      apply isOnCooldown_false in Hc. now rewrite Hc.
    + destruct (use_effect now b Hu) as (H1 & H2 & _). auto.
Qed.

(** A bottle used at time 0 and ticked once: depleted, cooldown until 3000. *)
Lemma C9_witness :
  fst (Bottle.use 3100 depletedBottle) = true /\
  Bottle.state (snd (Bottle.use 3100 depletedBottle)) = POURING.
Proof.
  assert (Hl : bt_locked (Bottle.type depletedBottle) = false) by reflexivity.
  assert (He : Bottle.state depletedBottle = EMPTY) by reflexivity.
  assert (Hc : Bottle.cooldownEnd depletedBottle <= 3100) by (vm_compute; discriminate).
  destruct (C9_use_reads_the_cooldown_only 3100 depletedBottle Hl) as [_ H].
  destruct (H He Hc) as (_ & H1 & H2 & _).
  exact (conj H1 H2).
Defined.

(** ** The customer *)

(** C1: [serve()] returns true only for a customer that is neither served
    nor leaving, and then sets [isServed] and moves the state to happy; for a
    served or leaving customer it returns false and hands the customer back
    unchanged.  A second [serve()] always returns false and changes
    nothing. *)
Theorem C1_serve_guard_and_idempotence :
  forall c : Customer.t,
    (fst (Customer.serve c) = true <->
       Customer.isServed c = false /\ Customer.isLeaving c = false) /\
    (fst (Customer.serve c) = true ->
       Customer.isServed (snd (Customer.serve c)) = true /\
       Customer.state (snd (Customer.serve c)) = HAPPY) /\
    (Customer.isServed c = true \/ Customer.isLeaving c = true ->
       Customer.serve c = (false, c)) /\
    Customer.serve (snd (Customer.serve c)) = (false, snd (Customer.serve c)).
Proof.
  intros c. unfold Customer.serve.
  destruct (Customer.isServed c) eqn:Es, (Customer.isLeaving c) eqn:El; simpl;
    rewrite ?Es, ?El; simpl; repeat split; intros; intuition congruence.
Qed.

(** A synthetic customer as [spawnCustomer] makes it, standing at slot 0:
    an office worker with patience 100 of 100.  It walks in with the first
    update of 16 seconds and is idle from then on. *)
Definition walkingCustomer : Customer.t :=
  Customer.assignSlot 0
    (fst (Customer.new Customer.noOptions (Customer.mkRandom 0 0 0) 0 0)).

Definition idleCustomer : Customer.t :=
  Customer.update 0.5 16000 1 walkingCustomer.

Lemma C1_witness :
  Customer.serve idleCustomer
    = (true, snd (Customer.serve idleCustomer)) /\
  Customer.state (snd (Customer.serve idleCustomer)) = HAPPY /\
  Customer.serve (snd (Customer.serve idleCustomer))
    = (false, snd (Customer.serve idleCustomer)).
Proof.
  destruct (C1_serve_guard_and_idempotence idleCustomer) as (H1 & H2 & _ & H4).
  assert (Ht : fst (Customer.serve idleCustomer) = true)
    by (apply H1; split; reflexivity).
  destruct (H2 Ht) as [_ Hs].
  split; [|split; [exact Hs | exact H4]].
  rewrite (surjective_pairing (Customer.serve idleCustomer)) at 1.
  now rewrite Ht.
Defined.

(** *** Customers as the game can hold them *)

Definition waiting (s : CUSTOMER_STATES) : bool :=
  match s with IDLE | IMPATIENT | ANGRY => true | _ => false end.

Definition leaving (s : CUSTOMER_STATES) : bool :=
  match s with WALKING_OUT | STORMING_OFF => true | _ => false end.

(** Patience is a non-negative share of a positive ceiling, and [isLeaving]
    is set exactly in the two exit states.  The constructor establishes this
    and every method keeps it. *)
Record Customer_ok (c : Customer.t) : Prop := {
  ok_patience : (0 <= Customer.patience c)%Q;
  ok_maxPatience : (0 < Customer.maxPatience c)%Q;
  ok_isLeaving : Customer.isLeaving c = leaving (Customer.state c)
}.

(** How worn a waiting customer is; the exit by storming off ranks last. *)
Definition mood_rank (s : CUSTOMER_STATES) : nat :=
  match s with
  | IMPATIENT => 1
  | ANGRY => 2
  | STORMING_OFF => 3
  | _ => 0
  end.

(** A run of updates, each with its random value, delta and difficulty. *)
Definition Customer_updates (steps : list (Q * Q * Q)) (c : Customer.t)
  : Customer.t :=
  fold_left (fun c' s => Customer.update (fst (fst s)) (snd (fst s)) (snd s) c')
            steps c.

Lemma customer_state_eqb_eq (a b : CUSTOMER_STATES) :
  customer_state_eqb a b = true <-> a = b.
Proof. destruct a, b; simpl; split; congruence. Qed.

Lemma customer_state_eqb_neq (a b : CUSTOMER_STATES) :
  customer_state_eqb a b = false <-> a <> b.
Proof. destruct a, b; simpl; split; congruence. Qed.

Ltac unfold_update :=
  unfold Customer.update, Customer.tickFrame, Customer.updateWalkingIn,
    Customer.updateWaiting, Customer.updateHappy, Customer.updateLeaving,
    Customer.stormOff.

(** Reads a field through the field writes, and nothing else. *)
Ltac customer_fields :=
  cbn [Customer.id Customer.type Customer.name Customer.message Customer.phone
       Customer.isReal Customer.x Customer.y Customer.targetX
       Customer.slotIndex Customer.state Customer.patience
       Customer.maxPatience Customer.arrivedAt Customer.frame
       Customer.frameTimer Customer.animationSpeed Customer.isServed
       Customer.isLeaving Customer.isRemovable Customer.scale Customer.alpha
       Customer.shakeOffset Customer.countedAsLost
       Customer.set_slot Customer.set_anim Customer.set_x Customer.set_state
       Customer.set_patience Customer.set_isServed Customer.set_isLeaving
       Customer.set_isRemovable Customer.set_alpha Customer.set_shakeOffset
       Customer.set_countedAsLost
       customer_state_eqb leaving waiting mood_rank negb andb orb fst snd].

Ltac split_ifs :=
  repeat match goal with
         | |- context [if ?b then _ else _] => destruct b eqn:?
         | |- context [match ?o with Some _ => _ | None => _ end] => destruct o eqn:?
         end.

Section CustomerUpdate.

Variables (rnd deltaTime difficulty : Q) (c : Customer.t).

Lemma tickFrame_keeps_customer :
  let c' := Customer.tickFrame deltaTime c in
  Customer.state c' = Customer.state c /\
  Customer.patience c' = Customer.patience c /\
  Customer.maxPatience c' = Customer.maxPatience c /\
  Customer.isLeaving c' = Customer.isLeaving c /\
  Customer.isServed c' = Customer.isServed c /\
  Customer.id c' = Customer.id c /\
  Customer.slotIndex c' = Customer.slotIndex c /\
  Customer.phone c' = Customer.phone c /\
  Customer.isReal c' = Customer.isReal c /\
  Customer.countedAsLost c' = Customer.countedAsLost c.
Proof.
  unfold Customer.tickFrame.
  destruct (Qleb _ _); repeat split.
Qed.

(** The decayed patience of [updateWaiting]. *)
Definition decayed : Q :=
  Math_max 0
    (Double.sub (Customer.patience c)
       (Double.mul (Double.mul GAME_CONFIG.PATIENCE_DECAY_RATE difficulty)
                   (Double.div deltaTime 1000))).

Definition decayedPercent : Q :=
  Double.mul (Double.div decayed (Customer.maxPatience c)) 100.

Lemma updateWaiting_patience :
  Customer.patience (Customer.updateWaiting deltaTime difficulty c) = decayed /\
  Customer.maxPatience (Customer.updateWaiting deltaTime difficulty c)
    = Customer.maxPatience c.
Proof.
  unfold Customer.updateWaiting, Customer.stormOff, decayed. customer_fields.
  repeat match goal with |- context [if ?b then _ else _] => destruct b end;
    customer_fields; auto.
Qed.

Lemma updateWaiting_state :
  Customer.isLeaving c = false ->
  Customer.state (Customer.updateWaiting deltaTime difficulty c) =
    if Qleb decayedPercent 0 then STORMING_OFF
    else if Qltb decayedPercent 25
            && negb (customer_state_eqb (Customer.state c) ANGRY) then ANGRY
    else if Qltb decayedPercent 50
            && customer_state_eqb (Customer.state c) IDLE then IMPATIENT
    else Customer.state c.
Proof.
  intros Hl.
  unfold Customer.updateWaiting, Customer.stormOff, decayedPercent, decayed.
  customer_fields. rewrite Hl.
  repeat match goal with |- context [if ?b then _ else _] => destruct b end;
    reflexivity.
Qed.

Lemma updateWaiting_isLeaving :
  Customer.isLeaving c = false ->
  Customer.isLeaving (Customer.updateWaiting deltaTime difficulty c) =
    Qleb decayedPercent 0.
Proof.
  intros Hl.
  unfold Customer.updateWaiting, Customer.stormOff, decayedPercent, decayed.
  customer_fields. rewrite Hl.
  repeat match goal with |- context [if ?b then _ else _] => destruct b end;
    customer_fields; auto.
Qed.

End CustomerUpdate.

(** What no update writes. *)
Record keeps (c c' : Customer.t) : Prop := {
  keeps_id : Customer.id c' = Customer.id c;
  keeps_maxPatience : Customer.maxPatience c' = Customer.maxPatience c;
  keeps_slotIndex : Customer.slotIndex c' = Customer.slotIndex c;
  keeps_phone : Customer.phone c' = Customer.phone c;
  keeps_isReal : Customer.isReal c' = Customer.isReal c;
  keeps_isServed : Customer.isServed c' = Customer.isServed c;
  keeps_countedAsLost : Customer.countedAsLost c' = Customer.countedAsLost c
}.

Lemma keeps_refl (c : Customer.t) : keeps c c.
Proof. constructor; reflexivity. Qed.

Lemma keeps_trans (c1 c2 c3 : Customer.t) : keeps c1 c2 -> keeps c2 c3 -> keeps c1 c3.
Proof. intros [] []. constructor; congruence. Qed.

Section CustomerPieces.

Variables (deltaTime difficulty : Q) (c : Customer.t).

Lemma tickFrame_keeps : keeps c (Customer.tickFrame deltaTime c).
Proof.
  unfold Customer.tickFrame. destruct (Qleb _ _); constructor; reflexivity.
Qed.

Lemma updateWalkingIn_keeps : keeps c (Customer.updateWalkingIn deltaTime c).
Proof.
  unfold Customer.updateWalkingIn. split_ifs; constructor; reflexivity.
Qed.

Lemma updateWaiting_keeps :
  keeps c (Customer.updateWaiting deltaTime difficulty c).
Proof.
  unfold Customer.updateWaiting, Customer.stormOff. customer_fields.
  split_ifs; constructor; reflexivity.
Qed.

Lemma updateHappy_keeps : keeps c (Customer.updateHappy deltaTime c).
Proof.
  unfold Customer.updateHappy. split_ifs; constructor; reflexivity.
Qed.

Lemma updateLeaving_keeps : keeps c (Customer.updateLeaving deltaTime c).
Proof.
  unfold Customer.updateLeaving. split_ifs; constructor; reflexivity.
Qed.

Lemma tickFrame_ok : Customer_ok c -> Customer_ok (Customer.tickFrame deltaTime c).
Proof.
  intros [Hp Hm Hl]. unfold Customer.tickFrame.
  destruct (Qleb _ _); constructor; assumption.
Qed.

Lemma updateWalkingIn_ok :
  Customer.state c = WALKING_IN ->
  Customer_ok c -> Customer_ok (Customer.updateWalkingIn deltaTime c).
Proof.
  intros Hs [Hp Hm Hl]. rewrite Hs in Hl. unfold Customer.updateWalkingIn.
  split_ifs; constructor; customer_fields; try rewrite Hs; assumption.
Qed.

Lemma updateWalkingIn_state :
  Customer.state c = WALKING_IN ->
  Customer.state (Customer.updateWalkingIn deltaTime c) = WALKING_IN \/
  Customer.state (Customer.updateWalkingIn deltaTime c) = IDLE.
Proof.
  intros Hs. unfold Customer.updateWalkingIn.
  split_ifs; customer_fields; auto.
Qed.

Lemma updateWaiting_ok :
  waiting (Customer.state c) = true ->
  Customer_ok c -> Customer_ok (Customer.updateWaiting deltaTime difficulty c).
Proof.
  intros Hw [Hp Hm Hl].
  assert (Hl' : Customer.isLeaving c = false)
    by (rewrite Hl; destruct (Customer.state c); auto; discriminate).
  unfold Customer.updateWaiting, Customer.stormOff. customer_fields.
  rewrite Hl'.
  split_ifs; constructor; customer_fields;
    auto using Math_max_0_nonneg.
Qed.

Lemma updateHappy_ok :
  Customer.state c = HAPPY ->
  Customer_ok c -> Customer_ok (Customer.updateHappy deltaTime c).
Proof.
  intros Hs [Hp Hm Hl]. unfold Customer.updateHappy.
  split_ifs; constructor; customer_fields; auto.
Qed.

Lemma updateLeaving_ok :
  Customer_ok c -> Customer_ok (Customer.updateLeaving deltaTime c).
Proof.
  intros [Hp Hm Hl]. unfold Customer.updateLeaving.
  split_ifs; constructor; customer_fields; auto.
Qed.

Lemma updateLeaving_state :
  Customer.state (Customer.updateLeaving deltaTime c) = Customer.state c /\
  Customer.patience (Customer.updateLeaving deltaTime c) = Customer.patience c.
Proof.
  unfold Customer.updateLeaving. split_ifs; customer_fields; auto.
Qed.

Lemma updateHappy_state :
  Customer.state (Customer.updateHappy deltaTime c) = Customer.state c \/
  Customer.state (Customer.updateHappy deltaTime c) = WALKING_OUT.
Proof.
  unfold Customer.updateHappy. split_ifs; customer_fields; auto.
Qed.

End CustomerPieces.

Lemma shake_keeps (s : Q) (c : Customer.t) : keeps c (Customer.set_shakeOffset s c).
Proof. constructor; reflexivity. Qed.

Lemma shake_ok (s : Q) (c : Customer.t) :
  Customer_ok c -> Customer_ok (Customer.set_shakeOffset s c).
Proof. intros [Hp Hm Hl]. constructor; assumption. Qed.

(** [update] is the animation clock, then the method of the state, then the
    shake effect. *)
Lemma update_pieces (rnd deltaTime difficulty : Q) (c : Customer.t) :
  exists s,
    Customer.update rnd deltaTime difficulty c =
    Customer.set_shakeOffset s
      (let c1 := Customer.tickFrame deltaTime c in
       match Customer.state c with
       | WALKING_IN => Customer.updateWalkingIn deltaTime c1
       | IDLE | IMPATIENT | ANGRY => Customer.updateWaiting deltaTime difficulty c1
       | HAPPY => Customer.updateHappy deltaTime c1
       | WALKING_OUT | STORMING_OFF => Customer.updateLeaving deltaTime c1
       end).
Proof.
  unfold Customer.update.
  destruct (tickFrame_keeps_customer deltaTime c) as (Hs & _).
  cbv zeta in *. rewrite Hs.
  match goal with |- context [if ?b then _ else _] => destruct b end;
    eexists; reflexivity.
Qed.

Lemma update_keeps (rnd deltaTime difficulty : Q) (c : Customer.t) :
  keeps c (Customer.update rnd deltaTime difficulty c).
Proof.
  destruct (update_pieces rnd deltaTime difficulty c) as [s ->].
  eapply keeps_trans; [|apply shake_keeps].
  eapply keeps_trans; [apply (tickFrame_keeps deltaTime c)|].
  cbv zeta.
  destruct (Customer.state c);
    auto using updateWalkingIn_keeps, updateWaiting_keeps, updateHappy_keeps,
      updateLeaving_keeps.
Qed.

Lemma update_ok (rnd deltaTime difficulty : Q) (c : Customer.t) :
  Customer_ok c -> Customer_ok (Customer.update rnd deltaTime difficulty c).
Proof.
  intros Hok.
  destruct (update_pieces rnd deltaTime difficulty c) as [s ->].
  apply shake_ok. cbv zeta.
  pose proof (tickFrame_ok deltaTime c Hok) as Hok1.
  destruct (tickFrame_keeps_customer deltaTime c) as (Hs & _).
  cbv zeta in Hs.
  destruct (Customer.state c) eqn:E;
    first [ apply updateWalkingIn_ok | apply updateWaiting_ok
          | apply updateHappy_ok | apply updateLeaving_ok ];
    try rewrite Hs; auto.
Qed.

(** An update of a waiting customer is [updateWaiting] between the animation
    clock and the shake effect. *)
Lemma update_waiting (rnd deltaTime difficulty : Q) (c : Customer.t) :
  waiting (Customer.state c) = true ->
  exists s,
    Customer.update rnd deltaTime difficulty c =
    Customer.set_shakeOffset s
      (Customer.updateWaiting deltaTime difficulty
         (Customer.tickFrame deltaTime c)).
Proof.
  intros Hw. unfold Customer.update.
  destruct (tickFrame_keeps_customer deltaTime c) as (Hs & _).
  rewrite Hs.
  destruct (Customer.state c); try discriminate;
    match goal with |- context [if ?b then _ else _] => destruct b end;
    eexists; reflexivity.
Qed.

(** A customer that has stormed off, or walks out, keeps its state and its
    patience. *)
Lemma update_leaving (rnd deltaTime difficulty : Q) (c : Customer.t) :
  leaving (Customer.state c) = true ->
  Customer.state (Customer.update rnd deltaTime difficulty c) = Customer.state c /\
  Customer.patience (Customer.update rnd deltaTime difficulty c) = Customer.patience c.
Proof.
  intros Hl.
  destruct (update_pieces rnd deltaTime difficulty c) as [s ->].
  customer_fields. cbv zeta.
  destruct (tickFrame_keeps_customer deltaTime c) as (Hs & Hp & _).
  cbv zeta in Hs, Hp.
  destruct (Customer.state c) eqn:E; try discriminate;
    destruct (updateLeaving_state deltaTime (Customer.tickFrame deltaTime c))
      as [-> ->]; auto.
Qed.

(** A customer that walks in is walking in or idle after an update. *)
Lemma update_walking_in (rnd deltaTime difficulty : Q) (c : Customer.t) :
  Customer.state c = WALKING_IN ->
  Customer.state (Customer.update rnd deltaTime difficulty c) <> STORMING_OFF.
Proof.
  intros Hw.
  destruct (update_pieces rnd deltaTime difficulty c) as [s ->].
  customer_fields. cbv zeta. rewrite Hw.
  destruct (tickFrame_keeps_customer deltaTime c) as (Hs & _).
  cbv zeta in Hs. rewrite Hw in Hs.
  destruct (updateWalkingIn_state deltaTime _ Hs) as [-> | ->]; discriminate.
Qed.

(** The decay subtracted in one update is not negative. *)
Lemma decay_nonneg (deltaTime difficulty : Q) :
  (0 <= deltaTime)%Q -> (0 <= difficulty)%Q ->
  (0 <= Double.mul (Double.mul GAME_CONFIG.PATIENCE_DECAY_RATE difficulty)
                   (Double.div deltaTime 1000))%Q.
Proof.
  intros Hd HD.
  apply mul_nonneg.
  - apply mul_nonneg; [unfold GAME_CONFIG.PATIENCE_DECAY_RATE; lra | exact HD].
  - apply div_nonneg; [exact Hd | reflexivity].
Qed.

(** [Math.max(0, a)] of a double is a double. *)
Lemma Math_max_0_double (a : Q) : is_double a -> is_double (Math_max 0 a).
Proof.
  intros Ha. unfold Math_max. destruct (Qleb 0 a); [exact Ha | apply is_double_0].
Qed.

Section WaitingStep.

Variables (rnd deltaTime difficulty : Q) (c : Customer.t).
Hypothesis Hok : Customer_ok c.
Hypothesis Hwait : waiting (Customer.state c) = true.

Let c' := Customer.update rnd deltaTime difficulty c.

Lemma waiting_not_leaving : Customer.isLeaving c = false.
Proof.
  rewrite (ok_isLeaving c Hok). destruct (Customer.state c); auto; discriminate.
Qed.

Lemma waiting_step_patience : Customer.patience c' = decayed deltaTime difficulty c.
Proof.
  subst c'. destruct (update_waiting rnd deltaTime difficulty c Hwait) as [s ->].
  simpl.
  destruct (updateWaiting_patience deltaTime difficulty
              (Customer.tickFrame deltaTime c)) as [-> _].
  unfold decayed.
  destruct (tickFrame_keeps_customer deltaTime c) as (_ & -> & _). reflexivity.
Qed.

Lemma waiting_step_percent :
  Customer.getPatiencePercent c' = decayedPercent deltaTime difficulty c.
Proof.
  unfold Customer.getPatiencePercent, decayedPercent.
  rewrite waiting_step_patience.
  pose proof (keeps_maxPatience _ _ (update_keeps rnd deltaTime difficulty c)) as Hm.
  fold c' in Hm. rewrite Hm. reflexivity.
Qed.

Lemma waiting_step_state :
  Customer.state c' =
    if Qleb (decayedPercent deltaTime difficulty c) 0 then STORMING_OFF
    else if Qltb (decayedPercent deltaTime difficulty c) 25
            && negb (customer_state_eqb (Customer.state c) ANGRY) then ANGRY
    else if Qltb (decayedPercent deltaTime difficulty c) 50
            && customer_state_eqb (Customer.state c) IDLE then IMPATIENT
    else Customer.state c.
Proof.
  subst c'. destruct (update_waiting rnd deltaTime difficulty c Hwait) as [s ->].
  simpl.
  destruct (tickFrame_keeps_customer deltaTime c) as (Hs & Hp & Hm & Hl & _).
  rewrite updateWaiting_state by (rewrite Hl; apply waiting_not_leaving).
  unfold decayedPercent, decayed. rewrite Hs, Hp, Hm. reflexivity.
Qed.

Lemma waiting_step_isLeaving :
  Customer.isLeaving c' = Qleb (decayedPercent deltaTime difficulty c) 0.
Proof.
  subst c'. destruct (update_waiting rnd deltaTime difficulty c Hwait) as [s ->].
  simpl.
  destruct (tickFrame_keeps_customer deltaTime c) as (Hs & Hp & Hm & Hl & _).
  rewrite updateWaiting_isLeaving by (rewrite Hl; apply waiting_not_leaving).
  unfold decayedPercent, decayed. rewrite Hp, Hm. reflexivity.
Qed.

(** The patience an update of a waiting customer leaves is a double. *)
Lemma waiting_step_double : is_double (Customer.patience c').
Proof.
  rewrite waiting_step_patience. unfold decayed.
  apply Math_max_0_double, round_is_double.
Qed.

(** One update does not raise the patience and does not calm the mood. *)
Lemma waiting_step_monotone :
  is_double (Customer.patience c) ->
  (0 <= deltaTime)%Q -> (0 <= difficulty)%Q ->
  (Customer.patience c' <= Customer.patience c)%Q /\
  (mood_rank (Customer.state c) <= mood_rank (Customer.state c'))%nat /\
  (waiting (Customer.state c') = true \/ Customer.state c' = STORMING_OFF).
Proof.
  intros Hdbl Hd HD. split; [|split].
  - rewrite waiting_step_patience. unfold decayed.
    apply Math_max_0_le; [apply (ok_patience c Hok)|].
    apply sub_le; [exact Hdbl | apply decay_nonneg; assumption].
  - rewrite waiting_step_state.
    destruct (Customer.state c); try discriminate; simpl; split_ifs; simpl; lia.
  - rewrite waiting_step_state.
    destruct (Customer.state c); try discriminate; simpl; split_ifs; simpl; auto.
Qed.

End WaitingStep.

(** A customer that nobody has served: still waiting, or stormed off. *)
Definition unserved (c : Customer.t) : Prop :=
  waiting (Customer.state c) = true \/ Customer.state c = STORMING_OFF.

(** An update with a delta and a difficulty that are not negative. *)
Definition forward_step (s : Q * Q * Q) : Prop :=
  (0 < snd (fst s))%Q /\ (0 <= snd s)%Q.

Lemma unserved_step (rnd deltaTime difficulty : Q) (c : Customer.t) :
  Customer_ok c -> unserved c -> is_double (Customer.patience c) ->
  (0 <= deltaTime)%Q -> (0 <= difficulty)%Q ->
  let c' := Customer.update rnd deltaTime difficulty c in
  (Customer.patience c' <= Customer.patience c)%Q /\
  (mood_rank (Customer.state c) <= mood_rank (Customer.state c'))%nat /\
  unserved c' /\ is_double (Customer.patience c').
Proof.
  intros Hok [Hw | Hs] Hdbl Hd HD c'.
  - split; [|split; [|split]];
      try apply (waiting_step_monotone rnd deltaTime difficulty c Hok Hw Hdbl Hd HD).
    apply (waiting_step_double rnd deltaTime difficulty c Hw).
  - destruct (update_leaving rnd deltaTime difficulty c) as [Hst Hp].
    { rewrite Hs. reflexivity. }
    subst c'. split; [rewrite Hp; apply Qle_refl|].
    split; [rewrite Hst; lia|].
    split; [right; rewrite Hst; exact Hs | rewrite Hp; exact Hdbl].
Qed.

Lemma unserved_run (steps : list (Q * Q * Q)) :
  forall c : Customer.t,
    Customer_ok c -> unserved c -> is_double (Customer.patience c) ->
    Forall forward_step steps ->
    let c' := Customer_updates steps c in
    (Customer.patience c' <= Customer.patience c)%Q /\
    (mood_rank (Customer.state c) <= mood_rank (Customer.state c'))%nat /\
    Customer_ok c' /\ unserved c' /\ is_double (Customer.patience c').
Proof.
  induction steps as [|s steps IH]; intros c Hok Hu Hdbl Hall; simpl.
  - split; [apply Qle_refl|]. auto.
  - inversion Hall as [|? ? [Hd HD] Hrest]; subst.
    destruct (unserved_step (fst (fst s)) (snd (fst s)) (snd s) c Hok Hu Hdbl)
      as (Hp & Hr & Hu' & Hdbl'); [lra | exact HD |].
    destruct (IH _ (update_ok _ _ _ c Hok) Hu' Hdbl' Hrest)
      as (Hp2 & Hr2 & Hok2 & Hu2 & Hdbl2).
    split; [|split; [|split; [|split]]]; auto.
    + eapply Qle_trans; eauto.
    + lia.
Qed.

(** C2: one update of a waiting customer, as the game holds it
    ([Customer_ok]), sets the patience to
    [max(0, patience - 1.5 * D * (d / 1000))], computed as the code computes
    it, in doubles, and then decides on the patience in percent of
    [maxPatience], which is [getPatiencePercent()] of the customer after the
    update, in this order: at or below 0 the customer storms off; else below
    25 and not already angry it turns angry; else below 50 and idle it turns
    impatient; else the state stays.  Along any run of updates with positive
    deltas, at a difficulty that is not negative, the patience, a double
    from the start, never rises and the mood never returns to a calmer
    one. *)
Theorem C2_patience_decay_and_mood :
  (forall (rnd d D : Q) (c : Customer.t),
      Customer_ok c -> waiting (Customer.state c) = true ->
      let c' := Customer.update rnd d D c in
      let percent := Customer.getPatiencePercent c' in
      Customer.patience c' =
        Math_max 0 (Double.sub (Customer.patience c)
                      (Double.mul (Double.mul 1.5 D) (Double.div d 1000))) /\
      ((percent <= 0)%Q ->
         Customer.state c' = STORMING_OFF /\ Customer.isLeaving c' = true) /\
      ((0 < percent)%Q -> (percent < 25)%Q -> Customer.state c <> ANGRY ->
         Customer.state c' = ANGRY) /\
      ((25 <= percent)%Q -> (percent < 50)%Q -> Customer.state c = IDLE ->
         Customer.state c' = IMPATIENT) /\
      ((0 < percent)%Q -> Customer.state c = ANGRY -> Customer.state c' = ANGRY) /\
      ((25 <= percent)%Q -> Customer.state c = IMPATIENT ->
         Customer.state c' = IMPATIENT) /\
      ((50 <= percent)%Q -> Customer.state c' = Customer.state c)) /\
  (forall (before after : list (Q * Q * Q)) (c : Customer.t),
      Customer_ok c -> waiting (Customer.state c) = true ->
      is_double (Customer.patience c) ->
      Forall forward_step (before ++ after) ->
      let c1 := Customer_updates before c in
      let c2 := Customer_updates (before ++ after) c in
      (Customer.patience c2 <= Customer.patience c1)%Q /\
      (mood_rank (Customer.state c1) <= mood_rank (Customer.state c2))%nat).
Proof.
  split.
  - intros rnd d D c Hok Hw c' percent.
    assert (Hpc : percent = decayedPercent d D c)
      by apply (waiting_step_percent rnd d D c Hw).
    assert (Hst := waiting_step_state rnd d D c Hok Hw). fold c' in Hst.
    assert (Hlv := waiting_step_isLeaving rnd d D c Hok Hw). fold c' in Hlv.
    rewrite <- Hpc in Hst, Hlv.
    split; [apply (waiting_step_patience rnd d D c Hw)|].
    repeat split.
    + apply Qleb_true in H. now rewrite H in Hst.
    + apply Qleb_true in H. now rewrite H in Hlv.
    + intros Hpos Hlt Hna.
      apply Qleb_false in Hpos. apply Qltb_true in Hlt.
      apply customer_state_eqb_neq in Hna.
      now rewrite Hpos, Hlt, Hna in Hst.
    + intros Hge Hlt Hi.
      assert (Hpos : Qleb percent 0 = false) by (apply Qleb_false; lra).
      apply Qltb_false in Hge. apply Qltb_true in Hlt.
      rewrite Hpos, Hge, Hlt, Hi in Hst. exact Hst.
    + intros Hpos Ha. apply Qleb_false in Hpos.
      rewrite Hpos, Ha in Hst. simpl in Hst.
      rewrite andb_false_r in Hst. simpl in Hst.
      now rewrite andb_false_r in Hst.
    + intros Hge Hi.
      assert (Hpos : Qleb percent 0 = false) by (apply Qleb_false; lra).
      apply Qltb_false in Hge.
      rewrite Hpos, Hge, Hi in Hst. simpl in Hst.
      now rewrite andb_false_r in Hst.
    + intros Hge.
      assert (Hpos : Qleb percent 0 = false) by (apply Qleb_false; lra).
      assert (H25 : Qltb percent 25 = false) by (apply Qltb_false; lra).
      apply Qltb_false in Hge.
      now rewrite Hpos, H25, Hge in Hst.
  - intros before after c Hok Hw Hdbl Hall c1 c2.
    apply Forall_app in Hall. destruct Hall as [Hb Ha].
    destruct (unserved_run before c Hok (or_introl Hw) Hdbl Hb)
      as (_ & _ & Hok1 & Hu1 & Hdbl1).
    fold c1 in Hok1, Hu1, Hdbl1.
    destruct (unserved_run after c1 Hok1 Hu1 Hdbl1 Ha) as (Hp & Hr & _).
    subst c2. unfold Customer_updates in *. rewrite fold_left_app.
    split; assumption.
Qed.

Lemma idleCustomer_ok : Customer_ok idleCustomer.
Proof.
  constructor.
  - vm_compute. discriminate.
  - vm_compute. reflexivity.
  - reflexivity.
Qed.

Lemma idleCustomer_double : is_double (Customer.patience idleCustomer).
Proof. vm_compute. reflexivity. Qed.

(** Two seconds at difficulty 1, then forty at difficulty 2, for the idle
    office worker. *)
Lemma C2_witness :
  Customer.patience (Customer.update 0.5 2000 1 idleCustomer) =
    Math_max 0 (Double.sub (Customer.patience idleCustomer)
                  (Double.mul (Double.mul 1.5 1) (Double.div 2000 1000))) /\
  (Customer.patience
     (Customer_updates [(0.5, 2000, 1); (0.5, 40000, 2)]%Q idleCustomer)
   <= Customer.patience (Customer_updates [(0.5, 2000, 1)]%Q idleCustomer))%Q.
Proof.
  destruct C2_patience_decay_and_mood as [Hstep Hrun].
  split.
  - apply (Hstep 0.5 2000 1 idleCustomer idleCustomer_ok eq_refl)%Q.
  - apply (Hrun [(0.5, 2000, 1)] [(0.5, 40000, 2)] idleCustomer idleCustomer_ok
             eq_refl idleCustomer_double)%Q.
    repeat constructor; simpl; try reflexivity; vm_compute; discriminate.
Defined.

(** An idle drone pilot, with patience 60 of 60. *)
Definition dronePilot : Customer.t :=
  Customer.update 0.5 16000 1
    (Customer.assignSlot 0
       (fst (Customer.new (Customer.mkOptions (Some 5%nat) EmptyString []
                             EmptyString false)
               (Customer.mkRandom 0 0 0) 0 0))).

(** The rounding shows: fifty updates of 200 ms at difficulty 2 take the
    drone pilot from 60 to 29.99999999999993, not to 30, so that it is below
    half of its patience, and impatient. *)
Lemma decay_in_doubles :
  let c := Customer_updates (repeat (0.5, 200, 2)%Q 50) dronePilot in
  Customer.state dronePilot = IDLE /\
  Customer.patience dronePilot = 60%Q /\
  Customer.patience c = (2111062325329915 # 70368744177664)%Q /\
  (Customer.patience c < 30)%Q /\
  Customer.state c = IMPATIENT.
Proof. vm_compute. repeat split. Qed.

(** ** Arrays *)

Section Arrays.

Context {A : Type}.

Lemma array_set_length (l : list A) (i : nat) (v : A) :
  length (array_set l i v) = length l.
Proof.
  revert i; induction l as [|h t IH]; intros [|i]; simpl; auto.
Qed.

Lemma array_set_same (l : list A) (i : nat) (v : A) :
  (i < length l)%nat -> nth_error (array_set l i v) i = Some v.
Proof.
  revert i; induction l as [|h t IH]; intros [|i] Hi; simpl in *;
    try lia; auto with arith.
Qed.

Lemma array_set_other (l : list A) (i j : nat) (v : A) :
  i <> j -> nth_error (array_set l i v) j = nth_error l j.
Proof.
  revert i j; induction l as [|h t IH]; intros [|i] [|j] Hij; simpl;
    try congruence; auto.
Qed.

Lemma array_set_In (l : list A) (i : nat) (v a : A) :
  In a (array_set l i v) -> a = v \/ In a l.
Proof.
  revert i; induction l as [|h t IH]; intros [|i]; simpl; try tauto.
  - intros [<- | H]; auto.
  - intros [<- | H]; auto. destruct (IH _ H); auto.
Qed.

Lemma array_set_map {B : Type} (f : A -> B) (l : list A) (i : nat) (v a : A) :
  nth_error l i = Some a -> f v = f a ->
  map f (array_set l i v) = map f l.
Proof.
  revert i; induction l as [|h t IH]; intros [|i]; simpl; try discriminate.
  - intros [= ->] ->. reflexivity.
  - intros H1 H2. f_equal. eauto.
Qed.

Lemma nth_error_lt (l : list A) (i : nat) (a : A) :
  nth_error l i = Some a -> (i < length l)%nat.
Proof. intros H. apply nth_error_Some. congruence. Qed.

Variable p : A -> bool.

(** [findIndex] returns the first index that passes the test. *)
Lemma findIndex_Some (l : list A) (i : nat) :
  findIndex p l = Some i ->
  (exists a, nth_error l i = Some a /\ p a = true) /\
  (forall j a, (j < i)%nat -> nth_error l j = Some a -> p a = false).
Proof.
  revert i; induction l as [|h t IH]; intros i; simpl; [discriminate|].
  destruct (p h) eqn:Eh.
  - intros [= <-]. split; [exists h; auto | intros; lia].
  - destruct (findIndex p t) as [k|]; simpl; [|discriminate].
    intros [= <-]. destruct (IH k eq_refl) as [Hex Hmin].
    split; [exact Hex|].
    intros [|j] a Hj; simpl; [congruence|]. apply Hmin. lia.
Qed.

Lemma findIndex_None (l : list A) :
  findIndex p l = None -> forall a, In a l -> p a = false.
Proof.
  induction l as [|h t IH]; simpl; [tauto|].
  destruct (p h) eqn:Eh; [discriminate|].
  destruct (findIndex p t); simpl; [discriminate|].
  intros _ a [<- | Ha]; auto.
Qed.

End Arrays.

(** The number of customers standing in the slots. *)
Definition occupied (slots : list (option nat)) : nat :=
  length (filter (fun s => negb (Game.isNull s)) slots).

Lemma occupied_le_length (slots : list (option nat)) :
  (occupied slots <= length slots)%nat.
Proof. apply filter_length_le. Qed.

Lemma occupied_fill (slots : list (option nat)) (i v : nat) :
  nth_error slots i = Some None ->
  occupied (array_set slots i (Some v)) = S (occupied slots).
Proof.
  unfold occupied.
  revert i; induction slots as [|h t IH]; intros [|i]; simpl; try discriminate.
  - intros [= ->]. reflexivity.
  - intros H. destruct h; simpl; rewrite (IH _ H); reflexivity.
Qed.

Lemma occupied_free (slots : list (option nat)) (i v : nat) :
  nth_error slots i = Some (Some v) ->
  S (occupied (array_set slots i None)) = occupied slots.
Proof.
  unfold occupied.
  revert i; induction slots as [|h t IH]; intros [|i]; simpl; try discriminate.
  - intros [= ->]. reflexivity.
  - intros H. destruct h; simpl; rewrite <- (IH _ H); reflexivity.
Qed.

Lemma occupied_repeat_None (n : nat) : occupied (repeat None n) = O.
Proof. induction n; simpl; auto. Qed.

(** ** The roster: customers and their slots *)

(** Reads a field of the game through the field writes, and nothing else. *)
Ltac game_fields :=
  cbn [Game.state Game.score Game.customersServed Game.customersLost
       Game.comboCount Game.maxCombo Game.difficulty Game.lastSpawnTime
       Game.comboTimer Game.customers Game.bottles Game.customerSlots
       Game.selectedBottleIndex Game.muted Game.demoMode Game.lastApiPoll
       Game.apiPollInterval Game.pendingRealMessages Game.customerIdCounter
       Game.detached Game.pollsInFlight Game.servesInFlight
       Game.set_state Game.set_score Game.set_customersServed
       Game.set_customersLost Game.set_comboCount Game.set_maxCombo
       Game.set_difficulty Game.set_lastSpawnTime Game.set_comboTimer
       Game.set_customers Game.set_bottles Game.set_customerSlots
       Game.set_selectedBottleIndex Game.set_muted Game.set_demoMode
       Game.set_lastApiPoll Game.set_apiPollInterval
       Game.set_pendingRealMessages Game.set_customerIdCounter
       Game.set_detached Game.set_pollsInFlight Game.set_servesInFlight
       Game.gameOver].

Ltac game_fields_in H :=
  cbn [Game.state Game.score Game.customersServed Game.customersLost
       Game.comboCount Game.maxCombo Game.difficulty Game.lastSpawnTime
       Game.comboTimer Game.customers Game.bottles Game.customerSlots
       Game.selectedBottleIndex Game.muted Game.demoMode Game.lastApiPoll
       Game.apiPollInterval Game.pendingRealMessages Game.customerIdCounter
       Game.detached Game.pollsInFlight Game.servesInFlight
       Game.set_state Game.set_score Game.set_customersServed
       Game.set_customersLost Game.set_comboCount Game.set_maxCombo
       Game.set_difficulty Game.set_lastSpawnTime Game.set_comboTimer
       Game.set_customers Game.set_bottles Game.set_customerSlots
       Game.set_selectedBottleIndex Game.set_muted Game.set_demoMode
       Game.set_lastApiPoll Game.set_apiPollInterval
       Game.set_pendingRealMessages Game.set_customerIdCounter
       Game.set_detached Game.set_pollsInFlight Game.set_servesInFlight
       Game.gameOver] in H.

(** The id and the slot of each customer, in the order of [customers]. *)
Definition roster (cs : list Customer.t) : list (nat * option nat) :=
  map (fun c => (Customer.id c, Customer.slotIndex c)) cs.

(** The customers of a roster stand in the slots: ids are distinct and were
    handed out by the counter, every customer is the occupant of the slot it
    was assigned, and no slot is held by anybody else. *)
Record Seated (r : list (nat * option nat)) (slots : list (option nat))
    (counter : nat) : Prop := {
  seated_length : length slots = GAME_CONFIG.MAX_CUSTOMERS;
  seated_nodup : NoDup (map fst r);
  seated_bound : forall p, In p r -> (fst p <= counter)%nat;
  seated_slot : forall p, In p r ->
      exists i, snd p = Some i /\ nth_error slots i = Some (Some (fst p));
  seated_count : occupied slots = length r
}.

Lemma Seated_empty (counter : nat) :
  Seated [] (repeat None GAME_CONFIG.MAX_CUSTOMERS) counter.
Proof.
  constructor.
  - apply repeat_length.
  - constructor.
  - simpl; tauto.
  - simpl; tauto.
  - apply occupied_repeat_None.
Qed.

Lemma Seated_capacity r slots counter :
  Seated r slots counter -> (length r <= GAME_CONFIG.MAX_CUSTOMERS)%nat.
Proof.
  intros [Hl _ _ _ Hc]. rewrite <- Hc, <- Hl. apply occupied_le_length.
Qed.

Lemma Seated_spawn r slots counter i :
  Seated r slots counter ->
  findIndex Game.isNull slots = Some i ->
  Seated (r ++ [(S counter, Some i)])
         (array_set slots i (Some (S counter))) (S counter).
Proof.
  intros [Hl Hn Hb Hs Hc] Hf.
  destruct (findIndex_Some Game.isNull slots i Hf) as [(a & Ha & Hnull) _].
  destruct a as [v|]; [discriminate|].
  constructor.
  - rewrite array_set_length. exact Hl.
  - rewrite map_app. simpl. apply NoDup_app; [exact Hn | repeat constructor; simpl; tauto |].
    intros n Hin [<- | []].
    apply in_map_iff in Hin. destruct Hin as (p & Hp & Hin).
    apply Hb in Hin. lia.
  - intros p Hin. apply in_app_or in Hin. destruct Hin as [Hin | [<- | []]].
    + apply Hb in Hin. lia.
    + simpl. lia.
  - intros p Hin. apply in_app_or in Hin. destruct Hin as [Hin | [<- | []]].
    + destruct (Hs p Hin) as (j & Hj & Hnth). exists j. split; [exact Hj|].
      rewrite array_set_other; [exact Hnth|]. intros ->. congruence.
    + exists i. split; [reflexivity|]. simpl.
      apply array_set_same. eapply nth_error_lt; eauto.
  - rewrite (occupied_fill _ _ _ Ha), length_app, Hc. simpl. lia.
Qed.

Lemma Seated_remove pre p post slots counter i :
  Seated (pre ++ p :: post) slots counter ->
  snd p = Some i ->
  Seated (pre ++ post) (array_set slots i None) counter.
Proof.
  intros [Hl Hn Hb Hs Hc] Hi.
  assert (Hp : nth_error slots i = Some (Some (fst p))).
  { destruct (Hs p) as (j & Hj & Hnth); [apply in_elt|]. congruence. }
  rewrite map_app in Hn. simpl in Hn.
  constructor.
  - rewrite array_set_length. exact Hl.
  - rewrite map_app. eapply NoDup_remove_1; eauto.
  - intros q Hq. apply Hb. apply in_app_or in Hq. apply in_or_app. simpl. tauto.
  - intros q Hq.
    destruct (Hs q) as (j & Hj & Hnth).
    { apply in_app_or in Hq. apply in_or_app. simpl. tauto. }
    exists j. split; [exact Hj|].
    rewrite array_set_other; [exact Hnth|]. intros ->.
    apply NoDup_remove_2 in Hn. apply Hn.
    rewrite <- map_app. apply in_map_iff. exists q. split; [congruence | exact Hq].
  - pose proof (occupied_free _ _ _ Hp) as Hf.
    rewrite length_app in *. simpl in Hc. lia.
Qed.

Lemma removeFinished_lists (cs : list Customer.t) :
  forall slots,
    fst (fst (Game.removeFinished cs slots))
      = filter (fun c => negb (Customer.isRemovable c)) cs /\
    snd (Game.removeFinished cs slots) = filter Customer.isRemovable cs.
Proof.
  induction cs as [|c rest IH]; intros slots; simpl; [auto|].
  destruct (Customer.isRemovable c); simpl.
  - match goal with |- context [Game.removeFinished rest ?s] =>
      destruct (IH s) as [H1 H2]; destruct (Game.removeFinished rest s) as [[k s2] d]
    end. simpl in *. split; congruence.
  - destruct (IH slots) as [H1 H2].
    destruct (Game.removeFinished rest slots) as [[k s2] d].
    simpl in *. split; congruence.
Qed.

Lemma removeFinished_seated (cs : list Customer.t) :
  forall pre slots counter,
    Seated (pre ++ roster cs) slots counter ->
    Seated (pre ++ roster (fst (fst (Game.removeFinished cs slots))))
           (snd (fst (Game.removeFinished cs slots))) counter.
Proof.
  induction cs as [|c rest IH]; intros pre slots counter Hs; simpl; [exact Hs|].
  simpl in Hs.
  destruct (Customer.isRemovable c).
  - destruct (seated_slot _ _ _ Hs (Customer.id c, Customer.slotIndex c))
      as (i & Hi & _); [apply in_elt|].
    simpl in Hi. rewrite Hi.
    apply (Seated_remove _ _ _ _ _ i) in Hs; [|exact Hi].
    specialize (IH pre _ _ Hs).
    destruct (Game.removeFinished rest (array_set slots i None)) as [[k s2] d].
    exact IH.
  - change (pre ++ (Customer.id c, Customer.slotIndex c) :: roster rest)
      with (pre ++ [(Customer.id c, Customer.slotIndex c)] ++ roster rest) in Hs.
    rewrite app_assoc in Hs.
    specialize (IH _ _ _ Hs).
    destruct (Game.removeFinished rest slots) as [[k s2] d].
    simpl in *. rewrite <- app_assoc in IH. exact IH.
Qed.

(** ** What each step of the game touches *)

(** The fields that hold the customers and the queue. *)
Definition roster_fields (g : Game.t) :=
  (Game.customers g, Game.customerSlots g, Game.customerIdCounter g,
   Game.detached g, Game.pendingRealMessages g).

(** The fields that hold the round and its counters. *)
Definition tally_fields (g : Game.t) :=
  (Game.state g, Game.score g, Game.customersServed g, Game.customersLost g,
   Game.maxCombo g).

Ltac game_cases :=
  repeat match goal with
         | |- context [if ?b then _ else _] => destruct b eqn:?
         end.

Lemma spawnCustomer_tally rnd now (g : Game.t) :
  tally_fields (Game.spawnCustomer rnd now g) = tally_fields g
  /\ Game.comboCount (Game.spawnCustomer rnd now g) = Game.comboCount g
  /\ Game.difficulty (Game.spawnCustomer rnd now g) = Game.difficulty g
  /\ Game.detached (Game.spawnCustomer rnd now g) = Game.detached g.
Proof.
  unfold Game.spawnCustomer.
  destruct (findIndex Game.isNull (Game.customerSlots g)); [|auto].
  destruct (Game.pendingRealMessages g);
    destruct (Customer.new _ _ _ _); repeat split; reflexivity.
Qed.

Section Untouched.

Variables (inp : Game.TickInput) (g : Game.t).

Lemma updateComboTimer_roster :
  roster_fields (Game.updateComboTimer (Game.deltaTime inp) g) = roster_fields g.
Proof. unfold Game.updateComboTimer. game_cases; reflexivity. Qed.

Lemma updateComboTimer_tally :
  tally_fields (Game.updateComboTimer (Game.deltaTime inp) g) = tally_fields g
  /\ Game.difficulty (Game.updateComboTimer (Game.deltaTime inp) g) = Game.difficulty g.
Proof. unfold Game.updateComboTimer. game_cases; split; reflexivity. Qed.

Lemma updateComboTimer_combo :
  Game.comboCount (Game.updateComboTimer (Game.deltaTime inp) g) = Game.comboCount g
  \/ Game.comboCount (Game.updateComboTimer (Game.deltaTime inp) g) = 0.
Proof. unfold Game.updateComboTimer. game_cases; auto. Qed.

Lemma updateApiPoll_roster :
  roster_fields (Game.updateApiPoll (Game.deltaTime inp) g) = roster_fields g.
Proof.
  unfold Game.updateApiPoll, Game.pollIncomingMessages. game_fields.
  game_cases; reflexivity.
Qed.

Lemma updateApiPoll_tally :
  tally_fields (Game.updateApiPoll (Game.deltaTime inp) g) = tally_fields g
  /\ Game.comboCount (Game.updateApiPoll (Game.deltaTime inp) g) = Game.comboCount g
  /\ Game.difficulty (Game.updateApiPoll (Game.deltaTime inp) g) = Game.difficulty g.
Proof.
  unfold Game.updateApiPoll, Game.pollIncomingMessages. game_fields.
  game_cases; repeat split; reflexivity.
Qed.

Lemma updateSpawn_tally :
  tally_fields (Game.updateSpawn inp g) = tally_fields g
  /\ Game.comboCount (Game.updateSpawn inp g) = Game.comboCount g
  /\ Game.difficulty (Game.updateSpawn inp g) = Game.difficulty g
  /\ Game.detached (Game.updateSpawn inp g) = Game.detached g.
Proof.
  unfold Game.updateSpawn. game_fields.
  destruct (Qleb _ _); [|repeat split; reflexivity].
  apply (spawnCustomer_tally _ _
           (Game.set_lastSpawnTime 0
              (Game.set_lastSpawnTime (Game.lastSpawnTime g + Game.deltaTime inp)%Q g))).
Qed.

Lemma updateRemove_tally :
  tally_fields (Game.updateRemove g) = tally_fields g
  /\ Game.comboCount (Game.updateRemove g) = Game.comboCount g
  /\ Game.pendingRealMessages (Game.updateRemove g) = Game.pendingRealMessages g
  /\ Game.customerIdCounter (Game.updateRemove g) = Game.customerIdCounter g.
Proof.
  unfold Game.updateRemove.
  destruct (Game.removeFinished _ _) as [[k s] d]. repeat split; reflexivity.
Qed.

Lemma updateBottles_roster :
  roster_fields (Game.updateBottles inp g) = roster_fields g.
Proof. reflexivity. Qed.

Lemma updateBottles_tally :
  tally_fields (Game.updateBottles inp g) = tally_fields g
  /\ Game.comboCount (Game.updateBottles inp g) = Game.comboCount g.
Proof. split; reflexivity. Qed.

Lemma updateDifficulty_roster :
  roster_fields (Game.updateDifficulty g) = roster_fields g.
Proof. unfold Game.updateDifficulty. game_cases; reflexivity. Qed.

Lemma updateDifficulty_tally :
  tally_fields (Game.updateDifficulty g) = tally_fields g
  /\ Game.comboCount (Game.updateDifficulty g) = Game.comboCount g.
Proof. unfold Game.updateDifficulty. game_cases; split; reflexivity. Qed.

Lemma scoreServe_roster now customer bi :
  roster_fields (Game.scoreServe now customer bi g) = roster_fields g.
Proof.
  unfold Game.scoreServe. destruct (nth_error (Game.bottles g) bi); reflexivity.
Qed.

(** The score, the counters and the combo after the scoring of a serve. *)
Lemma scoreServe_tally now customer bi :
  let g' := Game.scoreServe now customer bi g in
  Game.score g' =
    Game.score g
    + (GAME_CONFIG.BASE_SCORE
       + Qfloor (Double.mul (Customer.getPatiencePercent customer)
                            GAME_CONFIG.PATIENCE_BONUS_MULTIPLIER)
       + Game.comboCount g * GAME_CONFIG.COMBO_BONUS) /\
  Game.customersServed g' = Game.customersServed g + 1 /\
  Game.comboCount g' = Game.comboCount g + 1 /\
  Game.maxCombo g' = Z.max (Game.maxCombo g) (Game.comboCount g + 1) /\
  Game.comboTimer g' = GAME_CONFIG.COMBO_TIMEOUT /\
  Game.customersLost g' = Game.customersLost g /\
  Game.state g' = Game.state g.
Proof.
  unfold Game.scoreServe.
  destruct (nth_error (Game.bottles g) bi); repeat split; reflexivity.
Qed.

End Untouched.

(** ** The invariant of the game *)

Record Game_ok (g : Game.t) : Prop := {
  ok_seated :
    Seated (roster (Game.customers g)) (Game.customerSlots g)
           (Game.customerIdCounter g);
  ok_customers :
    forall c, In c (Game.customers g ++ Game.detached g) -> Customer_ok c;
  ok_combo : 0 <= Game.comboCount g <= Game.maxCombo g
}.

(** Between two steps of the game, the customers marked as lost are the ones
    that storm off. *)
Definition Counted (cs : list Customer.t) : Prop :=
  forall c, In c cs ->
    Customer.countedAsLost c = customer_state_eqb (Customer.state c) STORMING_OFF.

Lemma Game_ok_same_roster (g g' : Game.t) :
  Game_ok g -> roster_fields g' = roster_fields g ->
  0 <= Game.comboCount g' <= Game.maxCombo g' -> Game_ok g'.
Proof.
  intros [Hs Hc _] Hr Hcombo. unfold roster_fields in Hr.
  injection Hr as H1 H2 H3 H4 _.
  constructor; [| |exact Hcombo]; rewrite ?H1, ?H2, ?H3, ?H4; assumption.
Qed.

Lemma roster_customers (g g' : Game.t) :
  roster_fields g' = roster_fields g -> Game.customers g' = Game.customers g.
Proof. unfold roster_fields. intros H. injection H. auto. Qed.

Lemma roster_pending (g g' : Game.t) :
  roster_fields g' = roster_fields g ->
  Game.pendingRealMessages g' = Game.pendingRealMessages g.
Proof. unfold roster_fields. intros H. injection H. auto. Qed.

Lemma tally_maxCombo (g g' : Game.t) :
  tally_fields g' = tally_fields g -> Game.maxCombo g' = Game.maxCombo g.
Proof. unfold tally_fields. intros H. injection H. auto. Qed.

Lemma tally_state (g g' : Game.t) :
  tally_fields g' = tally_fields g -> Game.state g' = Game.state g.
Proof. unfold tally_fields. intros H. injection H. auto. Qed.

Lemma tally_score (g g' : Game.t) :
  tally_fields g' = tally_fields g -> Game.score g' = Game.score g.
Proof. unfold tally_fields. intros H. injection H. auto. Qed.

Lemma tally_customersLost (g g' : Game.t) :
  tally_fields g' = tally_fields g -> Game.customersLost g' = Game.customersLost g.
Proof. unfold tally_fields. intros H. injection H. auto. Qed.

Lemma tally_customersServed (g g' : Game.t) :
  tally_fields g' = tally_fields g -> Game.customersServed g' = Game.customersServed g.
Proof. unfold tally_fields. intros H. injection H. auto. Qed.

Lemma roster_map (f : Customer.t -> Customer.t) (cs : list Customer.t) :
  (forall c, keeps c (f c)) -> roster (map f cs) = roster cs.
Proof.
  intros Hf. unfold roster. rewrite map_map. apply map_ext.
  intros c. destruct (Hf c). congruence.
Qed.

Lemma roster_app (cs1 cs2 : list Customer.t) :
  roster (cs1 ++ cs2) = roster cs1 ++ roster cs2.
Proof. apply map_app. Qed.

(** *** The constructor *)

Lemma customer_type_patience (i : nat) (d : CustomerType) :
  (i < length CUSTOMER_TYPES)%nat -> (0 < ct_patience (nth i CUSTOMER_TYPES d))%Q.
Proof.
  simpl. intros Hi.
  do 6 (destruct i as [|i]; [reflexivity|]). lia.
Qed.

Lemma new_customer options rnd now counter :
  let c := fst (Customer.new options rnd now counter) in
  snd (Customer.new options rnd now counter) = S counter /\
  Customer.id c = S counter /\
  Customer.state c = WALKING_IN /\
  Customer.countedAsLost c = false /\
  Customer.isReal c = Customer.o_isReal options /\
  Customer.phone c =
    str_or (Customer.o_phone options)
           (String.append "demo_" (string_of_nat (S counter))) /\
  (Customer.o_typeIndex options = None -> Customer_ok c).
Proof.
  unfold Customer.new. customer_fields.
  do 6 (split; [reflexivity|]).
  intros ->.
  assert (Hlen : length CUSTOMER_TYPES <> O) by (simpl; lia).
  assert (Hpos := customer_type_patience
            (random_index (Customer.r_type rnd) (length CUSTOMER_TYPES))
            (mkCustomerType EmptyString 0 0)
            (Nat.mod_upper_bound _ _ Hlen)).
  constructor; customer_fields; auto. now apply Qlt_le_weak.
Qed.

Lemma assignSlot_customer (i : nat) (c : Customer.t) :
  Customer.id (Customer.assignSlot i c) = Customer.id c /\
  Customer.slotIndex (Customer.assignSlot i c) = Some i /\
  Customer.state (Customer.assignSlot i c) = Customer.state c /\
  Customer.countedAsLost (Customer.assignSlot i c) = Customer.countedAsLost c /\
  Customer.isReal (Customer.assignSlot i c) = Customer.isReal c /\
  Customer.phone (Customer.assignSlot i c) = Customer.phone c /\
  (Customer_ok c -> Customer_ok (Customer.assignSlot i c)).
Proof.
  do 6 (split; [reflexivity|]). intros [Hp Hm Hl]. constructor; assumption.
Qed.

(** *** spawnCustomer *)

(** The options [spawnCustomer] builds the customer from. *)
Definition spawnOptions (g : Game.t) : Customer.Options :=
  match Game.pendingRealMessages g with
  | msgData :: _ =>
      Customer.mkOptions None (Game.p_name msgData) (Game.p_message msgData)
        (Game.p_phone msgData) true
  | [] => Customer.noOptions
  end.

Definition spawned (rnd : Customer.Random) (now : Z) (i : nat) (g : Game.t)
  : Customer.t :=
  Customer.assignSlot i
    (fst (Customer.new (spawnOptions g) rnd now (Game.customerIdCounter g))).

Lemma spawnCustomer_full rnd now (g : Game.t) :
  findIndex Game.isNull (Game.customerSlots g) = None ->
  Game.spawnCustomer rnd now g = g.
Proof. unfold Game.spawnCustomer. now intros ->. Qed.

Lemma spawnCustomer_free rnd now (g : Game.t) (i : nat) :
  findIndex Game.isNull (Game.customerSlots g) = Some i ->
  let g' := Game.spawnCustomer rnd now g in
  Game.customers g' = Game.customers g ++ [spawned rnd now i g] /\
  Game.customerSlots g' =
    array_set (Game.customerSlots g) i (Some (S (Game.customerIdCounter g))) /\
  Game.customerIdCounter g' = S (Game.customerIdCounter g) /\
  Game.pendingRealMessages g' = tl (Game.pendingRealMessages g).
Proof.
  intros Hf. unfold Game.spawnCustomer, spawned, spawnOptions. rewrite Hf.
  destruct (Game.pendingRealMessages g) as [|m rest];
    match goal with
    | |- context [Customer.new ?o ?r ?n ?k] =>
        pose proof (new_customer o r n k) as (H1 & H2 & _);
        destruct (Customer.new o r n k) as [c0 k'] eqn:E
    end; cbn [fst snd] in *; subst k';
    game_fields; cbn [Customer.assignSlot Customer.set_slot Customer.id];
    rewrite H2; repeat split; reflexivity.
Qed.

Lemma spawned_customer rnd now i (g : Game.t) :
  let c := spawned rnd now i g in
  Customer.id c = S (Game.customerIdCounter g) /\
  Customer.slotIndex c = Some i /\
  Customer.state c = WALKING_IN /\
  Customer.countedAsLost c = false /\
  Customer_ok c.
Proof.
  unfold spawned.
  pose proof (new_customer (spawnOptions g) rnd now (Game.customerIdCounter g))
    as (_ & H2 & H3 & H4 & _ & _ & H7).
  cbv zeta in *.
  destruct (assignSlot_customer i
              (fst (Customer.new (spawnOptions g) rnd now (Game.customerIdCounter g))))
    as (A1 & A2 & A3 & A4 & _ & _ & A7).
  do 4 (split; [congruence|]).
  apply A7, H7. unfold spawnOptions.
  destruct (Game.pendingRealMessages g); reflexivity.
Qed.

Lemma spawnCustomer_ok rnd now (g : Game.t) :
  Game_ok g -> Game_ok (Game.spawnCustomer rnd now g).
Proof.
  intros Hok.
  destruct (findIndex Game.isNull (Game.customerSlots g)) as [i|] eqn:Hf;
    [|now rewrite spawnCustomer_full].
  destruct (spawnCustomer_free rnd now g i Hf) as (Hc & Hs & Hn & _).
  destruct (spawnCustomer_tally rnd now g) as (Ht & Hcc & _ & Hd).
  destruct (spawned_customer rnd now i g) as (S1 & S2 & _ & _ & S5).
  destruct Hok as [Hseat Hcust Hcombo].
  constructor.
  - rewrite Hc, Hs, Hn, roster_app.
    change (roster [spawned rnd now i g])
      with [(Customer.id (spawned rnd now i g),
             Customer.slotIndex (spawned rnd now i g))].
    rewrite S1, S2. now apply Seated_spawn.
  - rewrite Hc, Hd. intros c Hin.
    apply in_app_or in Hin. destruct Hin as [Hin | Hin].
    + apply in_app_or in Hin. destruct Hin as [Hin | [<- | []]]; [|exact S5].
      apply Hcust. apply in_or_app. auto.
    + apply Hcust. apply in_or_app. auto.
  - rewrite Hcc, (tally_maxCombo _ _ Ht). exact Hcombo.
Qed.

Lemma spawnCustomer_counted rnd now (g : Game.t) :
  Counted (Game.customers g) -> Counted (Game.customers (Game.spawnCustomer rnd now g)).
Proof.
  intros Hc.
  destruct (findIndex Game.isNull (Game.customerSlots g)) as [i|] eqn:Hf;
    [|now rewrite spawnCustomer_full].
  destruct (spawnCustomer_free rnd now g i Hf) as (-> & _).
  destruct (spawned_customer rnd now i g) as (_ & _ & S3 & S4 & _).
  intros c Hin. apply in_app_or in Hin. destruct Hin as [Hin | [<- | []]].
  - auto.
  - now rewrite S3, S4.
Qed.

(** *** The customers of one tick *)

Lemma updateSpawn_ok (inp : Game.TickInput) (g : Game.t) :
  Game_ok g -> Game_ok (Game.updateSpawn inp g).
Proof.
  intros Hok. unfold Game.updateSpawn. game_fields.
  destruct (Qleb _ _).
  - apply spawnCustomer_ok.
    apply (Game_ok_same_roster g); [exact Hok | reflexivity | apply (ok_combo g Hok)].
  - apply (Game_ok_same_roster g); [exact Hok | reflexivity | apply (ok_combo g Hok)].
Qed.

Lemma updateSpawn_counted (inp : Game.TickInput) (g : Game.t) :
  Counted (Game.customers g) -> Counted (Game.customers (Game.updateSpawn inp g)).
Proof.
  intros Hc. unfold Game.updateSpawn. game_fields.
  destruct (Qleb _ _); [|exact Hc].
  apply spawnCustomer_counted. exact Hc.
Qed.

(** The customers after the spawn step: the ones before it, and at most one
    more, who walks in. *)
Lemma updateSpawn_customers (inp : Game.TickInput) (g : Game.t) :
  Game.customers (Game.updateSpawn inp g) = Game.customers g \/
  exists c, Game.customers (Game.updateSpawn inp g) = Game.customers g ++ [c]
            /\ Customer.state c = WALKING_IN.
Proof.
  unfold Game.updateSpawn. game_fields.
  destruct (Qleb _ _); [|left; reflexivity].
  match goal with |- context [Game.spawnCustomer ?r ?n ?g0] =>
    destruct (findIndex Game.isNull (Game.customerSlots g0)) as [i|] eqn:Hf;
    [ destruct (spawnCustomer_free r n g0 i Hf) as (Hc & _);
      destruct (spawned_customer r n i g0) as (_ & _ & S3 & _);
      right; exists (spawned r n i g0); split; [exact Hc | exact S3]
    | left; rewrite (spawnCustomer_full r n g0 Hf); reflexivity ]
  end.
Qed.

Lemma updateCustomers_ok (inp : Game.TickInput) (g : Game.t) :
  Game_ok g -> Game_ok (Game.updateCustomers inp g).
Proof.
  intros [Hs Hc Hcombo]. unfold Game.updateCustomers.
  constructor; game_fields; [| |exact Hcombo].
  - rewrite roster_map; [exact Hs|]. intros c. apply update_keeps.
  - intros c Hin. apply in_app_or in Hin. destruct Hin as [Hin | Hin].
    + apply in_map_iff in Hin. destruct Hin as (c0 & <- & Hin).
      apply update_ok, Hc, in_or_app. auto.
    + apply Hc, in_or_app. auto.
Qed.

(** The mark [checkLost] leaves on a customer. *)
Definition isNewlyLost (c : Customer.t) : bool :=
  customer_state_eqb (Customer.state c) STORMING_OFF
  && negb (Customer.countedAsLost c).

Definition markLost (c : Customer.t) : Customer.t :=
  if isNewlyLost c then Customer.set_countedAsLost true c else c.

Lemma markLost_keeps (c : Customer.t) :
  Customer.id (markLost c) = Customer.id c /\
  Customer.slotIndex (markLost c) = Customer.slotIndex c /\
  Customer.state (markLost c) = Customer.state c /\
  Customer.phone (markLost c) = Customer.phone c /\
  Customer.isReal (markLost c) = Customer.isReal c /\
  (Customer_ok c -> Customer_ok (markLost c)).
Proof.
  unfold markLost. destruct (isNewlyLost c); repeat split; auto.
  all: destruct H; assumption.
Qed.

(** The fields of the game that the loss loop does not write. *)
Definition unlost_fields (g : Game.t) :=
  (Game.score g, Game.customersServed g, Game.maxCombo g, Game.difficulty g,
   Game.bottles g).

Lemma checkLost_spec (cs : list Customer.t) :
  forall g : Game.t,
    let r := Game.checkLost cs g in
    let n := Z.of_nat (length (filter isNewlyLost cs)) in
    fst r = map markLost cs /\
    roster_fields (snd r) = roster_fields g /\
    unlost_fields (snd r) = unlost_fields g /\
    Game.customersLost (snd r) = Game.customersLost g + n /\
    (n = 0 -> snd r = g) /\
    (0 < n -> Game.comboCount (snd r) = 0 /\
              (GAME_CONFIG.MAX_LOST <= Game.customersLost (snd r) ->
               Game.state (snd r) = Game.gameover)) /\
    (Game.state (snd r) = Game.state g \/ Game.state (snd r) = Game.gameover) /\
    (Game.comboCount (snd r) = Game.comboCount g \/ Game.comboCount (snd r) = 0).
Proof.
  induction cs as [|c rest IH]; intros g.
  - simpl. repeat split; auto; lia.
  - cbn [Game.checkLost filter map]. unfold markLost at 1.
    fold (isNewlyLost c). destruct (isNewlyLost c) eqn:Enew.
    + match goal with |- context [Game.checkLost rest ?g2] =>
        specialize (IH g2); set (gg := g2) in *
      end.
      destruct (Game.checkLost rest gg) as [rest' g3]. cbn [fst snd length] in *.
      destruct IH as (I1 & I2 & I3 & I4 & I5 & I6 & I7 & I8).
      assert (Hgg : roster_fields gg = roster_fields g
                    /\ unlost_fields gg = unlost_fields g
                    /\ Game.customersLost gg = Game.customersLost g + 1
                    /\ Game.comboCount gg = 0
                    /\ (GAME_CONFIG.MAX_LOST <= Game.customersLost gg ->
                        Game.state gg = Game.gameover)
                    /\ (Game.state gg = Game.state g \/ Game.state gg = Game.gameover)).
      { subst gg. game_fields.
        destruct (GAME_CONFIG.MAX_LOST <=? Game.customersLost g + 1) eqn:E;
          game_fields; repeat split; auto.
        apply Z.leb_gt in E. intros. lia. }
      destruct Hgg as (G1 & G2 & G3 & G4 & G5 & G6).
      split; [congruence|]. split; [congruence|]. split; [congruence|].
      split; [lia|]. split; [lia|]. split; [|split].
      * intros _.
        destruct (Z.eq_dec (Z.of_nat (length (filter isNewlyLost rest))) 0) as [E0|E0].
        -- rewrite (I5 E0). split; [exact G4 | exact G5].
        -- apply I6. lia.
      * destruct I7 as [-> | ->]; auto.
      * destruct I8 as [-> | ->]; auto.
    + specialize (IH g).
      destruct (Game.checkLost rest g) as [rest' g3]. cbn [fst snd] in *.
      destruct IH as (I1 & I2 & I3 & I4 & I5 & I6 & I7 & I8).
      repeat split; auto; try congruence.
      * apply I6; assumption.
      * apply I6; assumption.
Qed.

Lemma updateLost_spec (g : Game.t) :
  let g' := Game.updateLost g in
  let n := Z.of_nat (length (filter isNewlyLost (Game.customers g))) in
  Game.customers g' = map markLost (Game.customers g) /\
  (Game.customerSlots g' = Game.customerSlots g /\
   Game.customerIdCounter g' = Game.customerIdCounter g /\
   Game.detached g' = Game.detached g /\
   Game.pendingRealMessages g' = Game.pendingRealMessages g) /\
  unlost_fields g' = unlost_fields g /\
  Game.customersLost g' = Game.customersLost g + n /\
  (n = 0 -> Game.state g' = Game.state g /\ Game.comboCount g' = Game.comboCount g) /\
  (0 < n -> Game.comboCount g' = 0 /\
            (GAME_CONFIG.MAX_LOST <= Game.customersLost g' ->
             Game.state g' = Game.gameover)) /\
  (Game.state g' = Game.state g \/ Game.state g' = Game.gameover) /\
  (Game.comboCount g' = Game.comboCount g \/ Game.comboCount g' = 0).
Proof.
  unfold Game.updateLost.
  pose proof (checkLost_spec (Game.customers g) g) as H. cbv zeta in H.
  destruct (Game.checkLost (Game.customers g) g) as [cs g1].
  cbn [fst snd] in H. destruct H as (H1 & H2 & H3 & H4 & H5 & H6 & H7 & H8).
  unfold roster_fields in H2. injection H2 as _ R2 R3 R4 R5.
  cbv zeta. game_fields.
  split; [exact H1|]. split; [auto|]. split; [exact H3|]. split; [exact H4|].
  split; [|auto].
  intros Hn. rewrite (H5 Hn). auto.
Qed.

Lemma updateLost_ok (g : Game.t) : Game_ok g -> Game_ok (Game.updateLost g).
Proof.
  intros [Hs Hc Hcombo].
  destruct (updateLost_spec g) as (H1 & (R2 & R3 & R4 & _) & H3 & _ & _ & _ & _ & H8).
  pose proof (f_equal (fun p => snd (fst (fst p))) H3) as Hmax.
  cbn [fst snd unlost_fields] in Hmax.
  constructor.
  - rewrite H1, R2, R3.
    replace (roster (map markLost (Game.customers g))) with (roster (Game.customers g));
      [exact Hs|].
    unfold roster. rewrite map_map. apply map_ext. intros c.
    destruct (markLost_keeps c) as (-> & -> & _). reflexivity.
  - rewrite H1, R4. intros c Hin. apply in_app_or in Hin. destruct Hin as [Hin|Hin].
    + apply in_map_iff in Hin. destruct Hin as (c0 & <- & Hin).
      apply markLost_keeps, Hc, in_or_app. auto.
    + apply Hc, in_or_app. auto.
  - rewrite Hmax. destruct H8 as [-> | ->]; lia.
Qed.

(** After the loss loop every customer that storms off is marked, if the
    marked ones stormed off before it. *)
Lemma updateLost_counted (g : Game.t) :
  (forall c, In c (Game.customers g) ->
     Customer.countedAsLost c = true -> Customer.state c = STORMING_OFF) ->
  Counted (Game.customers (Game.updateLost g)).
Proof.
  intros Hpre. destruct (updateLost_spec g) as (-> & _).
  intros c Hin. apply in_map_iff in Hin. destruct Hin as (c0 & <- & Hin).
  specialize (Hpre c0 Hin). unfold markLost, isNewlyLost.
  destruct (Customer.countedAsLost c0) eqn:Ec; cbn [negb].
  - rewrite andb_false_r, Ec, (Hpre eq_refl). reflexivity.
  - rewrite andb_true_r.
    destruct (customer_state_eqb (Customer.state c0) STORMING_OFF) eqn:Es;
      customer_fields; rewrite ?Es, ?Ec; reflexivity.
Qed.

Lemma updateRemove_spec (g : Game.t) :
  let g' := Game.updateRemove g in
  Game.customers g'
    = filter (fun c => negb (Customer.isRemovable c)) (Game.customers g) /\
  Game.customerSlots g'
    = snd (fst (Game.removeFinished (Game.customers g) (Game.customerSlots g))) /\
  Game.detached g'
    = Game.detached g ++ filter Customer.isRemovable (Game.customers g).
Proof.
  unfold Game.updateRemove.
  destruct (removeFinished_lists (Game.customers g) (Game.customerSlots g)) as [H1 H2].
  destruct (Game.removeFinished _ _) as [[k s] d]. cbn [fst snd] in *.
  cbv zeta. game_fields. subst. auto.
Qed.

Lemma updateRemove_ok (g : Game.t) : Game_ok g -> Game_ok (Game.updateRemove g).
Proof.
  intros [Hs Hc Hcombo].
  destruct (updateRemove_spec g) as (H1 & H2 & H3).
  destruct (updateRemove_tally g) as (Ht & Hcc & _ & Hn).
  pose proof (removeFinished_seated (Game.customers g) [] _ _ Hs) as Hseat.
  destruct (removeFinished_lists (Game.customers g) (Game.customerSlots g)) as [L1 _].
  constructor.
  - rewrite H1, H2, Hn. rewrite L1 in Hseat. exact Hseat.
  - rewrite H1, H3. intros c Hin. apply Hc.
    apply in_app_or in Hin. apply in_or_app.
    destruct Hin as [Hin | Hin].
    + apply filter_In in Hin. tauto.
    + apply in_app_or in Hin. destruct Hin as [Hin | Hin]; [tauto|].
      apply filter_In in Hin. tauto.
  - rewrite Hcc, (tally_maxCombo _ _ Ht). exact Hcombo.
Qed.

(** *** One tick *)

Lemma update_playing (inp : Game.TickInput) (g : Game.t) :
  Game.state g = Game.playing ->
  Game.update inp g =
    Game.updateDifficulty
      (Game.updateBottles inp
         (Game.updateRemove
            (Game.updateLost
               (Game.updateCustomers inp
                  (Game.updateSpawn inp
                     (Game.updateApiPoll (Game.deltaTime inp)
                        (Game.updateComboTimer (Game.deltaTime inp) g))))))).
Proof. intros H. unfold Game.update. rewrite H. reflexivity. Qed.

Lemma update_idle (inp : Game.TickInput) (g : Game.t) :
  Game.state g <> Game.playing -> Game.update inp g = g.
Proof.
  intros H. unfold Game.update. destruct (Game.state g); try reflexivity.
  congruence.
Qed.

Lemma updateComboTimer_ok (inp : Game.TickInput) (g : Game.t) :
  Game_ok g -> Game_ok (Game.updateComboTimer (Game.deltaTime inp) g).
Proof.
  intros Hok. apply (Game_ok_same_roster g); [exact Hok | apply updateComboTimer_roster |].
  destruct (updateComboTimer_tally inp g) as [Ht _].
  rewrite (tally_maxCombo _ _ Ht).
  pose proof (ok_combo g Hok).
  destruct (updateComboTimer_combo inp g) as [-> | ->]; lia.
Qed.

Lemma updateApiPoll_ok (inp : Game.TickInput) (g : Game.t) :
  Game_ok g -> Game_ok (Game.updateApiPoll (Game.deltaTime inp) g).
Proof.
  intros Hok. apply (Game_ok_same_roster g); [exact Hok | apply updateApiPoll_roster |].
  destruct (updateApiPoll_tally inp g) as (Ht & -> & _).
  rewrite (tally_maxCombo _ _ Ht). apply (ok_combo g Hok).
Qed.

Lemma updateBottles_ok (inp : Game.TickInput) (g : Game.t) :
  Game_ok g -> Game_ok (Game.updateBottles inp g).
Proof.
  intros Hok. apply (Game_ok_same_roster g); [exact Hok | reflexivity |].
  apply (ok_combo g Hok).
Qed.

Lemma updateDifficulty_ok (g : Game.t) :
  Game_ok g -> Game_ok (Game.updateDifficulty g).
Proof.
  intros Hok. apply (Game_ok_same_roster g); [exact Hok | apply updateDifficulty_roster |].
  destruct (updateDifficulty_tally g) as (Ht & ->).
  rewrite (tally_maxCombo _ _ Ht). apply (ok_combo g Hok).
Qed.

Lemma update_game_ok (inp : Game.TickInput) (g : Game.t) :
  Game_ok g -> Game_ok (Game.update inp g).
Proof.
  intros Hok.
  destruct (Game.state g) eqn:Es;
    try (rewrite update_idle; [exact Hok | congruence]).
  rewrite (update_playing inp g Es).
  apply updateDifficulty_ok, updateBottles_ok, updateRemove_ok, updateLost_ok,
    updateCustomers_ok, updateSpawn_ok, updateApiPoll_ok, updateComboTimer_ok.
  exact Hok.
Qed.

Lemma Counted_storming (cs : list Customer.t) (c : Customer.t) :
  Counted cs -> In c cs ->
  Customer.countedAsLost c = true -> Customer.state c = STORMING_OFF.
Proof.
  intros Hc Hin Ht. rewrite (Hc c Hin) in Ht.
  now apply customer_state_eqb_eq.
Qed.

Lemma update_counted (inp : Game.TickInput) (g : Game.t) :
  Counted (Game.customers g) -> Counted (Game.customers (Game.update inp g)).
Proof.
  intros Hc.
  destruct (Game.state g) eqn:Es;
    try (rewrite update_idle; [exact Hc | congruence]).
  rewrite (update_playing inp g Es).
  set (g1 := Game.updateComboTimer (Game.deltaTime inp) g).
  set (g2 := Game.updateApiPoll (Game.deltaTime inp) g1).
  set (g3 := Game.updateSpawn inp g2).
  set (g4 := Game.updateCustomers inp g3).
  set (g5 := Game.updateLost g4).
  set (g6 := Game.updateRemove g5).
  assert (H3 : Counted (Game.customers g3)).
  { apply updateSpawn_counted.
    unfold g2, g1.
    rewrite (roster_customers _ _ (updateApiPoll_roster inp _)),
      (roster_customers _ _ (updateComboTimer_roster inp g)).
    exact Hc. }
  assert (H5 : Counted (Game.customers g5)).
  { apply updateLost_counted. intros c4 Hin Hcount.
    unfold g4, Game.updateCustomers in Hin. game_fields_in Hin.
    apply in_map_iff in Hin. destruct Hin as (c & <- & Hin).
    pose proof (update_keeps (Game.shake inp (Customer.id c)) (Game.deltaTime inp)
                  (Game.difficulty g3) c) as Hk.
    rewrite (keeps_countedAsLost _ _ Hk) in Hcount.
    pose proof (Counted_storming _ _ H3 Hin Hcount) as Hst.
    destruct (update_leaving (Game.shake inp (Customer.id c)) (Game.deltaTime inp)
                (Game.difficulty g3) c) as [-> _]; [now rewrite Hst | exact Hst]. }
  assert (H6 : Counted (Game.customers g6)).
  { destruct (updateRemove_spec g5) as (H & _). fold g6 in H. rewrite H.
    intros c Hin. apply filter_In in Hin. apply H5. tauto. }
  rewrite (roster_customers _ _ (updateDifficulty_roster _)),
    (roster_customers _ _ (updateBottles_roster inp g6)).
  exact H6.
Qed.

(** *** serveCustomer *)

Definition seats_fields (g : Game.t) :=
  (Game.customers g, Game.customerSlots g, Game.customerIdCounter g,
   Game.detached g).

Lemma Game_ok_same_seats (g g' : Game.t) :
  Game_ok g -> seats_fields g' = seats_fields g ->
  0 <= Game.comboCount g' <= Game.maxCombo g' -> Game_ok g'.
Proof.
  intros [Hs Hc _] Hr Hcombo. unfold seats_fields in Hr.
  injection Hr as H1 H2 H3 H4.
  constructor; [| |exact Hcombo]; rewrite ?H1, ?H2, ?H3, ?H4; assumption.
Qed.

(** The customer after an accepted [serve()]. *)
Definition served (c : Customer.t) : Customer.t :=
  Customer.set_state HAPPY 0 150 (Customer.set_isServed true c).

(** The game after [customer.serve()] accepted the customer at position [i]. *)
Definition withServed (i : nat) (c : Customer.t) (g : Game.t) : Game.t :=
  Game.set_customers (array_set (Game.customers g) i (served c)) g.

(** [serveCustomer] gets past its guards: a bottle is selected, unlocked and
    off cooldown, and the customer is neither served nor leaving. *)
Record Servable (now : Z) (i : nat) (g : Game.t) (bi : nat) (c : Customer.t)
  : Prop := {
  servable_selected : Game.selectedBottleIndex g = Some bi;
  servable_bottle :
    exists bottle, nth_error (Game.bottles g) bi = Some bottle /\
                   bt_locked (Bottle.type bottle) = false /\
                   Bottle.isOnCooldown now bottle = false;
  servable_customer : nth_error (Game.customers g) i = Some c;
  servable_isServed : Customer.isServed c = false;
  servable_isLeaving : Customer.isLeaving c = false
}.

Lemma serveCustomer_cases (now : Z) (i : nat) (g : Game.t) :
  Game.serveCustomer now i g = g \/
  exists bi c,
    Servable now i g bi c /\
    ((Customer.isReal c && negb (Game.demoMode g) = true /\
      Game.serveCustomer now i g =
        Game.set_servesInFlight
          (Game.servesInFlight g ++ [(Customer.id c, bi)]) (withServed i c g))
     \/
     (Customer.isReal c && negb (Game.demoMode g) = false /\
      Game.serveCustomer now i g = Game.scoreServe now (served c) bi (withServed i c g))).
Proof.
  unfold Game.serveCustomer.
  destruct (Game.selectedBottleIndex g) as [bi|] eqn:Esel; [|auto].
  destruct (nth_error (Game.bottles g) bi) as [bottle|] eqn:Eb; [|auto].
  destruct (nth_error (Game.customers g) i) as [c|] eqn:Ec; [|auto].
  destruct (bt_locked (Bottle.type bottle)) eqn:El; [auto|].
  destruct (Bottle.isOnCooldown now bottle) eqn:Ecd; [auto|].
  unfold Customer.serve.
  destruct (Customer.isServed c) eqn:Esv; [auto|].
  destruct (Customer.isLeaving c) eqn:Elv; [auto|].
  cbn [orb negb]. right. exists bi, c. split.
  - constructor; auto. exists bottle. auto.
  - fold (served c). fold (withServed i c g).
    change (Customer.isReal (served c)) with (Customer.isReal c).
    change (Game.demoMode (withServed i c g)) with (Game.demoMode g).
    change (Customer.id (served c)) with (Customer.id c).
    change (Game.servesInFlight (withServed i c g)) with (Game.servesInFlight g).
    destruct (Customer.isReal c && negb (Game.demoMode g)); auto.
Qed.

Lemma served_ok (c : Customer.t) :
  Customer_ok c -> Customer.isLeaving c = false -> Customer_ok (served c).
Proof. intros [Hp Hm Hl] Hlv. constructor; auto. Qed.

Lemma withServed_ok now i g bi c :
  Game_ok g -> Servable now i g bi c -> Game_ok (withServed i c g).
Proof.
  intros [Hs Hc Hcombo] [_ _ Hnth _ Hlv].
  constructor; unfold withServed; game_fields; [| |exact Hcombo].
  - unfold roster. rewrite (array_set_map _ _ _ _ c Hnth); [exact Hs | reflexivity].
  - intros c1 Hin. apply in_app_or in Hin. destruct Hin as [Hin | Hin].
    + apply array_set_In in Hin. destruct Hin as [-> | Hin].
      * apply served_ok; [|exact Hlv].
        apply Hc, in_or_app. left. eapply nth_error_In; eauto.
      * apply Hc, in_or_app. auto.
    + apply Hc, in_or_app. auto.
Qed.

Lemma withServed_counted now i g bi c :
  Game_ok g -> Counted (Game.customers g) -> Servable now i g bi c ->
  Counted (Game.customers (withServed i c g)).
Proof.
  intros Hok Hcount [_ _ Hnth _ Hlv] c1 Hin.
  unfold withServed in Hin. game_fields_in Hin.
  apply array_set_In in Hin. destruct Hin as [-> | Hin]; [|auto].
  assert (Hin : In c (Game.customers g)) by (eapply nth_error_In; eauto).
  assert (Hok_c : Customer_ok c) by (apply (ok_customers g Hok), in_or_app; auto).
  change (Customer.countedAsLost (served c)) with (Customer.countedAsLost c).
  rewrite (Hcount c Hin). rewrite (ok_isLeaving c Hok_c) in Hlv.
  destruct (Customer.state c); try discriminate; reflexivity.
Qed.

Lemma scoreServe_ok now customer bi (g : Game.t) :
  Game_ok g -> Game_ok (Game.scoreServe now customer bi g).
Proof.
  intros Hok.
  pose proof (scoreServe_roster g now customer bi) as Hr.
  destruct (scoreServe_tally g now customer bi) as (_ & _ & Hc & Hm & _).
  apply (Game_ok_same_roster g); [exact Hok | exact Hr |].
  rewrite Hc, Hm. pose proof (ok_combo g Hok). lia.
Qed.

Lemma serveCustomer_ok now i (g : Game.t) :
  Game_ok g -> Game_ok (Game.serveCustomer now i g).
Proof.
  intros Hok.
  destruct (serveCustomer_cases now i g) as [-> | (bi & c & Hsv & [[_ ->] | [_ ->]])];
    [exact Hok | |].
  - apply (Game_ok_same_seats (withServed i c g));
      [eapply withServed_ok; eauto | reflexivity |].
    apply (ok_combo g Hok).
  - apply scoreServe_ok. eapply withServed_ok; eauto.
Qed.

Lemma serveCustomer_counted now i (g : Game.t) :
  Game_ok g -> Counted (Game.customers g) ->
  Counted (Game.customers (Game.serveCustomer now i g)).
Proof.
  intros Hok Hcount.
  destruct (serveCustomer_cases now i g) as [-> | (bi & c & Hsv & [[_ ->] | [_ ->]])];
    [exact Hcount | |].
  - game_fields. eapply withServed_counted; eauto.
  - rewrite (roster_customers _ _
               (scoreServe_roster (withServed i c g) now (served c) bi)).
    eapply withServed_counted; eauto.
Qed.

(** *** The other steps *)

Definition Inv (g : Game.t) : Prop := Game_ok g /\ Counted (Game.customers g).

Lemma new_inv : Inv Game.new.
Proof.
  split.
  - constructor.
    + apply Seated_empty.
    + intros c [].
    + simpl. lia.
  - intros c [].
Qed.

Lemma update_inv (inp : Game.TickInput) (g : Game.t) :
  Inv g -> Inv (Game.update inp g).
Proof.
  intros [H1 H2]. split; [apply update_game_ok | apply update_counted]; assumption.
Qed.

Lemma serveCustomer_inv now i (g : Game.t) :
  Inv g -> Inv (Game.serveCustomer now i g).
Proof.
  intros [H1 H2].
  split; [apply serveCustomer_ok | apply serveCustomer_counted]; assumption.
Qed.

Lemma findCustomer_In (cid : nat) (g : Game.t) (c : Customer.t) :
  Game.findCustomer cid g = Some c ->
  In c (Game.customers g ++ Game.detached g) /\ Customer.id c = cid.
Proof.
  unfold Game.findCustomer. intros H. apply find_some in H.
  destruct H as [Hin Hid]. apply Nat.eqb_eq in Hid. auto.
Qed.

Lemma serveCustomer_resume_cases now k (g : Game.t) :
  Game.serveCustomer_resume now k g = g \/
  exists q,
    let g1 := Game.set_servesInFlight q g in
    Game.serveCustomer_resume now k g = g1 \/
    exists c bi, In c (Game.customers g ++ Game.detached g) /\
                 Game.serveCustomer_resume now k g = Game.scoreServe now c bi g1.
Proof.
  unfold Game.serveCustomer_resume.
  destruct (nth_error (Game.servesInFlight g) k) as [[cid bi]|]; [|auto].
  right. exists (Game.remove_nth k (Game.servesInFlight g)). cbv zeta.
  destruct (Game.findCustomer cid _) as [c|] eqn:Ef; [|auto].
  right. exists c, bi. split; [|reflexivity].
  apply findCustomer_In in Ef. apply Ef.
Qed.

Lemma serveCustomer_resume_inv now k (g : Game.t) :
  Inv g -> Inv (Game.serveCustomer_resume now k g).
Proof.
  intros [Hok Hcount].
  assert (H1 : forall q, Inv (Game.set_servesInFlight q g)).
  { intros q. split; [|exact Hcount].
    apply (Game_ok_same_roster g); [exact Hok | reflexivity | apply (ok_combo g Hok)]. }
  destruct (serveCustomer_resume_cases now k g)
    as [-> | (q & [-> | (c & bi & _ & ->)])]; [split; assumption | apply H1 |].
  destruct (H1 q) as [Hok1 Hcount1].
  split; [apply scoreServe_ok; exact Hok1|].
  rewrite (roster_customers _ _ (scoreServe_roster _ now c bi)). exact Hcount1.
Qed.

(** The fields that neither the poll nor a click on a bottle writes. *)
Definition core_fields (g : Game.t) :=
  (seats_fields g, tally_fields g, Game.comboCount g, Game.bottles g,
   Game.servesInFlight g, Game.demoMode g, Game.comboTimer g).

Lemma core_seats (g g' : Game.t) :
  core_fields g' = core_fields g -> seats_fields g' = seats_fields g.
Proof.
  intros H. apply (f_equal (fun p => fst (fst (fst (fst (fst (fst p))))))) in H.
  exact H.
Qed.

Lemma core_tally (g g' : Game.t) :
  core_fields g' = core_fields g -> tally_fields g' = tally_fields g.
Proof.
  intros H. apply (f_equal (fun p => snd (fst (fst (fst (fst (fst p))))))) in H.
  exact H.
Qed.

Lemma core_comboCount (g g' : Game.t) :
  core_fields g' = core_fields g -> Game.comboCount g' = Game.comboCount g.
Proof.
  intros H. apply (f_equal (fun p => snd (fst (fst (fst (fst p)))))) in H.
  exact H.
Qed.

Lemma core_comboTimer (g g' : Game.t) :
  core_fields g' = core_fields g -> Game.comboTimer g' = Game.comboTimer g.
Proof. intros H. apply (f_equal snd) in H. exact H. Qed.

Lemma core_inv (g g' : Game.t) :
  core_fields g' = core_fields g -> Inv g -> Inv g'.
Proof.
  intros H [Hok Hcount].
  pose proof (core_seats _ _ H) as Hs. pose proof (core_tally _ _ H) as Ht.
  pose proof (core_comboCount _ _ H) as Hc.
  split.
  - apply (Game_ok_same_seats g); [exact Hok | exact Hs |].
    rewrite Hc, (tally_maxCombo _ _ Ht). apply (ok_combo g Hok).
  - unfold seats_fields in Hs. injection Hs as -> _ _ _. exact Hcount.
Qed.

Lemma enqueueMessage_core (g : Game.t) (msg : Game.ApiMessage) :
  core_fields (Game.enqueueMessage g msg) = core_fields g.
Proof. unfold Game.enqueueMessage. game_cases; reflexivity. Qed.

Lemma enqueue_all_core (messages : list Game.ApiMessage) :
  forall g, core_fields (fold_left Game.enqueueMessage messages g) = core_fields g.
Proof.
  induction messages as [|m rest IH]; intros g; simpl; [reflexivity|].
  rewrite IH. apply enqueueMessage_core.
Qed.

Lemma pollIncomingMessages_resume_core success messages (g : Game.t) :
  core_fields (Game.pollIncomingMessages_resume success messages g) = core_fields g.
Proof.
  unfold Game.pollIncomingMessages_resume.
  destruct (Game.pollsInFlight g); [reflexivity|].
  destruct (success && _); [|reflexivity].
  rewrite enqueue_all_core. reflexivity.
Qed.

Lemma clickBottles_core x y (g : Game.t) :
  core_fields (Game.clickBottles x y g) = core_fields g /\
  Game.pendingRealMessages (Game.clickBottles x y g) = Game.pendingRealMessages g /\
  Game.customers (Game.clickBottles x y g) = Game.customers g.
Proof.
  unfold Game.clickBottles.
  generalize (combine (seq 0 (length (Game.bottles g))) (Game.bottles g)) as l.
  intros l. revert g.
  induction l as [|[index bottle] rest IH]; intros g; simpl; [auto|].
  destruct (Bottle.containsPoint x y bottle && _).
  - destruct (IH (Game.set_selectedBottleIndex (Some index) g)) as (-> & -> & ->).
    auto.
  - apply IH.
Qed.

(** Whatever every [serveCustomer] keeps, the clicks on customers keep. *)
Lemma clickCustomers_preserves (P : Game.t -> Prop) now x y (g : Game.t) :
  (forall i g0, P g0 -> P (Game.serveCustomer now i g0)) ->
  P g -> P (Game.clickCustomers now x y g).
Proof.
  intros Hserve. unfold Game.clickCustomers.
  generalize (seq 0 (length (Game.customers g))) as l. intros l. revert g.
  induction l as [|i rest IH]; intros g Hg; simpl; [exact Hg|].
  apply IH.
  destruct (nth_error (Game.customers g) i) as [c|]; [|exact Hg].
  destruct (Customer.containsPoint x y c && _ && _); auto.
Qed.

Lemma startGame_inv (g : Game.t) : Inv g -> Inv (Game.startGame g).
Proof.
  intros [[Hs Hc Hcombo] Hcount]. split.
  - constructor; unfold Game.startGame; game_fields.
    + apply Seated_empty.
    + intros c Hin. apply Hc. simpl in Hin.
      apply in_app_or in Hin. apply in_or_app. tauto.
    + lia.
  - intros c [].
Qed.

Lemma handleClick_inv now x y (g : Game.t) : Inv g -> Inv (Game.handleClick now x y g).
Proof.
  intros Hinv. unfold Game.handleClick.
  destruct (Game.state_eqb (Game.state g) Game.menu
            || Game.state_eqb (Game.state g) Game.gameover).
  - destruct (Game.onStartButton x y); [apply startGame_inv|]; exact Hinv.
  - destruct (Game.onMuteButton x y).
    + apply (core_inv g); [reflexivity | exact Hinv].
    + destruct (negb (Game.state_eqb (Game.state g) Game.playing)); [exact Hinv|].
      apply clickCustomers_preserves.
      * intros i g0. apply serveCustomer_inv.
      * apply (core_inv g); [apply clickBottles_core | exact Hinv].
Qed.

Lemma step_inv (g : Game.t) (e : Game.Event) : Inv g -> Inv (Game.step g e).
Proof.
  intros Hinv. destruct e; cbn [Game.step].
  - now apply update_inv.
  - now apply handleClick_inv.
  - now apply serveCustomer_inv.
  - now apply serveCustomer_resume_inv.
  - apply (core_inv g); [apply pollIncomingMessages_resume_core | exact Hinv].
  - now apply startGame_inv.
  - now apply startGame_inv.
  - unfold Game.pause. destruct (Game.state_eqb _ _); [|exact Hinv].
    destruct Hinv as [Hok Hc]. split; [|exact Hc].
    apply (Game_ok_same_roster g); [exact Hok | reflexivity | apply (ok_combo g Hok)].
  - unfold Game.resume. destruct (Game.state_eqb _ _); [|exact Hinv].
    destruct Hinv as [Hok Hc]. split; [|exact Hc].
    apply (Game_ok_same_roster g); [exact Hok | reflexivity | apply (ok_combo g Hok)].
  - destruct Hinv as [Hok Hc]. split; [|exact Hc].
    apply (Game_ok_same_roster g); [exact Hok | reflexivity | apply (ok_combo g Hok)].
Qed.

Lemma run_inv (events : list Game.Event) :
  forall g, Inv g -> Inv (Game.run events g).
Proof.
  induction events as [|e rest IH]; intros g Hinv; simpl; [exact Hinv|].
  apply IH, step_inv, Hinv.
Qed.

Lemma reachable_inv (events : list Game.Event) : Inv (Game.run events Game.new).
Proof. apply run_inv, new_inv. Qed.

(** ** Capacity *)

Lemma findIndex_full {A : Type} (p : A -> bool) (l : list A) :
  (forall a, In a l -> p a = false) -> findIndex p l = None.
Proof.
  induction l as [|h t IH]; intros H; simpl; [reflexivity|].
  rewrite (H h (or_introl eq_refl)), IH; [reflexivity|].
  intros a Ha. apply H. now right.
Qed.

(** C4: in every game reached from a new one, the occupied slots are as many
    as the active customers and never more than [MAX_CUSTOMERS], which is 6.
    A spawn attempt that finds no [null] slot leaves the whole game, the
    pending queue included, as it is; one that finds a [null] slot appends one
    customer and seats it at the first [null] index. *)
Theorem C4_capacity_and_first_free_slot :
  (forall events : list Game.Event,
      let g := Game.run events Game.new in
      (occupied (Game.customerSlots g) <= GAME_CONFIG.MAX_CUSTOMERS)%nat /\
      occupied (Game.customerSlots g) = length (Game.customers g) /\
      (length (Game.customers g) <= GAME_CONFIG.MAX_CUSTOMERS)%nat /\
      GAME_CONFIG.MAX_CUSTOMERS = 6%nat) /\
  (forall rnd now (g : Game.t),
      (forall slot, In slot (Game.customerSlots g) -> slot <> None) ->
      Game.spawnCustomer rnd now g = g) /\
  (forall rnd now (g : Game.t) (i : nat),
      findIndex Game.isNull (Game.customerSlots g) = Some i ->
      let g' := Game.spawnCustomer rnd now g in
      nth_error (Game.customerSlots g) i = Some None /\
      (forall j slot, (j < i)%nat ->
         nth_error (Game.customerSlots g) j = Some slot -> slot <> None) /\
      exists c,
        Game.customers g' = Game.customers g ++ [c] /\
        Customer.slotIndex c = Some i /\
        nth_error (Game.customerSlots g') i = Some (Some (Customer.id c))).
Proof.
  split; [|split].
  - intros events g.
    destruct (reachable_inv events) as [[Hs _ _] _]. fold g in Hs.
    pose proof (Seated_capacity _ _ _ Hs) as Hcap.
    pose proof (seated_count _ _ _ Hs) as Hcount.
    unfold roster in *. rewrite length_map in *.
    repeat split; auto. rewrite Hcount. exact Hcap.
  - intros rnd now g Hfull. apply spawnCustomer_full, findIndex_full.
    intros [v|] Hin; [reflexivity|]. now apply Hfull in Hin.
  - intros rnd now g i Hf g'.
    destruct (findIndex_Some Game.isNull _ i Hf) as [(a & Ha & Hnull) Hmin].
    destruct a as [v|]; [discriminate|].
    split; [exact Ha|]. split.
    + intros j slot Hj Hnth ->. specialize (Hmin j None Hj Hnth). discriminate.
    + destruct (spawnCustomer_free rnd now g i Hf) as (Hc & Hs & _).
      destruct (spawned_customer rnd now i g) as (S1 & S2 & _).
      exists (spawned rnd now i g). fold g' in Hc, Hs.
      split; [exact Hc|]. split; [exact S2|].
      rewrite Hs, S1. apply array_set_same. eapply nth_error_lt; eauto.
Qed.

(** A tick of six seconds at time 0, with the random source at its first
    choices. *)
Definition slowTick : Game.TickInput :=
  Game.mkTickInput 6000 0 (Customer.mkRandom 0 0 0) (fun _ => 0.5%Q).

(** A round started and ticked six times, six seconds each: every tick
    spawns one customer, and the bar is full. *)
Definition fullEvents : list Game.Event :=
  [Game.EStart; Game.ETick slowTick; Game.ETick slowTick;
   Game.ETick slowTick; Game.ETick slowTick; Game.ETick slowTick;
   Game.ETick slowTick].

Abbreviation fullGame := (Game.run fullEvents Game.new).

(** The same round after its first tick: one customer, at slot 0. *)
Definition oneCustomerEvents : list Game.Event :=
  [Game.EStart; Game.ETick slowTick].

Abbreviation oneCustomerGame := (Game.run oneCustomerEvents Game.new).

Lemma fullGame_slots :
  Game.customerSlots fullGame = [Some 1; Some 2; Some 3; Some 4; Some 5; Some 6]%nat.
Proof. vm_compute. reflexivity. Qed.

Lemma oneCustomerGame_free :
  findIndex Game.isNull (Game.customerSlots oneCustomerGame) = Some 1%nat.
Proof. vm_compute. reflexivity. Qed.

Lemma C4_witness :
  Game.spawnCustomer (Customer.mkRandom 0 0 0) 0 fullGame = fullGame /\
  exists c,
    Game.customers (Game.spawnCustomer (Customer.mkRandom 0 0 0) 0 oneCustomerGame)
      = Game.customers oneCustomerGame ++ [c] /\
    Customer.slotIndex c = Some 1%nat.
Proof.
  destruct C4_capacity_and_first_free_slot as (_ & Hfull & Hfree).
  split.
  - apply Hfull. intros slot Hin. rewrite fullGame_slots in Hin.
    cbn [In] in Hin.
    repeat (destruct Hin as [<- | Hin]; [discriminate|]). destruct Hin.
  - destruct (Hfree (Customer.mkRandom 0 0 0) 0 oneCustomerGame 1%nat
                oneCustomerGame_free)
      as (_ & _ & c & Hc & Hs & _).
    exists c. split; assumption.
Defined.


(** ** Losing a customer *)

(** The customer is not storming off before the tick and is after its
    update in the tick. *)
Definition stormsOffNow (inp : Game.TickInput) (g : Game.t) (c : Customer.t)
  : bool :=
  negb (customer_state_eqb (Customer.state c) STORMING_OFF)
  && customer_state_eqb
       (Customer.state
          (Customer.update (Game.shake inp (Customer.id c)) (Game.deltaTime inp)
             (Game.difficulty g) c))
       STORMING_OFF.

(** The customers that enter the storming-off state in this tick. *)
Definition entered (inp : Game.TickInput) (g : Game.t) : list Customer.t :=
  filter (stormsOffNow inp g) (Game.customers g).

Lemma filter_map_length {A B : Type} (f : A -> B) (p : B -> bool) (l : list A) :
  length (filter p (map f l)) = length (filter (fun a => p (f a)) l).
Proof.
  induction l as [|a l IH]; simpl; [reflexivity|].
  destruct (p (f a)); simpl; congruence.
Qed.

Lemma updateCustomers_tally (inp : Game.TickInput) (g : Game.t) :
  tally_fields (Game.updateCustomers inp g) = tally_fields g /\
  Game.comboCount (Game.updateCustomers inp g) = Game.comboCount g.
Proof. split; reflexivity. Qed.

Section OneTick.

Variables (inp : Game.TickInput) (g : Game.t).
Hypothesis Hcounted : Counted (Game.customers g).

Let g2 := Game.updateApiPoll (Game.deltaTime inp)
            (Game.updateComboTimer (Game.deltaTime inp) g).
Let g3 := Game.updateSpawn inp g2.
Let g4 := Game.updateCustomers inp g3.

Lemma tick_before_customers :
  Game.customers g2 = Game.customers g /\
  Game.difficulty g3 = Game.difficulty g /\
  Game.customersLost g4 = Game.customersLost g /\
  Game.state g4 = Game.state g /\
  Game.score g4 = Game.score g /\
  Game.maxCombo g4 = Game.maxCombo g /\
  Game.customersServed g4 = Game.customersServed g.
Proof.
  destruct (updateComboTimer_tally inp g) as [T1 D1].
  destruct (updateApiPoll_tally inp (Game.updateComboTimer (Game.deltaTime inp) g))
    as (T2 & _ & D2).
  destruct (updateSpawn_tally inp g2) as (T3 & _ & D3 & _).
  destruct (updateCustomers_tally inp g3) as (T4 & _).
  fold g2 in T2, D2. fold g3 in T3, D3, T4. fold g4 in T4.
  assert (T : tally_fields g4 = tally_fields g) by congruence.
  split.
  { unfold g2.
    rewrite (roster_customers _ _ (updateApiPoll_roster inp _)).
    apply (roster_customers _ _ (updateComboTimer_roster inp g)). }
  split; [congruence|].
  split; [now apply tally_customersLost|].
  split; [now apply tally_state|].
  split; [now apply tally_score|].
  split; [now apply tally_maxCombo | now apply tally_customersServed].
Qed.

(** The loss loop finds as many customers to count as entered the
    storming-off state in this tick. *)
Lemma newly_lost_are_entered :
  length (filter isNewlyLost (Game.customers g4)) = length (entered inp g).
Proof.
  destruct tick_before_customers as (Hc2 & Hd3 & _).
  unfold g4, Game.updateCustomers. game_fields.
  rewrite filter_map_length, Hd3.
  set (p := fun c => isNewlyLost
                       (Customer.update (Game.shake inp (Customer.id c))
                          (Game.deltaTime inp) (Game.difficulty g) c)).
  assert (Hold : filter p (Game.customers g) = entered inp g).
  { unfold entered. apply filter_ext_in. intros c Hin. unfold p, isNewlyLost, stormsOffNow.
    rewrite (keeps_countedAsLost _ _ (update_keeps _ _ _ c)), (Hcounted c Hin).
    apply andb_comm. }
  destruct (updateSpawn_customers inp g2) as [Hs | (c & Hs & Hw)]; fold g3 in Hs;
    rewrite Hs, Hc2.
  - now rewrite Hold.
  - rewrite filter_app, length_app, Hold. cbn [filter].
    assert (Hp : p c = false).
    { unfold p, isNewlyLost.
      pose proof (update_walking_in (Game.shake inp (Customer.id c))
                    (Game.deltaTime inp) (Game.difficulty g) c Hw) as Hn.
      apply customer_state_eqb_neq in Hn. now rewrite Hn. }
    rewrite Hp. simpl. lia.
Qed.

(** What the steps after the loss loop keep. *)
Lemma tick_after_lost (g5 : Game.t) :
  let g' := Game.updateDifficulty (Game.updateBottles inp (Game.updateRemove g5)) in
  tally_fields g' = tally_fields g5 /\ Game.comboCount g' = Game.comboCount g5.
Proof.
  destruct (updateRemove_tally g5) as (T6 & C6 & _).
  destruct (updateBottles_tally inp (Game.updateRemove g5)) as (T7 & C7).
  destruct (updateDifficulty_tally (Game.updateBottles inp (Game.updateRemove g5)))
    as (T8 & C8).
  split; congruence.
Qed.

End OneTick.

(** C6: in a game reached from a new one and in play, one tick raises
    [customersLost] by exactly the number of customers that enter the
    storming-off state in it, one for each; if there is such a customer the
    tick ends with [comboCount] at 0, and with the round in [gameover] when
    [customersLost] has reached [MAX_LOST], which is 5. *)
Theorem C6_storm_off_is_counted_in_its_tick :
  forall (events : list Game.Event) (inp : Game.TickInput),
    let g := Game.run events Game.new in
    let g' := Game.update inp g in
    let n := Z.of_nat (length (entered inp g)) in
    Game.state g = Game.playing ->
    Game.customersLost g' = Game.customersLost g + n /\
    (0 < n -> Game.comboCount g' = 0) /\
    (0 < n -> GAME_CONFIG.MAX_LOST <= Game.customersLost g' ->
       Game.state g' = Game.gameover) /\
    GAME_CONFIG.MAX_LOST = 5.
Proof.
  intros events inp g g' n Hplay.
  destruct (reachable_inv events) as [_ Hcount]. fold g in Hcount.
  unfold g'. rewrite (update_playing inp g Hplay).
  set (g4 := Game.updateCustomers inp
               (Game.updateSpawn inp
                  (Game.updateApiPoll (Game.deltaTime inp)
                     (Game.updateComboTimer (Game.deltaTime inp) g)))).
  destruct (tick_after_lost inp (Game.updateLost g4)) as [T C]. rewrite C.
  rewrite (tally_customersLost _ _ T), (tally_state _ _ T).
  destruct (updateLost_spec g4) as (_ & _ & _ & Hlost & _ & Hpos & _).
  pose proof (newly_lost_are_entered inp g Hcount) as Hnew.
  fold g4 in Hnew. rewrite Hnew in Hlost, Hpos.
  destruct (tick_before_customers inp g) as (_ & _ & Hl4 & _).
  fold g4 in Hl4. fold n in Hlost, Hpos. rewrite Hl4 in Hlost.
  split; [exact Hlost|]. split; [|split; [|reflexivity]].
  - intros Hn. apply (Hpos Hn).
  - intros Hn. apply (Hpos Hn).
Qed.

(** A tick of seventy seconds: the patience of every waiting customer runs
    out in it. *)
Definition longTick : Game.TickInput :=
  Game.mkTickInput 70000 0 (Customer.mkRandom 0 0 0) (fun _ => 0.5%Q).

Lemma fullGame_playing : Game.state fullGame = Game.playing.
Proof. vm_compute. reflexivity. Qed.

Lemma fullGame_all_storm_off : Z.of_nat (length (entered longTick fullGame)) = 6.
Proof. vm_compute. reflexivity. Qed.

Lemma fullGame_lost : Game.customersLost fullGame = 0.
Proof. vm_compute. reflexivity. Qed.

(** The six customers of the full bar storm off in one long tick: six are
    lost and the round is over in that tick. *)
Lemma C6_witness :
  Game.customersLost (Game.update longTick fullGame) = 6 /\
  Game.comboCount (Game.update longTick fullGame) = 0 /\
  Game.state (Game.update longTick fullGame) = Game.gameover.
Proof.
  destruct (C6_storm_off_is_counted_in_its_tick fullEvents longTick fullGame_playing)
    as (Hlost & Hcombo & Hover & _).
  rewrite fullGame_all_storm_off in Hlost, Hcombo, Hover.
  rewrite fullGame_lost in Hlost.
  split; [exact Hlost|]. split; [apply Hcombo; reflexivity|].
  apply Hover; [reflexivity|]. rewrite Hlost. discriminate.
Defined.

(** ** Score and combo *)

Lemma patiencePercent_nonneg (c : Customer.t) :
  Customer_ok c -> (0 <= Customer.getPatiencePercent c)%Q.
Proof.
  intros [Hp Hm _]. unfold Customer.getPatiencePercent.
  apply mul_nonneg; [|discriminate].
  apply div_nonneg; assumption.
Qed.

Lemma patienceBonus_nonneg (c : Customer.t) :
  Customer_ok c ->
  0 <= Qfloor (Double.mul (Customer.getPatiencePercent c)
                          GAME_CONFIG.PATIENCE_BONUS_MULTIPLIER).
Proof.
  intros Hok. pose proof (patiencePercent_nonneg c Hok) as Hp.
  change 0 with (Qfloor 0). apply Qfloor_resp_le.
  apply mul_nonneg; [exact Hp | discriminate].
Qed.

(** The score and the best combo have not gone down from [g] to [g']. *)
Definition grown (g g' : Game.t) : Prop :=
  Game.score g <= Game.score g' /\ Game.maxCombo g <= Game.maxCombo g'.

Lemma grown_refl (g : Game.t) : grown g g.
Proof. split; lia. Qed.

Lemma grown_trans (g1 g2 g3 : Game.t) : grown g1 g2 -> grown g2 g3 -> grown g1 g3.
Proof. intros [] []. split; lia. Qed.

Lemma grown_tally (g g' : Game.t) : tally_fields g' = tally_fields g -> grown g g'.
Proof.
  intros T. unfold grown.
  rewrite (tally_score _ _ T), (tally_maxCombo _ _ T). lia.
Qed.

Lemma scoreServe_grown now customer bi (g : Game.t) :
  Game_ok g -> Customer_ok customer ->
  grown g (Game.scoreServe now customer bi g).
Proof.
  intros Hok Hc.
  destruct (scoreServe_tally g now customer bi) as (Hs & _ & _ & Hm & _).
  pose proof (patienceBonus_nonneg customer Hc).
  pose proof (ok_combo g Hok).
  unfold grown. rewrite Hs, Hm.
  unfold GAME_CONFIG.BASE_SCORE, GAME_CONFIG.COMBO_BONUS in *. lia.
Qed.

Lemma serveCustomer_grown now i (g : Game.t) :
  Inv g -> grown g (Game.serveCustomer now i g).
Proof.
  intros [Hok Hcount].
  destruct (serveCustomer_cases now i g) as [-> | (bi & c & Hsv & [[_ ->] | [_ ->]])].
  - apply grown_refl.
  - apply grown_tally. reflexivity.
  - apply (grown_trans _ (withServed i c g)); [apply grown_tally; reflexivity|].
    apply scoreServe_grown; [eapply withServed_ok; eauto|].
    destruct Hsv as [_ _ Hnth _ Hlv].
    apply served_ok; [|exact Hlv].
    apply (ok_customers g Hok), in_or_app. left. eapply nth_error_In; eauto.
Qed.

Lemma serveCustomer_resume_grown now k (g : Game.t) :
  Inv g -> grown g (Game.serveCustomer_resume now k g).
Proof.
  intros [Hok Hcount].
  destruct (serveCustomer_resume_cases now k g)
    as [-> | (q & [-> | (c & bi & Hin & ->)])].
  - apply grown_refl.
  - apply grown_tally. reflexivity.
  - apply (grown_trans _ (Game.set_servesInFlight q g));
      [apply grown_tally; reflexivity|].
    apply scoreServe_grown; [|apply (ok_customers g Hok); exact Hin].
    apply (Game_ok_same_roster g); [exact Hok | reflexivity | apply (ok_combo g Hok)].
Qed.

(** A tick writes neither the score nor the best combo. *)
Lemma update_tally (inp : Game.TickInput) (g : Game.t) :
  Game.score (Game.update inp g) = Game.score g /\
  Game.maxCombo (Game.update inp g) = Game.maxCombo g /\
  Game.customersServed (Game.update inp g) = Game.customersServed g.
Proof.
  destruct (Game.state g) eqn:Es;
    try (rewrite update_idle; [auto | congruence]).
  rewrite (update_playing inp g Es).
  set (g4 := Game.updateCustomers inp
               (Game.updateSpawn inp
                  (Game.updateApiPoll (Game.deltaTime inp)
                     (Game.updateComboTimer (Game.deltaTime inp) g)))).
  destruct (tick_after_lost inp (Game.updateLost g4)) as [T _].
  rewrite (tally_score _ _ T), (tally_maxCombo _ _ T), (tally_customersServed _ _ T).
  destruct (updateLost_spec g4) as (_ & _ & Hu & _).
  pose proof (f_equal (fun p => fst (fst (fst (fst p)))) Hu) as Hs.
  pose proof (f_equal (fun p => snd (fst (fst (fst p)))) Hu) as Hsv.
  pose proof (f_equal (fun p => snd (fst (fst p))) Hu) as Hm.
  cbn [fst snd unlost_fields] in Hs, Hsv, Hm.
  destruct (tick_before_customers inp g) as (_ & _ & _ & _ & Hs4 & Hm4 & Hsv4).
  fold g4 in Hs4, Hm4, Hsv4. repeat split; congruence.
Qed.

(** The event starts a round: [start()], [restart()], or a click on the
    start button of the menu or of the game-over screen. *)
Definition startsRound (g : Game.t) (e : Game.Event) : bool :=
  match e with
  | Game.EStart | Game.ERestart => true
  | Game.EClick _ x y =>
      (Game.state_eqb (Game.state g) Game.menu
       || Game.state_eqb (Game.state g) Game.gameover)
      && Game.onStartButton x y
  | _ => false
  end.

Lemma step_grown (g : Game.t) (e : Game.Event) :
  Inv g -> startsRound g e = false -> grown g (Game.step g e).
Proof.
  intros Hinv Hstart. destruct e; cbn [Game.step startsRound] in *.
  - destruct (update_tally inp g) as (Hs & Hm & _). unfold grown. rewrite Hs, Hm. lia.
  - unfold Game.handleClick.
    destruct (Game.state_eqb (Game.state g) Game.menu
              || Game.state_eqb (Game.state g) Game.gameover).
    + cbn [andb] in Hstart. rewrite Hstart. apply grown_refl.
    + destruct (Game.onMuteButton x y); [apply grown_tally; reflexivity|].
      destruct (negb (Game.state_eqb (Game.state g) Game.playing)); [apply grown_refl|].
      destruct (clickBottles_core x y g) as (Hcore & _).
      assert (H0 : Inv (Game.clickBottles x y g) /\ grown g (Game.clickBottles x y g)).
      { split; [apply (core_inv g); assumption|].
        apply grown_tally, core_tally, Hcore. }
      apply (clickCustomers_preserves (fun g0 => Inv g0 /\ grown g g0)); [|exact H0].
      intros i g0 [Hi Hg]. split; [now apply serveCustomer_inv|].
      eapply grown_trans; [exact Hg | now apply serveCustomer_grown].
  - now apply serveCustomer_grown.
  - now apply serveCustomer_resume_grown.
  - apply grown_tally, core_tally, pollIncomingMessages_resume_core.
  - discriminate.
  - discriminate.
  - unfold Game.pause. destruct (Game.state_eqb _ _);
      [split; reflexivity | apply grown_refl].
  - unfold Game.resume. destruct (Game.state_eqb _ _);
      [split; reflexivity | apply grown_refl].
  - split; reflexivity.
Qed.

(** C10: in every game reached from a new one, each event leaves
    [comboCount] at most [maxCombo], and each event that does not start a
    round leaves [score] and [maxCombo] at least as high as they were. *)
Theorem C10_score_and_maxCombo_never_fall :
  forall (events : list Game.Event) (e : Game.Event),
    let g := Game.run events Game.new in
    let g' := Game.step g e in
    Game.comboCount g' <= Game.maxCombo g' /\
    (startsRound g e = false ->
       Game.score g <= Game.score g' /\ Game.maxCombo g <= Game.maxCombo g').
Proof.
  intros events e g g'.
  pose proof (reachable_inv events) as Hinv. fold g in Hinv.
  split.
  - destruct (step_inv g e Hinv) as [Hok _]. apply (ok_combo _ Hok).
  - intros Hstart. apply (step_grown g e Hinv Hstart).
Qed.

(** A round with one idle customer and the first bottle selected by a click
    on the shelf. *)
Definition servingEvents : list Game.Event :=
  [Game.EStart; Game.ETick slowTick; Game.EClick 0 250 130].

Lemma C10_witness :
  Game.score (Game.run servingEvents Game.new)
  <= Game.score (Game.step (Game.run servingEvents Game.new) (Game.EServe 0 0)) /\
  Game.maxCombo (Game.run servingEvents Game.new)
  <= Game.maxCombo (Game.step (Game.run servingEvents Game.new) (Game.EServe 0 0)).
Proof.
  apply (C10_score_and_maxCombo_never_fall servingEvents (Game.EServe 0 0)).
  reflexivity.
Defined.

(** ** Deduplication by phone *)

(** Whether each customer is real, and its phone, in the order of
    [customers]. *)
Definition keyed (cs : list Customer.t) : list (bool * string) :=
  map (fun c => (Customer.isReal c, Customer.phone c)) cs.

Definition real_phones (k : list (bool * string)) : list string :=
  map snd (filter fst k).

Definition queued_phones (q : list Game.Pending) : list string :=
  map Game.p_phone q.

(** No phone is carried by two of the real customers and queued records;
    a synthetic customer carries a placeholder; a queued phone is not
    empty. *)
Record Dedup_lists (k : list (bool * string)) (q : list string) : Prop := {
  dedup_real : NoDup (real_phones k ++ q);
  dedup_demo : forall p, In p k -> fst p = false ->
                 String.prefix "demo_" (snd p) = true;
  dedup_queue : forall s, In s q -> s <> EmptyString
}.

Definition Dedup (g : Game.t) : Prop :=
  Dedup_lists (keyed (Game.customers g))
              (queued_phones (Game.pendingRealMessages g)).

Lemma real_phones_app (k1 k2 : list (bool * string)) :
  real_phones (k1 ++ k2) = real_phones k1 ++ real_phones k2.
Proof. unfold real_phones. now rewrite filter_app, map_app. Qed.

Lemma real_phones_In (k : list (bool * string)) (s : string) :
  In s (real_phones k) -> In s (map snd k).
Proof.
  unfold real_phones. intros H. apply in_map_iff in H.
  destruct H as (p & <- & Hp). apply filter_In in Hp. apply in_map. tauto.
Qed.

Lemma keyed_filter_incl (f : Customer.t -> bool) (cs : list Customer.t) (s : string) :
  In s (real_phones (keyed (filter f cs))) -> In s (real_phones (keyed cs)).
Proof.
  induction cs as [|c cs IH]; simpl; [tauto|].
  destruct (f c); unfold real_phones in *; simpl;
    destruct (Customer.isReal c); simpl; tauto.
Qed.

Lemma Dedup_lists_filter (f : Customer.t -> bool) (cs : list Customer.t) q :
  Dedup_lists (keyed cs) q -> Dedup_lists (keyed (filter f cs)) q.
Proof.
  intros [Hn Hd Hq]. constructor; [| |exact Hq].
  - clear Hd Hq. induction cs as [|c cs IH]; [exact Hn|].
    unfold real_phones in *. simpl in *.
    destruct (Customer.isReal c) eqn:Er; simpl in *.
    + inversion Hn as [|? ? Hnotin Hrest]; subst.
      destruct (f c); simpl; rewrite ?Er; simpl; [|auto].
      constructor; [|auto]. intros Hin. apply Hnotin.
      apply in_app_or in Hin. apply in_or_app.
      destruct Hin as [Hin|Hin]; [left|auto].
      now apply (keyed_filter_incl f cs).
    + destruct (f c); simpl; rewrite ?Er; simpl; auto.
  - intros p Hin. apply Hd. unfold keyed in *.
    apply in_map_iff in Hin. destruct Hin as (c & <- & Hin).
    apply filter_In in Hin. apply in_map_iff. exists c. tauto.
Qed.

Lemma keyed_map (f : Customer.t -> Customer.t) (cs : list Customer.t) :
  (forall c, Customer.isReal (f c) = Customer.isReal c /\
             Customer.phone (f c) = Customer.phone c) ->
  keyed (map f cs) = keyed cs.
Proof.
  intros Hf. unfold keyed. rewrite map_map. apply map_ext.
  intros c. destruct (Hf c) as [-> ->]. reflexivity.
Qed.

Lemma str_or_left (a b : string) : a <> EmptyString -> str_or a b = a.
Proof.
  intros Ha. unfold str_or. apply String.eqb_neq in Ha. now rewrite Ha.
Qed.

Lemma demo_prefix (s : string) :
  String.prefix "demo_" (String.append "demo_" s) = true.
Proof. simpl. destruct s; reflexivity. Qed.

(** The key of the customer a spawn makes: the phone of the head of the
    queue for a real customer, a placeholder for a synthetic one. *)
Lemma spawned_key rnd now i (g : Game.t) :
  (forall m, In m (Game.pendingRealMessages g) -> Game.p_phone m <> EmptyString) ->
  match Game.pendingRealMessages g with
  | m :: _ =>
      Customer.isReal (spawned rnd now i g) = true /\
      Customer.phone (spawned rnd now i g) = Game.p_phone m
  | [] =>
      Customer.isReal (spawned rnd now i g) = false /\
      String.prefix "demo_" (Customer.phone (spawned rnd now i g)) = true
  end.
Proof.
  intros Hq. unfold spawned.
  destruct (assignSlot_customer i
              (fst (Customer.new (spawnOptions g) rnd now (Game.customerIdCounter g))))
    as (_ & _ & _ & _ & -> & -> & _).
  pose proof (new_customer (spawnOptions g) rnd now (Game.customerIdCounter g))
    as (_ & _ & _ & _ & -> & -> & _).
  unfold spawnOptions.
  destruct (Game.pendingRealMessages g) as [|m rest]; cbn [Customer.o_isReal Customer.o_phone Customer.noOptions].
  - split; [reflexivity|]. unfold str_or. cbn [String.eqb]. apply demo_prefix.
  - split; [reflexivity|]. apply str_or_left, Hq. now left.
Qed.

Lemma spawnCustomer_dedup rnd now (g : Game.t) :
  Dedup g -> Dedup (Game.spawnCustomer rnd now g).
Proof.
  intros Hd.
  destruct (findIndex Game.isNull (Game.customerSlots g)) as [i|] eqn:Hf;
    [|now rewrite spawnCustomer_full].
  destruct (spawnCustomer_free rnd now g i Hf) as (Hc & _ & _ & Hq).
  unfold Dedup in *. rewrite Hc, Hq. destruct Hd as [Hn Hdemo Hqueue].
  assert (Hkey := spawned_key rnd now i g).
  unfold keyed. rewrite map_app. fold (keyed (Game.customers g)).
  cbn [map]. unfold queued_phones in *.
  destruct (Game.pendingRealMessages g) as [|m rest].
  - destruct Hkey as [Hr Hp]; [intros ? []|]. cbn [tl map] in *.
    constructor; [| |exact Hqueue].
    + rewrite real_phones_app. unfold real_phones at 2. cbn [filter fst].
      rewrite Hr. cbn [map]. rewrite app_nil_r. exact Hn.
    + intros p Hin. apply in_app_or in Hin. destruct Hin as [Hin | [<- | []]]; auto.
  - destruct Hkey as [Hr Hp].
    { intros m0 Hin. apply Hqueue. apply in_map. exact Hin. }
    cbn [tl map] in *. constructor.
    + rewrite real_phones_app. unfold real_phones at 2. cbn [filter fst].
      rewrite Hr, Hp. cbn [map snd]. rewrite <- app_assoc. exact Hn.
    + intros p Hin. apply in_app_or in Hin. destruct Hin as [Hin | [<- | []]]; auto.
      cbn [fst]. congruence.
    + intros s Hin. apply Hqueue. now right.
Qed.

Lemma Dedup_same (g g' : Game.t) :
  Game.customers g' = Game.customers g ->
  Game.pendingRealMessages g' = Game.pendingRealMessages g ->
  Dedup g -> Dedup g'.
Proof. unfold Dedup. now intros -> ->. Qed.

Lemma Dedup_roster (g g' : Game.t) :
  roster_fields g' = roster_fields g -> Dedup g -> Dedup g'.
Proof.
  intros H. apply Dedup_same; [eapply roster_customers | eapply roster_pending]; eauto.
Qed.

Lemma Dedup_keyed (g g' : Game.t) :
  keyed (Game.customers g') = keyed (Game.customers g) ->
  Game.pendingRealMessages g' = Game.pendingRealMessages g ->
  Dedup g -> Dedup g'.
Proof. unfold Dedup. now intros -> ->. Qed.

Lemma update_dedup (inp : Game.TickInput) (g : Game.t) :
  Dedup g -> Dedup (Game.update inp g).
Proof.
  intros Hd.
  destruct (Game.state g) eqn:Es;
    try (rewrite update_idle; [exact Hd | congruence]).
  rewrite (update_playing inp g Es).
  apply (Dedup_roster _ _ (updateDifficulty_roster _)).
  apply (Dedup_roster _ _ (updateBottles_roster inp _)).
  match goal with |- Dedup (Game.updateRemove ?g5) =>
    destruct (updateRemove_spec g5) as (Hc6 & _);
    destruct (updateRemove_tally g5) as (_ & _ & Hq6 & _);
    unfold Dedup; rewrite Hc6, Hq6; apply Dedup_lists_filter;
    fold (Dedup g5)
  end.
  match goal with |- Dedup (Game.updateLost ?g4) =>
    destruct (updateLost_spec g4) as (Hc5 & (_ & _ & _ & Hq5) & _);
    apply (Dedup_keyed g4); [rewrite Hc5; apply keyed_map | exact Hq5 |]
  end.
  { intros c. destruct (markLost_keeps c) as (_ & _ & _ & -> & -> & _). auto. }
  match goal with |- Dedup (Game.updateCustomers inp ?g3) =>
    apply (Dedup_keyed g3); [apply keyed_map | reflexivity |]
  end.
  { intros c. split; [apply keeps_isReal | apply keeps_phone]; apply update_keeps. }
  unfold Game.updateSpawn. game_fields.
  assert (H2 : Dedup (Game.updateApiPoll (Game.deltaTime inp)
                        (Game.updateComboTimer (Game.deltaTime inp) g))).
  { apply (Dedup_roster _ _ (updateApiPoll_roster inp _)).
    apply (Dedup_roster _ _ (updateComboTimer_roster inp g)). exact Hd. }
  destruct (Qleb _ _); [apply spawnCustomer_dedup|]; exact H2.
Qed.

Lemma serveCustomer_dedup now i (g : Game.t) :
  Dedup g -> Dedup (Game.serveCustomer now i g).
Proof.
  intros Hd.
  assert (Hw : forall bi c, Servable now i g bi c -> Dedup (withServed i c g)).
  { intros bi c [_ _ Hnth _ _]. apply (Dedup_keyed g); [|reflexivity|exact Hd].
    unfold withServed, keyed. game_fields.
    apply (array_set_map _ _ _ _ c Hnth). reflexivity. }
  destruct (serveCustomer_cases now i g) as [-> | (bi & c & Hsv & [[_ ->] | [_ ->]])].
  - exact Hd.
  - apply (Dedup_same (withServed i c g)); [reflexivity | reflexivity | eauto].
  - apply (Dedup_roster _ _ (scoreServe_roster _ _ _ _)). eauto.
Qed.

Lemma serveCustomer_resume_dedup now k (g : Game.t) :
  Dedup g -> Dedup (Game.serveCustomer_resume now k g).
Proof.
  intros Hd.
  destruct (serveCustomer_resume_cases now k g)
    as [-> | (q & [-> | (c & bi & _ & ->)])]; [exact Hd | exact Hd |].
  apply (Dedup_roster _ _ (scoreServe_roster _ _ _ _)). exact Hd.
Qed.

Lemma existsb_phone_false {A : Type} (f : A -> string) (p : string) (l : list A) :
  existsb (fun a => Game.phoneIs p (f a)) l = false -> ~ In p (map f l).
Proof.
  intros He Hin. apply in_map_iff in Hin. destruct Hin as (a & <- & Hin).
  assert (Ht : existsb (fun a0 => Game.phoneIs (f a) (f a0)) l = true).
  { apply existsb_exists. exists a. split; [exact Hin|].
    unfold Game.phoneIs. apply String.eqb_refl. }
  congruence.
Qed.

Lemma existsb_phone_true {A : Type} (f : A -> string) (p : string) (l : list A) :
  existsb (fun a => Game.phoneIs p (f a)) l = true -> In p (map f l).
Proof.
  intros He. apply existsb_exists in He. destruct He as (a & Hin & Heq).
  unfold Game.phoneIs in Heq. apply String.eqb_eq in Heq. subst p.
  now apply in_map.
Qed.

(** The record [enqueueMessage] appends for a message. *)
Definition queuedRecord (msg : Game.ApiMessage) : Game.Pending :=
  {| Game.p_name := str_or (Game.m_sender_name msg) (Game.m_phone msg);
     Game.p_message := text_or (substring 50 (Game.m_message msg))
                               (utf16 "New message");
     Game.p_phone := Game.m_phone msg;
     Game.p_isReal := true;
     Game.p_messageId := Game.m_id msg |}.

(** A polled record is queued exactly when no active customer and no queued
    record carries its phone. *)
Lemma enqueueMessage_cases (g : Game.t) (msg : Game.ApiMessage) :
  ((In (Game.m_phone msg) (map Customer.phone (Game.customers g)) \/
    In (Game.m_phone msg) (queued_phones (Game.pendingRealMessages g))) /\
   Game.enqueueMessage g msg = g)
  \/
  (~ In (Game.m_phone msg) (map Customer.phone (Game.customers g)) /\
   ~ In (Game.m_phone msg) (queued_phones (Game.pendingRealMessages g)) /\
   Game.enqueueMessage g msg =
     Game.set_pendingRealMessages
       (Game.pendingRealMessages g ++ [queuedRecord msg]) g).
Proof.
  unfold Game.enqueueMessage.
  destruct (existsb (fun c => Game.phoneIs (Game.m_phone msg) (Customer.phone c))
                    (Game.customers g)) eqn:E1.
  - left. split; [|reflexivity]. left. now apply existsb_phone_true.
  - destruct (existsb (fun m => Game.phoneIs (Game.m_phone msg) (Game.p_phone m))
                      (Game.pendingRealMessages g)) eqn:E2.
    + left. split; [|reflexivity]. right. now apply existsb_phone_true.
    + right. cbn [orb negb].
      split; [now apply existsb_phone_false|].
      split; [now apply existsb_phone_false | reflexivity].
Qed.

Lemma enqueueMessage_dedup (g : Game.t) (msg : Game.ApiMessage) :
  Game.m_phone msg <> EmptyString -> Dedup g -> Dedup (Game.enqueueMessage g msg).
Proof.
  intros Hne Hd.
  destruct (enqueueMessage_cases g msg) as [[_ ->] | (Hc & Hq & ->)]; [exact Hd|].
  unfold Dedup in *. game_fields. destruct Hd as [Hn Hdemo Hqueue].
  unfold queued_phones in *. rewrite map_app. cbn [map queuedRecord Game.p_phone].
  constructor; [| exact Hdemo |].
  - rewrite app_assoc. apply NoDup_app; [exact Hn | repeat constructor; simpl; tauto |].
    intros s Hin [<- | []].
    apply in_app_or in Hin. destruct Hin as [Hin | Hin]; [|auto].
    apply Hc. apply real_phones_In in Hin.
    unfold keyed in Hin. rewrite map_map in Hin. exact Hin.
  - intros s Hin. apply in_app_or in Hin. destruct Hin as [Hin | [<- | []]]; auto.
Qed.

(** The phones a poll hands over are not empty. *)
Definition phones_ok (e : Game.Event) : Prop :=
  match e with
  | Game.EPollResume _ messages =>
      Forall (fun msg => Game.m_phone msg <> EmptyString) messages
  | _ => True
  end.

Lemma startGame_dedup (g : Game.t) : Dedup (Game.startGame g).
Proof.
  unfold Dedup, Game.startGame. game_fields.
  constructor; simpl; [constructor | tauto | tauto].
Qed.

Lemma enqueue_all_dedup (messages : list Game.ApiMessage) :
  forall g, Forall (fun msg => Game.m_phone msg <> EmptyString) messages ->
            Dedup g -> Dedup (fold_left Game.enqueueMessage messages g).
Proof.
  induction messages as [|m rest IH]; intros g Hall Hd; simpl; [exact Hd|].
  inversion Hall; subst. apply IH; [assumption|]. now apply enqueueMessage_dedup.
Qed.

Lemma step_dedup (g : Game.t) (e : Game.Event) :
  phones_ok e -> Dedup g -> Dedup (Game.step g e).
Proof.
  intros Hok Hd. destruct e; cbn [Game.step phones_ok] in *.
  - now apply update_dedup.
  - unfold Game.handleClick.
    destruct (Game.state_eqb (Game.state g) Game.menu
              || Game.state_eqb (Game.state g) Game.gameover).
    + destruct (Game.onStartButton x y); [apply startGame_dedup | exact Hd].
    + destruct (Game.onMuteButton x y); [exact Hd|].
      destruct (negb (Game.state_eqb (Game.state g) Game.playing)); [exact Hd|].
      apply clickCustomers_preserves.
      * intros i g0. apply serveCustomer_dedup.
      * destruct (clickBottles_core x y g) as (_ & Hq & Hc).
        apply (Dedup_same g); assumption.
  - now apply serveCustomer_dedup.
  - now apply serveCustomer_resume_dedup.
  - unfold Game.pollIncomingMessages_resume.
    destruct (Game.pollsInFlight g); [exact Hd|].
    destruct (success && _); [|exact Hd].
    apply enqueue_all_dedup; [exact Hok | exact Hd].
  - apply startGame_dedup.
  - apply startGame_dedup.
  - unfold Game.pause. destruct (Game.state_eqb _ _); exact Hd.
  - unfold Game.resume. destruct (Game.state_eqb _ _); exact Hd.
  - exact Hd.
Qed.

Lemma run_dedup (events : list Game.Event) :
  forall g, Forall phones_ok events -> Dedup g -> Dedup (Game.run events g).
Proof.
  induction events as [|e rest IH]; intros g Hall Hd; simpl; [exact Hd|].
  inversion Hall; subst. apply IH; [assumption|]. now apply step_dedup.
Qed.

Lemma new_dedup : Dedup Game.new.
Proof. constructor; simpl; [constructor | tauto | tauto]. Qed.

(** The phones of the real customers and of the queued records. *)
Definition real_keys (g : Game.t) : list string :=
  map Customer.phone (filter Customer.isReal (Game.customers g))
  ++ queued_phones (Game.pendingRealMessages g).

(** The phones of all customers and of the queued records. *)
Definition all_keys (g : Game.t) : list string :=
  map Customer.phone (Game.customers g)
  ++ queued_phones (Game.pendingRealMessages g).

Lemma real_phones_keyed (cs : list Customer.t) :
  real_phones (keyed cs) = map Customer.phone (filter Customer.isReal cs).
Proof.
  unfold real_phones, keyed.
  induction cs as [|c cs IH]; simpl; [reflexivity|].
  destruct (Customer.isReal c); simpl; congruence.
Qed.

(** A phone that is no placeholder is counted among all customers as often
    as among the real ones. *)
Lemma count_real (cs : list Customer.t) (p : string) :
  (forall c, In c cs -> Customer.isReal c = false ->
             String.prefix "demo_" (Customer.phone c) = true) ->
  String.prefix "demo_" p = false ->
  count_occ string_dec (map Customer.phone cs) p
  = count_occ string_dec (map Customer.phone (filter Customer.isReal cs)) p.
Proof.
  intros Hdemo Hp. induction cs as [|c cs IH]; simpl; [reflexivity|].
  assert (IH' := IH (fun c0 H => Hdemo c0 (or_intror H))).
  destruct (Customer.isReal c) eqn:Er; simpl.
  - destruct (string_dec (Customer.phone c) p); congruence.
  - destruct (string_dec (Customer.phone c) p) as [E|E]; [|exact IH'].
    rewrite <- E, (Hdemo c (or_introl eq_refl) Er) in Hp. discriminate.
Qed.


(** Three polled messages, two of them from the same phone. *)
Definition polledMessages : list Game.ApiMessage :=
  [ Game.mkApiMessage "m1" "972501111111" (utf16 "Hello?") "Dana";
    Game.mkApiMessage "m2" "972501111111" (utf16 "Anyone there?") "Dana";
    Game.mkApiMessage "m3" "972502222222" (utf16 "Need help") "Noam" ].

(** A live round: the connection test clears demo mode, a tick of three
    seconds starts a poll, the poll answers, and the next tick spawns the
    first queued customer. *)
Definition liveEvents : list Game.Event :=
  [ Game.ESetDemoMode false; Game.EStart;
    Game.ETick (Game.mkTickInput 3000 0 (Customer.mkRandom 0 0 0) (fun _ => 0.5%Q));
    Game.EPollResume true polledMessages;
    Game.ETick slowTick ].

Lemma liveGame_keys :
  real_keys (Game.run liveEvents Game.new) = ["972501111111"; "972502222222"]%string.
Proof. vm_compute. reflexivity. Qed.


(** A poll that hands over a record without a phone, as the chat id
    ["@c.us"] gives it, and a record whose phone reads like the placeholder
    of the first customer. *)
Definition emptyPhoneMessages : list Game.ApiMessage :=
  [ Game.mkApiMessage "m1" EmptyString (utf16 "Hello?") "Dana";
    Game.mkApiMessage "m2" "demo_1" (utf16 "Need help") "Noam" ].

(** The live round of [liveEvents] with this poll, and a second tick that
    spawns the second queued customer. *)
Definition emptyPhoneEvents : list Game.Event :=
  [ Game.ESetDemoMode false; Game.EStart;
    Game.ETick (Game.mkTickInput 3000 0 (Customer.mkRandom 0 0 0) (fun _ => 0.5%Q));
    Game.EPollResume true emptyPhoneMessages;
    Game.ETick slowTick; Game.ETick slowTick ].

Lemma emptyPhoneGame_keys :
  real_keys (Game.run emptyPhoneEvents Game.new) = ["demo_1"; "demo_1"]%string.
Proof. vm_compute. reflexivity. Qed.


(** ** The combo chain *)

(** The counters, the combo and its timer. *)
Definition combo_fields (g : Game.t) :=
  (tally_fields g, Game.comboCount g, Game.comboTimer g).

Lemma combo_tally (g g' : Game.t) :
  combo_fields g' = combo_fields g -> tally_fields g' = tally_fields g.
Proof. intros H. apply (f_equal (fun p => fst (fst p))) in H. exact H. Qed.

Lemma combo_comboCount (g g' : Game.t) :
  combo_fields g' = combo_fields g -> Game.comboCount g' = Game.comboCount g.
Proof. intros H. apply (f_equal (fun p => snd (fst p))) in H. exact H. Qed.

Lemma combo_comboTimer (g g' : Game.t) :
  combo_fields g' = combo_fields g -> Game.comboTimer g' = Game.comboTimer g.
Proof. intros H. apply (f_equal snd) in H. exact H. Qed.

Lemma core_combo (g g' : Game.t) :
  core_fields g' = core_fields g -> combo_fields g' = combo_fields g.
Proof.
  intros H. unfold combo_fields.
  now rewrite (core_tally _ _ H), (core_comboCount _ _ H), (core_comboTimer _ _ H).
Qed.

(** A [serveCustomer] that scores counts one more customer served; one that
    does not leaves the counters, the combo and its timer alone. *)
Lemma serveCustomer_scored_or_not now i (g : Game.t) :
  combo_fields (Game.serveCustomer now i g) = combo_fields g \/
  Game.customersServed (Game.serveCustomer now i g) = Game.customersServed g + 1.
Proof.
  destruct (serveCustomer_cases now i g) as [-> | (bi & c & Hsv & [[_ ->] | [_ ->]])].
  - left; reflexivity.
  - left; reflexivity.
  - right.
    destruct (scoreServe_tally (withServed i c g) now (served c) bi) as (_ & -> & _).
    reflexivity.
Qed.

Lemma serveCustomer_resume_scored_or_not now k (g : Game.t) :
  combo_fields (Game.serveCustomer_resume now k g) = combo_fields g \/
  Game.customersServed (Game.serveCustomer_resume now k g) = Game.customersServed g + 1.
Proof.
  destruct (serveCustomer_resume_cases now k g)
    as [-> | (q & [-> | (c & bi & _ & ->)])].
  - left; reflexivity.
  - left; reflexivity.
  - right.
    destruct (scoreServe_tally (Game.set_servesInFlight q g) now c bi) as (_ & -> & _).
    reflexivity.
Qed.

Lemma clickCustomers_not_scored now x y (g : Game.t) :
  Game.customersServed (Game.clickCustomers now x y g) = Game.customersServed g ->
  combo_fields (Game.clickCustomers now x y g) = combo_fields g.
Proof.
  assert (H : Game.customersServed g <= Game.customersServed (Game.clickCustomers now x y g)
              /\ (Game.customersServed (Game.clickCustomers now x y g) = Game.customersServed g ->
                  combo_fields (Game.clickCustomers now x y g) = combo_fields g)).
  { apply (clickCustomers_preserves
             (fun g0 => Game.customersServed g <= Game.customersServed g0 /\
                        (Game.customersServed g0 = Game.customersServed g ->
                         combo_fields g0 = combo_fields g))).
    - intros i g0 [Hle Hsame].
      destruct (serveCustomer_scored_or_not now i g0) as [Hc | Hs].
      + rewrite (tally_customersServed _ _ (combo_tally _ _ Hc)).
        split; [exact Hle|]. intros E. rewrite Hc. auto.
      + rewrite Hs. split; [lia|]. intros E. lia.
    - split; [lia | reflexivity]. }
  apply H.
Qed.

Lemma checkLost_comboTimer (cs : list Customer.t) :
  forall g, Game.comboTimer (snd (Game.checkLost cs g)) = Game.comboTimer g.
Proof.
  induction cs as [|c rest IH]; intros g; [reflexivity|].
  cbn [Game.checkLost].
  destruct (customer_state_eqb _ _ && _).
  - match goal with |- context [Game.checkLost rest ?g2] =>
      specialize (IH g2); destruct (Game.checkLost rest g2) as [r g3]
    end.
    cbn [snd] in *. rewrite IH. game_fields.
    destruct (GAME_CONFIG.MAX_LOST <=? _); reflexivity.
  - specialize (IH g). destruct (Game.checkLost rest g) as [r g3]. exact IH.
Qed.

(** Past its first step a tick does not write the combo timer. *)
Lemma update_comboTimer (inp : Game.TickInput) (g : Game.t) :
  Game.state g = Game.playing ->
  Game.comboTimer (Game.update inp g)
  = Game.comboTimer (Game.updateComboTimer (Game.deltaTime inp) g).
Proof.
  intros Es. rewrite (update_playing inp g Es).
  set (g1 := Game.updateComboTimer (Game.deltaTime inp) g).
  assert (H2 : Game.comboTimer (Game.updateApiPoll (Game.deltaTime inp) g1)
               = Game.comboTimer g1).
  { unfold Game.updateApiPoll, Game.pollIncomingMessages. game_fields.
    game_cases; reflexivity. }
  set (g2 := Game.updateApiPoll (Game.deltaTime inp) g1) in *.
  assert (H3 : Game.comboTimer (Game.updateSpawn inp g2) = Game.comboTimer g2).
  { unfold Game.updateSpawn, Game.spawnCustomer. game_fields.
    destruct (Qleb _ _); [|reflexivity].
    destruct (findIndex _ _); [|reflexivity].
    destruct (Game.pendingRealMessages g2); destruct (Customer.new _ _ _ _);
      reflexivity. }
  set (g3 := Game.updateSpawn inp g2) in *.
  set (g4 := Game.updateCustomers inp g3).
  assert (H5 : Game.comboTimer (Game.updateLost g4) = Game.comboTimer g3).
  { unfold Game.updateLost.
    pose proof (checkLost_comboTimer (Game.customers g4) g4) as H.
    destruct (Game.checkLost (Game.customers g4) g4) as [cs g5]. exact H. }
  set (g5 := Game.updateLost g4) in *.
  assert (H6 : Game.comboTimer (Game.updateRemove g5) = Game.comboTimer g5).
  { unfold Game.updateRemove. destruct (Game.removeFinished _ _) as [[a b] d].
    reflexivity. }
  set (g6 := Game.updateRemove g5) in *.
  assert (H8 : Game.comboTimer (Game.updateDifficulty (Game.updateBottles inp g6))
               = Game.comboTimer g6).
  { unfold Game.updateDifficulty. game_cases; reflexivity. }
  congruence.
Qed.

(** The time an event lets pass for the game. *)
Definition tickDelta (e : Game.Event) : Q :=
  match e with
  | Game.ETick inp => Game.deltaTime inp
  | _ => 0
  end.

Fixpoint elapsed (events : list Game.Event) : Q :=
  match events with
  | [] => 0
  | e :: rest => tickDelta e + elapsed rest
  end.

(** The event neither starts a round, nor scores a serve, nor loses a
    customer, and time does not run backwards in it. *)
Definition calm_step (g : Game.t) (e : Game.Event) : Prop :=
  startsRound g e = false /\
  Game.customersServed (Game.step g e) = Game.customersServed g /\
  Game.customersLost (Game.step g e) = Game.customersLost g /\
  (0 <= tickDelta e)%Q.

Fixpoint calm (events : list Game.Event) (g : Game.t) : Prop :=
  match events with
  | [] => True
  | e :: rest => calm_step g e /\ calm rest (Game.step g e)
  end.

(** A tick in play that loses nobody, started with time left on the combo
    timer, keeps the combo. *)
Lemma update_calm (inp : Game.TickInput) (g : Game.t) :
  Game.state g = Game.playing ->
  Game.customersLost (Game.update inp g) = Game.customersLost g ->
  (0 < Game.comboCount g -> (0 < Game.comboTimer g - Game.deltaTime inp)%Q) ->
  (0 <= Game.deltaTime inp)%Q ->
  Game.comboCount (Game.update inp g) = Game.comboCount g /\
  (Game.comboTimer g - Game.deltaTime inp <= Game.comboTimer (Game.update inp g))%Q.
Proof.
  intros Es Hlost Htimer Hdt.
  assert (H1 : Game.comboCount (Game.updateComboTimer (Game.deltaTime inp) g)
               = Game.comboCount g /\
               (Game.comboTimer g - Game.deltaTime inp
                <= Game.comboTimer (Game.updateComboTimer (Game.deltaTime inp) g))%Q).
  { unfold Game.updateComboTimer.
    destruct (0 <? Game.comboCount g) eqn:Ec.
    - apply Z.ltb_lt in Ec. specialize (Htimer Ec). game_fields.
      destruct (Qleb _ 0) eqn:Eq.
      + apply Qleb_true in Eq. lra.
      + split; [reflexivity | apply Qle_refl].
    - split; [reflexivity | lra]. }
  destruct H1 as [Hc1 Ht1].
  rewrite (update_comboTimer inp g Es). split; [|exact Ht1].
  rewrite (update_playing inp g Es) in *.
  set (g1 := Game.updateComboTimer (Game.deltaTime inp) g) in *.
  set (g4 := Game.updateCustomers inp
               (Game.updateSpawn inp (Game.updateApiPoll (Game.deltaTime inp) g1))) in *.
  destruct (tick_after_lost inp (Game.updateLost g4)) as [T C].
  rewrite C. rewrite (tally_customersLost _ _ T) in Hlost.
  destruct (updateLost_spec g4) as (_ & _ & _ & Hl & Hzero & _).
  destruct (tick_before_customers inp g) as (_ & _ & Hl4 & _).
  fold g1 g4 in Hl4.
  destruct Hzero as [_ Hc5]; [lia|].
  rewrite Hc5. unfold g4.
  destruct (updateCustomers_tally inp
              (Game.updateSpawn inp (Game.updateApiPoll (Game.deltaTime inp) g1)))
    as [_ ->].
  destruct (updateSpawn_tally inp (Game.updateApiPoll (Game.deltaTime inp) g1))
    as (_ & -> & _).
  destruct (updateApiPoll_tally inp g1) as (_ & -> & _).
  exact Hc1.
Qed.

Lemma calm_step_keeps (g : Game.t) (e : Game.Event) :
  calm_step g e ->
  (0 < Game.comboCount g -> (0 < Game.comboTimer g - tickDelta e)%Q) ->
  Game.comboCount (Game.step g e) = Game.comboCount g /\
  Game.score (Game.step g e) = Game.score g /\
  Game.maxCombo (Game.step g e) = Game.maxCombo g /\
  (Game.comboTimer g - tickDelta e <= Game.comboTimer (Game.step g e))%Q.
Proof.
  intros (Hstart & Hserved & Hlost & Hdt) Htimer.
  assert (Hsame : combo_fields (Game.step g e) = combo_fields g ->
                  Game.comboCount (Game.step g e) = Game.comboCount g /\
                  Game.score (Game.step g e) = Game.score g /\
                  Game.maxCombo (Game.step g e) = Game.maxCombo g /\
                  (Game.comboTimer g - tickDelta e <= Game.comboTimer (Game.step g e))%Q).
  { intros H. rewrite (combo_comboCount _ _ H), (combo_comboTimer _ _ H).
    rewrite (tally_score _ _ (combo_tally _ _ H)), (tally_maxCombo _ _ (combo_tally _ _ H)).
    repeat split; try reflexivity. lra. }
  destruct e; cbn [Game.step startsRound tickDelta] in *; try discriminate;
    try (apply Hsame; reflexivity).
  - destruct (update_tally inp g) as (Hs & Hm & _).
    destruct (Game.state g) eqn:Es;
      try (apply Hsame; rewrite update_idle; [reflexivity | congruence]).
    destruct (update_calm inp g Es Hlost Htimer Hdt) as [Hc Ht]. auto.
  - apply Hsame. revert Hserved. unfold Game.handleClick.
    destruct (Game.state_eqb (Game.state g) Game.menu
              || Game.state_eqb (Game.state g) Game.gameover).
    + cbn [andb] in Hstart. rewrite Hstart. reflexivity.
    + destruct (Game.onMuteButton x y); [reflexivity|].
      destruct (negb (Game.state_eqb (Game.state g) Game.playing)); [reflexivity|].
      destruct (clickBottles_core x y g) as (Hcore & _).
      rewrite <- (tally_customersServed _ _ (core_tally _ _ Hcore)).
      intros Hserved. rewrite (clickCustomers_not_scored _ _ _ _ Hserved).
      apply core_combo, Hcore.
  - apply Hsame. destruct (serveCustomer_scored_or_not now i g) as [H | H]; [exact H | lia].
  - apply Hsame.
    destruct (serveCustomer_resume_scored_or_not now k g) as [H | H]; [exact H | lia].
  - apply Hsame, core_combo, pollIncomingMessages_resume_core.
  - unfold Game.pause. destruct (Game.state_eqb _ _);
      repeat split; try reflexivity; game_fields; lra.
  - unfold Game.resume. destruct (Game.state_eqb _ _);
      repeat split; try reflexivity; game_fields; lra.
Qed.

Lemma calm_elapsed (events : list Game.Event) :
  forall g, calm events g -> (0 <= elapsed events)%Q.
Proof.
  induction events as [|e rest IH]; intros g Hc; simpl; [apply Qle_refl|].
  destruct Hc as [(_ & _ & _ & Hd) Hrest]. specialize (IH _ Hrest). lra.
Qed.

(** Calm events that take less than what is left on the combo timer keep
    the combo, the score and the best combo. *)
Lemma calm_run (events : list Game.Event) :
  forall g, calm events g -> (elapsed events < Game.comboTimer g)%Q ->
    Game.comboCount (Game.run events g) = Game.comboCount g /\
    Game.score (Game.run events g) = Game.score g /\
    Game.maxCombo (Game.run events g) = Game.maxCombo g.
Proof.
  induction events as [|e rest IH]; intros g Hc Ht; [simpl; auto|].
  cbn [Game.run fold_left]. fold (Game.run rest (Game.step g e)).
  cbn [elapsed] in Ht. destruct Hc as [Hstep Hrest].
  pose proof (calm_elapsed rest _ Hrest) as Hpos.
  destruct (calm_step_keeps g e Hstep) as (Hc & Hs & Hm & Htimer); [intros _; lra|].
  destruct (IH (Game.step g e) Hrest) as (Hc2 & Hs2 & Hm2); [lra|].
  repeat split; congruence.
Qed.

(** The event scores a serve of a customer whose patience stands at
    [percent] of its ceiling: a [serveCustomer] that runs to its end, or one
    that runs on from its [await]. *)
Inductive scores (percent : Q) (g : Game.t) : Game.Event -> Prop :=
| scores_at_once now i bi c :
    Servable now i g bi c ->
    Customer.isReal c && negb (Game.demoMode g) = false ->
    (Customer.getPatiencePercent c == percent)%Q ->
    scores percent g (Game.EServe now i)
| scores_resumed now k cid bi c :
    nth_error (Game.servesInFlight g) k = Some (cid, bi) ->
    Game.findCustomer cid g = Some c ->
    (Customer.getPatiencePercent c == percent)%Q ->
    scores percent g (Game.EServeResume now k).

Lemma serveCustomer_at_once now i (g : Game.t) bi c :
  Servable now i g bi c ->
  Customer.isReal c && negb (Game.demoMode g) = false ->
  Game.serveCustomer now i g = Game.scoreServe now (served c) bi (withServed i c g).
Proof.
  intros [Hsel (bottle & Hb & Hl & Hcd) Hc Hsv Hlv] Hreal.
  unfold Game.serveCustomer. rewrite Hsel, Hb, Hc, Hl, Hcd.
  unfold Customer.serve. rewrite Hsv, Hlv. cbn [orb negb].
  fold (served c). fold (withServed i c g).
  change (Customer.isReal (served c)) with (Customer.isReal c).
  change (Game.demoMode (withServed i c g)) with (Game.demoMode g).
  now rewrite Hreal.
Qed.

(** What a scored serve does to the score and the combo. *)
Lemma scores_step (percent : Q) (g : Game.t) (e : Game.Event) :
  scores percent g e ->
  let g' := Game.step g e in
  Game.score g' =
    Game.score g
    + (GAME_CONFIG.BASE_SCORE
       + Qfloor (Double.mul percent GAME_CONFIG.PATIENCE_BONUS_MULTIPLIER)
       + Game.comboCount g * GAME_CONFIG.COMBO_BONUS) /\
  Game.comboCount g' = Game.comboCount g + 1 /\
  Game.maxCombo g' = Z.max (Game.maxCombo g) (Game.comboCount g + 1) /\
  Game.comboTimer g' = GAME_CONFIG.COMBO_TIMEOUT.
Proof.
  intros [now i bi c Hsv Hreal Hp | now k cid bi c Hk Hf Hp]; cbn [Game.step].
  - rewrite (serveCustomer_at_once now i g bi c Hsv Hreal).
    destruct (scoreServe_tally (withServed i c g) now (served c) bi)
      as (Hs & _ & Hc & Hm & Ht & _).
    cbv zeta. rewrite Hs, Hc, Hm, Ht.
    change (Customer.getPatiencePercent (served c))
      with (Customer.getPatiencePercent c).
    rewrite Hp. repeat split.
  - unfold Game.serveCustomer_resume. rewrite Hk.
    change (Game.findCustomer cid
              (Game.set_servesInFlight (Game.remove_nth k (Game.servesInFlight g)) g))
      with (Game.findCustomer cid g).
    rewrite Hf.
    destruct (scoreServe_tally
                (Game.set_servesInFlight (Game.remove_nth k (Game.servesInFlight g)) g)
                now c bi) as (Hs & _ & Hc & Hm & Ht & _).
    cbv zeta. rewrite Hs, Hc, Hm, Ht. rewrite Hp. repeat split.
Qed.


(** An idle office worker with the given id, slot and patience (of 100). *)
Definition waitingCustomer (id slot : nat) (patience : Q) : Customer.t :=
  Customer.mk id (mkCustomerType "office_worker" 100 2) "Alex" (utf16 "Hello???")
    (String.append "demo_" (string_of_nat id)) false
    (nth slot POSITIONS.CUSTOMER_SLOTS 0%Q) 360 (nth_error POSITIONS.CUSTOMER_SLOTS slot)
    (Some slot) IDLE patience 100 0 0 0 150 false false false 1 1 0 false.

(** A round in play with three waiting customers and the first bottle
    selected.  The second and the third customer are ahead of 80 percent by
    what one and two seconds of waiting take away. *)
Definition comboGame : Game.t :=
  Game.set_selectedBottleIndex (Some 0%nat)
    (Game.set_customerIdCounter 3
       (Game.set_customerSlots [Some 1; Some 2; Some 3; None; None; None]%nat
          (Game.set_customers
             [waitingCustomer 1 0 80; waitingCustomer 2 1 81.5;
              waitingCustomer 3 2 83]
             (Game.startGame Game.new)))).

(** One second passes, then a click selects the bottle at the given x. *)
Definition secondThenSelect (now : Z) (x : Q) : list Game.Event :=
  [Game.ETick (Game.mkTickInput 1000 now (Customer.mkRandom 0 0 0) (fun _ => 0.5%Q));
   Game.EClick now x 130].

Abbreviation comboGame1 := (Game.step comboGame (Game.EServe 0 0)).
Abbreviation comboGame1' := (Game.run (secondThenSelect 1000 390) comboGame1).
Abbreviation comboGame2 := (Game.step comboGame1' (Game.EServe 1000 1)).
Abbreviation comboGame2' := (Game.run (secondThenSelect 2000 530) comboGame2).
Abbreviation comboGame3 := (Game.step comboGame2' (Game.EServe 2000 2)).

Lemma comboGame_start : Game.comboCount comboGame = 0.
Proof. vm_compute. reflexivity. Qed.

Lemma secondThenSelect_elapsed (now : Z) (x : Q) :
  (elapsed (secondThenSelect now x) < GAME_CONFIG.COMBO_TIMEOUT)%Q.
Proof. vm_compute. reflexivity. Qed.

Lemma comboGame_scores (g : Game.t) (now : Z) (i bi : nat) (c : Customer.t)
    (bottle : Bottle.t) :
  Game.selectedBottleIndex g = Some bi ->
  nth_error (Game.bottles g) bi = Some bottle ->
  bt_locked (Bottle.type bottle) = false ->
  Bottle.isOnCooldown now bottle = false ->
  nth_error (Game.customers g) i = Some c ->
  Customer.isServed c = false -> Customer.isLeaving c = false ->
  Customer.isReal c = false ->
  (Customer.getPatiencePercent c == 80)%Q ->
  scores 80 g (Game.EServe now i).
Proof.
  intros Hsel Hb Hl Hcd Hc Hsv Hlv Hr Hp.
  apply (scores_at_once 80 g now i bi c); [| now rewrite Hr | exact Hp].
  constructor; auto. exists bottle. auto.
Qed.

Lemma comboGame_first : scores 80 comboGame (Game.EServe 0 0).
Proof.
  apply (comboGame_scores _ _ _ 0%nat
           (nth 0 (Game.customers comboGame) idleCustomer)
           (nth 0 (Game.bottles comboGame) welcomeBottle));
    vm_compute; reflexivity.
Qed.

Lemma comboGame_second : scores 80 comboGame1' (Game.EServe 1000 1).
Proof.
  apply (comboGame_scores _ _ _ 1%nat
           (nth 1 (Game.customers comboGame1') idleCustomer)
           (nth 1 (Game.bottles comboGame1') welcomeBottle));
    vm_compute; reflexivity.
Qed.

Lemma comboGame_third : scores 80 comboGame2' (Game.EServe 2000 2).
Proof.
  apply (comboGame_scores _ _ _ 2%nat
           (nth 2 (Game.customers comboGame2') idleCustomer)
           (nth 2 (Game.bottles comboGame2') welcomeBottle));
    vm_compute; reflexivity.
Qed.

Ltac calm_by_computation :=
  repeat match goal with
         | |- _ /\ _ => split
         | |- True => exact I
         | |- _ = _ => vm_compute; reflexivity
         | |- (_ <= _)%Q => vm_compute; discriminate
         end.

Lemma comboGame_calm12 : calm (secondThenSelect 1000 390) comboGame1.
Proof.
  cbn [calm secondThenSelect]. unfold calm_step. calm_by_computation.
Qed.

Lemma comboGame_calm23 : calm (secondThenSelect 2000 530) comboGame2.
Proof.
  cbn [calm secondThenSelect]. unfold calm_step. calm_by_computation.
Qed.


(** The percent is rounded before the bonus is floored: at patience 58 of
    100 it is 57.99999999999999, and the serve awards 157 points. *)
Lemma bonus_in_doubles :
  Customer.getPatiencePercent (waitingCustomer 1 0 58)
  = (8162774324609023 # 140737488355328)%Q /\
  Game.score (Game.scoreServe 0 (waitingCustomer 1 0 58) 0 comboGame)
  - Game.score comboGame = 157.
Proof. vm_compute. split; reflexivity. Qed.

(** ** Suspended serves *)

(** The ids of the customers a suspended [serveCustomer] can still hold. *)
Definition known_ids (g : Game.t) : list nat :=
  map Customer.id (Game.customers g ++ Game.detached g).

(** Every suspended [serveCustomer] holds a customer of the game. *)
Definition Resolvable (g : Game.t) : Prop :=
  forall p, In p (Game.servesInFlight g) -> In (fst p) (known_ids g).

Lemma known_ids_same (g g' : Game.t) :
  map Customer.id (Game.customers g') = map Customer.id (Game.customers g) ->
  Game.detached g' = Game.detached g ->
  known_ids g' = known_ids g.
Proof.
  unfold known_ids. intros Hc Hd. rewrite !map_app, Hc, Hd. reflexivity.
Qed.

Lemma known_ids_roster (g g' : Game.t) :
  roster_fields g' = roster_fields g -> known_ids g' = known_ids g.
Proof.
  intros H. unfold known_ids.
  rewrite (roster_customers _ _ H).
  apply (f_equal (fun p => snd (fst p))) in H. cbn [fst snd roster_fields] in H.
  now rewrite H.
Qed.

Lemma remove_nth_In {A : Type} (k : nat) (l : list A) (a : A) :
  In a (Game.remove_nth k l) -> In a l.
Proof.
  revert k; induction l as [|h t IH]; intros [|k]; simpl; try tauto.
  intros [<- | H]; eauto.
Qed.

(** A tick touches neither the suspended serves nor the selection. *)
Lemma update_servesInFlight (inp : Game.TickInput) (g : Game.t) :
  Game.servesInFlight (Game.update inp g) = Game.servesInFlight g.
Proof.
  destruct (Game.state g) eqn:Es;
    try (rewrite update_idle; [reflexivity | congruence]).
  rewrite (update_playing inp g Es).
  set (g1 := Game.updateComboTimer (Game.deltaTime inp) g).
  assert (H1 : Game.servesInFlight g1 = Game.servesInFlight g).
  { unfold g1, Game.updateComboTimer. game_cases; reflexivity. }
  assert (H2 : Game.servesInFlight (Game.updateApiPoll (Game.deltaTime inp) g1)
               = Game.servesInFlight g1).
  { unfold Game.updateApiPoll, Game.pollIncomingMessages. game_fields.
    game_cases; reflexivity. }
  set (g2 := Game.updateApiPoll (Game.deltaTime inp) g1) in *.
  assert (H3 : Game.servesInFlight (Game.updateSpawn inp g2) = Game.servesInFlight g2).
  { unfold Game.updateSpawn, Game.spawnCustomer. game_fields.
    destruct (Qleb _ _); [|reflexivity].
    destruct (findIndex _ _); [|reflexivity].
    destruct (Game.pendingRealMessages g2); destruct (Customer.new _ _ _ _);
      reflexivity. }
  set (g3 := Game.updateSpawn inp g2) in *.
  set (g4 := Game.updateCustomers inp g3).
  assert (H5 : Game.servesInFlight (Game.updateLost g4) = Game.servesInFlight g3).
  { unfold Game.updateLost.
    assert (H : forall cs g0, Game.servesInFlight (snd (Game.checkLost cs g0))
                              = Game.servesInFlight g0).
    { induction cs as [|c rest IH]; intros g0; [reflexivity|].
      cbn [Game.checkLost]. destruct (customer_state_eqb _ _ && _).
      - match goal with |- context [Game.checkLost rest ?gg] =>
          specialize (IH gg); destruct (Game.checkLost rest gg) as [r g9]
        end.
        cbn [snd] in *. rewrite IH. game_fields.
        destruct (GAME_CONFIG.MAX_LOST <=? _); reflexivity.
      - specialize (IH g0). destruct (Game.checkLost rest g0) as [r g9]. exact IH. }
    specialize (H (Game.customers g4) g4).
    destruct (Game.checkLost (Game.customers g4) g4) as [cs g5]. exact H. }
  set (g5 := Game.updateLost g4) in *.
  assert (H6 : Game.servesInFlight (Game.updateRemove g5) = Game.servesInFlight g5).
  { unfold Game.updateRemove. destruct (Game.removeFinished _ _) as [[a b] d].
    reflexivity. }
  set (g6 := Game.updateRemove g5) in *.
  assert (H8 : Game.servesInFlight (Game.updateDifficulty (Game.updateBottles inp g6))
               = Game.servesInFlight g6).
  { unfold Game.updateDifficulty. game_cases; reflexivity. }
  congruence.
Qed.

(** A tick forgets no customer: the ones it drops from [customers] stay
    within reach of the suspended serves. *)
Lemma update_known_ids (inp : Game.TickInput) (g : Game.t) :
  incl (known_ids g) (known_ids (Game.update inp g)).
Proof.
  destruct (Game.state g) eqn:Es;
    try (rewrite update_idle; [apply incl_refl | congruence]).
  rewrite (update_playing inp g Es).
  rewrite (known_ids_roster _ _ (updateDifficulty_roster _)).
  rewrite (known_ids_roster _ _ (updateBottles_roster inp _)).
  set (g2 := Game.updateApiPoll (Game.deltaTime inp)
               (Game.updateComboTimer (Game.deltaTime inp) g)).
  assert (H2 : known_ids g2 = known_ids g).
  { unfold g2. rewrite (known_ids_roster _ _ (updateApiPoll_roster inp _)).
    apply (known_ids_roster _ _ (updateComboTimer_roster inp g)). }
  set (g3 := Game.updateSpawn inp g2).
  assert (H3 : incl (known_ids g2) (known_ids g3)).
  { destruct (updateSpawn_tally inp g2) as (_ & _ & _ & Hd). fold g3 in Hd.
    unfold known_ids. rewrite Hd.
    destruct (updateSpawn_customers inp g2) as [Hc | (c & Hc & _)];
      fold g3 in Hc; rewrite Hc; [apply incl_refl|].
    intros n Hin. rewrite !map_app in *. cbn [map].
    apply in_app_or in Hin. apply in_or_app.
    destruct Hin; [left; apply in_or_app|]; auto. }
  set (g4 := Game.updateCustomers inp g3).
  assert (H4 : known_ids g4 = known_ids g3).
  { apply known_ids_same; [|reflexivity].
    unfold g4, Game.updateCustomers. game_fields. rewrite map_map.
    apply map_ext. intros c. apply keeps_id, update_keeps. }
  set (g5 := Game.updateLost g4).
  assert (H5 : known_ids g5 = known_ids g4).
  { destruct (updateLost_spec g4) as (Hc & (_ & _ & Hd & _) & _).
    apply known_ids_same; [|exact Hd].
    fold g5 in Hc. rewrite Hc, map_map. apply map_ext. intros c.
    apply markLost_keeps. }
  assert (H6 : incl (known_ids g5) (known_ids (Game.updateRemove g5))).
  { destruct (updateRemove_spec g5) as (Hc & _ & Hd).
    unfold known_ids. rewrite Hc, Hd. intros n Hin.
    apply in_map_iff in Hin. destruct Hin as (c & <- & Hin). apply in_map.
    apply in_app_or in Hin. apply in_or_app.
    destruct Hin as [Hin | Hin].
    - destruct (Customer.isRemovable c) eqn:Er.
      + right. apply in_or_app. right. apply filter_In. auto.
      + left. apply filter_In. rewrite Er. auto.
    - right. apply in_or_app. auto. }
  intros n Hin. apply H6. rewrite H5, H4. apply H3. rewrite H2. exact Hin.
Qed.

Lemma withServed_known_ids now i (g : Game.t) bi c :
  Servable now i g bi c ->
  known_ids (withServed i c g) = known_ids g /\ In (Customer.id c) (known_ids g).
Proof.
  intros [_ _ Hnth _ _]. split.
  - apply known_ids_same; [|reflexivity].
    unfold withServed. game_fields. apply (array_set_map _ _ _ _ c Hnth). reflexivity.
  - unfold known_ids. apply in_map, in_or_app. left. eapply nth_error_In; eauto.
Qed.

Lemma serveCustomer_resolvable now i (g : Game.t) :
  Resolvable g -> Resolvable (Game.serveCustomer now i g).
Proof.
  intros Hr.
  destruct (serveCustomer_cases now i g) as [-> | (bi & c & Hsv & [[_ ->] | [_ ->]])];
    [exact Hr | |];
    destruct (withServed_known_ids now i g bi c Hsv) as [Hk Hin].
  - intros p Hp. game_fields_in Hp.
    change (known_ids (Game.set_servesInFlight
                         (Game.servesInFlight g ++ [(Customer.id c, bi)])
                         (withServed i c g)))
      with (known_ids (withServed i c g)).
    rewrite Hk. apply in_app_or in Hp. destruct Hp as [Hp | [<- | []]]; auto.
  - intros p Hp.
    rewrite (known_ids_roster _ _ (scoreServe_roster _ now (served c) bi)), Hk.
    apply Hr. revert Hp. unfold Game.scoreServe.
    destruct (nth_error _ bi); auto.
Qed.

Lemma step_resolvable (g : Game.t) (e : Game.Event) :
  Resolvable g -> Resolvable (Game.step g e).
Proof.
  intros Hr. destruct e; cbn [Game.step].
  - intros p Hp. rewrite update_servesInFlight in Hp.
    apply update_known_ids, Hr, Hp.
  - unfold Game.handleClick.
    destruct (Game.state_eqb (Game.state g) Game.menu
              || Game.state_eqb (Game.state g) Game.gameover).
    + destruct (Game.onStartButton x y); [|exact Hr].
      intros p Hp. apply Hr in Hp. unfold known_ids in *. unfold Game.startGame.
      game_fields. cbn [app]. apply in_map_iff in Hp. destruct Hp as (c & <- & Hin).
      apply in_map. apply in_app_or in Hin. apply in_or_app. tauto.
    + destruct (Game.onMuteButton x y); [exact Hr|].
      destruct (negb (Game.state_eqb (Game.state g) Game.playing)); [exact Hr|].
      apply clickCustomers_preserves; [intros i g0; apply serveCustomer_resolvable|].
      destruct (clickBottles_core x y g) as (Hcore & _).
      intros p Hp.
      assert (Hs : Game.servesInFlight (Game.clickBottles x y g) = Game.servesInFlight g).
      { apply (f_equal (fun q => snd (fst (fst q)))) in Hcore. exact Hcore. }
      assert (Hk : known_ids (Game.clickBottles x y g) = known_ids g).
      { pose proof (core_seats _ _ Hcore) as Hseats. unfold known_ids.
        pose proof (f_equal (fun q => fst (fst (fst q))) Hseats) as Hc.
        pose proof (f_equal snd Hseats) as Hd.
        cbn [fst snd seats_fields] in Hc, Hd. now rewrite Hc, Hd. }
      rewrite Hk. apply Hr. now rewrite <- Hs.
  - now apply serveCustomer_resolvable.
  - destruct (serveCustomer_resume_cases now k g)
      as [-> | (q & [Heq | (c & bi & _ & Heq)])]; [exact Hr | |].
    + revert Heq. unfold Game.serveCustomer_resume.
      destruct (nth_error (Game.servesInFlight g) k) as [[cid bi]|] eqn:Ek;
        [|intros _; exact Hr].
      destruct (Game.findCustomer cid _);
        intros _ p Hp;
        [ rewrite (known_ids_roster _ _ (scoreServe_roster _ _ _ _));
          assert (Hp' : In p (Game.remove_nth k (Game.servesInFlight g)))
            by (revert Hp; unfold Game.scoreServe; destruct (nth_error _ bi); auto)
        | assert (Hp' : In p (Game.remove_nth k (Game.servesInFlight g))) by exact Hp ];
        apply remove_nth_In in Hp'; exact (Hr p Hp').
    + revert Heq. unfold Game.serveCustomer_resume.
      destruct (nth_error (Game.servesInFlight g) k) as [[cid bi0]|] eqn:Ek;
        [|intros _; exact Hr].
      destruct (Game.findCustomer cid _);
        intros _ p Hp;
        [ rewrite (known_ids_roster _ _ (scoreServe_roster _ _ _ _));
          assert (Hp' : In p (Game.remove_nth k (Game.servesInFlight g)))
            by (revert Hp; unfold Game.scoreServe; destruct (nth_error _ bi0); auto)
        | assert (Hp' : In p (Game.remove_nth k (Game.servesInFlight g))) by exact Hp ];
        apply remove_nth_In in Hp'; exact (Hr p Hp').
  - pose proof (pollIncomingMessages_resume_core success messages g) as Hcore.
    intros p Hp.
    assert (Hs : Game.servesInFlight (Game.pollIncomingMessages_resume success messages g)
                 = Game.servesInFlight g).
    { apply (f_equal (fun q => snd (fst (fst q)))) in Hcore. exact Hcore. }
    assert (Hk : known_ids (Game.pollIncomingMessages_resume success messages g)
                 = known_ids g).
    { pose proof (core_seats _ _ Hcore) as Hseats. unfold known_ids.
      pose proof (f_equal (fun q => fst (fst (fst q))) Hseats) as Hc.
      pose proof (f_equal snd Hseats) as Hd.
      cbn [fst snd seats_fields] in Hc, Hd. now rewrite Hc, Hd. }
    rewrite Hk. apply Hr. now rewrite <- Hs.
  - intros p Hp. apply Hr in Hp. unfold known_ids in *. unfold Game.start, Game.startGame.
    game_fields. cbn [app]. apply in_map_iff in Hp. destruct Hp as (c & <- & Hin).
    apply in_map. apply in_app_or in Hin. apply in_or_app. tauto.
  - intros p Hp. apply Hr in Hp. unfold known_ids in *. unfold Game.restart, Game.startGame.
    game_fields. cbn [app]. apply in_map_iff in Hp. destruct Hp as (c & <- & Hin).
    apply in_map. apply in_app_or in Hin. apply in_or_app. tauto.
  - unfold Game.pause. destruct (Game.state_eqb _ _); exact Hr.
  - unfold Game.resume. destruct (Game.state_eqb _ _); exact Hr.
  - exact Hr.
Qed.

(** In a game reached from a new one, the customer of every suspended
    [serveCustomer] is found when the serve resumes. *)
Lemma suspended_serve_finds_its_customer (events : list Game.Event) :
  forall k cid bi,
    nth_error (Game.servesInFlight (Game.run events Game.new)) k = Some (cid, bi) ->
    exists c, Game.findCustomer cid (Game.run events Game.new) = Some c.
Proof.
  assert (Hr : Resolvable (Game.run events Game.new)).
  { assert (H : forall g, Resolvable g -> Resolvable (Game.run events g)).
    { induction events as [|e rest IH]; intros g Hg; simpl; [exact Hg|].
      apply IH, step_resolvable, Hg. }
    apply H. intros p []. }
  intros k cid bi Hk.
  apply nth_error_In in Hk. apply Hr in Hk. cbn [fst] in Hk.
  unfold known_ids in Hk. apply in_map_iff in Hk. destruct Hk as (c & Hid & Hin).
  unfold Game.findCustomer.
  destruct (find _ _) as [c'|] eqn:Ef; [eauto|].
  exfalso. pose proof (find_none _ _ Ef c Hin) as Hn.
  cbv beta in Hn. rewrite Hid, Nat.eqb_refl in Hn. discriminate.
Qed.

(** ** Difficulty *)

(** The difficulty handed to the customers is between 1 and 3. *)
Definition Difficulty_ok (g : Game.t) : Prop :=
  (1 <= Game.difficulty g)%Q /\ (Game.difficulty g <= 3)%Q.

Lemma Math_min_3_range (a : Q) : (1 <= a)%Q -> (1 <= Math_min 3 a)%Q /\ (Math_min 3 a <= 3)%Q.
Proof.
  intros Ha. unfold Math_min. destruct (Qleb 3 a) eqn:E.
  - split; lra.
  - apply Qleb_false in E. split; lra.
Qed.

Lemma updateDifficulty_range (g : Game.t) :
  Difficulty_ok g -> Difficulty_ok (Game.updateDifficulty g).
Proof.
  intros Hd. unfold Game.updateDifficulty.
  destruct (0 <? Game.customersServed g) eqn:Es; [|exact Hd].
  destruct (Z.rem (Game.customersServed g) 10 =? 0); [|exact Hd].
  cbn [andb]. unfold Difficulty_ok. game_fields.
  apply Math_min_3_range. apply Z.ltb_lt in Es.
  assert (0 <= inject_Z (Game.customersServed g) / 20)%Q.
  { apply Qle_shift_div_l; [reflexivity|].
    rewrite Qmult_0_l. change 0%Q with (inject_Z 0). rewrite <- Zle_Qle. lia. }
  lra.
Qed.

Lemma later_steps_difficulty (inp : Game.TickInput) (g : Game.t) :
  Game.difficulty (Game.updateBottles inp (Game.updateRemove (Game.updateLost
                     (Game.updateCustomers inp g))))
  = Game.difficulty g.
Proof.
  assert (H7 : forall g0, Game.difficulty (Game.updateBottles inp g0) = Game.difficulty g0)
    by reflexivity.
  assert (H6 : forall g0, Game.difficulty (Game.updateRemove g0) = Game.difficulty g0).
  { intros g0. unfold Game.updateRemove.
    destruct (Game.removeFinished _ _) as [[a b] d]. reflexivity. }
  assert (H4 : forall g0, Game.difficulty (Game.updateCustomers inp g0) = Game.difficulty g0)
    by reflexivity.
  rewrite H7, H6.
  destruct (updateLost_spec (Game.updateCustomers inp g)) as (_ & _ & Hu & _).
  pose proof (f_equal (fun p => snd (fst p)) Hu) as H5.
  cbn [fst snd unlost_fields] in H5. rewrite H5. apply H4.
Qed.

Lemma update_difficulty (inp : Game.TickInput) (g : Game.t) :
  Difficulty_ok g -> Difficulty_ok (Game.update inp g).
Proof.
  intros Hd.
  destruct (Game.state g) eqn:Es;
    try (rewrite update_idle; [exact Hd | congruence]).
  rewrite (update_playing inp g Es).
  apply updateDifficulty_range. unfold Difficulty_ok.
  rewrite later_steps_difficulty.
  destruct (tick_before_customers inp g) as (_ & H3 & _).
  rewrite H3. exact Hd.
Qed.

Lemma serveCustomer_difficulty now i (g : Game.t) :
  Game.difficulty (Game.serveCustomer now i g) = Game.difficulty g.
Proof.
  destruct (serveCustomer_cases now i g) as [-> | (bi & c & _ & [[_ ->] | [_ ->]])];
    try reflexivity.
  unfold Game.scoreServe. destruct (nth_error _ bi); reflexivity.
Qed.

Lemma step_difficulty (g : Game.t) (e : Game.Event) :
  Difficulty_ok g -> Difficulty_ok (Game.step g e).
Proof.
  intros Hd.
  assert (Hone : Difficulty_ok (Game.startGame g)) by (split; vm_compute; discriminate).
  destruct e; cbn [Game.step]; auto.
  - now apply update_difficulty.
  - unfold Game.handleClick.
    destruct (Game.state_eqb (Game.state g) Game.menu
              || Game.state_eqb (Game.state g) Game.gameover).
    + destruct (Game.onStartButton x y); assumption.
    + destruct (Game.onMuteButton x y); [exact Hd|].
      destruct (negb (Game.state_eqb (Game.state g) Game.playing)); [exact Hd|].
      apply clickCustomers_preserves.
      * intros i g0 H0. unfold Difficulty_ok. now rewrite serveCustomer_difficulty.
      * unfold Game.clickBottles.
        generalize (combine (seq 0 (length (Game.bottles g))) (Game.bottles g)).
        intros l. revert g Hd Hone.
        induction l as [|[index bottle] rest IH]; intros g Hd _; [exact Hd|].
        cbn [fold_left]. destruct (Bottle.containsPoint x y bottle && _);
          apply IH; try exact Hd; split; vm_compute; discriminate.
  - unfold Difficulty_ok. now rewrite serveCustomer_difficulty.
  - unfold Game.serveCustomer_resume.
    destruct (nth_error (Game.servesInFlight g) k) as [[cid bi]|]; [|exact Hd].
    destruct (Game.findCustomer cid _); [|exact Hd].
    unfold Game.scoreServe. game_fields. destruct (nth_error _ bi); exact Hd.
  - pose proof (pollIncomingMessages_resume_core success messages g) as Hcore.
    assert (Hq : forall msgs g0, Game.difficulty (fold_left Game.enqueueMessage msgs g0)
                                 = Game.difficulty g0).
    { induction msgs as [|m rest IH]; intros g0; [reflexivity|].
      cbn [fold_left]. rewrite IH. unfold Game.enqueueMessage. game_cases; reflexivity. }
    unfold Game.pollIncomingMessages_resume, Difficulty_ok.
    destruct (Game.pollsInFlight g); [exact Hd|].
    destruct (success && _); [rewrite Hq|]; exact Hd.
  - unfold Game.pause. destruct (Game.state_eqb _ _); exact Hd.
  - unfold Game.resume. destruct (Game.state_eqb _ _); exact Hd.
Qed.

(** In every game reached from a new one the difficulty is between 1 and 3,
    so the customers are always updated with a positive difficulty. *)
Lemma reachable_difficulty (events : list Game.Event) :
  Difficulty_ok (Game.run events Game.new).
Proof.
  assert (H : forall g, Difficulty_ok g -> Difficulty_ok (Game.run events g)).
  { induction events as [|e rest IH]; intros g Hg; simpl; [exact Hg|].
    apply IH, step_difficulty, Hg. }
  apply H. split; vm_compute; discriminate.
Qed.

(** * Further properties of the code *)

(** ** The cooldown of a bottle *)

(** The progress one millisecond before the deadline and one after it. *)
Lemma progress_near_deadline :
  (Double.sub 1 (Double.round (1 / 3000)) < 1)%Q /\
  (1 < Double.sub 1 (Double.round (- 1 / 3000)))%Q.
Proof. split; vm_compute; reflexivity. Qed.

Lemma is_double_1 : is_double 1.
Proof. vm_compute. reflexivity. Qed.

Section CooldownProgress.

Variable remaining : Z.

Let progress : Q := Double.sub 1 (Double.div (inject_Z remaining) 3000).

Lemma progress_nonneg : remaining <= 3000 -> (0 <= progress)%Q.
Proof.
  intros H. unfold progress, Double.sub, Double.div.
  apply round_nonneg.
  assert (Hq : (Double.round (inject_Z remaining / 3000) <= 1)%Q).
  { apply round_le_double; [exact is_double_1|].
    apply Qle_shift_div_r; [reflexivity|].
    change (1 * 3000)%Q with (inject_Z 3000). rewrite <- Zle_Qle. exact H. }
  lra.
Qed.

Lemma progress_before : 0 < remaining -> (progress < 1)%Q.
Proof.
  intros H. destruct progress_near_deadline as [Hc _].
  eapply Qle_lt_trans; [|exact Hc].
  unfold progress, Double.sub, Double.div. apply round_mono.
  assert (Hq : (Double.round (1 / 3000) <= Double.round (inject_Z remaining / 3000))%Q).
  { apply round_mono. apply Qmult_le_compat_r; [|discriminate].
    change 1%Q with (inject_Z 1). rewrite <- Zle_Qle. lia. }
  lra.
Qed.

Lemma progress_at : remaining = 0 -> progress = 1%Q.
Proof. intros ->. vm_compute. reflexivity. Qed.

Lemma progress_after : remaining < 0 -> (1 < progress)%Q.
Proof.
  intros H. destruct progress_near_deadline as [_ Hc].
  eapply Qlt_le_trans; [exact Hc|].
  unfold progress, Double.sub, Double.div. apply round_mono.
  assert (Hq : (Double.round (inject_Z remaining / 3000) <= Double.round (- 1 / 3000))%Q).
  { apply round_mono. apply Qmult_le_compat_r; [|discriminate].
    change (- 1)%Q with (inject_Z (- 1)). rewrite <- Zle_Qle. lia. }
  lra.
Qed.

End CooldownProgress.

(** X1: after an accepted [use()] at time [T], and as long as the clock does
    not run backwards, the bottle is on cooldown exactly until [T + 3000],
    and a further [use()] is accepted exactly from [T + 3000] on.
    [getCooldownProgress()] reads the clock twice, [now1] and then [now2]:
    it is 1 when the first read is at or after [T + 3000], and else
    [1 - (T + 3000 - now2) / 3000] in doubles.  It is never negative; it is
    below 1 exactly when the second read is before [T + 3000]; and it is
    above 1 exactly when the deadline falls between the two reads. *)
Theorem X1_cooldown_progress_bounds :
  forall (T now1 now2 : Z) (b : Bottle.t),
    fst (Bottle.use T b) = true -> T <= now1 -> now1 <= now2 ->
    let b' := snd (Bottle.use T b) in
    let progress := Bottle.getCooldownProgress now1 now2 b' in
    (Bottle.isOnCooldown now1 b' = true <-> now1 < T + 3000) /\
    (fst (Bottle.use now1 b') = true <-> T + 3000 <= now1) /\
    (T + 3000 <= now1 -> progress = 1%Q) /\
    (now1 < T + 3000 ->
       progress = Double.sub 1 (Double.div (inject_Z (T + 3000 - now2)) 3000)) /\
    (0 <= progress)%Q /\
    ((progress < 1)%Q <-> now2 < T + 3000) /\
    ((1 < progress)%Q <-> now1 < T + 3000 /\ T + 3000 < now2).
Proof.
  intros T now1 now2 b Hu HT H12 b' progress.
  destruct (use_effect T b Hu) as (_ & Hce & _). fold b' in Hce.
  change GAME_CONFIG.BOTTLE_COOLDOWN with 3000 in Hce.
  assert (Hl : bt_locked (Bottle.type b') = false).
  { apply use_accepted in Hu. destruct Hu as [Hl _]. unfold b', Bottle.use.
    destruct (bt_locked (Bottle.type b) || Bottle.isOnCooldown T b); exact Hl. }
  assert (Hcd : Bottle.isOnCooldown now1 b' = true <-> now1 < T + 3000).
  { rewrite isOnCooldown_true, Hce. tauto. }
  assert (Hon : now1 < T + 3000 ->
                progress = Double.sub 1 (Double.div (inject_Z (T + 3000 - now2)) 3000)).
  { intros Hlt. unfold progress, Bottle.getCooldownProgress.
    destruct Hcd as [_ Hcd]. rewrite (Hcd Hlt). cbn [negb].
    rewrite Hce. reflexivity. }
  assert (Hoff : T + 3000 <= now1 -> progress = 1%Q).
  { intros Hge. unfold progress, Bottle.getCooldownProgress.
    assert (Hf : Bottle.isOnCooldown now1 b' = false)
      by (apply isOnCooldown_false; rewrite Hce; exact Hge).
    now rewrite Hf. }
  split; [exact Hcd|].
  split; [rewrite use_accepted, Hce; split; [lia | intros; split; [exact Hl | lia]]|].
  split; [exact Hoff|]. split; [exact Hon|].
  destruct (Z_lt_le_dec now1 (T + 3000)) as [Hlt | Hge].
  - rewrite (Hon Hlt).
    split; [apply progress_nonneg; lia|].
    destruct (Z.lt_trichotomy (T + 3000 - now2) 0) as [R | [R | R]].
    + pose proof (progress_after _ R) as P. split; split.
      * intros H. lra.
      * intros H. lia.
      * intros _. split; lia.
      * intros _. exact P.
    + rewrite (progress_at _ R). split; split.
      * intros H. lra.
      * intros H. lia.
      * intros H. lra.
      * intros [_ H]. lia.
    + pose proof (progress_before _ R) as P. split; split.
      * intros _. lia.
      * intros _. exact P.
      * intros H. lra.
      * intros [_ H]. lia.
  - rewrite (Hoff Hge). split; [lra|]. split; split.
    + intros H. lra.
    + intros H. lia.
    + intros H. lra.
    + intros [H _]. lia.
Qed.

(** The deadline falls between the two reads: the result is above 1. *)
Lemma X1_witness :
  (1 < Bottle.getCooldownProgress 2999 3001 (snd (Bottle.use 0 welcomeBottle)))%Q.
Proof.
  assert (Hu : fst (Bottle.use 0 welcomeBottle) = true) by reflexivity.
  assert (HT : 0 <= 2999) by discriminate.
  assert (H12 : 2999 <= 3001) by discriminate.
  destruct (X1_cooldown_progress_bounds 0 2999 3001 welcomeBottle Hu HT H12)
    as (_ & _ & _ & _ & _ & _ & Hrace).
  apply Hrace. split; reflexivity.
Defined.

(** ** The life of a used bottle *)

(** A run of ticks of a bottle, each with its delta and its clock. *)
Definition Bottle_ticks (ticks : list (Q * Z)) (b : Bottle.t) : Bottle.t :=
  fold_left (fun b' t => Bottle.update (fst t) (snd t) b') ticks b.

Lemma update_B_IDLE (deltaTime : Q) (now : Z) (b : Bottle.t) :
  Bottle.state b = B_IDLE ->
  Bottle.state (Bottle.update deltaTime now b) = B_IDLE /\
  Bottle.fillLevel (Bottle.update deltaTime now b) = Bottle.fillLevel b.
Proof.
  intros Hs. unfold Bottle.update.
  destruct (bottle_tickFrame_keeps b deltaTime) as (Hst & _ & Hf & _).
  rewrite Hst, Hs. rewrite Hs in Hst. auto.
Qed.

Lemma update_REFILLING_done (deltaTime : Q) (now : Z) (b : Bottle.t) :
  Bottle.state b = REFILLING -> Bottle.cooldownEnd b <= now ->
  Bottle.state (Bottle.update deltaTime now b) = B_IDLE /\
  Bottle.fillLevel (Bottle.update deltaTime now b) = 1%Q.
Proof.
  intros Hs Hc. unfold Bottle.update.
  destruct (bottle_tickFrame_keeps b deltaTime) as (Hst & Hce & _).
  rewrite Hst, Hs. unfold Bottle.isOnCooldown. rewrite Hce.
  apply Z.ltb_ge in Hc. rewrite Hc. cbn [negb]. auto.
Qed.

Lemma idle_ticks (ticks : list (Q * Z)) :
  forall b, Bottle.state b = B_IDLE ->
    Bottle.state (Bottle_ticks ticks b) = B_IDLE /\
    Bottle.fillLevel (Bottle_ticks ticks b) = Bottle.fillLevel b /\
    Bottle.cooldownEnd (Bottle_ticks ticks b) = Bottle.cooldownEnd b.
Proof.
  induction ticks as [|t rest IH]; intros b Hs; [auto|].
  cbn [Bottle_ticks fold_left]. fold (Bottle_ticks rest (Bottle.update (fst t) (snd t) b)).
  destruct (update_B_IDLE (fst t) (snd t) b Hs) as [Hs' Hf'].
  destruct (IH _ Hs') as (H1 & H2 & H3).
  rewrite H1, H2, H3, Hf', update_cooldownEnd. auto.
Qed.

Lemma refilling_ticks (ticks : list (Q * Z)) :
  forall b, Bottle.state b = REFILLING ->
    Forall (fun t => snd t < Bottle.cooldownEnd b) ticks ->
    Bottle.state (Bottle_ticks ticks b) = REFILLING /\
    Bottle.cooldownEnd (Bottle_ticks ticks b) = Bottle.cooldownEnd b.
Proof.
  induction ticks as [|t rest IH]; intros b Hs Hall; [auto|].
  cbn [Bottle_ticks fold_left]. fold (Bottle_ticks rest (Bottle.update (fst t) (snd t) b)).
  inversion Hall as [|? ? Ht Hrest]; subst.
  assert (Hs' : Bottle.state (Bottle.update (fst t) (snd t) b) = REFILLING).
  { rewrite (update_REFILLING (snd t) b (fst t) Hs).
    apply isOnCooldown_true in Ht. now rewrite Ht. }
  destruct (IH _ Hs') as [H1 H2].
  - rewrite update_cooldownEnd. exact Hrest.
  - rewrite H1, H2, update_cooldownEnd. auto.
Qed.

(** X2: a bottle used at time [T] and ticked at least twice before its
    deadline [T + 3000] (with deltas that are not negative) is depleted by
    the first tick and replenishing from the second; the first tick at or
    after the deadline makes it idle and full, it stays so under all later
    ticks, and it accepts [use()] again from the deadline on. *)
Theorem X2_used_bottle_returns_to_idle :
  forall (T : Z) (b : Bottle.t) (first second : Q * Z) (before after : list (Q * Z))
         (last : Q * Z),
    fst (Bottle.use T b) = true ->
    (0 <= fst first)%Q ->
    snd second < T + 3000 ->
    Forall (fun t => snd t < T + 3000) before ->
    T + 3000 <= snd last ->
    let used := snd (Bottle.use T b) in
    Bottle.state (Bottle_ticks [first] used) = EMPTY /\
    Bottle.state (Bottle_ticks (first :: second :: before) used) = REFILLING /\
    let b' := Bottle_ticks (first :: second :: before ++ last :: after) used in
    Bottle.state b' = B_IDLE /\ Bottle.fillLevel b' = 1%Q /\
    (forall now, T + 3000 <= now -> fst (Bottle.use now b') = true).
Proof.
  intros T b first second before after last Hu Hd H2 Hbefore Hlast used.
  destruct (use_effect T b Hu) as (Hs0 & Hce0 & Hf0). fold used in Hs0, Hce0, Hf0.
  change GAME_CONFIG.BOTTLE_COOLDOWN with 3000 in Hce0.
  set (b1 := Bottle.update (fst first) (snd first) used).
  assert (Hs1 : Bottle.state b1 = EMPTY).
  { apply update_POURING_drained; [exact Hs0 | rewrite Hf0; reflexivity | exact Hd]. }
  assert (Hce1 : Bottle.cooldownEnd b1 = T + 3000)
    by (unfold b1; rewrite update_cooldownEnd; exact Hce0).
  set (b2 := Bottle.update (fst second) (snd second) b1).
  assert (Hs2 : Bottle.state b2 = REFILLING).
  { unfold b2. rewrite (update_EMPTY (snd second) b1 (fst second) Hs1).
    assert (Hon : Bottle.isOnCooldown (snd second) b1 = true)
      by (apply isOnCooldown_true; rewrite Hce1; exact H2).
    now rewrite Hon. }
  assert (Hce2 : Bottle.cooldownEnd b2 = T + 3000)
    by (unfold b2; rewrite update_cooldownEnd; exact Hce1).
  destruct (refilling_ticks before b2 Hs2) as [Hs3 Hce3];
    [rewrite Hce2; exact Hbefore|].
  rewrite Hce2 in Hce3.
  split; [exact Hs1|]. split; [exact Hs3|].
  intros b'.
  assert (Hb' : b' = Bottle_ticks after
                       (Bottle.update (fst last) (snd last) (Bottle_ticks before b2))).
  { unfold b', Bottle_ticks. cbn [fold_left]. rewrite fold_left_app. reflexivity. }
  destruct (update_REFILLING_done (fst last) (snd last) (Bottle_ticks before b2) Hs3)
    as [Hs4 Hf4]; [rewrite Hce3; exact Hlast|].
  destruct (idle_ticks after _ Hs4) as (Hs5 & Hf5 & Hce5).
  rewrite update_cooldownEnd, Hce3 in Hce5.
  rewrite Hb'. split; [exact Hs5|]. split; [rewrite Hf5; exact Hf4|].
  intros now Hnow. apply use_accepted. split; [|rewrite Hce5; exact Hnow].
  assert (Ht : forall ticks b0, Bottle.type (Bottle_ticks ticks b0) = Bottle.type b0).
  { induction ticks as [|t rest IH]; intros b0; [reflexivity|].
    cbn [Bottle_ticks fold_left]. fold (Bottle_ticks rest (Bottle.update (fst t) (snd t) b0)).
    rewrite IH. unfold Bottle.update.
    destruct (Bottle.state (Bottle.tickFrame (fst t) b0));
      repeat match goal with |- context [if ?c then _ else _] => destruct c end;
      reflexivity. }
  rewrite <- Hb'. unfold b'. rewrite Ht.
  apply use_accepted in Hu. destruct Hu as [Hl _]. unfold used, Bottle.use.
  destruct (bt_locked (Bottle.type b) || Bottle.isOnCooldown T b); exact Hl.
Qed.

Lemma X2_witness :
  Bottle.state
    (Bottle_ticks [(16%Q, 16); (16%Q, 32); (16%Q, 48); (16%Q, 3008); (16%Q, 3024)]
       (snd (Bottle.use 0 welcomeBottle))) = B_IDLE.
Proof.
  assert (Hu : fst (Bottle.use 0 welcomeBottle) = true) by reflexivity.
  assert (Hd : (0 <= fst (16%Q, 16))%Q) by (vm_compute; discriminate).
  assert (H2 : snd (16%Q, 32) < 0 + 3000) by reflexivity.
  assert (Hb : Forall (fun t : Q * Z => snd t < 0 + 3000) [(16%Q, 48)])
    by (repeat constructor).
  assert (Hl : 0 + 3000 <= snd (16%Q, 3008)) by discriminate.
  destruct (X2_used_bottle_returns_to_idle 0 welcomeBottle (16%Q, 16) (16%Q, 32)
              [(16%Q, 48)] [(16%Q, 3024)] (16%Q, 3008) Hu Hd H2 Hb Hl)
    as (_ & _ & Hs & _).
  exact Hs.
Defined.

(** ** Every customer of a game *)

(** A customer as [spawnCustomer] makes it: built by the constructor with a
    type drawn at random, and given a slot of the bar. *)
Definition fresh (c : Customer.t) : Prop :=
  exists options rnd now counter i,
    Customer.o_typeIndex options = None /\
    (i < length POSITIONS.CUSTOMER_SLOTS)%nat /\
    c = Customer.assignSlot i (fst (Customer.new options rnd now counter)).

Lemma fresh_ok (c : Customer.t) : fresh c -> Customer_ok c.
Proof.
  intros (options & rnd & now & counter & i & Ho & _ & ->).
  apply assignSlot_customer.
  apply (new_customer options rnd now counter). exact Ho.
Qed.

Lemma updateSpawn_fresh (inp : Game.TickInput) (g : Game.t) :
  length (Game.customerSlots g) = length POSITIONS.CUSTOMER_SLOTS ->
  Game.customers (Game.updateSpawn inp g) = Game.customers g \/
  exists c, Game.customers (Game.updateSpawn inp g) = Game.customers g ++ [c] /\
            fresh c.
Proof.
  intros Hlen. unfold Game.updateSpawn. game_fields.
  destruct (Qleb _ _); [|left; reflexivity].
  match goal with |- context [Game.spawnCustomer _ _ ?g0] => set (g1 := g0) end.
  destruct (findIndex Game.isNull (Game.customerSlots g1)) as [i|] eqn:Ef.
  - right.
    destruct (spawnCustomer_free (Game.rnd inp) (Game.now inp) g1 i Ef) as (Hc & _).
    exists (spawned (Game.rnd inp) (Game.now inp) i g1). split; [exact Hc|].
    exists (spawnOptions g1), (Game.rnd inp), (Game.now inp),
      (Game.customerIdCounter g1), i.
    split; [unfold spawnOptions; destruct (Game.pendingRealMessages g1); reflexivity|].
    split; [|reflexivity].
    apply findIndex_Some in Ef. destruct Ef as [(a & Ha & _) _].
    apply nth_error_lt in Ha. change (Game.customerSlots g1) with (Game.customerSlots g) in Ha.
    lia.
  - left. rewrite (spawnCustomer_full _ _ _ Ef). reflexivity.
Qed.

Lemma markLost_cases (c : Customer.t) :
  markLost c = c \/ markLost c = Customer.set_countedAsLost true c.
Proof. unfold markLost. destruct (isNewlyLost c); auto. Qed.

(** The customers after a tick in play: those of before and the one that
    arrived, each updated once and marked if it storms off, less the ones
    that have left the screen. *)
Lemma tick_customers (inp : Game.TickInput) (g : Game.t) :
  Game_ok g -> Game.state g = Game.playing ->
  forall c', In c' (Game.customers (Game.update inp g)) ->
    exists c, (In c (Game.customers g) \/ fresh c) /\
      c' = markLost (Customer.update (Game.shake inp (Customer.id c))
                       (Game.deltaTime inp) (Game.difficulty g) c) /\
      Customer.isRemovable c' = false.
Proof.
  intros Hok Hplay c'. rewrite (update_playing inp g Hplay).
  set (g2 := Game.updateApiPoll (Game.deltaTime inp)
               (Game.updateComboTimer (Game.deltaTime inp) g)).
  set (g3 := Game.updateSpawn inp g2).
  set (g4 := Game.updateCustomers inp g3).
  set (g6 := Game.updateRemove (Game.updateLost g4)).
  rewrite (roster_customers _ _ (updateDifficulty_roster _)),
    (roster_customers _ _ (updateBottles_roster inp g6)).
  unfold g6.
  destruct (updateRemove_spec (Game.updateLost g4)) as (-> & _).
  destruct (updateLost_spec g4) as (-> & _).
  intros Hin. apply filter_In in Hin. destruct Hin as [Hin Hrm].
  apply negb_true_iff in Hrm.
  apply in_map_iff in Hin. destruct Hin as (c4 & <- & Hin).
  unfold g4, Game.updateCustomers in Hin. game_fields_in Hin.
  apply in_map_iff in Hin. destruct Hin as (c & <- & Hin).
  destruct (tick_before_customers inp g) as (Hc2 & Hd3 & _).
  fold g2 in Hc2, Hd3. fold g3 in Hd3. rewrite Hd3 in *.
  exists c. split; [|split; [reflexivity | exact Hrm]].
  assert (Hlen : length (Game.customerSlots g2) = length POSITIONS.CUSTOMER_SLOTS).
  { assert (Hr : roster_fields g2 = roster_fields g).
    { unfold g2. rewrite updateApiPoll_roster. apply updateComboTimer_roster. }
    unfold roster_fields in Hr. injection Hr as _ -> _ _ _.
    apply (seated_length _ _ _ (ok_seated g Hok)). }
  destruct (updateSpawn_fresh inp g2 Hlen) as [Hs | (c0 & Hs & Hf)];
    fold g3 in Hs; rewrite Hs, Hc2 in Hin.
  - left. exact Hin.
  - apply in_app_or in Hin. destruct Hin as [Hin | [<- | []]]; auto.
Qed.

Lemma core_customers (g g' : Game.t) :
  core_fields g' = core_fields g -> Game.customers g' = Game.customers g.
Proof.
  intros H. apply core_seats in H. unfold seats_fields in H.
  injection H as -> _ _ _. reflexivity.
Qed.

Lemma clickBottles_difficulty x y (g : Game.t) :
  Game.difficulty (Game.clickBottles x y g) = Game.difficulty g.
Proof.
  unfold Game.clickBottles.
  generalize (combine (seq 0 (length (Game.bottles g))) (Game.bottles g)) as l.
  intros l. generalize g as g0.
  induction l as [|[index bottle] rest IH]; intros g0; cbn [fold_left];
    [reflexivity|].
  destruct (Bottle.containsPoint x y bottle && _); rewrite IH; reflexivity.
Qed.

Section ReachableCustomers.

(** A property of customers that a customer has when it is made, and keeps
    through what the game does to a customer that stays: an update, the mark
    of the loss loop, an accepted serve. *)
Variable P : Customer.t -> Prop.

Hypothesis P_fresh : forall c, fresh c -> P c.
Hypothesis P_update :
  forall rnd deltaTime difficulty c,
    P c -> Customer_ok c -> (1 <= difficulty)%Q ->
    Customer.isRemovable (Customer.update rnd deltaTime difficulty c) = false ->
    P (Customer.update rnd deltaTime difficulty c).
Hypothesis P_lost : forall c, P c -> P (Customer.set_countedAsLost true c).
Hypothesis P_served :
  forall c, P c -> Customer.isServed c = false -> Customer.isLeaving c = false ->
            P (served c).

Definition All_customers (g : Game.t) : Prop :=
  Inv g /\ Difficulty_ok g /\ forall c, In c (Game.customers g) -> P c.

Lemma update_all (inp : Game.TickInput) (g : Game.t) :
  All_customers g -> All_customers (Game.update inp g).
Proof.
  intros (Hinv & Hd & Hall).
  split; [now apply update_inv|]. split; [now apply update_difficulty|].
  destruct (Game.state g) eqn:Es;
    try (rewrite update_idle; [exact Hall | congruence]).
  intros c' Hin.
  destruct (tick_customers inp g (proj1 Hinv) Es c' Hin) as (c & Hc & -> & Hrm).
  assert (HP : P c) by (destruct Hc; auto).
  assert (Hok : Customer_ok c).
  { destruct Hc as [Hc | Hc]; [|now apply fresh_ok].
    apply (ok_customers g (proj1 Hinv)). apply in_or_app. now left. }
  set (c1 := Customer.update (Game.shake inp (Customer.id c)) (Game.deltaTime inp)
               (Game.difficulty g) c) in *.
  assert (HP1 : P c1).
  { apply P_update; [exact HP | exact Hok | apply Hd |].
    fold c1. destruct (markLost_cases c1) as [E | E]; rewrite E in Hrm; exact Hrm. }
  destruct (markLost_cases c1) as [-> | ->]; auto.
Qed.

Lemma serveCustomer_all now i (g : Game.t) :
  All_customers g -> All_customers (Game.serveCustomer now i g).
Proof.
  intros (Hinv & Hd & Hall).
  split; [now apply serveCustomer_inv|].
  split; [unfold Difficulty_ok; rewrite serveCustomer_difficulty; exact Hd|].
  assert (Hserved : forall bi c, Servable now i g bi c ->
            forall c', In c' (Game.customers (withServed i c g)) -> P c').
  { intros bi c Hsv c' Hin. unfold withServed in Hin. game_fields_in Hin.
    apply array_set_In in Hin. destruct Hin as [-> | Hin]; [|auto].
    apply P_served; [|apply (servable_isServed _ _ _ _ _ Hsv)
                     |apply (servable_isLeaving _ _ _ _ _ Hsv)].
    apply Hall. apply (nth_error_In _ i). apply (servable_customer _ _ _ _ _ Hsv). }
  destruct (serveCustomer_cases now i g) as [-> | (bi & c & Hsv & [[_ ->] | [_ ->]])];
    [exact Hall | exact (Hserved bi c Hsv) |].
  rewrite (roster_customers _ _ (scoreServe_roster _ _ _ _)).
  exact (Hserved bi c Hsv).
Qed.

Lemma startGame_all (g : Game.t) : All_customers g -> All_customers (Game.startGame g).
Proof.
  intros (Hinv & Hd & Hall). split; [now apply startGame_inv|].
  split; [|intros c []].
  unfold Difficulty_ok, Game.startGame. game_fields. split; lra.
Qed.

Lemma step_all (g : Game.t) (e : Game.Event) :
  All_customers g -> All_customers (Game.step g e).
Proof.
  intros Hg. destruct e; cbn [Game.step].
  - now apply update_all.
  - unfold Game.handleClick.
    destruct (Game.state_eqb (Game.state g) Game.menu
              || Game.state_eqb (Game.state g) Game.gameover).
    + destruct (Game.onStartButton x y); [now apply startGame_all | exact Hg].
    + destruct (Game.onMuteButton x y).
      { destruct Hg as (Hinv & Hd & Hall). split; [|split; [exact Hd | exact Hall]].
        apply (core_inv g); [reflexivity | exact Hinv]. }
      destruct (negb (Game.state_eqb (Game.state g) Game.playing)); [exact Hg|].
      apply clickCustomers_preserves; [intros i g0; apply serveCustomer_all|].
      destruct (clickBottles_core x y g) as (Hcore & _ & Hc).
      destruct Hg as (Hinv & Hd & Hall).
      split; [apply (core_inv g); assumption|].
      split; [|rewrite Hc; exact Hall].
      unfold Difficulty_ok. rewrite clickBottles_difficulty. exact Hd.
  - now apply serveCustomer_all.
  - destruct Hg as (Hinv & Hd & Hall).
    split; [now apply serveCustomer_resume_inv|].
    split; [apply (step_difficulty g (Game.EServeResume now k)); exact Hd|].
    destruct (serveCustomer_resume_cases now k g)
      as [-> | (q & [-> | (c & bi & _ & ->)])]; [exact Hall | exact Hall |].
    rewrite (roster_customers _ _ (scoreServe_roster _ _ _ _)). exact Hall.
  - destruct Hg as (Hinv & Hd & Hall).
    pose proof (pollIncomingMessages_resume_core success messages g) as Hcore.
    split; [apply (core_inv g); assumption|].
    split; [apply (step_difficulty g (Game.EPollResume success messages)); exact Hd|].
    rewrite (core_customers _ _ Hcore). exact Hall.
  - now apply startGame_all.
  - now apply startGame_all.
  - unfold Game.pause. destruct (Game.state_eqb _ _); [|exact Hg].
    destruct Hg as (Hinv & Hd & Hall). split; [|split; [exact Hd | exact Hall]].
    destruct Hinv as [Hok Hcount]. split; [|exact Hcount].
    apply (Game_ok_same_roster g); [exact Hok | reflexivity | apply (ok_combo g Hok)].
  - unfold Game.resume. destruct (Game.state_eqb _ _); [|exact Hg].
    destruct Hg as (Hinv & Hd & Hall). split; [|split; [exact Hd | exact Hall]].
    destruct Hinv as [Hok Hcount]. split; [|exact Hcount].
    apply (Game_ok_same_roster g); [exact Hok | reflexivity | apply (ok_combo g Hok)].
  - destruct Hg as (Hinv & Hd & Hall). split; [|split; [exact Hd | exact Hall]].
    apply (step_inv g (Game.ESetDemoMode b)). exact Hinv.
Qed.

Lemma run_all (events : list Game.Event) :
  forall g, All_customers g -> All_customers (Game.run events g).
Proof.
  induction events as [|e rest IH]; intros g Hg; [exact Hg|].
  apply (IH (Game.step g e)), step_all, Hg.
Qed.

(** The property holds of every customer of every game reached from a new
    one. *)
Lemma reachable_customers (events : list Game.Event) (c : Customer.t) :
  In c (Game.customers (Game.run events Game.new)) -> P c.
Proof.
  apply (run_all events Game.new).
  split; [apply new_inv|]. split; [|intros c0 []].
  unfold Difficulty_ok, Game.new. game_fields. split; lra.
Qed.

End ReachableCustomers.

(** ** A served customer *)

Lemma updateHappy_patience (deltaTime : Q) (c : Customer.t) :
  Customer.patience (Customer.updateHappy deltaTime c) = Customer.patience c /\
  Customer.x (Customer.updateHappy deltaTime c) = Customer.x c /\
  Customer.targetX (Customer.updateHappy deltaTime c) = Customer.targetX c /\
  Customer.y (Customer.updateHappy deltaTime c) = Customer.y c /\
  Customer.isRemovable (Customer.updateHappy deltaTime c) = Customer.isRemovable c.
Proof. unfold Customer.updateHappy. split_ifs; customer_fields; auto. Qed.

(** A customer that is happy or walks out is so after an update, with the
    patience it had. *)
Lemma update_content (rnd deltaTime difficulty : Q) (c : Customer.t) :
  Customer.state c = HAPPY \/ Customer.state c = WALKING_OUT ->
  let c' := Customer.update rnd deltaTime difficulty c in
  (Customer.state c' = HAPPY \/ Customer.state c' = WALKING_OUT) /\
  Customer.patience c' = Customer.patience c.
Proof.
  intros Hs.
  destruct (update_pieces rnd deltaTime difficulty c) as [s E].
  cbv zeta in *. rewrite E. customer_fields.
  destruct (tickFrame_keeps_customer deltaTime c) as (Hst & Hp & _).
  cbv zeta in Hst, Hp.
  destruct Hs as [Hs | Hs]; rewrite Hs in *.
  - destruct (updateHappy_patience deltaTime (Customer.tickFrame deltaTime c))
      as (-> & _).
    split; [|exact Hp].
    destruct (updateHappy_state deltaTime (Customer.tickFrame deltaTime c)) as [-> | ->];
      auto.
  - destruct (updateLeaving_state deltaTime (Customer.tickFrame deltaTime c))
      as [-> ->].
    auto.
Qed.

(** X3: once [serve()] has accepted a customer, no run of updates makes it
    storm off: it stays happy or walks out, its patience is the one it was
    served with whatever the deltas and the difficulty, it is not marked as
    lost unless it was, and [serve()] refuses it from then on. *)
Theorem X3_served_customer_never_storms_off :
  forall (c : Customer.t) (steps : list (Q * Q * Q)),
    fst (Customer.serve c) = true ->
    let c' := Customer_updates steps (snd (Customer.serve c)) in
    (Customer.state c' = HAPPY \/ Customer.state c' = WALKING_OUT) /\
    Customer.patience c' = Customer.patience c /\
    Customer.countedAsLost c' = Customer.countedAsLost c /\
    Customer.serve c' = (false, c').
Proof.
  intros c steps Hs.
  assert (H0 : (Customer.state (snd (Customer.serve c)) = HAPPY \/
                Customer.state (snd (Customer.serve c)) = WALKING_OUT) /\
               Customer.patience (snd (Customer.serve c)) = Customer.patience c /\
               Customer.countedAsLost (snd (Customer.serve c)) = Customer.countedAsLost c /\
               Customer.isServed (snd (Customer.serve c)) = true).
  { revert Hs. unfold Customer.serve.
    destruct (Customer.isServed c || Customer.isLeaving c); [discriminate|].
    intros _. customer_fields. auto. }
  revert H0. generalize (snd (Customer.serve c)) as c0.
  induction steps as [|s rest IH]; intros c0 (Hst & Hp & Hl & Hsv).
  - cbn [Customer_updates fold_left].
    do 3 (split; [assumption|]). unfold Customer.serve. now rewrite Hsv.
  - cbn [Customer_updates fold_left].
    apply (IH (Customer.update (fst (fst s)) (snd (fst s)) (snd s) c0)).
    destruct (update_content (fst (fst s)) (snd (fst s)) (snd s) c0 Hst) as [Hst' Hp'].
    pose proof (update_keeps (fst (fst s)) (snd (fst s)) (snd s) c0) as Hk.
    split; [exact Hst'|]. split; [congruence|].
    split; [rewrite (keeps_countedAsLost _ _ Hk); exact Hl|].
    rewrite (keeps_isServed _ _ Hk). exact Hsv.
Qed.

Lemma idleCustomer_serves : fst (Customer.serve idleCustomer) = true.
Proof. vm_compute. reflexivity. Qed.

Lemma X3_witness :
  Customer.patience
    (Customer_updates [(0.5, 16000, 3); (0.5, 16000, 3)]%Q
       (snd (Customer.serve idleCustomer)))
  = Customer.patience idleCustomer.
Proof.
  destruct (X3_served_customer_never_storms_off idleCustomer
              [(0.5, 16000, 3); (0.5, 16000, 3)]%Q idleCustomer_serves)
    as (_ & Hp & _).
  exact Hp.
Defined.

(** ** The mood and the patience of a customer *)

(** What the state of a customer says of its patience. *)
Definition Mood_ok (c : Customer.t) : Prop :=
  match Customer.state c with
  | WALKING_IN => Customer.patience c = Customer.maxPatience c
  | IDLE => (50 <= Customer.getPatiencePercent c)%Q
  | IMPATIENT => (25 <= Customer.getPatiencePercent c)%Q
  | ANGRY => (0 < Customer.getPatiencePercent c)%Q
  | _ => True
  end.

Lemma updateWalkingIn_patience (deltaTime : Q) (c : Customer.t) :
  Customer.patience (Customer.updateWalkingIn deltaTime c) = Customer.patience c /\
  Customer.y (Customer.updateWalkingIn deltaTime c) = Customer.y c /\
  Customer.targetX (Customer.updateWalkingIn deltaTime c) = Customer.targetX c /\
  Customer.isRemovable (Customer.updateWalkingIn deltaTime c)
    = Customer.isRemovable c.
Proof. unfold Customer.updateWalkingIn. split_ifs; customer_fields; auto. Qed.

Lemma full_patience_percent (p : Q) :
  (0 < p)%Q -> (Double.mul (Double.div p p) 100 == 100)%Q.
Proof.
  intros Hp.
  assert (E : (p / p == 1)%Q).
  { field. intros H. rewrite H in Hp. discriminate. }
  unfold Double.div. rewrite (round_comp _ _ E). vm_compute. reflexivity.
Qed.

Lemma update_mood (rnd deltaTime difficulty : Q) (c : Customer.t) :
  Customer_ok c -> Mood_ok c ->
  Mood_ok (Customer.update rnd deltaTime difficulty c).
Proof.
  intros Hok Hm.
  destruct (update_pieces rnd deltaTime difficulty c) as [s E]. rewrite E. clear E.
  unfold Mood_ok, Customer.getPatiencePercent. customer_fields. cbv zeta.
  destruct (tickFrame_keeps_customer deltaTime c) as (Hst & Hp & Hmp & Hl & _).
  cbv zeta in Hst, Hp, Hmp, Hl.
  set (c1 := Customer.tickFrame deltaTime c) in *.
  assert (Hwaiting : waiting (Customer.state c) = true ->
    match Customer.state (Customer.updateWaiting deltaTime difficulty c1) with
    | WALKING_IN =>
        Customer.patience (Customer.updateWaiting deltaTime difficulty c1)
        = Customer.maxPatience (Customer.updateWaiting deltaTime difficulty c1)
    | IDLE =>
        (50 <= Double.mul
                 (Double.div
                    (Customer.patience (Customer.updateWaiting deltaTime difficulty c1))
                    (Customer.maxPatience (Customer.updateWaiting deltaTime difficulty c1)))
                 100)%Q
    | IMPATIENT =>
        (25 <= Double.mul
                 (Double.div
                    (Customer.patience (Customer.updateWaiting deltaTime difficulty c1))
                    (Customer.maxPatience (Customer.updateWaiting deltaTime difficulty c1)))
                 100)%Q
    | ANGRY =>
        (0 < Double.mul
               (Double.div
                  (Customer.patience (Customer.updateWaiting deltaTime difficulty c1))
                  (Customer.maxPatience (Customer.updateWaiting deltaTime difficulty c1)))
               100)%Q
    | _ => True
    end).
  { intros Hw.
    assert (Hl1 : Customer.isLeaving c1 = false).
    { rewrite Hl, (ok_isLeaving c Hok).
      destruct (Customer.state c); auto; discriminate. }
    rewrite (updateWaiting_state deltaTime difficulty c1 Hl1).
    destruct (updateWaiting_patience deltaTime difficulty c1) as [-> ->].
    fold (decayedPercent deltaTime difficulty c1). rewrite Hst.
    destruct (Qleb (decayedPercent deltaTime difficulty c1) 0) eqn:E0; [exact I|].
    apply Qleb_false in E0.
    destruct (Qltb (decayedPercent deltaTime difficulty c1) 25) eqn:E25;
      [apply Qltb_true in E25 | apply Qltb_false in E25];
      (destruct (Qltb (decayedPercent deltaTime difficulty c1) 50) eqn:E50;
       [apply Qltb_true in E50 | apply Qltb_false in E50]);
      destruct (Customer.state c); try discriminate; cbn [customer_state_eqb negb andb];
      auto; lra. }
  destruct (Customer.state c) eqn:Es; try (apply Hwaiting; reflexivity).
  - destruct (updateWalkingIn_patience deltaTime c1) as (Hp1 & _).
    pose proof (keeps_maxPatience _ _ (updateWalkingIn_keeps deltaTime c1)) as Hm1.
    rewrite Hp1, Hm1, Hp, Hmp.
    rewrite <- Es in Hst.
    assert (Hs1 : Customer.state c1 = WALKING_IN) by congruence.
    unfold Mood_ok in Hm. rewrite Es in Hm.
    destruct (updateWalkingIn_state deltaTime c1 Hs1) as [-> | ->]; [exact Hm|].
    rewrite Hm, (full_patience_percent _ (ok_maxPatience c Hok)). lra.
  - destruct (updateHappy_state deltaTime c1) as [-> | ->]; [rewrite Hst|]; exact I.
  - destruct (updateLeaving_state deltaTime c1) as [-> _]. rewrite Hst. exact I.
  - destruct (updateLeaving_state deltaTime c1) as [-> _]. rewrite Hst. exact I.
Qed.

Lemma fresh_mood (c : Customer.t) : fresh c -> Mood_ok c.
Proof. intros (options & rnd & now & counter & i & _ & _ & ->). reflexivity. Qed.

(** X4: in every game reached from a new one, the state of a customer agrees
    with its patience: a customer walking in has all of it, an idle one at
    least half, an impatient one at least a quarter, an angry one some.  So
    the level [getPatienceLevel()] colours the meter with is never low or
    critical for an idle customer, and critical for a waiting customer only
    when it is angry. *)
Theorem X4_mood_agrees_with_patience :
  forall (events : list Game.Event) (c : Customer.t),
    In c (Game.customers (Game.run events Game.new)) ->
    (Customer.state c = WALKING_IN -> (Customer.getPatiencePercent c == 100)%Q) /\
    (Customer.state c = IDLE -> (50 <= Customer.getPatiencePercent c)%Q) /\
    (Customer.state c = IMPATIENT -> (25 <= Customer.getPatiencePercent c)%Q) /\
    (Customer.state c = ANGRY -> (0 < Customer.getPatiencePercent c)%Q) /\
    (Customer.state c = IDLE ->
       getPatienceLevel c = high \/ getPatienceLevel c = medium) /\
    (waiting (Customer.state c) = true -> getPatienceLevel c = critical ->
       Customer.state c = ANGRY).
Proof.
  intros events c Hin.
  assert (Hm : Mood_ok c).
  { revert Hin. apply (reachable_customers Mood_ok).
    - exact fresh_mood.
    - intros rnd deltaTime difficulty c0 Hm Hok _ _. now apply update_mood.
    - intros c0 Hm. exact Hm.
    - intros c0 _ _ _. exact I. }
  assert (Hok : Customer_ok c).
  { apply (ok_customers _ (proj1 (reachable_inv events))).
    apply in_or_app. now left. }
  unfold Mood_ok in Hm.
  assert (Hlevel : forall q, (q <= Customer.getPatiencePercent c)%Q -> (25 <= q)%Q ->
                             getPatienceLevel c <> critical).
  { intros q H1 H2. unfold getPatienceLevel. cbv zeta.
    destruct (Qltb 70 _); [discriminate|]. destruct (Qltb 40 _); [discriminate|].
    destruct (Qltb 20 _) eqn:E; [discriminate|].
    apply Qltb_false in E. lra. }
  split.
  { intros Hs. rewrite Hs in Hm. unfold Customer.getPatiencePercent. rewrite Hm.
    apply full_patience_percent, (ok_maxPatience c Hok). }
  split; [intros Hs; now rewrite Hs in Hm|].
  split; [intros Hs; now rewrite Hs in Hm|].
  split; [intros Hs; now rewrite Hs in Hm|].
  split.
  - intros Hs. rewrite Hs in Hm. unfold getPatienceLevel. cbv zeta.
    destruct (Qltb 70 _); [now left|].
    destruct (Qltb 40 _) eqn:E; [now right|].
    apply Qltb_false in E. lra.
  - intros Hw Hc. destruct (Customer.state c); try discriminate; try reflexivity;
      exfalso; eapply Hlevel; eauto; lra.
Qed.

(** The customer that arrived first in the round of [fullEvents]. *)
Definition fullGame_first : Customer.t :=
  nth 0 (Game.customers fullGame) walkingCustomer.

Lemma fullGame_first_in : In fullGame_first (Game.customers fullGame).
Proof. vm_compute. left. reflexivity. Qed.

Lemma fullGame_first_idle : Customer.state fullGame_first = IDLE.
Proof. vm_compute. reflexivity. Qed.

Lemma X4_witness : (50 <= Customer.getPatiencePercent fullGame_first)%Q.
Proof.
  destruct (X4_mood_agrees_with_patience fullEvents fullGame_first fullGame_first_in)
    as (_ & H & _).
  apply H. exact fullGame_first_idle.
Defined.

(** ** The patience is a double *)

Lemma customer_type_double (i : nat) (d : CustomerType) :
  (i < length CUSTOMER_TYPES)%nat -> is_double (ct_patience (nth i CUSTOMER_TYPES d)).
Proof.
  simpl. intros Hi.
  do 6 (destruct i as [|i]; [vm_compute; reflexivity|]). lia.
Qed.

Lemma fresh_double (c : Customer.t) : fresh c -> is_double (Customer.patience c).
Proof.
  intros (options & rnd & now & counter & i & Ho & _ & ->).
  unfold Customer.assignSlot, Customer.new. customer_fields. rewrite Ho.
  apply customer_type_double. apply Nat.mod_upper_bound. discriminate.
Qed.

Lemma update_double (rnd deltaTime difficulty : Q) (c : Customer.t) :
  is_double (Customer.patience c) ->
  is_double (Customer.patience (Customer.update rnd deltaTime difficulty c)).
Proof.
  intros Hd.
  destruct (update_pieces rnd deltaTime difficulty c) as [s ->].
  customer_fields. cbv zeta.
  destruct (tickFrame_keeps_customer deltaTime c) as (_ & Hp & _).
  cbv zeta in Hp.
  destruct (Customer.state c).
  - destruct (updateWalkingIn_patience deltaTime (Customer.tickFrame deltaTime c))
      as [-> _].
    rewrite Hp. exact Hd.
  - destruct (updateWaiting_patience deltaTime difficulty
                (Customer.tickFrame deltaTime c)) as [-> _].
    apply Math_max_0_double, round_is_double.
  - destruct (updateWaiting_patience deltaTime difficulty
                (Customer.tickFrame deltaTime c)) as [-> _].
    apply Math_max_0_double, round_is_double.
  - destruct (updateWaiting_patience deltaTime difficulty
                (Customer.tickFrame deltaTime c)) as [-> _].
    apply Math_max_0_double, round_is_double.
  - destruct (updateHappy_patience deltaTime (Customer.tickFrame deltaTime c))
      as [-> _].
    rewrite Hp. exact Hd.
  - destruct (updateLeaving_state deltaTime (Customer.tickFrame deltaTime c))
      as [_ ->].
    rewrite Hp. exact Hd.
  - destruct (updateLeaving_state deltaTime (Customer.tickFrame deltaTime c))
      as [_ ->].
    rewrite Hp. exact Hd.
Qed.

(** In every game reached from a new one the patience of every customer is
    a double: the types start it at one, and the decay rounds to one. *)
Lemma reachable_double (events : list Game.Event) (c : Customer.t) :
  In c (Game.customers (Game.run events Game.new)) ->
  is_double (Customer.patience c).
Proof.
  apply (reachable_customers (fun c0 => is_double (Customer.patience c0))).
  - exact fresh_double.
  - intros rnd deltaTime difficulty c0 Hd _ _ _. now apply update_double.
  - intros c0 Hd. exact Hd.
  - intros c0 Hd _ _. exact Hd.
Qed.

(** ** Where a customer stands *)

Section CustomerPlace.

Variables (deltaTime difficulty : Q) (c : Customer.t).

Lemma tickFrame_place :
  let c' := Customer.tickFrame deltaTime c in
  Customer.type c' = Customer.type c /\ Customer.x c' = Customer.x c /\
  Customer.y c' = Customer.y c /\ Customer.targetX c' = Customer.targetX c /\
  Customer.isRemovable c' = Customer.isRemovable c.
Proof. unfold Customer.tickFrame. destruct (Qleb _ _); repeat split. Qed.

Lemma updateWaiting_place :
  let c' := Customer.updateWaiting deltaTime difficulty c in
  Customer.type c' = Customer.type c /\ Customer.x c' = Customer.x c /\
  Customer.y c' = Customer.y c /\ Customer.targetX c' = Customer.targetX c /\
  Customer.isRemovable c' = Customer.isRemovable c.
Proof.
  unfold Customer.updateWaiting, Customer.stormOff. customer_fields.
  split_ifs; repeat split.
Qed.

Lemma updateWalkingIn_place :
  let c' := Customer.updateWalkingIn deltaTime c in
  Customer.type c' = Customer.type c /\
  (Customer.state c = WALKING_IN -> Customer.state c' = IDLE ->
   Customer.targetX c = Some (Customer.x c')).
Proof.
  unfold Customer.updateWalkingIn.
  destruct (Customer.targetX c) as [tx|] eqn:Et.
  - destruct (Qleb _ tx); customer_fields; split; auto.
    intros -> H. discriminate.
  - split; [reflexivity|]. intros -> H. discriminate.
Qed.

Lemma updateHappy_type :
  Customer.type (Customer.updateHappy deltaTime c) = Customer.type c.
Proof. unfold Customer.updateHappy. split_ifs; reflexivity. Qed.

(** [updateLeaving] moves the customer by its speed, to the right when it
    storms off and to the left when it walks out, and marks it removable
    past the edges of the screen. *)
Lemma updateLeaving_place :
  let c' := Customer.updateLeaving deltaTime c in
  let speed := (ct_walkSpeed (Customer.type c) * (deltaTime / 16))%Q in
  Customer.type c' = Customer.type c /\
  Customer.y c' = Customer.y c /\ Customer.targetX c' = Customer.targetX c /\
  Customer.x c' = (if customer_state_eqb (Customer.state c) WALKING_OUT
                   then Customer.x c - speed * 2 else Customer.x c + speed * 4)%Q /\
  Customer.isRemovable c' =
    (Qltb (Customer.x c') POSITIONS.CUSTOMER_EXIT_X
     || Qltb POSITIONS.CUSTOMER_SPAWN_X (Customer.x c')
     || Customer.isRemovable c).
Proof.
  unfold Customer.updateLeaving.
  destruct (customer_state_eqb (Customer.state c) WALKING_OUT); customer_fields;
    match goal with |- context [if ?b then _ else _] => destruct b eqn:E end;
    customer_fields; rewrite ?E; repeat split.
Qed.

End CustomerPlace.

(** What an update does to the place of a customer. *)
Lemma update_place (rnd deltaTime difficulty : Q) (c : Customer.t) :
  let c' := Customer.update rnd deltaTime difficulty c in
  Customer.type c' = Customer.type c /\
  Customer.y c' = Customer.y c /\
  Customer.targetX c' = Customer.targetX c /\
  (waiting (Customer.state c') = true ->
   (waiting (Customer.state c) = true /\ Customer.x c' = Customer.x c) \/
   (Customer.state c = WALKING_IN /\ Customer.targetX c = Some (Customer.x c'))).
Proof.
  destruct (update_pieces rnd deltaTime difficulty c) as [s E].
  cbv zeta in *. rewrite E. clear E. customer_fields.
  destruct (tickFrame_keeps_customer deltaTime c) as (Hst & _).
  destruct (tickFrame_place deltaTime c) as (Hty & Hx & Hy & Htx & _).
  cbv zeta in Hst, Hty, Hx, Hy, Htx.
  set (c1 := Customer.tickFrame deltaTime c) in *.
  destruct (Customer.state c) eqn:Es.
  - destruct (updateWalkingIn_place deltaTime c1) as (T1 & X1).
    destruct (updateWalkingIn_patience deltaTime c1) as (_ & Y1 & TX1 & _).
    cbv zeta in T1, X1. rewrite T1, Y1, TX1.
    do 3 (split; [congruence|]).
    intros Hw. right. split; [reflexivity|]. rewrite <- Htx.
    destruct (updateWalkingIn_state deltaTime c1 Hst) as [H | H].
    + rewrite H in Hw. discriminate.
    + apply X1; assumption.
  - destruct (updateWaiting_place deltaTime difficulty c1) as (T1 & X1 & Y1 & TX1 & _).
    cbv zeta in T1, X1, Y1, TX1. rewrite T1, X1, Y1, TX1.
    do 3 (split; [congruence|]). intros _. left. split; [reflexivity | congruence].
  - destruct (updateWaiting_place deltaTime difficulty c1) as (T1 & X1 & Y1 & TX1 & _).
    cbv zeta in T1, X1, Y1, TX1. rewrite T1, X1, Y1, TX1.
    do 3 (split; [congruence|]). intros _. left. split; [reflexivity | congruence].
  - destruct (updateWaiting_place deltaTime difficulty c1) as (T1 & X1 & Y1 & TX1 & _).
    cbv zeta in T1, X1, Y1, TX1. rewrite T1, X1, Y1, TX1.
    do 3 (split; [congruence|]). intros _. left. split; [reflexivity | congruence].
  - destruct (updateHappy_patience deltaTime c1) as (_ & _ & TX1 & Y1 & _).
    rewrite (updateHappy_type deltaTime c1), Y1, TX1.
    do 3 (split; [congruence|]). intros Hw.
    destruct (updateHappy_state deltaTime c1) as [H | H]; rewrite H in Hw;
      [rewrite Hst in Hw|]; discriminate.
  - destruct (updateLeaving_place deltaTime c1) as (T1 & Y1 & TX1 & _).
    cbv zeta in T1, Y1, TX1. rewrite T1, Y1, TX1.
    do 3 (split; [congruence|]). intros Hw.
    destruct (updateLeaving_state deltaTime c1) as [H _]. rewrite H, Hst in Hw.
    discriminate.
  - destruct (updateLeaving_place deltaTime c1) as (T1 & Y1 & TX1 & _).
    cbv zeta in T1, Y1, TX1. rewrite T1, Y1, TX1.
    do 3 (split; [congruence|]). intros Hw.
    destruct (updateLeaving_state deltaTime c1) as [H _]. rewrite H, Hst in Hw.
    discriminate.
Qed.

(** The customer has a slot of the bar, is headed for the coordinate of that
    slot, stands on the floor line, and is at the coordinate while it
    waits. *)
Definition Placed (c : Customer.t) : Prop :=
  exists i tx,
    Customer.slotIndex c = Some i /\
    nth_error POSITIONS.CUSTOMER_SLOTS i = Some tx /\
    Customer.targetX c = Some tx /\
    Customer.y c = (POSITIONS.BAR_Y - 120)%Q /\
    (waiting (Customer.state c) = true -> Customer.x c = tx).

Lemma fresh_placed (c : Customer.t) : fresh c -> Placed c.
Proof.
  intros (options & rnd & now & counter & i & _ & Hi & ->).
  destruct (nth_error POSITIONS.CUSTOMER_SLOTS i) as [tx|] eqn:E;
    [|apply nth_error_None in E; lia].
  exists i, tx. unfold Customer.assignSlot. rewrite E.
  repeat split; auto. discriminate.
Qed.

Lemma update_placed (rnd deltaTime difficulty : Q) (c : Customer.t) :
  Placed c -> Placed (Customer.update rnd deltaTime difficulty c).
Proof.
  intros (i & tx & Hi & Htx & Ht & Hy & Hx).
  destruct (update_place rnd deltaTime difficulty c) as (_ & Y1 & TX1 & X1).
  cbv zeta in Y1, TX1, X1.
  exists i, tx.
  rewrite (keeps_slotIndex _ _ (update_keeps rnd deltaTime difficulty c)), Y1, TX1.
  do 4 (split; [assumption|]).
  intros Hw. destruct (X1 Hw) as [[Hw0 ->] | [_ E]]; [auto | congruence].
Qed.

Lemma slots_nodup : NoDup POSITIONS.CUSTOMER_SLOTS.
Proof.
  unfold POSITIONS.CUSTOMER_SLOTS.
  repeat (constructor;
          [cbn [In]; intros H;
           repeat (destruct H as [H | H]; [discriminate H|]); exact H|]).
  constructor.
Qed.

Lemma roster_same_slot (g : Game.t) (c1 c2 : Customer.t) :
  Game_ok g -> In c1 (Game.customers g) -> In c2 (Game.customers g) ->
  Customer.slotIndex c1 = Customer.slotIndex c2 -> Customer.id c1 = Customer.id c2.
Proof.
  intros Hok H1 H2 Hs.
  pose proof (ok_seated g Hok) as Hseat.
  destruct (seated_slot _ _ _ Hseat (Customer.id c1, Customer.slotIndex c1))
    as (i1 & E1 & N1).
  { unfold roster. apply (in_map (fun c => (Customer.id c, Customer.slotIndex c))).
    exact H1. }
  destruct (seated_slot _ _ _ Hseat (Customer.id c2, Customer.slotIndex c2))
    as (i2 & E2 & N2).
  { unfold roster. apply (in_map (fun c => (Customer.id c, Customer.slotIndex c))).
    exact H2. }
  cbn [fst snd] in *. congruence.
Qed.

(** X5: in every game reached from a new one, each customer has a slot of
    the bar that holds its id, stands on the floor line, and stands exactly at
    the coordinate of its slot while it waits; two customers with the same
    slot are one and the same, so waiting customers with different ids stand
    at different coordinates. *)
Theorem X5_customers_stand_at_their_slots :
  forall (events : list Game.Event) (c : Customer.t),
    let g := Game.run events Game.new in
    In c (Game.customers g) ->
    (exists i tx,
       Customer.slotIndex c = Some i /\
       nth_error (Game.customerSlots g) i = Some (Some (Customer.id c)) /\
       nth_error POSITIONS.CUSTOMER_SLOTS i = Some tx /\
       Customer.y c = 360%Q /\
       (waiting (Customer.state c) = true -> Customer.x c = tx)) /\
    (forall c2, In c2 (Game.customers g) ->
       waiting (Customer.state c) = true -> waiting (Customer.state c2) = true ->
       Customer.x c = Customer.x c2 -> Customer.id c = Customer.id c2).
Proof.
  intros events c g Hin.
  assert (Hp : forall c0, In c0 (Game.customers g) -> Placed c0).
  { intros c0. apply (reachable_customers Placed).
    - exact fresh_placed.
    - intros rnd deltaTime difficulty c1 Hp _ _ _. now apply update_placed.
    - intros c1 Hp. exact Hp.
    - intros c1 (i & tx & H1 & H2 & H3 & H4 & H5) _ _.
      exists i, tx. repeat split; auto. discriminate. }
  pose proof (proj1 (reachable_inv events)) as Hok. fold g in Hok.
  destruct (Hp c Hin) as (i & tx & Hi & Htx & _ & Hy & Hx).
  split.
  - exists i, tx. split; [exact Hi|]. split; [|auto].
    destruct (seated_slot _ _ _ (ok_seated g Hok) (Customer.id c, Customer.slotIndex c))
      as (i1 & E1 & N1).
    { unfold roster. apply (in_map (fun c => (Customer.id c, Customer.slotIndex c))).
      exact Hin. }
    cbn [fst snd] in *. congruence.
  - intros c2 Hin2 Hw Hw2 Hxx.
    destruct (Hp c2 Hin2) as (i2 & tx2 & Hi2 & Htx2 & _ & _ & Hx2).
    apply (roster_same_slot g); auto.
    rewrite Hi, Hi2. f_equal.
    apply (proj1 (NoDup_nth_error POSITIONS.CUSTOMER_SLOTS) slots_nodup).
    + apply (nth_error_lt _ _ _ Htx).
    + rewrite Htx, Htx2, <- (Hx Hw), <- (Hx2 Hw2). congruence.
Qed.

Lemma X5_witness :
  exists i tx,
    Customer.slotIndex fullGame_first = Some i /\
    nth_error (Game.customerSlots fullGame) i = Some (Some (Customer.id fullGame_first)) /\
    nth_error POSITIONS.CUSTOMER_SLOTS i = Some tx /\
    Customer.y fullGame_first = 360%Q /\
    (waiting (Customer.state fullGame_first) = true -> Customer.x fullGame_first = tx).
Proof.
  exact (proj1 (X5_customers_stand_at_their_slots fullEvents fullGame_first
                  fullGame_first_in)).
Defined.

(** X6: no customer of a game reached from a new one is removable: a
    customer that has left the screen is dropped from [customers] in the tick
    in which its exit completes, and no other event marks a customer. *)
Theorem X6_removable_customers_are_dropped :
  forall (events : list Game.Event) (c : Customer.t),
    In c (Game.customers (Game.run events Game.new)) ->
    Customer.isRemovable c = false.
Proof.
  intros events c.
  apply (reachable_customers (fun c0 => Customer.isRemovable c0 = false)).
  - intros c0 (options & rnd & now & counter & i & _ & _ & ->). reflexivity.
  - intros rnd deltaTime difficulty c0 _ _ _ H. exact H.
  - intros c0 H. exact H.
  - intros c0 H _ _. exact H.
Qed.

Lemma X6_witness : Customer.isRemovable fullGame_first = false.
Proof.
  exact (X6_removable_customers_are_dropped fullEvents fullGame_first
           fullGame_first_in).
Defined.

(** ** A customer on its way out *)

(** One update of a customer that storms off, or walks out. *)
Lemma update_exit (rnd deltaTime difficulty : Q) (c : Customer.t) :
  leaving (Customer.state c) = true ->
  let c' := Customer.update rnd deltaTime difficulty c in
  let speed := (ct_walkSpeed (Customer.type c) * (deltaTime / 16))%Q in
  Customer.state c' = Customer.state c /\
  Customer.type c' = Customer.type c /\
  Customer.x c' = (if customer_state_eqb (Customer.state c) WALKING_OUT
                   then Customer.x c - speed * 2 else Customer.x c + speed * 4)%Q /\
  Customer.isRemovable c' =
    (Qltb (Customer.x c') POSITIONS.CUSTOMER_EXIT_X
     || Qltb POSITIONS.CUSTOMER_SPAWN_X (Customer.x c')
     || Customer.isRemovable c).
Proof.
  intros Hl.
  destruct (update_leaving rnd deltaTime difficulty c Hl) as [Hs _].
  cbv zeta. split; [exact Hs|]. clear Hs.
  destruct (update_pieces rnd deltaTime difficulty c) as [s E].
  cbv zeta in E. rewrite E. clear E. customer_fields.
  destruct (tickFrame_keeps_customer deltaTime c) as (Hst & _).
  destruct (tickFrame_place deltaTime c) as (Hty & Hx & _ & _ & Hr).
  cbv zeta in Hst, Hty, Hx, Hr.
  destruct (updateLeaving_place deltaTime (Customer.tickFrame deltaTime c))
    as (T1 & _ & _ & X1 & R1).
  cbv zeta in T1, X1, R1. rewrite Hst, Hty, Hx in X1. rewrite Hr in R1.
  destruct (Customer.state c); try discriminate;
    (split; [congruence|]); (split; [exact X1 | exact R1]).
Qed.

Lemma step_speed (w d : Q) : (0 < w)%Q -> (16 <= d)%Q -> (w <= w * (d / 16))%Q.
Proof.
  intros Hw Hd.
  assert (H1 : (1 <= d / 16)%Q) by (apply Qle_shift_div_l; lra).
  assert (H2 : (0 <= w * (d / 16 - 1))%Q) by (apply Qmult_le_0_compat; lra).
  lra.
Qed.

(** How far a run of updates, each of at least one frame of 16 ms, takes a
    customer on its way out. *)
Lemma exit_progress (steps : list (Q * Q * Q)) :
  forall c : Customer.t,
    leaving (Customer.state c) = true ->
    (0 < ct_walkSpeed (Customer.type c))%Q ->
    Forall (fun s => (16 <= snd (fst s))%Q) steps ->
    let c' := Customer_updates steps c in
    let covered := (ct_walkSpeed (Customer.type c)
                    * inject_Z (Z.of_nat (length steps)))%Q in
    Customer.state c' = Customer.state c /\
    Customer.type c' = Customer.type c /\
    (Customer.state c = STORMING_OFF -> (Customer.x c + 4 * covered <= Customer.x c')%Q) /\
    (Customer.state c = WALKING_OUT -> (Customer.x c' <= Customer.x c - 2 * covered)%Q).
Proof.
  induction steps as [|s rest IH]; intros c Hl Hw Hall; cbv zeta.
  - cbn [Customer_updates fold_left length]. change (inject_Z (Z.of_nat 0)) with 0%Q.
    repeat split; intros _; lra.
  - cbn [Customer_updates fold_left].
    fold (Customer_updates rest
            (Customer.update (fst (fst s)) (snd (fst s)) (snd s) c)).
    inversion Hall as [|? ? Hs Hrest]; subst.
    destruct (update_exit (fst (fst s)) (snd (fst s)) (snd s) c Hl)
      as (S1 & T1 & X1 & _).
    cbv zeta in S1, T1, X1.
    set (c1 := Customer.update (fst (fst s)) (snd (fst s)) (snd s) c) in *.
    destruct (IH c1) as (S2 & T2 & Xs & Xw);
      [rewrite S1; exact Hl | rewrite T1; exact Hw | exact Hrest |].
    cbv zeta in S2, T2, Xs, Xw. rewrite T1, S1 in *.
    split; [congruence|]. split; [congruence|].
    pose proof (step_speed _ _ Hw Hs) as Hstep.
    cbn [length]. rewrite Nat2Z.inj_succ. unfold Z.succ. rewrite inject_Z_plus.
    change (inject_Z 1) with 1%Q.
    set (n := inject_Z (Z.of_nat (length rest))) in *.
    set (w := ct_walkSpeed (Customer.type c)) in *.
    set (m := (w * (snd (fst s) / 16))%Q) in *.
    assert (Hd : (w * (n + 1) == w * n + w)%Q) by ring.
    split; intros Hst; rewrite Hst in X1; cbn [customer_state_eqb] in X1;
      [specialize (Xs Hst) | specialize (Xw Hst)]; rewrite X1 in *; rewrite Hd; lra.
Qed.


(** A customer of the slowest type that storms off from the leftmost slot. *)
Definition stormingCustomer : Customer.t :=
  Customer.set_state STORMING_OFF 0 80
    (Customer.set_isLeaving true
       (Customer.set_x 200
          (Customer.assignSlot 0
             (fst (Customer.new (Customer.mkOptions (Some 4%nat) EmptyString
                                   [] EmptyString false)
                     (Customer.mkRandom 0 0 0) 0 0))))).

Lemma stormingCustomer_speed :
  (0 < ct_walkSpeed (Customer.type stormingCustomer))%Q.
Proof. reflexivity. Qed.

Lemma stormingCustomer_far :
  (POSITIONS.CUSTOMER_SPAWN_X - Customer.x stormingCustomer
   < 4 * (ct_walkSpeed (Customer.type stormingCustomer)
          * inject_Z (Z.of_nat (length (repeat (0.5, 16, 1)%Q 191 ++ [(0.5, 16, 1)%Q])))))%Q.
Proof. vm_compute. reflexivity. Qed.

Lemma stormingCustomer_frames :
  Forall (fun s : Q * Q * Q => (16 <= snd (fst s))%Q)
         (repeat (0.5, 16, 1)%Q 191 ++ [(0.5, 16, 1)%Q]).
Proof.
  apply Forall_app. split; [|repeat constructor; vm_compute; discriminate].
  apply Forall_forall. intros s Hs. apply repeat_spec in Hs. subst s.
  vm_compute. discriminate.
Qed.


(** ** The shelf of bottles *)

(** What [update], [use] and [startGame] never write in a bottle. *)
Definition shelf_fields (b : Bottle.t) :=
  (Bottle.type b, Bottle.index b, Bottle.x b, Bottle.y b).

Lemma bottle_update_shelf (deltaTime : Q) (now : Z) (b : Bottle.t) :
  shelf_fields (Bottle.update deltaTime now b) = shelf_fields b.
Proof.
  unfold Bottle.update.
  destruct (Bottle.state (Bottle.tickFrame deltaTime b));
    repeat match goal with |- context [if ?c then _ else _] => destruct c end;
    reflexivity.
Qed.

Lemma bottle_use_shelf (now : Z) (b : Bottle.t) :
  shelf_fields (snd (Bottle.use now b)) = shelf_fields b /\
  (bt_locked (Bottle.type b) = true -> snd (Bottle.use now b) = b).
Proof.
  unfold Bottle.use. destruct (bt_locked (Bottle.type b)); cbn [orb].
  - split; reflexivity.
  - destruct (Bottle.isOnCooldown now b); split; try reflexivity; discriminate.
Qed.

(** The place of the [i]-th bottle, as [init] makes it. *)
Record on_shelf (i : nat) (b : Bottle.t) : Prop := {
  shelf_index : Bottle.index b = i;
  shelf_x : Bottle.x b
            = (POSITIONS.BOTTLE_START_X
               + inject_Z (Z.of_nat i) * POSITIONS.BOTTLE_SPACING)%Q;
  shelf_y : Bottle.y b = POSITIONS.BOTTLE_SHELF_Y;
  shelf_type : nth_error BOTTLE_TYPES i = Some (Bottle.type b)
}.

Lemma on_shelf_same (i : nat) (b b' : Bottle.t) :
  shelf_fields b' = shelf_fields b -> on_shelf i b -> on_shelf i b'.
Proof.
  unfold shelf_fields. intros H [H1 H2 H3 H4]. injection H as E1 E2 E3 E4.
  constructor; congruence.
Qed.

(** The five bottles are where [init] put them, a selected bottle is one of
    them and is not locked, and a locked bottle has never been used. *)
Record Shelf_ok (g : Game.t) : Prop := {
  shelf_length : length (Game.bottles g) = length BOTTLE_TYPES;
  shelf_at : forall i b, nth_error (Game.bottles g) i = Some b -> on_shelf i b;
  shelf_selected :
    forall bi, Game.selectedBottleIndex g = Some bi ->
      exists b, nth_error (Game.bottles g) bi = Some b /\
                bt_locked (Bottle.type b) = false;
  shelf_locked :
    forall b, In b (Game.bottles g) -> bt_locked (Bottle.type b) = true ->
              Bottle.cooldownEnd b = 0
}.

Lemma new_shelf : Shelf_ok Game.new.
Proof.
  constructor.
  - reflexivity.
  - intros i b H. unfold Game.new in H. game_fields_in H.
    cbn [BOTTLE_TYPES length seq combine map] in H.
    do 5 (destruct i as [|i];
          [cbn [nth_error] in H; injection H as <-; constructor; reflexivity|]).
    destruct i; discriminate.
  - intros bi H. discriminate.
  - intros b H _. unfold Game.new in H. game_fields_in H.
    cbn [BOTTLE_TYPES length seq combine map In] in H.
    repeat (destruct H as [<- | H]; [reflexivity|]). destruct H.
Qed.

(** The shelf after every bottle went through [f], which keeps its place
    and its cooldown if it is locked. *)
Lemma map_shelf (f : Bottle.t -> Bottle.t) (g g' : Game.t) :
  (forall b, shelf_fields (f b) = shelf_fields b) ->
  (forall b, bt_locked (Bottle.type b) = true -> Bottle.cooldownEnd b = 0 ->
             Bottle.cooldownEnd (f b) = 0) ->
  Game.bottles g' = map f (Game.bottles g) ->
  Game.selectedBottleIndex g' = Game.selectedBottleIndex g \/
  Game.selectedBottleIndex g' = None ->
  Shelf_ok g -> Shelf_ok g'.
Proof.
  intros Hf Hc Hb Hsel [H1 H2 H3 H4].
  assert (Hty : forall b, Bottle.type (f b) = Bottle.type b).
  { intros b. pose proof (Hf b) as E. unfold shelf_fields in E.
    injection E as E _ _ _. exact E. }
  constructor.
  - rewrite Hb, length_map. exact H1.
  - intros i b Hn. rewrite Hb, nth_error_map in Hn.
    destruct (nth_error (Game.bottles g) i) as [b0|] eqn:E; [|discriminate].
    injection Hn as <-. apply (on_shelf_same i b0); auto.
  - intros bi Hs. destruct Hsel as [E | E]; rewrite E in Hs; [|discriminate].
    destruct (H3 bi Hs) as (b & Hn & Hl).
    exists (f b). rewrite Hb, nth_error_map, Hn, Hty. auto.
  - intros b Hin Hl. rewrite Hb in Hin. apply in_map_iff in Hin.
    destruct Hin as (b0 & <- & Hin). rewrite Hty in Hl. auto.
Qed.

(** The fields of the panel: no tick writes them. *)
Definition panel_fields (g : Game.t) :=
  (Game.selectedBottleIndex g, Game.muted g, Game.demoMode g,
   Game.apiPollInterval g).

Lemma checkLost_panel (cs : list Customer.t) :
  forall g : Game.t,
    panel_fields (snd (Game.checkLost cs g)) = panel_fields g /\
    Game.bottles (snd (Game.checkLost cs g)) = Game.bottles g /\
    Game.lastSpawnTime (snd (Game.checkLost cs g)) = Game.lastSpawnTime g /\
    Game.pollsInFlight (snd (Game.checkLost cs g)) = Game.pollsInFlight g.
Proof.
  induction cs as [|c rest IH]; intros g; cbn [Game.checkLost]; [auto|].
  destruct (customer_state_eqb (Customer.state c) STORMING_OFF
            && negb (Customer.countedAsLost c)).
  - match goal with |- context [Game.checkLost rest ?g2] =>
      specialize (IH g2); destruct (Game.checkLost rest g2) as [rest' g3]
    end.
    cbn [snd] in *. destruct IH as (-> & -> & -> & ->).
    destruct (GAME_CONFIG.MAX_LOST <=? _); auto.
  - specialize (IH g). destruct (Game.checkLost rest g) as [rest' g3].
    exact IH.
Qed.

(** What a tick in play does to the panel and the shelf: nothing to the
    panel, one [update] to each bottle. *)
Lemma update_panel (inp : Game.TickInput) (g : Game.t) :
  Game.state g = Game.playing ->
  panel_fields (Game.update inp g) = panel_fields g /\
  Game.bottles (Game.update inp g)
  = map (Bottle.update (Game.deltaTime inp) (Game.now inp)) (Game.bottles g).
Proof.
  intros Es. rewrite (update_playing inp g Es).
  set (g1 := Game.updateComboTimer (Game.deltaTime inp) g).
  assert (H1 : panel_fields g1 = panel_fields g /\ Game.bottles g1 = Game.bottles g).
  { unfold g1, Game.updateComboTimer. game_cases; auto. }
  set (g2 := Game.updateApiPoll (Game.deltaTime inp) g1).
  assert (H2 : panel_fields g2 = panel_fields g1 /\ Game.bottles g2 = Game.bottles g1).
  { unfold g2, Game.updateApiPoll, Game.pollIncomingMessages. game_fields.
    game_cases; auto. }
  set (g3 := Game.updateSpawn inp g2).
  assert (H3 : panel_fields g3 = panel_fields g2 /\ Game.bottles g3 = Game.bottles g2).
  { unfold g3, Game.updateSpawn, Game.spawnCustomer. game_fields.
    destruct (Qleb _ _); [|auto].
    destruct (findIndex _ _); [|auto].
    destruct (Game.pendingRealMessages g2); destruct (Customer.new _ _ _ _); auto. }
  set (g4 := Game.updateCustomers inp g3).
  set (g5 := Game.updateLost g4).
  assert (H5 : panel_fields g5 = panel_fields g3 /\ Game.bottles g5 = Game.bottles g3).
  { unfold g5, Game.updateLost.
    destruct (checkLost_panel (Game.customers g4) g4) as (P & B & _).
    destruct (Game.checkLost (Game.customers g4) g4) as [cs g']. cbn [snd] in P, B.
    split; [exact P | exact B]. }
  set (g6 := Game.updateRemove g5).
  assert (H6 : panel_fields g6 = panel_fields g5 /\ Game.bottles g6 = Game.bottles g5).
  { unfold g6, Game.updateRemove.
    destruct (Game.removeFinished _ _) as [[k s] d]. auto. }
  set (g7 := Game.updateBottles inp g6).
  assert (H8 : panel_fields (Game.updateDifficulty g7) = panel_fields g7 /\
               Game.bottles (Game.updateDifficulty g7) = Game.bottles g7).
  { unfold Game.updateDifficulty. game_cases; auto. }
  destruct H1 as [P1 B1], H2 as [P2 B2], H3 as [P3 B3], H5 as [P5 B5],
    H6 as [P6 B6], H8 as [P8 B8].
  split.
  - rewrite P8. change (panel_fields g7) with (panel_fields g6). congruence.
  - rewrite B8. unfold g7, Game.updateBottles. game_fields. congruence.
Qed.

Lemma panel_selected (g g' : Game.t) :
  panel_fields g' = panel_fields g ->
  Game.selectedBottleIndex g' = Game.selectedBottleIndex g.
Proof.
  intros H. apply (f_equal (fun p => fst (fst (fst p)))) in H. exact H.
Qed.

Lemma panel_demoMode (g g' : Game.t) :
  panel_fields g' = panel_fields g -> Game.demoMode g' = Game.demoMode g.
Proof.
  intros H. apply (f_equal (fun p => snd (fst p))) in H. exact H.
Qed.

Lemma update_shelf (inp : Game.TickInput) (g : Game.t) :
  Shelf_ok g -> Shelf_ok (Game.update inp g).
Proof.
  intros Hs.
  destruct (Game.state g) eqn:Es;
    try (rewrite update_idle; [exact Hs | congruence]).
  destruct (update_panel inp g Es) as [P B].
  apply (map_shelf (Bottle.update (Game.deltaTime inp) (Game.now inp)) g);
    auto using bottle_update_shelf, panel_selected.
  intros b _ H. now rewrite update_cooldownEnd.
Qed.

(** The bottles after [scoreServe]: the bottle served from went through
    [use()]. *)
Lemma scoreServe_bottles now customer bi (g : Game.t) :
  Game.bottles (Game.scoreServe now customer bi g)
  = match nth_error (Game.bottles g) bi with
    | Some bottle => array_set (Game.bottles g) bi (snd (Bottle.use now bottle))
    | None => Game.bottles g
    end /\
  panel_fields (Game.scoreServe now customer bi g) = panel_fields g /\
  Game.servesInFlight (Game.scoreServe now customer bi g) = Game.servesInFlight g.
Proof.
  unfold Game.scoreServe. destruct (nth_error (Game.bottles g) bi); auto.
Qed.

Lemma array_set_nth {A : Type} (l : list A) (i j : nat) (v a : A) :
  nth_error (array_set l i v) j = Some a ->
  (j = i /\ a = v /\ (i < length l)%nat) \/ (j <> i /\ nth_error l j = Some a).
Proof.
  intros H. destruct (Nat.eq_dec i j) as [<- | Hij].
  - left. assert (Hi : (i < length l)%nat).
    { apply nth_error_lt in H. now rewrite array_set_length in H. }
    rewrite (array_set_same l i v Hi) in H. injection H as <-. auto.
  - right. rewrite (array_set_other l i j v Hij) in H. auto.
Qed.

Lemma scoreServe_shelf now customer bi (g : Game.t) :
  Shelf_ok g -> Shelf_ok (Game.scoreServe now customer bi g).
Proof.
  intros [H1 H2 H3 H4].
  destruct (scoreServe_bottles now customer bi g) as (B & P & _).
  apply panel_selected in P.
  destruct (nth_error (Game.bottles g) bi) as [bottle|] eqn:Eb.
  - destruct (bottle_use_shelf now bottle) as [U1 U2].
    constructor.
    + rewrite B, array_set_length. exact H1.
    + intros i b Hn. rewrite B in Hn.
      apply array_set_nth in Hn. destruct Hn as [(-> & -> & _) | [_ Hn]]; [|auto].
      apply (on_shelf_same bi bottle); auto.
    + intros i Hs. rewrite P in Hs. destruct (H3 i Hs) as (b & Hn & Hl).
      rewrite B. destruct (Nat.eq_dec bi i) as [<- | Hne].
      * rewrite array_set_same by (apply (nth_error_lt _ _ _ Eb)).
        exists (snd (Bottle.use now bottle)). split; [reflexivity|].
        unfold shelf_fields in U1. injection U1 as -> _ _ _. congruence.
      * rewrite (array_set_other _ _ _ _ Hne). eauto.
    + intros b Hin Hl. rewrite B in Hin. apply array_set_In in Hin.
      destruct Hin as [-> | Hin]; [|auto].
      assert (Hlb : bt_locked (Bottle.type bottle) = true).
      { unfold shelf_fields in U1. injection U1 as E _ _ _. now rewrite <- E. }
      rewrite (U2 Hlb). apply H4; [|exact Hlb].
      apply (nth_error_In _ bi). exact Eb.
  - constructor; rewrite ?B, ?P; assumption.
Qed.

Lemma Shelf_ok_same (g g' : Game.t) :
  Game.bottles g' = Game.bottles g ->
  Game.selectedBottleIndex g' = Game.selectedBottleIndex g ->
  Shelf_ok g -> Shelf_ok g'.
Proof. intros B S [H1 H2 H3 H4]. constructor; rewrite ?B, ?S; assumption. Qed.

Lemma serveCustomer_shelf now i (g : Game.t) :
  Shelf_ok g -> Shelf_ok (Game.serveCustomer now i g).
Proof.
  intros Hs.
  destruct (serveCustomer_cases now i g) as [-> | (bi & c & _ & [[_ ->] | [_ ->]])];
    [exact Hs | |].
  - apply (Shelf_ok_same g); [reflexivity | reflexivity | exact Hs].
  - apply scoreServe_shelf. apply (Shelf_ok_same g); [reflexivity | reflexivity | exact Hs].
Qed.

(** The selection after a click on the shelf: the one of before, or the last
    bottle of the shelf that holds the point and is not locked. *)
Lemma clickBottles_panel x y (g : Game.t) :
  Game.bottles (Game.clickBottles x y g) = Game.bottles g /\
  Game.demoMode (Game.clickBottles x y g) = Game.demoMode g /\
  Game.state (Game.clickBottles x y g) = Game.state g /\
  Game.selectedBottleIndex (Game.clickBottles x y g)
  = fold_left
      (fun sel p =>
         if Bottle.containsPoint x y (snd p) && negb (bt_locked (Bottle.type (snd p)))
         then Some (fst p) else sel)
      (combine (seq 0 (length (Game.bottles g))) (Game.bottles g))
      (Game.selectedBottleIndex g).
Proof.
  unfold Game.clickBottles.
  generalize (combine (seq 0 (length (Game.bottles g))) (Game.bottles g)) as l.
  intros l.
  assert (H : forall g0,
    Game.bottles (fold_left
      (fun g' p => let '(index, bottle) := p in
         if Bottle.containsPoint x y bottle && negb (bt_locked (Bottle.type bottle))
         then Game.set_selectedBottleIndex (Some index) g' else g') l g0)
    = Game.bottles g0 /\
    Game.demoMode (fold_left
      (fun g' p => let '(index, bottle) := p in
         if Bottle.containsPoint x y bottle && negb (bt_locked (Bottle.type bottle))
         then Game.set_selectedBottleIndex (Some index) g' else g') l g0)
    = Game.demoMode g0 /\
    Game.state (fold_left
      (fun g' p => let '(index, bottle) := p in
         if Bottle.containsPoint x y bottle && negb (bt_locked (Bottle.type bottle))
         then Game.set_selectedBottleIndex (Some index) g' else g') l g0)
    = Game.state g0 /\
    Game.selectedBottleIndex (fold_left
      (fun g' p => let '(index, bottle) := p in
         if Bottle.containsPoint x y bottle && negb (bt_locked (Bottle.type bottle))
         then Game.set_selectedBottleIndex (Some index) g' else g') l g0)
    = fold_left
        (fun sel p =>
           if Bottle.containsPoint x y (snd p) && negb (bt_locked (Bottle.type (snd p)))
           then Some (fst p) else sel) l (Game.selectedBottleIndex g0)).
  { induction l as [|[index bottle] rest IH]; intros g0; cbn [fold_left fst snd];
      [auto|].
    destruct (Bottle.containsPoint x y bottle && negb (bt_locked (Bottle.type bottle))).
    - destruct (IH (Game.set_selectedBottleIndex (Some index) g0))
        as (-> & -> & -> & ->). auto.
    - apply IH. }
  apply H.
Qed.

Lemma combine_seq_In {A : Type} (l : list A) (k i : nat) (a : A) :
  In (i, a) (combine (seq k (length l)) l) -> nth_error l (i - k) = Some a /\ (k <= i)%nat.
Proof.
  revert k. induction l as [|h t IH]; intros k; cbn [length seq combine In]; [tauto|].
  intros [E | H].
  - injection E as <- <-. rewrite Nat.sub_diag. split; [reflexivity | lia].
  - destruct (IH (S k) H) as [Hn Hk]. split; [|lia].
    replace (i - k)%nat with (S (i - S k)) by lia. exact Hn.
Qed.

Lemma clickBottles_shelf x y (g : Game.t) :
  Shelf_ok g -> Shelf_ok (Game.clickBottles x y g).
Proof.
  intros Hs. destruct (clickBottles_panel x y g) as (B & _ & _ & S).
  destruct Hs as [H1 H2 H3 H4].
  constructor; rewrite ?B; try assumption.
  intros bi. rewrite S.
  assert (H : forall l sel,
    (forall p, In p l -> nth_error (Game.bottles g) (fst p) = Some (snd p)) ->
    (forall i, sel = Some i ->
       exists b, nth_error (Game.bottles g) i = Some b /\
                 bt_locked (Bottle.type b) = false) ->
    fold_left
      (fun sel p =>
         if Bottle.containsPoint x y (snd p) && negb (bt_locked (Bottle.type (snd p)))
         then Some (fst p) else sel) l sel = Some bi ->
    exists b, nth_error (Game.bottles g) bi = Some b /\
              bt_locked (Bottle.type b) = false).
  { induction l as [|p rest IH]; intros sel Hl Hsel; cbn [fold_left]; [auto|].
    apply IH; [intros q Hq; apply Hl; now right|].
    destruct (Bottle.containsPoint x y (snd p)
              && negb (bt_locked (Bottle.type (snd p)))) eqn:E; [|exact Hsel].
    intros i [= <-]. exists (snd p). split; [apply Hl; now left|].
    apply andb_true_iff in E. destruct E as [_ E]. now apply negb_true_iff in E. }
  apply H; [|exact H3].
  intros [i b] Hin. apply combine_seq_In in Hin. cbn [fst snd].
  rewrite Nat.sub_0_r in Hin. tauto.
Qed.

Lemma enqueueMessage_panel (messages : list Game.ApiMessage) :
  forall g : Game.t,
    Game.selectedBottleIndex (fold_left Game.enqueueMessage messages g)
    = Game.selectedBottleIndex g /\
    Game.pollsInFlight (fold_left Game.enqueueMessage messages g)
    = Game.pollsInFlight g.
Proof.
  induction messages as [|m rest IH]; intros g; cbn [fold_left]; [auto|].
  destruct (IH (Game.enqueueMessage g m)) as [-> ->].
  unfold Game.enqueueMessage. destruct (negb _); auto.
Qed.

Lemma step_shelf (g : Game.t) (e : Game.Event) :
  Shelf_ok g -> Shelf_ok (Game.step g e).
Proof.
  intros Hs. destruct e; cbn [Game.step].
  - now apply update_shelf.
  - unfold Game.handleClick.
    destruct (Game.state_eqb (Game.state g) Game.menu
              || Game.state_eqb (Game.state g) Game.gameover).
    + destruct (Game.onStartButton x y); [|exact Hs].
      apply (map_shelf Game.resetBottle g); auto.
    + destruct (Game.onMuteButton x y).
      { apply (Shelf_ok_same g); [reflexivity | reflexivity | exact Hs]. }
      destruct (negb (Game.state_eqb (Game.state g) Game.playing)); [exact Hs|].
      apply clickCustomers_preserves; [intros i g0; apply serveCustomer_shelf|].
      now apply clickBottles_shelf.
  - now apply serveCustomer_shelf.
  - destruct (serveCustomer_resume_cases now k g)
      as [-> | (q & [-> | (c & bi & _ & ->)])]; [exact Hs | |].
    + apply (Shelf_ok_same g); [reflexivity | reflexivity | exact Hs].
    + apply scoreServe_shelf.
      apply (Shelf_ok_same g); [reflexivity | reflexivity | exact Hs].
  - apply (Shelf_ok_same g); [| |exact Hs].
    + pose proof (pollIncomingMessages_resume_core success messages g) as Hcore.
      apply (f_equal (fun q => snd (fst (fst (fst q))))) in Hcore. exact Hcore.
    + unfold Game.pollIncomingMessages_resume.
      destruct (Game.pollsInFlight g); [reflexivity|].
      destruct (success && _); [|reflexivity].
      now destruct (enqueueMessage_panel messages (Game.set_pollsInFlight n g)) as [-> _].
  - apply (map_shelf Game.resetBottle g); auto.
  - apply (map_shelf Game.resetBottle g); auto.
  - unfold Game.pause. destruct (Game.state_eqb _ _); [|exact Hs].
    apply (Shelf_ok_same g); [reflexivity | reflexivity | exact Hs].
  - unfold Game.resume. destruct (Game.state_eqb _ _); [|exact Hs].
    apply (Shelf_ok_same g); [reflexivity | reflexivity | exact Hs].
  - apply (Shelf_ok_same g); [reflexivity | reflexivity | exact Hs].
Qed.

Lemma reachable_shelf (events : list Game.Event) : Shelf_ok (Game.run events Game.new).
Proof.
  unfold Game.run. generalize new_shelf. generalize Game.new as g.
  induction events as [|e rest IH]; intros g Hg; cbn [fold_left]; [exact Hg|].
  apply IH, step_shelf, Hg.
Qed.

(** X8: in every game reached from a new one the shelf holds the five
    bottles of [BOTTLE_TYPES] in their order; the selected bottle, if any, is
    one of them and is not locked; and the locked bottle has never been
    used: its cooldown end is still 0 and [use()] refuses it at any time. *)
Theorem X8_locked_bottle_is_never_selected_or_used :
  forall events : list Game.Event,
    let g := Game.run events Game.new in
    map Bottle.type (Game.bottles g) = BOTTLE_TYPES /\
    (forall bi, Game.selectedBottleIndex g = Some bi ->
       exists b, nth_error (Game.bottles g) bi = Some b /\
                 Bottle.index b = bi /\ bt_locked (Bottle.type b) = false) /\
    (forall b, In b (Game.bottles g) -> bt_locked (Bottle.type b) = true ->
       Bottle.cooldownEnd b = 0 /\ forall now, Bottle.use now b = (false, b)).
Proof.
  intros events g. destruct (reachable_shelf events) as [H1 H2 H3 H4]. fold g in H1, H2, H3, H4.
  split; [|split].
  - apply (nth_error_ext). intros i. rewrite nth_error_map.
    destruct (nth_error (Game.bottles g) i) as [b|] eqn:E.
    + cbn [option_map]. symmetry. apply (shelf_type i b (H2 i b E)).
    + cbn [option_map]. symmetry. apply nth_error_None. rewrite <- H1.
      now apply nth_error_None.
  - intros bi Hs. destruct (H3 bi Hs) as (b & Hn & Hl). exists b.
    split; [exact Hn|]. split; [apply (shelf_index bi b (H2 bi b Hn)) | exact Hl].
  - intros b Hin Hl. split; [now apply H4|].
    intros now. unfold Bottle.use. now rewrite Hl.
Qed.

(** ** Clicks on the shelf and on the bar *)

Lemma bottle_containsPoint (px py : Q) (b : Bottle.t) :
  Bottle.containsPoint px py b = true <->
  (Bottle.x b <= px)%Q /\ (px <= Bottle.x b + 64)%Q /\
  (Bottle.y b <= py)%Q /\ (py <= Bottle.y b + 96)%Q.
Proof.
  unfold Bottle.containsPoint. rewrite !andb_true_iff, !Qleb_true. tauto.
Qed.

Lemma customer_containsPoint (px py : Q) (c : Customer.t) :
  Customer.containsPoint px py c = true <->
  (Customer.x c - 40 <= px)%Q /\ (px <= Customer.x c - 40 + 80)%Q /\
  (Customer.y c <= py)%Q /\ (py <= Customer.y c + 120)%Q.
Proof.
  unfold Customer.containsPoint. rewrite !andb_true_iff, !Qleb_true. tauto.
Qed.

(** The boxes of two bottles of the shelf do not meet. *)
Lemma shelf_boxes_apart (px py : Q) (i j : nat) (b b' : Bottle.t) :
  on_shelf i b -> on_shelf j b' ->
  Bottle.containsPoint px py b = true -> Bottle.containsPoint px py b' = true ->
  i = j.
Proof.
  intros [_ Hx _ _] [_ Hx' _ _] H H'.
  apply bottle_containsPoint in H. apply bottle_containsPoint in H'.
  rewrite Hx in H. rewrite Hx' in H'.
  unfold POSITIONS.BOTTLE_START_X, POSITIONS.BOTTLE_SPACING in *.
  destruct H as (A1 & A2 & _), H' as (B1 & B2 & _).
  destruct (Nat.lt_trichotomy i j) as [Hlt | [Heq | Hlt]]; [|exact Heq|]; exfalso.
  - assert (E : (inject_Z (Z.of_nat i) + 1 <= inject_Z (Z.of_nat j))%Q).
    { change 1%Q with (inject_Z 1). rewrite <- inject_Z_plus, <- Zle_Qle. lia. }
    lra.
  - assert (E : (inject_Z (Z.of_nat j) + 1 <= inject_Z (Z.of_nat i))%Q).
    { change 1%Q with (inject_Z 1). rewrite <- inject_Z_plus, <- Zle_Qle. lia. }
    lra.
Qed.

Section ClickFold.

Variables (x y : Q) (i0 : nat).

Let pick (sel : option nat) (p : nat * Bottle.t) : option nat :=
  if Bottle.containsPoint x y (snd p) && negb (bt_locked (Bottle.type (snd p)))
  then Some (fst p) else sel.

Lemma pick_none (l : list (nat * Bottle.t)) (sel : option nat) :
  (forall p, In p l ->
     Bottle.containsPoint x y (snd p) && negb (bt_locked (Bottle.type (snd p))) = false) ->
  fold_left pick l sel = sel.
Proof.
  revert sel. induction l as [|p rest IH]; intros sel H; cbn [fold_left]; [reflexivity|].
  unfold pick at 2. rewrite (H p) by now left. apply IH. intros q Hq. apply H. now right.
Qed.

Lemma pick_same (l : list (nat * Bottle.t)) :
  (forall p, In p l ->
     Bottle.containsPoint x y (snd p) && negb (bt_locked (Bottle.type (snd p))) = true ->
     fst p = i0) ->
  fold_left pick l (Some i0) = Some i0.
Proof.
  induction l as [|p rest IH]; intros H; cbn [fold_left]; [reflexivity|].
  unfold pick at 2.
  destruct (Bottle.containsPoint x y (snd p) && _) eqn:E.
  - rewrite (H p (or_introl eq_refl) E). apply IH. intros q Hq. apply H. now right.
  - apply IH. intros q Hq. apply H. now right.
Qed.

Lemma pick_one (l : list (nat * Bottle.t)) (b : Bottle.t) :
  (forall p, In p l ->
     Bottle.containsPoint x y (snd p) && negb (bt_locked (Bottle.type (snd p))) = true ->
     fst p = i0) ->
  In (i0, b) l ->
  Bottle.containsPoint x y b && negb (bt_locked (Bottle.type b)) = true ->
  forall sel, fold_left pick l sel = Some i0.
Proof.
  induction l as [|p rest IH]; intros H Hin Hb sel; [destruct Hin|].
  cbn [fold_left]. unfold pick at 2.
  assert (Hrest : forall q, In q rest ->
            Bottle.containsPoint x y (snd q) && negb (bt_locked (Bottle.type (snd q))) = true ->
            fst q = i0) by (intros q Hq; apply H; now right).
  destruct Hin as [-> | Hin].
  - cbn [fst snd]. rewrite Hb. now apply pick_same.
  - now apply IH.
Qed.

End ClickFold.

(** A click that no customer holds serves nobody. *)
Lemma clickCustomers_miss now x y (g : Game.t) :
  (forall c, In c (Game.customers g) -> Customer.containsPoint x y c = false) ->
  Game.clickCustomers now x y g = g.
Proof.
  intros H. unfold Game.clickCustomers.
  generalize (seq 0 (length (Game.customers g))) as l.
  induction l as [|i rest IH]; cbn [fold_left]; [reflexivity|].
  destruct (nth_error (Game.customers g) i) as [c|] eqn:E; [|exact IH].
  rewrite (H c (nth_error_In _ _ E)). exact IH.
Qed.

Lemma reachable_placed (events : list Game.Event) (c : Customer.t) :
  In c (Game.customers (Game.run events Game.new)) -> Placed c.
Proof.
  apply (reachable_customers Placed).
  - exact fresh_placed.
  - intros rnd deltaTime difficulty c1 Hp _ _ _. now apply update_placed.
  - intros c1 Hp. exact Hp.
  - intros c1 (i & tx & H1 & H2 & H3 & H4 & H5) _ _.
    exists i, tx. repeat split; auto. discriminate.
Qed.

(** X9: in a game reached from a new one, a click inside the box of a
    bottle selects that bottle, and no other, if it is not locked, and
    leaves the selection as it was if it is locked; in play that is all the
    click does: it serves no customer, since no customer's box reaches the
    shelf. *)
Theorem X9_click_on_a_bottle_selects_it :
  forall (events : list Game.Event) (now : Z) (x y : Q) (b : Bottle.t),
    let g := Game.run events Game.new in
    In b (Game.bottles g) -> Bottle.containsPoint x y b = true ->
    Game.selectedBottleIndex (Game.clickBottles x y g)
    = (if bt_locked (Bottle.type b) then Game.selectedBottleIndex g
       else Some (Bottle.index b)) /\
    (Game.state g = Game.playing ->
     Game.handleClick now x y g = Game.clickBottles x y g).
Proof.
  intros events now x y b g Hin Hb.
  destruct (reachable_shelf events) as [H1 H2 H3 H4]. fold g in H1, H2, H3, H4.
  apply In_nth_error in Hin. destruct Hin as [i0 Hn].
  pose proof (H2 i0 b Hn) as Hon.
  destruct (clickBottles_panel x y g) as (B & _ & St & S).
  assert (Hl : forall p, In p (combine (seq 0 (length (Game.bottles g))) (Game.bottles g)) ->
                         nth_error (Game.bottles g) (fst p) = Some (snd p)).
  { intros [i b'] Hp. apply combine_seq_In in Hp. rewrite Nat.sub_0_r in Hp.
    cbn [fst snd]. tauto. }
  assert (Hu : forall p, In p (combine (seq 0 (length (Game.bottles g))) (Game.bottles g)) ->
                         Bottle.containsPoint x y (snd p) = true ->
                         fst p = i0 /\ snd p = b).
  { intros p Hp Hc. pose proof (Hl p Hp) as Hnp.
    assert (E : fst p = i0)
      by (apply (shelf_boxes_apart x y (fst p) i0 (snd p) b); auto).
    split; [exact E|]. rewrite E in Hnp. congruence. }
  split.
  - rewrite S. destruct (bt_locked (Bottle.type b)) eqn:Elock.
    + apply pick_none. intros p Hp.
      destruct (Bottle.containsPoint x y (snd p)) eqn:Ec; [|reflexivity].
      destruct (Hu p Hp Ec) as [_ ->]. now rewrite Elock.
    + rewrite (shelf_index i0 b Hon).
      apply (pick_one x y i0 _ b).
      * intros p Hp E. apply andb_true_iff in E. destruct E as [Ec _].
        apply (Hu p Hp Ec).
      * clear - Hn. revert Hn.
        generalize (Game.bottles g) as l. intros l.
        assert (G : forall k, nth_error l i0 = Some b ->
                              In ((k + i0)%nat, b) (combine (seq k (length l)) l)).
        { revert i0. induction l as [|h t IH]; intros [|i] k; cbn [nth_error];
            try discriminate.
          - intros [= ->]. rewrite Nat.add_0_r. now left.
          - intros Hn. right. cbn [length seq combine].
            replace (k + S i)%nat with (S k + i)%nat by lia. now apply IH. }
        apply (G 0%nat).
      * now rewrite Hb, Elock.
  - intros Hplay. unfold Game.handleClick. rewrite Hplay. cbn [Game.state_eqb orb negb].
    apply bottle_containsPoint in Hb. destruct Hb as (_ & _ & Y1 & Y2).
    rewrite (shelf_y i0 b Hon) in Y1, Y2. unfold POSITIONS.BOTTLE_SHELF_Y in Y1, Y2.
    assert (Hmute : Game.onMuteButton x y = false).
    { unfold Game.onMuteButton.
      assert (E : Qleb y 60 = false) by (apply Qleb_false; lra).
      rewrite E. now rewrite andb_false_r. }
    rewrite Hmute. apply clickCustomers_miss.
    intros c Hc. destruct (clickBottles_core x y g) as (_ & _ & Ec). rewrite Ec in Hc.
    destruct (reachable_placed events c Hc) as (i & tx & _ & _ & _ & Hy & _).
    destruct (Customer.containsPoint x y c) eqn:E; [|reflexivity].
    apply customer_containsPoint in E. destruct E as (_ & _ & E & _).
    rewrite Hy in E. unfold POSITIONS.BAR_Y in E. lra.
Qed.

Lemma newGame_first_bottle :
  In (Bottle.new (mkBottleType "welcome"
                    "Hey! Welcome aboard! We're excited to have you here!" false) 0)
     (Game.bottles (Game.run [] Game.new)).
Proof. left. reflexivity. Qed.

Lemma X9_witness :
  Game.selectedBottleIndex (Game.clickBottles 250 130 (Game.run [] Game.new))
  = Some 0%nat.
Proof.
  assert (Hb : Bottle.containsPoint 250 130 welcomeBottle = true) by reflexivity.
  exact (proj1 (X9_click_on_a_bottle_selects_it [] 0 250 130 welcomeBottle
                  newGame_first_bottle Hb)).
Defined.

(** ** Serving twice *)

(** [serveCustomer] leaves the game alone when the customer is served
    already, or is leaving. *)
Lemma serveCustomer_refused now i (g : Game.t) (c : Customer.t) :
  nth_error (Game.customers g) i = Some c ->
  Customer.isServed c || Customer.isLeaving c = true ->
  Game.serveCustomer now i g = g.
Proof.
  intros Hc Hs. unfold Game.serveCustomer.
  destruct (Game.selectedBottleIndex g) as [bi|]; [|reflexivity].
  destruct (nth_error (Game.bottles g) bi) as [bottle|]; [|reflexivity].
  rewrite Hc.
  destruct (bt_locked (Bottle.type bottle)); [reflexivity|].
  destruct (Bottle.isOnCooldown now bottle); [reflexivity|].
  unfold Customer.serve. rewrite Hs. reflexivity.
Qed.

(** X10: a customer is served once.  After [serveCustomer] has accepted the
    customer at position [i], a second call for that position, at any time
    and whether the first one is still waiting for its message to be sent or
    has scored, changes nothing: no second score, no second message.  More
    generally [serveCustomer] changes nothing for a customer that is served
    or leaving. *)
Theorem X10_a_customer_is_served_once :
  forall (now now' : Z) (i : nat) (g : Game.t),
    Game.serveCustomer now i g <> g ->
    Game.serveCustomer now' i (Game.serveCustomer now i g)
    = Game.serveCustomer now i g.
Proof.
  intros now now' i g Hne.
  destruct (serveCustomer_cases now i g) as [E | (bi & c & Hsv & Hcases)];
    [contradiction|].
  assert (Hi : (i < length (Game.customers g))%nat)
    by (apply (nth_error_lt _ _ _ (servable_customer _ _ _ _ _ Hsv))).
  assert (Hc : nth_error (Game.customers (withServed i c g)) i = Some (served c)).
  { unfold withServed. game_fields. now apply array_set_same. }
  destruct Hcases as [[_ E] | [_ E]]; rewrite E.
  - apply (serveCustomer_refused now' i _ (served c)); [exact Hc | reflexivity].
  - apply (serveCustomer_refused now' i _ (served c)); [|reflexivity].
    rewrite (roster_customers _ _ (scoreServe_roster _ _ _ _)). exact Hc.
Qed.

Lemma comboGame_first_serve : Game.serveCustomer 0 0 comboGame <> comboGame.
Proof.
  intros H. apply (f_equal Game.customersServed) in H. vm_compute in H. discriminate.
Qed.

Lemma X10_witness :
  Game.serveCustomer 100 0 (Game.serveCustomer 0 0 comboGame)
  = Game.serveCustomer 0 0 comboGame.
Proof.
  exact (X10_a_customer_is_served_once 0 100 0 comboGame comboGame_first_serve).
Defined.

(** X11: a serve that scores at time [now] puts the bottle on cooldown in
    the game as well: as long as that bottle is the selected one, no call of
    [serveCustomer] before [now + 3000] changes anything, for any customer;
    the selection itself is kept by the serve. *)
Theorem X11_no_serve_while_the_bottle_cools :
  forall (now : Z) (i : nat) (g : Game.t) (bi : nat) (c : Customer.t),
    Servable now i g bi c ->
    Customer.isReal c && negb (Game.demoMode g) = false ->
    let g' := Game.serveCustomer now i g in
    Game.selectedBottleIndex g' = Some bi /\
    (exists bottle, nth_error (Game.bottles g') bi = Some bottle /\
                    Bottle.state bottle = POURING /\
                    Bottle.cooldownEnd bottle = now + 3000) /\
    forall now' j, now' < now + 3000 -> Game.serveCustomer now' j g' = g'.
Proof.
  intros now i g bi c Hsv Hsync g'.
  assert (Eg : g' = Game.scoreServe now (served c) bi (withServed i c g)).
  { unfold g'.
    destruct (serveCustomer_cases now i g) as [E | (bi' & c' & Hsv' & Hcases)].
    - exfalso. revert E. unfold Game.serveCustomer.
      rewrite (servable_selected _ _ _ _ _ Hsv).
      destruct (servable_bottle _ _ _ _ _ Hsv) as (bottle & -> & -> & ->).
      rewrite (servable_customer _ _ _ _ _ Hsv). unfold Customer.serve.
      rewrite (servable_isServed _ _ _ _ _ Hsv), (servable_isLeaving _ _ _ _ _ Hsv).
      cbn [orb negb]. intros E.
      apply (f_equal (fun g0 => nth_error (Game.customers g0) i)) in E.
      revert E.
      match goal with |- context [if ?b then _ else _] => destruct b end;
        rewrite ?(roster_customers _ _ (scoreServe_roster _ _ _ _)); game_fields;
        rewrite array_set_same
          by (apply (nth_error_lt _ _ _ (servable_customer _ _ _ _ _ Hsv)));
        rewrite (servable_customer _ _ _ _ _ Hsv); intros [= E];
        apply (f_equal Customer.isServed) in E; customer_fields;
        rewrite (servable_isServed _ _ _ _ _ Hsv) in E; discriminate.
    - assert (bi' = bi).
      { pose proof (servable_selected _ _ _ _ _ Hsv).
        pose proof (servable_selected _ _ _ _ _ Hsv'). congruence. }
      assert (c' = c).
      { pose proof (servable_customer _ _ _ _ _ Hsv).
        pose proof (servable_customer _ _ _ _ _ Hsv'). congruence. }
      subst bi' c'.
      destruct Hcases as [[E _] | [_ E]]; [congruence | exact E]. }
  destruct (servable_bottle _ _ _ _ _ Hsv) as (bottle & Hb & Hl & Hcd).
  destruct (scoreServe_bottles now (served c) bi (withServed i c g)) as (B & P & _).
  rewrite <- Eg in B, P.
  change (Game.bottles (withServed i c g)) with (Game.bottles g) in B.
  rewrite Hb in B.
  assert (Hu : fst (Bottle.use now bottle) = true).
  { apply use_accepted. split; [exact Hl|]. now apply isOnCooldown_false. }
  destruct (use_effect now bottle Hu) as (Us & Uc & _).
  change GAME_CONFIG.BOTTLE_COOLDOWN with 3000 in Uc.
  assert (Hsel : Game.selectedBottleIndex g' = Some bi).
  { rewrite (panel_selected _ _ P). apply (servable_selected _ _ _ _ _ Hsv). }
  assert (Hn : nth_error (Game.bottles g') bi = Some (snd (Bottle.use now bottle))).
  { rewrite B. apply array_set_same. apply (nth_error_lt _ _ _ Hb). }
  split; [exact Hsel|]. split; [eauto|].
  intros now' j Hlt. unfold Game.serveCustomer. rewrite Hsel, Hn.
  destruct (nth_error (Game.customers g') j); [|reflexivity].
  assert (Ht : bt_locked (Bottle.type (snd (Bottle.use now bottle))) = false).
  { destruct (bottle_use_shelf now bottle) as [U _]. unfold shelf_fields in U.
    injection U as -> _ _ _. exact Hl. }
  assert (E : Bottle.isOnCooldown now' (snd (Bottle.use now bottle)) = true)
    by (apply isOnCooldown_true; rewrite Uc; exact Hlt).
  now rewrite Ht, E.
Qed.

Lemma comboGame_servable :
  Servable 0 0 comboGame 0
    (nth 0 (Game.customers comboGame) idleCustomer).
Proof.
  constructor; try reflexivity.
  exists (nth 0 (Game.bottles comboGame) welcomeBottle). repeat split.
Qed.

Lemma X11_witness :
  Game.serveCustomer 2999 1 (Game.serveCustomer 0 0 comboGame)
  = Game.serveCustomer 0 0 comboGame.
Proof.
  assert (Hsync : Customer.isReal (nth 0 (Game.customers comboGame) idleCustomer)
                  && negb (Game.demoMode comboGame) = false) by reflexivity.
  assert (Hlt : 2999 < 0 + 3000) by reflexivity.
  exact (proj2 (proj2 (X11_no_serve_while_the_bottle_cools 0 0 comboGame 0
                         (nth 0 (Game.customers comboGame) idleCustomer)
                         comboGame_servable Hsync))
               2999 1%nat Hlt).
Defined.

(** ** Outside play *)

(** A tick, or a click that misses the one button that is live: the start
    button on the menu and the game-over screen, the mute button
    otherwise. *)
Definition quiet (g : Game.t) (e : Game.Event) : Prop :=
  match e with
  | Game.ETick _ => True
  | Game.EClick _ x y =>
      if Game.state_eqb (Game.state g) Game.menu
         || Game.state_eqb (Game.state g) Game.gameover
      then Game.onStartButton x y = false
      else Game.onMuteButton x y = false
  | _ => False
  end.

Lemma frozen_step (g : Game.t) (e : Game.Event) :
  Game.state g <> Game.playing -> quiet g e -> Game.step g e = g.
Proof.
  intros Hs Hq. destruct e; cbn [quiet] in Hq; try contradiction; cbn [Game.step].
  - now apply update_idle.
  - unfold Game.handleClick.
    destruct (Game.state_eqb (Game.state g) Game.menu
              || Game.state_eqb (Game.state g) Game.gameover);
      rewrite Hq; [reflexivity|].
    destruct (Game.state g); try reflexivity. contradiction.
Qed.

Lemma frozen_run (events : list Game.Event) (g : Game.t) :
  Game.state g <> Game.playing -> Forall (quiet g) events -> Game.run events g = g.
Proof.
  intros Hs Hq. induction Hq as [|e rest He Hrest IH]; [reflexivity|].
  cbn [Game.run fold_left]. rewrite (frozen_step g e Hs He). exact IH.
Qed.

(** X12: pausing a game in play and resuming it gives back the same game,
    whatever ticks, and clicks off the mute button, come in between: the
    paused game ignores them all. *)
Theorem X12_pause_and_resume_round_trip :
  forall (g : Game.t) (events : list Game.Event),
    Game.state g = Game.playing ->
    Forall (quiet (Game.pause g)) events ->
    Game.state (Game.pause g) = Game.paused /\
    Game.run events (Game.pause g) = Game.pause g /\
    Game.resume (Game.run events (Game.pause g)) = g.
Proof.
  intros g events Hs Hq.
  assert (Hp : Game.state (Game.pause g) = Game.paused)
    by (unfold Game.pause; rewrite Hs; reflexivity).
  split; [exact Hp|].
  assert (Hrun : Game.run events (Game.pause g) = Game.pause g)
    by (apply frozen_run; [rewrite Hp; discriminate | exact Hq]).
  split; [exact Hrun|]. rewrite Hrun.
  unfold Game.resume. rewrite Hp. cbn [Game.state_eqb].
  unfold Game.pause. rewrite Hs. cbn [Game.state_eqb].
  destruct g. cbn in Hs. subst. reflexivity.
Qed.

Lemma quiet_click (g : Game.t) (now : Z) (x y : Q) :
  Game.onStartButton x y = false -> Game.onMuteButton x y = false ->
  quiet g (Game.EClick now x y).
Proof. intros H1 H2. cbn [quiet]. destruct (_ || _); assumption. Qed.

Lemma fullGame_quiet :
  Forall (quiet (Game.pause fullGame))
         [Game.ETick longTick; Game.EClick 0 0 0; Game.ETick longTick].
Proof.
  constructor; [exact I|]. constructor; [|constructor; [exact I | constructor]].
  apply quiet_click; vm_compute; reflexivity.
Qed.

Lemma X12_witness :
  Game.resume
    (Game.run [Game.ETick longTick; Game.EClick 0 0 0; Game.ETick longTick]
       (Game.pause fullGame))
  = fullGame.
Proof.
  exact (proj2 (proj2 (X12_pause_and_resume_round_trip fullGame
                         [Game.ETick longTick; Game.EClick 0 0 0;
                          Game.ETick longTick]
                         fullGame_playing fullGame_quiet))).
Defined.

(** X13: on the menu and after the game is over nothing moves: ticks and
    clicks off the start button leave the game exactly as it is, so the
    final score stays on the screen; a click on the start button starts a
    round in play with the counters at zero and an empty bar. *)
Theorem X13_game_over_is_final_until_restart :
  forall (g : Game.t) (events : list Game.Event) (now : Z) (x y : Q),
    Game.state g = Game.menu \/ Game.state g = Game.gameover ->
    Forall (quiet g) events ->
    Game.onStartButton x y = true ->
    Game.run events g = g /\
    let g' := Game.run (events ++ [Game.EClick now x y]) g in
    Game.state g' = Game.playing /\
    Game.score g' = 0 /\ Game.customersServed g' = 0 /\ Game.customersLost g' = 0 /\
    Game.comboCount g' = 0 /\ Game.maxCombo g' = 0 /\ (Game.difficulty g' = 1)%Q /\
    Game.customers g' = [] /\ Game.pendingRealMessages g' = [] /\
    occupied (Game.customerSlots g') = O.
Proof.
  intros g events now x y Hs Hq Hstart.
  assert (Hrun : Game.run events g = g).
  { apply frozen_run; [|exact Hq]. destruct Hs as [-> | ->]; discriminate. }
  split; [exact Hrun|]. cbv zeta.
  unfold Game.run in *. rewrite fold_left_app, Hrun. cbn [fold_left Game.step].
  unfold Game.handleClick.
  assert (E : Game.state_eqb (Game.state g) Game.menu
              || Game.state_eqb (Game.state g) Game.gameover = true)
    by (destruct Hs as [-> | ->]; reflexivity).
  rewrite E, Hstart. unfold Game.startGame. game_fields.
  repeat split.
Qed.

Lemma overGame_quiet :
  Forall (quiet (Game.update longTick fullGame))
         [Game.ETick slowTick; Game.EClick 0 0 0].
Proof.
  constructor; [exact I|]. constructor; [|constructor].
  apply quiet_click; vm_compute; reflexivity.
Qed.

Lemma overGame_over :
  Game.state (Game.update longTick fullGame) = Game.menu \/
  Game.state (Game.update longTick fullGame) = Game.gameover.
Proof. right. vm_compute. reflexivity. Qed.

Lemma X13_witness :
  Game.run [Game.ETick slowTick; Game.EClick 0 0 0] (Game.update longTick fullGame)
  = Game.update longTick fullGame.
Proof.
  assert (Hstart : Game.onStartButton 640 580 = true) by reflexivity.
  exact (proj1 (X13_game_over_is_final_until_restart (Game.update longTick fullGame)
                  [Game.ETick slowTick; Game.EClick 0 0 0] 0 640 580
                  overGame_over overGame_quiet Hstart)).
Defined.

(** ** The end of a round *)

(** The round is over exactly when [MAX_LOST] customers are lost. *)
Definition Over_ok (g : Game.t) : Prop :=
  0 <= Game.customersLost g /\
  (Game.state g = Game.gameover <-> GAME_CONFIG.MAX_LOST <= Game.customersLost g).

Lemma Over_ok_same (g g' : Game.t) :
  Game.state g' = Game.state g -> Game.customersLost g' = Game.customersLost g ->
  Over_ok g -> Over_ok g'.
Proof. unfold Over_ok. intros -> ->. tauto. Qed.

(** The loss loop ends the round only with [MAX_LOST] customers lost. *)
Lemma checkLost_over (cs : list Customer.t) :
  forall g : Game.t,
    Game.state (snd (Game.checkLost cs g)) = Game.gameover ->
    Game.state g = Game.gameover \/
    GAME_CONFIG.MAX_LOST <= Game.customersLost (snd (Game.checkLost cs g)).
Proof.
  induction cs as [|c rest IH]; intros g; cbn [Game.checkLost]; [auto|].
  destruct (customer_state_eqb (Customer.state c) STORMING_OFF
            && negb (Customer.countedAsLost c)).
  - match goal with |- context [Game.checkLost rest ?g2] =>
      specialize (IH g2);
      pose proof (checkLost_spec rest g2) as (_ & _ & _ & Hl & _);
      destruct (Game.checkLost rest g2) as [rest' g3]
    end.
    cbn [snd] in *. intros Hs. destruct (IH Hs) as [H | H]; [|now right].
    revert H Hl. game_fields.
    destruct (GAME_CONFIG.MAX_LOST <=? Game.customersLost g + 1) eqn:E; game_fields.
    + apply Z.leb_le in E. intros _ Hl. right. lia.
    + intros H _. now left.
  - specialize (IH g). destruct (Game.checkLost rest g) as [rest' g3]. exact IH.
Qed.

Lemma update_over (inp : Game.TickInput) (g : Game.t) :
  Over_ok g -> Over_ok (Game.update inp g).
Proof.
  intros [H0 Hover].
  destruct (Game.state g) eqn:Es;
    try (rewrite update_idle; [split; [exact H0 | rewrite Es; exact Hover] | congruence]).
  rewrite (update_playing inp g Es).
  destruct (tick_before_customers inp g) as (_ & _ & L4 & S4 & _).
  set (g4 := Game.updateCustomers inp _) in *.
  destruct (tick_after_lost inp (Game.updateLost g4)) as [T _]. cbv zeta in T.
  apply (Over_ok_same (Game.updateLost g4));
    [now apply tally_state | now apply tally_customersLost|].
  destruct (updateLost_spec g4) as (_ & _ & _ & Hl & Hn0 & Hn & _).
  cbv zeta in Hl, Hn0, Hn.
  assert (Hback : Game.state (Game.updateLost g4) = Game.gameover ->
                  GAME_CONFIG.MAX_LOST <= Game.customersLost (Game.updateLost g4)).
  { unfold Game.updateLost.
    pose proof (checkLost_over (Game.customers g4) g4) as H.
    destruct (Game.checkLost (Game.customers g4) g4) as [cs g1].
    cbn [snd] in H. game_fields. intros Hs. destruct (H Hs) as [H1 | H1]; [|exact H1].
    rewrite S4, Es in H1. discriminate. }
  assert (Hlt : Game.customersLost g < GAME_CONFIG.MAX_LOST).
  { apply Z.nle_gt. intros H. apply Hover in H. discriminate. }
  set (n := Z.of_nat (length (filter isNewlyLost (Game.customers g4)))) in *.
  assert (Hnn : 0 <= n) by apply Nat2Z.is_nonneg.
  rewrite L4 in Hl. split; [lia|]. split; [exact Hback|].
  intros H5. destruct (Z.eq_dec n 0) as [E | E].
  - rewrite E in Hl. lia.
  - apply Hn; [lia | exact H5].
Qed.

Lemma serveCustomer_round now i (g : Game.t) :
  Game.state (Game.serveCustomer now i g) = Game.state g /\
  Game.customersLost (Game.serveCustomer now i g) = Game.customersLost g.
Proof.
  destruct (serveCustomer_cases now i g) as [-> | (bi & c & _ & [[_ ->] | [_ ->]])];
    [auto | auto |].
  destruct (scoreServe_tally (withServed i c g) now (served c) bi)
    as (_ & _ & _ & _ & _ & L & S).
  cbv zeta in L, S. rewrite L, S. auto.
Qed.

Lemma startGame_over (g : Game.t) : Over_ok (Game.startGame g).
Proof.
  unfold Over_ok, Game.startGame, GAME_CONFIG.MAX_LOST. game_fields.
  split; [lia|]. split; [discriminate | lia].
Qed.

Lemma step_over (g : Game.t) (e : Game.Event) : Over_ok g -> Over_ok (Game.step g e).
Proof.
  intros Ho. destruct e; cbn [Game.step].
  - now apply update_over.
  - unfold Game.handleClick.
    destruct (Game.state_eqb (Game.state g) Game.menu
              || Game.state_eqb (Game.state g) Game.gameover).
    + destruct (Game.onStartButton x y); [apply startGame_over | exact Ho].
    + destruct (Game.onMuteButton x y);
        [apply (Over_ok_same g); [reflexivity | reflexivity | exact Ho]|].
      destruct (negb (Game.state_eqb (Game.state g) Game.playing)); [exact Ho|].
      apply clickCustomers_preserves.
      * intros i g0 H0. destruct (serveCustomer_round now i g0) as [S L].
        now apply (Over_ok_same g0).
      * destruct (clickBottles_core x y g) as (Hcore & _).
        apply core_tally in Hcore.
        apply (Over_ok_same g);
          [now apply tally_state | now apply tally_customersLost | exact Ho].
  - destruct (serveCustomer_round now i g) as [S L]. now apply (Over_ok_same g).
  - destruct (serveCustomer_resume_cases now k g)
      as [-> | (q & [-> | (c & bi & _ & ->)])]; [exact Ho | |].
    + apply (Over_ok_same g); [reflexivity | reflexivity | exact Ho].
    + destruct (scoreServe_tally (Game.set_servesInFlight q g) now c bi)
        as (_ & _ & _ & _ & _ & L & S).
      apply (Over_ok_same g); [exact S | exact L | exact Ho].
  - pose proof (pollIncomingMessages_resume_core success messages g) as Hcore.
    apply core_tally in Hcore.
    apply (Over_ok_same g);
      [now apply tally_state | now apply tally_customersLost | exact Ho].
  - apply startGame_over.
  - apply startGame_over.
  - unfold Game.pause. destruct (Game.state_eqb (Game.state g) Game.playing) eqn:E;
      [|exact Ho].
    destruct Ho as [H0 Hover]. split; [exact H0|]. game_fields.
    split; [discriminate|]. intros H. apply Hover in H. rewrite H in E. discriminate.
  - unfold Game.resume. destruct (Game.state_eqb (Game.state g) Game.paused) eqn:E;
      [|exact Ho].
    destruct Ho as [H0 Hover]. split; [exact H0|]. game_fields.
    split; [discriminate|]. intros H. apply Hover in H. rewrite H in E. discriminate.
  - apply (Over_ok_same g); [reflexivity | reflexivity | exact Ho].
Qed.

(** X14: in every game reached from a new one the round is over exactly
    when [MAX_LOST] customers are lost: the game is in the game-over state if
    and only if [customersLost] is at least 5, so a game in play, a paused
    game and the menu have lost fewer than 5; and the count is never
    negative. *)
Theorem X14_game_over_exactly_at_max_lost :
  forall events : list Game.Event,
    let g := Game.run events Game.new in
    0 <= Game.customersLost g /\
    (Game.state g = Game.gameover <-> GAME_CONFIG.MAX_LOST <= Game.customersLost g) /\
    (Game.state g <> Game.gameover -> Game.customersLost g < 5).
Proof.
  intros events g.
  assert (H : Over_ok g).
  { unfold g, Game.run.
    assert (H0 : Over_ok Game.new).
    { unfold Over_ok, GAME_CONFIG.MAX_LOST, Game.new. game_fields.
      split; [lia|]. split; [discriminate | lia]. }
    revert H0. generalize Game.new as g0.
    induction events as [|e rest IH]; intros g0 H0; cbn [fold_left]; [exact H0|].
    apply IH, step_over, H0. }
  destruct H as [H0 Hover]. split; [exact H0|]. split; [exact Hover|].
  intros Hs. apply Z.nle_gt. intros H. apply Hs, Hover. exact H.
Qed.

(** ** The difficulty of a round *)

Lemma Math_min_3_mono (a b : Q) : (a <= b)%Q -> (Math_min 3 a <= Math_min 3 b)%Q.
Proof.
  intros H. unfold Math_min.
  destruct (Qleb 3 a) eqn:Ea; destruct (Qleb 3 b) eqn:Eb;
    rewrite ?Qleb_true, ?Qleb_false in *; lra.
Qed.

(** The difficulty after a tick in play: recomputed from the number of
    customers served when that is a positive multiple of ten. *)
Lemma update_difficulty_value (inp : Game.TickInput) (g : Game.t) :
  Game.state g = Game.playing ->
  Game.difficulty (Game.update inp g)
  = if (0 <? Game.customersServed g) && (Z.rem (Game.customersServed g) 10 =? 0)
    then Math_min 3 (1 + inject_Z (Game.customersServed g) / 20)%Q
    else Game.difficulty g.
Proof.
  intros Es. rewrite (update_playing inp g Es).
  destruct (tick_before_customers inp g) as (_ & D3 & _ & _ & _ & _ & S4).
  set (g3 := Game.updateSpawn inp _) in *.
  pose proof (later_steps_difficulty inp g3) as D7.
  set (g4 := Game.updateCustomers inp g3) in *.
  assert (S7 : Game.customersServed
                 (Game.updateBottles inp (Game.updateRemove (Game.updateLost g4)))
               = Game.customersServed g).
  { destruct (updateLost_spec g4) as (_ & _ & U & _).
    apply (f_equal (fun p => snd (fst (fst (fst p))))) in U.
    cbn [unlost_fields fst snd] in U.
    destruct (updateRemove_tally (Game.updateLost g4)) as (T6 & _).
    apply tally_customersServed in T6.
    destruct (updateBottles_tally inp (Game.updateRemove (Game.updateLost g4)))
      as (T7 & _).
    apply tally_customersServed in T7.
    congruence. }
  unfold Game.updateDifficulty. rewrite S7.
  destruct ((0 <? Game.customersServed g) && (Z.rem (Game.customersServed g) 10 =? 0));
    game_fields; [reflexivity | congruence].
Qed.

(** The difficulty is at least 1 and at most what the customers served so
    far allow. *)
Definition Ramp (g : Game.t) : Prop :=
  0 <= Game.customersServed g /\
  (1 <= Game.difficulty g)%Q /\
  (Game.difficulty g <= Math_min 3 (1 + inject_Z (Game.customersServed g) / 20))%Q.

Lemma served_ramp (s : Z) :
  0 <= s -> (1 <= Math_min 3 (1 + inject_Z s / 20))%Q.
Proof.
  intros Hs. apply Math_min_3_range.
  assert (0 <= inject_Z s / 20)%Q.
  { apply Qle_shift_div_l; [reflexivity|].
    rewrite Qmult_0_l. change 0%Q with (inject_Z 0). rewrite <- Zle_Qle. lia. }
  lra.
Qed.

Lemma Ramp_served (g g' : Game.t) :
  Game.difficulty g' = Game.difficulty g ->
  Game.customersServed g <= Game.customersServed g' ->
  Ramp g -> Ramp g'.
Proof.
  intros Hd Hs (H0 & H1 & H2). unfold Ramp. rewrite Hd.
  split; [lia|]. split; [exact H1|].
  eapply Qle_trans; [exact H2|]. apply Math_min_3_mono.
  assert (inject_Z (Game.customersServed g) <= inject_Z (Game.customersServed g'))%Q
    by (rewrite <- Zle_Qle; exact Hs).
  assert (inject_Z (Game.customersServed g) / 20
          <= inject_Z (Game.customersServed g') / 20)%Q
    by (apply Qmult_le_compat_r; [assumption | discriminate]).
  lra.
Qed.

Lemma update_ramp (inp : Game.TickInput) (g : Game.t) :
  Ramp g -> Ramp (Game.update inp g) /\
            (Game.difficulty g <= Game.difficulty (Game.update inp g))%Q.
Proof.
  intros (H0 & H1 & H2).
  destruct (Game.state g) eqn:Es;
    try (rewrite update_idle; [repeat split; auto; lra | congruence]).
  destruct (update_tally inp g) as (_ & _ & S).
  unfold Ramp. rewrite S, (update_difficulty_value inp g Es).
  destruct ((0 <? Game.customersServed g) && (Z.rem (Game.customersServed g) 10 =? 0)).
  - split; [|exact H2]. split; [exact H0|]. split; [now apply served_ramp | lra].
  - split; [|lra]. auto.
Qed.

Lemma serveCustomer_served now i (g : Game.t) :
  Game.customersServed g <= Game.customersServed (Game.serveCustomer now i g).
Proof.
  destruct (serveCustomer_cases now i g) as [-> | (bi & c & _ & [[_ ->] | [_ ->]])];
    [lia | game_fields; unfold withServed; game_fields; lia |].
  destruct (scoreServe_tally (withServed i c g) now (served c) bi) as (_ & -> & _).
  unfold withServed. game_fields. lia.
Qed.

Lemma enqueueMessage_difficulty (messages : list Game.ApiMessage) :
  forall g : Game.t,
    Game.difficulty (fold_left Game.enqueueMessage messages g) = Game.difficulty g.
Proof.
  induction messages as [|m rest IH]; intros g; cbn [fold_left]; [auto|].
  rewrite IH. unfold Game.enqueueMessage. destruct (negb _); auto.
Qed.

Lemma step_ramp (g : Game.t) (e : Game.Event) :
  Ramp g ->
  Ramp (Game.step g e) /\
  (startsRound g e = false ->
   (Game.difficulty g <= Game.difficulty (Game.step g e))%Q).
Proof.
  intros Hr.
  assert (Hstart : Ramp (Game.startGame g)).
  { unfold Ramp, Game.startGame. game_fields.
    split; [lia|]. split; [lra|]. vm_compute. discriminate. }
  assert (Hserve : forall now i g0,
            Ramp g0 /\ Game.difficulty g0 = Game.difficulty g ->
            Ramp (Game.serveCustomer now i g0) /\
            Game.difficulty (Game.serveCustomer now i g0) = Game.difficulty g).
  { intros now i g0 [R0 D0]. rewrite serveCustomer_difficulty. split; [|exact D0].
    apply (Ramp_served g0);
      [apply serveCustomer_difficulty | apply serveCustomer_served | exact R0]. }
  assert (Hsame : forall g', Game.difficulty g' = Game.difficulty g ->
                             Game.customersServed g <= Game.customersServed g' ->
                             Ramp g' /\ (Game.difficulty g <= Game.difficulty g')%Q).
  { intros g' Hd Hs. split; [now apply (Ramp_served g)|]. rewrite Hd. lra. }
  assert (Hweak : forall g' (P : Prop),
            Ramp g' /\ (Game.difficulty g <= Game.difficulty g')%Q ->
            Ramp g' /\ (P -> (Game.difficulty g <= Game.difficulty g')%Q))
    by (intros g' P [R D]; auto).
  destruct e; cbn [Game.step].
  - destruct (update_ramp inp g Hr) as [R D]. auto.
  - unfold Game.handleClick. cbn [startsRound].
    destruct (Game.state_eqb (Game.state g) Game.menu
              || Game.state_eqb (Game.state g) Game.gameover).
    + destruct (Game.onStartButton x y);
        [split; [exact Hstart | discriminate]
        | apply Hweak, Hsame; [reflexivity | lia]].
    + destruct (Game.onMuteButton x y);
        [apply Hweak, Hsame; [reflexivity | game_fields; lia]|].
      destruct (negb (Game.state_eqb (Game.state g) Game.playing));
        [apply Hweak, Hsame; [reflexivity | lia]|].
      assert (H : Ramp (Game.clickCustomers now x y (Game.clickBottles x y g)) /\
                  Game.difficulty (Game.clickCustomers now x y (Game.clickBottles x y g))
                  = Game.difficulty g).
      { apply (clickCustomers_preserves
                 (fun g0 => Ramp g0 /\ Game.difficulty g0 = Game.difficulty g)).
        - intros i g0. apply Hserve.
        - destruct (clickBottles_core x y g) as (Hcore & _).
          apply core_tally, tally_customersServed in Hcore.
          split; [|apply clickBottles_difficulty].
          apply (Ramp_served g); [apply clickBottles_difficulty | lia | exact Hr]. }
      destruct H as [R D]. split; [exact R|]. intros _. rewrite D. lra.
  - destruct (Hserve now i g (conj Hr eq_refl)) as [R D].
    split; [exact R|]. intros _. rewrite D. lra.
  - apply Hweak.
    destruct (serveCustomer_resume_cases now k g)
      as [-> | (q & [-> | (c & bi & _ & ->)])];
      [apply Hsame; [reflexivity | lia] | apply Hsame; [reflexivity | game_fields; lia] |].
    destruct (scoreServe_tally (Game.set_servesInFlight q g) now c bi) as (_ & S & _).
    apply Hsame; [|rewrite S; game_fields; lia].
    unfold Game.scoreServe. destruct (nth_error _ bi); reflexivity.
  - apply Hweak.
    pose proof (pollIncomingMessages_resume_core success messages g) as Hcore.
    apply core_tally, tally_customersServed in Hcore.
    apply Hsame; [|lia].
    unfold Game.pollIncomingMessages_resume.
    destruct (Game.pollsInFlight g); [reflexivity|].
    destruct (success && _); [|reflexivity].
    now rewrite enqueueMessage_difficulty.
  - split; [exact Hstart | discriminate].
  - split; [exact Hstart | discriminate].
  - apply Hweak. unfold Game.pause.
    destruct (Game.state_eqb _ _); apply Hsame; try reflexivity; game_fields; lia.
  - apply Hweak. unfold Game.resume.
    destruct (Game.state_eqb _ _); apply Hsame; try reflexivity; game_fields; lia.
  - apply Hweak, Hsame; [reflexivity | game_fields; lia].
Qed.

Lemma reachable_ramp (events : list Game.Event) : Ramp (Game.run events Game.new).
Proof.
  unfold Game.run.
  assert (H0 : Ramp Game.new).
  { unfold Ramp, Game.new. game_fields. split; [lia|]. split; [lra|].
    vm_compute. discriminate. }
  revert H0. generalize Game.new as g0.
  induction events as [|e rest IH]; intros g0 H0; cbn [fold_left]; [exact H0|].
  apply IH, (step_ramp g0 e H0).
Qed.

(** X15: within a round the difficulty never goes down: in a game reached
    from a new one, no event but the start of a round lowers it.  It stays
    between 1 and 3, and it is never ahead of the customers served:
    [difficulty <= 1 + customersServed / 20]. *)
Theorem X15_difficulty_only_rises_within_a_round :
  forall (events : list Game.Event) (e : Game.Event),
    let g := Game.run events Game.new in
    startsRound g e = false ->
    (Game.difficulty g <= Game.difficulty (Game.step g e))%Q /\
    (1 <= Game.difficulty g)%Q /\ (Game.difficulty g <= 3)%Q /\
    (Game.difficulty g <= 1 + inject_Z (Game.customersServed g) / 20)%Q.
Proof.
  intros events e g He.
  pose proof (reachable_ramp events) as Hr. fold g in Hr.
  destruct (step_ramp g e Hr) as [_ Hstep].
  destruct Hr as (H0 & H1 & H2).
  split; [now apply Hstep|]. split; [exact H1|].
  revert H2. unfold Math_min.
  destruct (Qleb 3 _) eqn:E; [apply Qleb_true in E | apply Qleb_false in E];
    intros H2; split; lra.
Qed.

Lemma X15_witness :
  (Game.difficulty fullGame <= Game.difficulty (Game.step fullGame (Game.ETick longTick)))%Q.
Proof.
  assert (He : startsRound fullGame (Game.ETick longTick) = false) by reflexivity.
  exact (proj1 (X15_difficulty_only_rises_within_a_round fullEvents
                  (Game.ETick longTick) He)).
Defined.

(** ** The pace of arrivals *)

Lemma spawnInterval_range (g : Game.t) :
  (GAME_CONFIG.MIN_SPAWN_INTERVAL <= Game.spawnInterval g)%Q /\
  ((1 <= Game.difficulty g)%Q ->
   (Game.spawnInterval g <= GAME_CONFIG.BASE_SPAWN_INTERVAL)%Q).
Proof.
  unfold Game.spawnInterval, Math_max, GAME_CONFIG.MIN_SPAWN_INTERVAL,
    GAME_CONFIG.BASE_SPAWN_INTERVAL.
  destruct (Qleb 2500 (6000 / Game.difficulty g)) eqn:E;
    [apply Qleb_true in E | apply Qleb_false in E].
  - split; [exact E|]. intros Hd. apply Qle_shift_div_r; lra.
  - split; [lra|]. intros _. lra.
Qed.

Section SpawnClock.

Variables (inp : Game.TickInput) (g : Game.t).
Hypothesis Hplay : Game.state g = Game.playing.

Let g2 := Game.updateApiPoll (Game.deltaTime inp)
            (Game.updateComboTimer (Game.deltaTime inp) g).
Let g3 := Game.updateSpawn inp g2.

Lemma before_spawn :
  Game.lastSpawnTime g2 = Game.lastSpawnTime g /\
  Game.difficulty g2 = Game.difficulty g /\
  Game.customerSlots g2 = Game.customerSlots g /\
  Game.customerIdCounter g2 = Game.customerIdCounter g.
Proof.
  assert (H1 : Game.lastSpawnTime (Game.updateComboTimer (Game.deltaTime inp) g)
               = Game.lastSpawnTime g)
    by (unfold Game.updateComboTimer; game_cases; reflexivity).
  assert (H2 : Game.lastSpawnTime g2
               = Game.lastSpawnTime (Game.updateComboTimer (Game.deltaTime inp) g)).
  { unfold g2, Game.updateApiPoll, Game.pollIncomingMessages. game_fields.
    game_cases; reflexivity. }
  destruct (updateComboTimer_tally inp g) as [_ D1].
  destruct (updateApiPoll_tally inp (Game.updateComboTimer (Game.deltaTime inp) g))
    as (_ & _ & D2).
  fold g2 in D2.
  assert (Hr : roster_fields g2 = roster_fields g).
  { unfold g2. rewrite updateApiPoll_roster. apply updateComboTimer_roster. }
  unfold roster_fields in Hr. injection Hr as _ R2 R3 _ _.
  repeat split; congruence.
Qed.

(** What the steps of a tick after the spawn keep. *)
Lemma after_spawn :
  Game.lastSpawnTime (Game.update inp g) = Game.lastSpawnTime g3 /\
  Game.customerIdCounter (Game.update inp g) = Game.customerIdCounter g3.
Proof.
  rewrite (update_playing inp g Hplay). fold g2. fold g3.
  set (g4 := Game.updateCustomers inp g3).
  set (g5 := Game.updateLost g4).
  set (g6 := Game.updateRemove g5).
  set (g7 := Game.updateBottles inp g6).
  assert (H5 : Game.lastSpawnTime g5 = Game.lastSpawnTime g3).
  { unfold g5, Game.updateLost.
    destruct (checkLost_panel (Game.customers g4) g4) as (_ & _ & L & _).
    destruct (Game.checkLost (Game.customers g4) g4) as [cs g']. exact L. }
  assert (H6 : Game.lastSpawnTime g6 = Game.lastSpawnTime g5).
  { unfold g6, Game.updateRemove.
    destruct (Game.removeFinished _ _) as [[k s] d]. reflexivity. }
  assert (H8 : Game.lastSpawnTime (Game.updateDifficulty g7) = Game.lastSpawnTime g6).
  { unfold Game.updateDifficulty. game_cases; reflexivity. }
  split; [congruence|].
  destruct (updateLost_spec g4) as (_ & (_ & C5 & _) & _). fold g5 in C5.
  destruct (updateRemove_tally g5) as (_ & _ & _ & C6). fold g6 in C6.
  assert (C8 : Game.customerIdCounter (Game.updateDifficulty g7)
               = Game.customerIdCounter g6).
  { unfold Game.updateDifficulty. game_cases; reflexivity. }
  rewrite C8, C6, C5. reflexivity.
Qed.

Lemma spawn_clock :
  let t := (Game.lastSpawnTime g + Game.deltaTime inp)%Q in
  (Qleb (Game.spawnInterval g) t = false ->
   Game.lastSpawnTime g3 = t /\
   Game.customerIdCounter g3 = Game.customerIdCounter g) /\
  (Qleb (Game.spawnInterval g) t = true ->
   Game.lastSpawnTime g3 = 0%Q /\
   Game.customerIdCounter g3
   = match findIndex Game.isNull (Game.customerSlots g) with
     | Some _ => S (Game.customerIdCounter g)
     | None => Game.customerIdCounter g
     end).
Proof.
  destruct before_spawn as (L2 & D2 & S2 & C2). cbv zeta.
  unfold g3, Game.updateSpawn. game_fields.
  assert (E : Game.spawnInterval
                (Game.set_lastSpawnTime (Game.lastSpawnTime g2 + Game.deltaTime inp)%Q g2)
              = Game.spawnInterval g).
  { unfold Game.spawnInterval. game_fields. now rewrite D2. }
  rewrite E, L2.
  split; intros Hq; rewrite Hq; game_fields; [auto|].
  match goal with |- context [Game.spawnCustomer _ _ ?g0] => set (g1 := g0) end.
  assert (S1 : Game.customerSlots g1 = Game.customerSlots g) by exact S2.
  assert (C1 : Game.customerIdCounter g1 = Game.customerIdCounter g) by exact C2.
  rewrite <- S1, <- C1.
  destruct (findIndex Game.isNull (Game.customerSlots g1)) as [i|] eqn:Ef.
  - destruct (spawnCustomer_free (Game.rnd inp) (Game.now inp) g1 i Ef)
      as (_ & _ & Hc & _).
    split; [|exact Hc].
    unfold Game.spawnCustomer. rewrite Ef.
    destruct (Game.pendingRealMessages g1); destruct (Customer.new _ _ _ _);
      reflexivity.
  - rewrite (spawnCustomer_full _ _ _ Ef). auto.
Qed.

End SpawnClock.


Lemma oneCustomerGame_playing : Game.state oneCustomerGame = Game.playing.
Proof. vm_compute. reflexivity. Qed.

Lemma oneCustomerGame_due :
  (1 <= Game.difficulty oneCustomerGame)%Q /\
  (6000 <= Game.lastSpawnTime oneCustomerGame + Game.deltaTime slowTick)%Q.
Proof. split; vm_compute; discriminate. Qed.


(** ** The slots and their customers *)

(** The indices of the slots that hold a customer. *)
Definition occupied_slots (slots : list (option nat)) : list nat :=
  filter (fun i => negb (Game.isNull (nth i slots None))) (seq 0 (length slots)).

Lemma occupied_from (slots : list (option nat)) :
  forall k,
    length (filter (fun i => negb (Game.isNull (nth (i - k) slots None)))
                   (seq k (length slots)))
    = occupied slots.
Proof.
  unfold occupied. induction slots as [|h t IH]; intros k; [reflexivity|].
  remember (fun i => negb (Game.isNull (nth (i - k) (h :: t) None))) as f eqn:Hf.
  cbn [length seq filter].
  assert (Hk : f k = negb (Game.isNull h))
    by (subst f; rewrite Nat.sub_diag; reflexivity).
  assert (E : filter f (seq (S k) (length t))
              = filter (fun i => negb (Game.isNull (nth (i - S k) t None)))
                       (seq (S k) (length t))).
  { apply filter_ext_in. intros i Hi. apply in_seq in Hi. subst f.
    replace (i - k)%nat with (S (i - S k)) by lia. reflexivity. }
  rewrite Hk, E.
  destruct (negb (Game.isNull h)); cbn [length]; rewrite IH; reflexivity.
Qed.

Lemma occupied_slots_length (slots : list (option nat)) :
  length (occupied_slots slots) = occupied slots.
Proof.
  unfold occupied_slots. rewrite <- (occupied_from slots 0).
  f_equal. apply filter_ext. intros i. now rewrite Nat.sub_0_r.
Qed.

Lemma occupied_slots_In (slots : list (option nat)) (i : nat) :
  In i (occupied_slots slots) <-> exists id, nth_error slots i = Some (Some id).
Proof.
  unfold occupied_slots. rewrite filter_In, in_seq. split.
  - intros [[_ Hi] Hn]. cbn [plus] in Hi.
    destruct (nth_error slots i) as [s|] eqn:E;
      [|apply nth_error_None in E; lia].
    rewrite (nth_error_nth _ _ None E) in Hn.
    destruct s as [id|]; [eauto | discriminate].
  - intros [id E]. split; [split; [lia | apply (nth_error_lt _ _ _ E)]|].
    now rewrite (nth_error_nth _ _ None E).
Qed.

(** The slot a roster entry names. *)
Definition slot_of (p : nat * option nat) : nat :=
  match snd p with Some i => i | None => O end.

(** Every occupied slot holds a customer of the roster. *)
Lemma Seated_onto (r : list (nat * option nat)) (slots : list (option nat))
    (counter : nat) (i id : nat) :
  Seated r slots counter ->
  nth_error slots i = Some (Some id) ->
  In (id, Some i) r.
Proof.
  intros [Hlen Hnd Hb Hslot Hcount] Hi.
  assert (Hof : forall p, In p r ->
            snd p = Some (slot_of p) /\ nth_error slots (slot_of p) = Some (Some (fst p))).
  { intros p Hp. destruct (Hslot p Hp) as (j & Hj & Hn). unfold slot_of.
    rewrite Hj. auto. }
  assert (Hinj : forall p q, In p r -> In q r -> slot_of p = slot_of q -> p = q).
  { intros [a sa] [b sb] Hp Hq E.
    destruct (Hof _ Hp) as [P1 P2], (Hof _ Hq) as [Q1 Q2]. cbn [fst snd] in *.
    rewrite E in P1, P2. congruence. }
  assert (Hnd_r : NoDup r) by (apply (NoDup_map_inv fst); exact Hnd).
  assert (HndL : NoDup (map slot_of r))
    by (apply NoDup_map_NoDup_ForallPairs; [exact Hinj | exact Hnd_r]).
  assert (Hincl : incl (map slot_of r) (occupied_slots slots)).
  { intros j Hj. apply in_map_iff in Hj. destruct Hj as (p & <- & Hp).
    apply occupied_slots_In. destruct (Hof p Hp) as [_ H]. eauto. }
  assert (Hle : (length (occupied_slots slots) <= length (map slot_of r))%nat)
    by (rewrite occupied_slots_length, length_map, Hcount; lia).
  pose proof (NoDup_length_incl HndL Hle Hincl) as Hback.
  assert (Hin : In i (map slot_of r))
    by (apply Hback, occupied_slots_In; eauto).
  apply in_map_iff in Hin. destruct Hin as ([a sa] & E & Hp).
  destruct (Hof _ Hp) as [P1 P2]. cbn [fst snd] in *. rewrite E in P1, P2.
  assert (a = id) by congruence. subst. rewrite <- P1. exact Hp.
Qed.

(** X17: in every game reached from a new one the slots and the customers
    match exactly: slot [i] holds the id of a customer if and only if a
    customer of the game with that id was assigned slot [i]; no slot keeps
    the id of a customer that is gone. *)
Theorem X17_slots_hold_exactly_the_customers :
  forall (events : list Game.Event) (i id : nat),
    let g := Game.run events Game.new in
    nth_error (Game.customerSlots g) i = Some (Some id) <->
    exists c, In c (Game.customers g) /\ Customer.id c = id /\
              Customer.slotIndex c = Some i.
Proof.
  intros events i id g.
  pose proof (ok_seated g (proj1 (reachable_inv events))) as Hseat.
  split.
  - intros Hi. pose proof (Seated_onto _ _ _ i id Hseat Hi) as Hin.
    unfold roster in Hin. apply in_map_iff in Hin. destruct Hin as (c & E & Hc).
    exists c. injection E as E1 E2. auto.
  - intros (c & Hc & <- & Hs).
    destruct (seated_slot _ _ _ Hseat (Customer.id c, Customer.slotIndex c))
      as (j & Hj & Hn).
    { unfold roster. apply (in_map (fun c => (Customer.id c, Customer.slotIndex c))).
      exact Hc. }
    cbn [fst snd] in *. congruence.
Qed.

(** ** From a polled message to a customer *)

Lemma str_or_nonempty (a b : string) : b <> EmptyString -> str_or a b <> EmptyString.
Proof.
  intros Hb. unfold str_or. destruct (String.eqb a EmptyString) eqn:E; [exact Hb|].
  now apply String.eqb_neq.
Qed.

Lemma text_or_left (a b : text) : a <> [] -> text_or a b = a.
Proof. destruct a; [congruence | reflexivity]. Qed.

Lemma text_or_nonempty (a b : text) : b <> [] -> text_or a b <> [].
Proof. intros Hb. destruct a; [exact Hb | discriminate]. Qed.

Lemma substring_length (n : nat) (s : text) : (length (substring n s) <= n)%nat.
Proof. apply firstn_le_length. Qed.

(** The cut counts code units: it can part the two units of a character
    outside the basic plane, as [substring] does. *)
Lemma substring_counts_code_units :
  substring 50 (repeat 65%N 49 ++ [55357%N; 56395%N] ++ utf16 "!")
  = repeat 65%N 49 ++ [55357%N].
Proof. reflexivity. Qed.

Lemma queuedRecord_message (msg : Game.ApiMessage) :
  Game.p_message (queuedRecord msg) <> [] /\
  (length (Game.p_message (queuedRecord msg)) <= 50)%nat.
Proof.
  unfold queuedRecord. cbn [Game.p_message]. split.
  - apply text_or_nonempty. discriminate.
  - destruct (substring 50 (Game.m_message msg)) eqn:E; cbn [text_or].
    + cbn. repeat apply le_n_S. apply Nat.le_0_l.
    + rewrite <- E. apply substring_length.
Qed.

(** X18: a polled message, from a phone that is not empty and that no
    customer carries, arriving at an empty queue, is queued as one record;
    the next [spawnCustomer] with a free slot turns that record into a real
    customer that carries the phone, the sender's name (the phone if there
    is none) and the first 50 UTF-16 code units of the text ("New message"
    if there is none), takes the first free slot, and leaves the queue
    empty. *)
Theorem X18_polled_message_becomes_a_customer :
  forall (g : Game.t) (msg : Game.ApiMessage) (rnd : Customer.Random) (now : Z)
         (i : nat),
    Game.m_phone msg <> EmptyString ->
    ~ In (Game.m_phone msg) (map Customer.phone (Game.customers g)) ->
    Game.pendingRealMessages g = [] ->
    findIndex Game.isNull (Game.customerSlots g) = Some i ->
    let g1 := Game.enqueueMessage g msg in
    let g' := Game.spawnCustomer rnd now g1 in
    Game.pendingRealMessages g1 = [queuedRecord msg] /\
    exists c,
      Game.customers g' = Game.customers g ++ [c] /\
      Game.pendingRealMessages g' = [] /\
      Customer.isReal c = true /\
      Customer.phone c = Game.m_phone msg /\
      Customer.name c = str_or (Game.m_sender_name msg) (Game.m_phone msg) /\
      Customer.message c
      = text_or (substring 50 (Game.m_message msg)) (utf16 "New message") /\
      (length (Customer.message c) <= 50)%nat /\
      Customer.slotIndex c = Some i /\
      Customer.state c = WALKING_IN.
Proof.
  intros g msg rnd now i Hphone Hnew Hq Hfree g1 g'.
  assert (E1 : g1 = Game.set_pendingRealMessages [queuedRecord msg] g).
  { unfold g1.
    destruct (enqueueMessage_cases g msg) as [[[H | H] _] | (_ & _ & E)].
    - contradiction.
    - rewrite Hq in H. destruct H.
    - rewrite E, Hq. reflexivity. }
  split; [rewrite E1; reflexivity|].
  assert (Hfree1 : findIndex Game.isNull (Game.customerSlots g1) = Some i)
    by (rewrite E1; exact Hfree).
  destruct (spawnCustomer_free rnd now g1 i Hfree1) as (Hc & _ & _ & Hp).
  fold g' in Hc, Hp.
  exists (spawned rnd now i g1).
  split; [rewrite Hc, E1; reflexivity|].
  split; [rewrite Hp, E1; reflexivity|].
  destruct (queuedRecord_message msg) as [Hm Hlen].
  assert (Hn : Game.p_name (queuedRecord msg) <> EmptyString)
    by (apply str_or_nonempty; exact Hphone).
  unfold spawned, spawnOptions. rewrite E1. game_fields.
  unfold Customer.assignSlot, Customer.new. customer_fields.
  cbn [Customer.o_name Customer.o_message Customer.o_phone Customer.o_isReal].
  rewrite (str_or_left _ _ Hn), (text_or_left _ _ Hm).
  change (Game.p_phone (queuedRecord msg)) with (Game.m_phone msg).
  rewrite (str_or_left _ _ Hphone).
  repeat split; auto.
Qed.

Definition helloMessage : Game.ApiMessage :=
  Game.mkApiMessage "m1" "972501111111" (utf16 "Hello there") EmptyString.

Lemma helloMessage_new :
  ~ In (Game.m_phone helloMessage) (map Customer.phone (Game.customers oneCustomerGame)).
Proof. vm_compute. intros [H | []]. discriminate H. Qed.

Lemma oneCustomerGame_queue : Game.pendingRealMessages oneCustomerGame = [].
Proof. vm_compute. reflexivity. Qed.

Lemma X18_witness :
  exists c,
    Game.customers
      (Game.spawnCustomer (Customer.mkRandom 0 0 0) 0
         (Game.enqueueMessage oneCustomerGame helloMessage))
    = Game.customers oneCustomerGame ++ [c] /\
    Customer.phone c = "972501111111"%string /\
    Customer.name c = "972501111111"%string /\
    Customer.message c = utf16 "Hello there".
Proof.
  assert (Hphone : Game.m_phone helloMessage <> EmptyString) by discriminate.
  destruct (X18_polled_message_becomes_a_customer oneCustomerGame helloMessage
              (Customer.mkRandom 0 0 0) 0 1%nat Hphone helloMessage_new
              oneCustomerGame_queue oneCustomerGame_free)
    as (_ & c & Hc & _ & _ & Hp & Hn & Hm & _).
  exists c. split; [exact Hc|]. split; [exact Hp|]. split; [exact Hn | exact Hm].
Defined.

(** ** A game that is never switched to live *)

(** A click on the shelf writes the selection and nothing else. *)
Lemma clickBottles_form x y (g : Game.t) :
  Game.clickBottles x y g = g \/
  exists s, Game.clickBottles x y g = Game.set_selectedBottleIndex s g.
Proof.
  unfold Game.clickBottles.
  generalize (combine (seq 0 (length (Game.bottles g))) (Game.bottles g)) as l.
  intros l.
  assert (H : forall g0,
            g0 = g \/ (exists s, g0 = Game.set_selectedBottleIndex s g) ->
            let r := fold_left
              (fun g' p => let '(index, bottle) := p in
                 if Bottle.containsPoint x y bottle
                    && negb (bt_locked (Bottle.type bottle))
                 then Game.set_selectedBottleIndex (Some index) g' else g') l g0 in
            r = g \/ exists s, r = Game.set_selectedBottleIndex s g).
  { induction l as [|[index bottle] rest IH]; intros g0 H0; cbn [fold_left]; [exact H0|].
    apply IH.
    destruct (Bottle.containsPoint x y bottle && _); [|exact H0].
    right. exists (Some index). destruct H0 as [-> | [s ->]]; reflexivity. }
  apply H. now left.
Qed.

(** Every event but the switch to live mode. *)
Definition stays_demo (e : Game.Event) : Prop :=
  match e with
  | Game.ESetDemoMode false => False
  | _ => True
  end.

(** Nothing is in flight and nothing is queued. *)
Definition Offline (g : Game.t) : Prop :=
  Game.demoMode g = true /\ Game.pollsInFlight g = O /\
  Game.servesInFlight g = [] /\ Game.pendingRealMessages g = [].

Lemma Offline_same (g g' : Game.t) :
  Game.demoMode g' = Game.demoMode g ->
  Game.pollsInFlight g' = Game.pollsInFlight g ->
  Game.servesInFlight g' = Game.servesInFlight g ->
  Game.pendingRealMessages g' = Game.pendingRealMessages g ->
  Offline g -> Offline g'.
Proof. unfold Offline. intros -> -> -> ->. tauto. Qed.

Lemma update_offline (inp : Game.TickInput) (g : Game.t) :
  Offline g -> Offline (Game.update inp g).
Proof.
  intros (Hd & Hp & Hs & Hq).
  destruct (Game.state g) eqn:Es;
    try (rewrite update_idle; [repeat split; assumption | congruence]).
  destruct (update_panel inp g Es) as [P _]. apply panel_demoMode in P.
  split; [congruence|].
  split; [|split; [rewrite update_servesInFlight; exact Hs|]];
    rewrite (update_playing inp g Es).
  - set (g1 := Game.updateComboTimer (Game.deltaTime inp) g).
    assert (H1 : Game.pollsInFlight g1 = O /\ Game.demoMode g1 = true).
    { unfold g1, Game.updateComboTimer. game_cases; auto. }
    set (g2 := Game.updateApiPoll (Game.deltaTime inp) g1).
    assert (H2 : Game.pollsInFlight g2 = O).
    { unfold g2, Game.updateApiPoll, Game.pollIncomingMessages. game_fields.
      destruct H1 as [H1 ->]. cbn [negb andb]. exact H1. }
    set (g3 := Game.updateSpawn inp g2).
    assert (H3 : Game.pollsInFlight g3 = O).
    { unfold g3, Game.updateSpawn, Game.spawnCustomer. game_fields.
      destruct (Qleb _ _); [|exact H2].
      destruct (findIndex _ _); [|exact H2].
      destruct (Game.pendingRealMessages g2); destruct (Customer.new _ _ _ _);
        exact H2. }
    set (g4 := Game.updateCustomers inp g3).
    set (g5 := Game.updateLost g4).
    assert (H5 : Game.pollsInFlight g5 = O).
    { unfold g5, Game.updateLost.
      destruct (checkLost_panel (Game.customers g4) g4) as (_ & _ & _ & L).
      destruct (Game.checkLost (Game.customers g4) g4) as [cs g0]. cbn [snd] in L.
      game_fields. rewrite L. exact H3. }
    set (g6 := Game.updateRemove g5).
    assert (H6 : Game.pollsInFlight g6 = O).
    { unfold g6, Game.updateRemove.
      destruct (Game.removeFinished _ _) as [[k s] d]. exact H5. }
    unfold Game.updateDifficulty. game_cases; exact H6.
  - set (g2 := Game.updateApiPoll (Game.deltaTime inp)
                 (Game.updateComboTimer (Game.deltaTime inp) g)).
    assert (H2 : Game.pendingRealMessages g2 = []).
    { assert (Hr : roster_fields g2 = roster_fields g).
      { unfold g2. rewrite updateApiPoll_roster. apply updateComboTimer_roster. }
      apply (f_equal snd) in Hr. cbn [roster_fields snd] in Hr. congruence. }
    set (g3 := Game.updateSpawn inp g2).
    assert (H3 : Game.pendingRealMessages g3 = []).
    { unfold g3, Game.updateSpawn. game_fields.
      destruct (Qleb _ _); [|exact H2].
      match goal with |- context [Game.spawnCustomer _ _ ?g0] => set (g1 := g0) end.
      destruct (findIndex Game.isNull (Game.customerSlots g1)) as [i|] eqn:Ef.
      - destruct (spawnCustomer_free (Game.rnd inp) (Game.now inp) g1 i Ef)
          as (_ & _ & _ & ->).
        change (Game.pendingRealMessages g1) with (Game.pendingRealMessages g2).
        now rewrite H2.
      - rewrite (spawnCustomer_full _ _ _ Ef). exact H2. }
    set (g4 := Game.updateCustomers inp g3).
    destruct (updateLost_spec g4) as (_ & (_ & _ & _ & Q5) & _).
    destruct (updateRemove_tally (Game.updateLost g4)) as (_ & _ & Q6 & _).
    set (g6 := Game.updateRemove (Game.updateLost g4)) in *.
    assert (Q8 : Game.pendingRealMessages (Game.updateDifficulty (Game.updateBottles inp g6))
                 = Game.pendingRealMessages g6).
    { unfold Game.updateDifficulty. game_cases; reflexivity. }
    rewrite Q8, Q6, Q5. exact H3.
Qed.

Lemma serveCustomer_offline now i (g : Game.t) :
  Offline g -> Offline (Game.serveCustomer now i g).
Proof.
  intros Ho.
  destruct (serveCustomer_cases now i g) as [-> | (bi & c & _ & [[E _] | [_ ->]])];
    [exact Ho | |].
  - destruct Ho as (Hd & _). rewrite Hd, andb_false_r in E. discriminate.
  - destruct (scoreServe_bottles now (served c) bi (withServed i c g)) as (_ & P & S).
    apply panel_demoMode in P.
    pose proof (scoreServe_roster (withServed i c g) now (served c) bi) as R.
    apply (f_equal snd) in R. cbn [roster_fields snd] in R.
    apply (Offline_same g); try assumption.
    unfold Game.scoreServe. destruct (nth_error _ bi); reflexivity.
Qed.

Lemma step_offline (g : Game.t) (e : Game.Event) :
  stays_demo e -> Offline g -> Offline (Game.step g e).
Proof.
  intros He Ho.
  assert (Hstart : Offline (Game.startGame g)).
  { destruct Ho as (Hd & Hp & Hs & Hq). unfold Game.startGame.
    repeat split; assumption. }
  destruct e; cbn [Game.step].
  - now apply update_offline.
  - unfold Game.handleClick.
    destruct (Game.state_eqb (Game.state g) Game.menu
              || Game.state_eqb (Game.state g) Game.gameover).
    + destruct (Game.onStartButton x y); [exact Hstart | exact Ho].
    + destruct (Game.onMuteButton x y);
        [apply (Offline_same g); auto|].
      destruct (negb (Game.state_eqb (Game.state g) Game.playing)); [exact Ho|].
      apply clickCustomers_preserves; [intros i g0; apply serveCustomer_offline|].
      destruct (clickBottles_form x y g) as [-> | [s ->]]; [exact Ho|].
      apply (Offline_same g); auto.
  - now apply serveCustomer_offline.
  - unfold Game.serveCustomer_resume.
    destruct Ho as (Hd & Hp & Hs & Hq). rewrite Hs.
    destruct k; cbn [nth_error]; repeat split; assumption.
  - unfold Game.pollIncomingMessages_resume.
    destruct Ho as (Hd & Hp & Hs & Hq). rewrite Hp. repeat split; assumption.
  - exact Hstart.
  - exact Hstart.
  - unfold Game.pause. destruct (Game.state_eqb _ _); [|exact Ho].
    apply (Offline_same g); auto.
  - unfold Game.resume. destruct (Game.state_eqb _ _); [|exact Ho].
    apply (Offline_same g); auto.
  - destruct b; [|destruct He].
    destruct Ho as (Hd & Hp & Hs & Hq). repeat split; assumption.
Qed.

(** X19: a game that starts in demo mode, as the constructor leaves it, and
    is never switched to live stays offline: whatever else happens, no poll
    is started, no serve waits for a message to be sent, and nothing is
    queued; the next tick starts no poll and the next serve is not
    suspended. *)
Theorem X19_demo_game_stays_offline :
  forall events : list Game.Event,
    Forall stays_demo events ->
    let g := Game.run events Game.new in
    Game.demoMode g = true /\ Game.pollsInFlight g = O /\
    Game.servesInFlight g = [] /\ Game.pendingRealMessages g = [] /\
    forall inp now i,
      Game.pollsInFlight (Game.update inp g) = O /\
      Game.servesInFlight (Game.serveCustomer now i g) = [].
Proof.
  intros events Hev g.
  assert (H : Offline g).
  { unfold g, Game.run.
    assert (H0 : Offline Game.new) by (repeat split).
    revert H0. generalize Game.new as g0.
    induction Hev as [|e rest He Hrest IH]; intros g0 H0; cbn [fold_left]; [exact H0|].
    apply IH, step_offline; assumption. }
  destruct H as (Hd & Hp & Hs & Hq).
  do 4 (split; [assumption|]).
  intros inp now i.
  destruct (update_offline inp g) as (_ & Hp' & _); [repeat split; assumption|].
  destruct (serveCustomer_offline now i g) as (_ & _ & Hs' & _);
    [repeat split; assumption|].
  auto.
Qed.

Lemma fullEvents_demo : Forall stays_demo fullEvents.
Proof. repeat constructor. Qed.

Lemma X19_witness :
  Game.pollsInFlight fullGame = O /\ Game.servesInFlight fullGame = [].
Proof.
  destruct (X19_demo_game_stays_offline fullEvents fullEvents_demo)
    as (_ & Hp & Hs & _).
  split; [exact Hp | exact Hs].
Defined.

(** ** The chat id of a reply *)

(** Nothing but digits. *)
Fixpoint all_digits (s : string) : bool :=
  match s with
  | EmptyString => true
  | String c t => Api.is_digit c && all_digits t
  end.

Lemma digits_only_all (s : string) : all_digits (Api.digits_only s) = true.
Proof.
  induction s as [|c t IH]; [reflexivity|].
  cbn [Api.digits_only]. destruct (Api.is_digit c) eqn:E; [|exact IH].
  cbn [all_digits]. now rewrite E, IH.
Qed.

Lemma digits_only_fixed (s : string) :
  all_digits s = true -> Api.digits_only s = s.
Proof.
  induction s as [|c t IH]; [reflexivity|].
  cbn [all_digits Api.digits_only]. intros H. apply andb_true_iff in H.
  destruct H as [-> H]. now rewrite (IH H).
Qed.

(** A pattern that starts with a character that is no digit is not found
    before the end of a run of digits. *)
Lemma includes_after_digits (ds rest : string) (c : ascii) (pat : string) :
  all_digits ds = true -> Api.is_digit c = false ->
  Api.includes (String.append ds rest) (String c pat) = Api.includes rest (String c pat).
Proof.
  intros Hds Hc. induction ds as [|d t IH]; [reflexivity|].
  cbn [all_digits] in Hds. apply andb_true_iff in Hds. destruct Hds as [Hd Ht].
  cbn [String.append Api.includes String.prefix].
  destruct (ascii_dec c d) as [-> | _]; [congruence|].
  cbn [orb]. now apply IH.
Qed.

Lemma append_empty (s : string) : String.append s EmptyString = s.
Proof. induction s as [|c t IH]; [reflexivity|]. cbn [String.append]. now rewrite IH. Qed.

Lemma includes_at_digits (ds : string) :
  all_digits ds = true -> Api.includes ds "@" = false.
Proof.
  intros H. rewrite <- (append_empty ds).
  now rewrite (includes_after_digits ds EmptyString "@"%char EmptyString H eq_refl).
Qed.

Lemma phoneOf_digits (ds rest : string) :
  all_digits ds = true ->
  Api.phoneOf (String.append ds (String "@" rest)) = ds.
Proof.
  induction ds as [|d t IH]; intros H; [reflexivity|].
  cbn [all_digits] in H. apply andb_true_iff in H. destruct H as [Hd Ht].
  cbn [String.append Api.phoneOf].
  destruct (Ascii.eqb d "@") eqn:E.
  - apply Ascii.eqb_eq in E. subst d. discriminate Hd.
  - now rewrite (IH Ht).
Qed.

Lemma private_digits (ds : string) :
  all_digits ds = true -> Api.isPrivateChat (String.append ds "@c.us") = true.
Proof.
  intros H. unfold Api.isPrivateChat.
  assert (E : String.eqb (String.append ds "@c.us") EmptyString = false)
    by (destruct ds; reflexivity).
  rewrite E.
  rewrite (includes_after_digits ds "@c.us" "@"%char "g.us" H eq_refl).
  rewrite (includes_after_digits ds "@c.us" "@"%char "broadcast" H eq_refl).
  rewrite (includes_after_digits ds "@c.us" "s"%char "tatus@" H eq_refl).
  rewrite (includes_after_digits ds "@c.us" "@"%char "newsletter" H eq_refl).
  rewrite (includes_after_digits ds "@c.us" "@"%char "c.us" H eq_refl).
  reflexivity.
Qed.

(** X20: the chat id [sendWhatsAppMessage] sends to is always the digits of
    the phone followed by "@c.us": the branch that would keep a phone that
    contains "@" is never taken, since nothing but digits is left to test.
    That chat id passes [isPrivateChat], and the phone
    [fetchIncomingMessages] reads back from it is the digits again; so for
    a private chat whose id is digits and "@c.us", the reply to the phone
    reported for it goes to that very chat. *)
Theorem X20_reply_goes_to_the_chat_it_came_from :
  forall phone : string,
    Api.chatIdOf phone = String.append (Api.digits_only phone) "@c.us" /\
    Api.isPrivateChat (Api.chatIdOf phone) = true /\
    Api.phoneOf (Api.chatIdOf phone) = Api.digits_only phone /\
    Api.chatIdOf (Api.phoneOf (Api.chatIdOf phone)) = Api.chatIdOf phone /\
    (all_digits phone = true ->
     Api.chatIdOf (Api.phoneOf (String.append phone "@c.us"))
     = String.append phone "@c.us").
Proof.
  intros phone.
  assert (Hid : forall p, Api.chatIdOf p = String.append (Api.digits_only p) "@c.us").
  { intros p. unfold Api.chatIdOf. cbv zeta.
    now rewrite (includes_at_digits _ (digits_only_all p)). }
  assert (Hph : Api.phoneOf (Api.chatIdOf phone) = Api.digits_only phone).
  { rewrite Hid. apply (phoneOf_digits _ "c.us"), digits_only_all. }
  split; [apply Hid|]. split; [rewrite Hid; apply private_digits, digits_only_all|].
  split; [exact Hph|]. split.
  - rewrite Hph, !Hid. now rewrite (digits_only_fixed _ (digits_only_all phone)).
  - intros H. rewrite (phoneOf_digits phone "c.us" H), Hid.
    now rewrite (digits_only_fixed _ H).
Qed.

(** ** Polling the chats *)

Lemma seen_has_In (seen : list string) (id : string) :
  Api.seen_has seen id = true <-> In id seen.
Proof.
  unfold Api.seen_has. rewrite existsb_exists. split.
  - intros (x & Hx & E). apply String.eqb_eq in E. now subst.
  - intros H. exists id. split; [exact H | apply String.eqb_refl].
Qed.

(** What holds of [seenMessageIds] and [newMessages] all through a call
    that started from [seen0]: the set has only grown, and every message
    collected is a new one, marked as seen, that passed the tests. *)
Record Read_ok (seen0 : list string) (st : list string * list Api.Incoming)
  : Prop := {
  read_grows : incl seen0 (fst st);
  read_nodup : NoDup (map Api.in_id (snd st));
  read_each : forall m, In m (snd st) ->
      In (Api.in_id m) (fst st) /\ ~ In (Api.in_id m) seen0 /\
      Api.in_is_from_me m = false /\ Api.in_message m <> [] /\
      Api.isPrivateChat (Api.in_chat_id m) = true /\
      Api.in_phone m = Api.phoneOf (Api.in_chat_id m)
}.

Lemma readMessage_ok (seen0 : list string) (chat : Api.Chat)
    (st : list string * list Api.Incoming) (msg : Api.Message) :
  Api.isPrivateChat (Api.chat_id chat) = true ->
  Read_ok seen0 st -> Read_ok seen0 (Api.readMessage chat st msg).
Proof.
  intros Hpriv Hok. destruct st as [seen new]. unfold Api.readMessage.
  destruct (Api.seen_has seen (Api.msg_id msg)) eqn:Eseen; [exact Hok|].
  destruct (Api.msg_fromMe msg) eqn:Efrom; [exact Hok|].
  destruct (Api.msg_body msg) as [|u body] eqn:Ebody; [exact Hok|].
  cbn [is_empty].
  cbv zeta. destruct (_ <? _); [exact Hok|].
  destruct Hok as [Hg Hn He]. cbn [fst snd] in *.
  assert (Hnew : ~ In (Api.msg_id msg) seen).
  { intros H. apply seen_has_In in H. congruence. }
  constructor; cbn [fst snd].
  - intros a Ha. right. now apply Hg.
  - rewrite map_app. apply NoDup_app; [exact Hn | repeat constructor; intros [] |].
    intros a Ha [<- | []]. apply in_map_iff in Ha. destruct Ha as (m & E & Hm).
    destruct (He m Hm) as (Hs & _). rewrite E in Hs. contradiction.
  - intros m Hm. apply in_app_or in Hm. destruct Hm as [Hm | [<- | []]].
    + destruct (He m Hm) as (H1 & H2). split; [now right | exact H2].
    + cbn [Api.in_id Api.in_is_from_me Api.in_message Api.in_chat_id Api.in_phone].
      split; [now left|]. split; [intros H; apply Hnew, Hg, H|].
      split; [reflexivity|]. split; [discriminate|]. auto.
Qed.

Lemma readChat_ok (seen0 : list string) (st : list string * list Api.Incoming)
    (chat : Api.Chat) :
  Read_ok seen0 st -> Read_ok seen0 (Api.readChat st chat).
Proof.
  intros Hok. unfold Api.readChat.
  destruct (Api.isPrivateChat (Api.chat_id chat)) eqn:Hpriv; [|exact Hok].
  cbn [negb]. destruct (Api.chat_messages chat) as [msgs|]; [|exact Hok].
  revert st Hok. induction msgs as [|m rest IH]; intros st Hok; [exact Hok|].
  cbn [fold_left]. apply IH. now apply readMessage_ok.
Qed.

Lemma readChats_ok (seen0 : list string) (chats : list Api.Chat) :
  forall st, Read_ok seen0 st -> Read_ok seen0 (fold_left Api.readChat chats st).
Proof.
  induction chats as [|chat rest IH]; intros st Hok; [exact Hok|].
  cbn [fold_left]. apply IH. now apply readChat_ok.
Qed.

(** Each message is at least as new as the next one. *)
Definition newest_first (l : list Api.Incoming) : Prop :=
  Sorted (fun a b => Api.in_timestamp b <= Api.in_timestamp a) l.

Lemma insert_newest_perm (x : Api.Incoming) (l : list Api.Incoming) :
  Permutation (Api.insert_newest x l) (x :: l).
Proof.
  induction l as [|y t IH]; cbn [Api.insert_newest]; [reflexivity|].
  destruct (_ <=? _); [reflexivity|].
  rewrite IH. apply perm_swap.
Qed.

Lemma sort_newest_first_perm (l : list Api.Incoming) :
  Permutation (Api.sort_newest_first l) l.
Proof.
  induction l as [|x t IH]; [reflexivity|].
  cbn [Api.sort_newest_first fold_right]. rewrite insert_newest_perm.
  now constructor.
Qed.

Lemma insert_newest_sorted (x : Api.Incoming) (l : list Api.Incoming) :
  newest_first l -> newest_first (Api.insert_newest x l).
Proof.
  unfold newest_first. induction l as [|y t IH]; intros Hs; cbn [Api.insert_newest].
  - repeat constructor.
  - destruct (Api.in_timestamp y <=? Api.in_timestamp x) eqn:E.
    + apply Z.leb_le in E. constructor; [exact Hs|]. now constructor.
    + apply Z.leb_gt in E. inversion Hs as [|? ? Ht Hhd]; subst.
      constructor; [now apply IH|].
      destruct t as [|z t']; cbn [Api.insert_newest].
      * constructor. lia.
      * destruct (_ <=? _); constructor; [lia|].
        inversion Hhd; subst. assumption.
Qed.

Lemma sort_newest_first_sorted (l : list Api.Incoming) :
  newest_first (Api.sort_newest_first l).
Proof.
  induction l as [|x t IH]; [constructor|].
  cbn [Api.sort_newest_first fold_right]. now apply insert_newest_sorted.
Qed.

Lemma firstn_newest_first (n : nat) (l : list Api.Incoming) :
  newest_first l -> newest_first (firstn n l).
Proof.
  unfold newest_first. revert l. induction n as [|n IH]; intros [|x t] Hs;
    cbn [firstn]; try constructor.
  - inversion Hs; subst. now apply IH.
  - inversion Hs as [|? ? Ht Hhd]; subst.
    destruct n; [constructor|]. destruct t as [|y t']; [constructor|].
    cbn [firstn]. constructor. inversion Hhd; subst. assumption.
Qed.

Lemma firstn_In {A : Type} (n : nat) (l : list A) (a : A) :
  In a (firstn n l) -> In a l.
Proof.
  intros H. rewrite <- (firstn_skipn n l). apply in_or_app. now left.
Qed.

(** What a call that gets the list of chats returns. *)
Lemma fetchIncomingMessages_ok (limit : nat) (seen : list string)
    (chats : list Api.Chat) :
  let r := Api.fetchIncomingMessages limit false seen (Some chats) in
  Api.success (snd r) = true /\
  incl seen (fst r) /\
  (length (Api.messages (snd r)) <= limit)%nat /\
  NoDup (map Api.in_id (Api.messages (snd r))) /\
  newest_first (Api.messages (snd r)) /\
  forall m, In m (Api.messages (snd r)) ->
    In (Api.in_id m) (fst r) /\ ~ In (Api.in_id m) seen /\
    Api.in_is_from_me m = false /\ Api.in_message m <> [] /\
    Api.isPrivateChat (Api.in_chat_id m) = true /\
    Api.in_phone m = Api.phoneOf (Api.in_chat_id m).
Proof.
  unfold Api.fetchIncomingMessages.
  assert (H0 : Read_ok seen (seen, [])).
  { constructor; cbn [fst snd]; [apply incl_refl | constructor | intros m []]. }
  pose proof (readChats_ok seen (firstn 10 chats) _ H0) as Hok.
  destruct (fold_left Api.readChat (firstn 10 chats) (seen, [])) as [seen' new].
  destruct Hok as [Hg Hn He]. cbn [fst snd Api.success Api.messages] in *.
  split; [reflexivity|]. split; [exact Hg|].
  split; [apply firstn_le_length|].
  split.
  - rewrite <- firstn_map.
    apply (NoDup_app_remove_r _ (skipn limit (map Api.in_id (Api.sort_newest_first new)))).
    rewrite firstn_skipn.
    apply (Permutation_NoDup (l := map Api.in_id new)); [|exact Hn].
    apply Permutation_map. symmetry. apply sort_newest_first_perm.
  - split; [apply firstn_newest_first, sort_newest_first_sorted|].
    intros m Hm. apply He. apply firstn_In in Hm.
    apply (Permutation_in _ (sort_newest_first_perm new)). exact Hm.
Qed.

(** What any call returns, live or not: ids that were not seen before it,
    and are seen after it, as is all that was seen before. *)
Lemma fetchIncomingMessages_new (limit : nat) (demoMode : bool)
    (seen : list string) (chats : option (list Api.Chat)) :
  let r := Api.fetchIncomingMessages limit demoMode seen chats in
  incl seen (fst r) /\
  forall m, In m (Api.messages (snd r)) ->
    ~ In (Api.in_id m) seen /\ In (Api.in_id m) (fst r).
Proof.
  destruct demoMode; [split; [apply incl_refl | intros m []]|].
  destruct chats as [cs|]; [|split; [apply incl_refl | intros m []]].
  destruct (fetchIncomingMessages_ok limit seen cs) as (_ & Hg & _ & _ & _ & H).
  cbv zeta. split; [exact Hg|].
  intros m Hm. destruct (H m Hm) as (A & B & _). auto.
Qed.

(** As long as [resetMessageTracking()] is not called, the set of the ids
    seen only grows, and no call returns an id of the set. *)
Lemma calls_return_unseen (later : list Api.Call) :
  forall s : Api.State,
    ~ In Api.CReset later ->
    incl (Api.st_seen s) (Api.st_seen (fst (Api.calls s later))) /\
    forall r, In r (snd (Api.calls s later)) ->
      forall m, In m (Api.messages r) -> ~ In (Api.in_id m) (Api.st_seen s).
Proof.
  induction later as [|c rest IH]; intros s Hno.
  - split; [apply incl_refl | intros r []].
  - assert (Hrest : ~ In Api.CReset rest) by (intros H; apply Hno; now right).
    cbn [Api.calls fst snd].
    destruct (IH (fst (Api.call s c)) Hrest) as [Hg Hr].
    destruct c as [limit chats | value |]; cbn [Api.call fst snd] in *.
    + destruct (fetchIncomingMessages_new limit (Api.st_demoMode s) (Api.st_seen s) chats)
        as [Hg1 Hn1].
      cbv zeta in Hg1, Hn1.
      split; [eapply incl_tran; eauto|].
      intros r [<- | Hin] m Hm.
      * apply (Hn1 m Hm).
      * intros Hs. apply (Hr r Hin m Hm). apply Hg1. exact Hs.
    + split; [exact Hg | exact Hr].
    + exfalso. apply Hno. now left.
Qed.

(** X21: a poll that gets the list of chats returns at most [limit]
    messages, newest first and with distinct ids; each of them is new (its
    id was not seen before the call and is seen after it), is not from the
    user, has a text, and comes from a private chat, with the phone read off
    the chat id.  No message is delivered twice as long as
    [resetMessageTracking()] is not called (a new game calls it): whatever
    calls of [fetchIncomingMessages] and [setDemoMode] follow, one after the
    other, none of them returns an id that this poll returned.  After
    [resetMessageTracking()] the set of the ids seen is empty, and a poll
    returns what it returns from the empty set. *)
Theorem X21_a_poll_returns_new_messages_once :
  forall (limit : nat) (seen : list string) (chats : list Api.Chat)
         (later : list Api.Call),
    let r := Api.fetchIncomingMessages limit false seen (Some chats) in
    let s := Api.mkState false (fst r) in
    (length (Api.messages (snd r)) <= limit)%nat /\
    NoDup (map Api.in_id (Api.messages (snd r))) /\
    newest_first (Api.messages (snd r)) /\
    (forall m, In m (Api.messages (snd r)) ->
       ~ In (Api.in_id m) seen /\ In (Api.in_id m) (fst r) /\
       Api.in_is_from_me m = false /\ Api.in_message m <> [] /\
       Api.isPrivateChat (Api.in_chat_id m) = true /\
       Api.in_phone m = Api.phoneOf (Api.in_chat_id m)) /\
    (~ In Api.CReset later ->
     forall r', In r' (snd (Api.calls s later)) ->
     forall m m', In m (Api.messages (snd r)) -> In m' (Api.messages r') ->
       Api.in_id m <> Api.in_id m') /\
    (forall limit' chats',
       snd (Api.calls s [Api.CReset; Api.CFetch limit' chats'])
       = [snd (Api.fetchIncomingMessages limit' false [] chats')]).
Proof.
  intros limit seen chats later r s.
  destruct (fetchIncomingMessages_ok limit seen chats) as (_ & _ & H1 & H2 & H3 & H4).
  fold r in H1, H2, H3, H4.
  split; [exact H1|]. split; [exact H2|]. split; [exact H3|]. split; [|split].
  - intros m Hm. destruct (H4 m Hm) as (A & B & C). auto.
  - intros Hno r' Hr' m m' Hm Hm' E.
    destruct (calls_return_unseen later s Hno) as [_ Hnew].
    apply (Hnew r' Hr' m' Hm'). cbn [Api.st_seen s]. rewrite <- E.
    destruct (H4 m Hm) as (A & _). exact A.
  - intros limit' chats'. reflexivity.
Qed.

Section ReadSeen.

Variables (chat : Api.Chat) (msg : Api.Message).

(** The message passes the tests of the loop. *)
Definition readable : Prop :=
  Api.msg_fromMe msg = false /\ Api.msg_body msg <> [] /\
  Api.msg_checkedAt msg - 5 * 60 * 1000 <= Api.msg_timestamp msg * 1000.

Lemma readMessage_grows (st : list string * list Api.Incoming) (m : Api.Message) :
  incl (fst st) (fst (Api.readMessage chat st m)).
Proof.
  destruct st as [seen new]. unfold Api.readMessage.
  repeat match goal with |- context [if ?b then _ else _] => destruct b end;
    cbn [fst]; try apply incl_refl.
  apply incl_tl, incl_refl.
Qed.

Lemma readMessages_grow (msgs : list Api.Message) :
  forall st, incl (fst st) (fst (fold_left (Api.readMessage chat) msgs st)).
Proof.
  induction msgs as [|m rest IH]; intros st; [apply incl_refl|].
  cbn [fold_left]. eapply incl_tran; [apply readMessage_grows | apply IH].
Qed.

Lemma readMessage_marks (st : list string * list Api.Incoming) :
  readable -> In (Api.msg_id msg) (fst (Api.readMessage chat st msg)).
Proof.
  intros (Hf & Hb & Ht). destruct st as [seen new]. unfold Api.readMessage.
  destruct (Api.seen_has seen (Api.msg_id msg)) eqn:E;
    [now apply seen_has_In in E|].
  rewrite Hf. destruct (Api.msg_body msg) as [|u body]; [congruence|].
  cbn [is_empty]. cbv zeta.
  apply Z.ltb_ge in Ht. rewrite Ht. now left.
Qed.

Lemma readMessages_mark (msgs : list Api.Message) :
  readable -> In msg msgs ->
  forall st, In (Api.msg_id msg) (fst (fold_left (Api.readMessage chat) msgs st)).
Proof.
  intros Hr. induction msgs as [|m rest IH]; intros Hin st; [destruct Hin|].
  cbn [fold_left]. destruct Hin as [-> | Hin]; [|now apply IH].
  apply readMessages_grow. now apply readMessage_marks.
Qed.

End ReadSeen.

Lemma readChat_grows (st : list string * list Api.Incoming) (chat : Api.Chat) :
  incl (fst st) (fst (Api.readChat st chat)).
Proof.
  unfold Api.readChat. destruct (negb _); [apply incl_refl|].
  destruct (Api.chat_messages chat); [apply readMessages_grow | apply incl_refl].
Qed.

Lemma readChats_grow (chats : list Api.Chat) :
  forall st, incl (fst st) (fst (fold_left Api.readChat chats st)).
Proof.
  induction chats as [|c rest IH]; intros st; [apply incl_refl|].
  cbn [fold_left]. eapply incl_tran; [apply readChat_grows | apply IH].
Qed.

(** X22: a poll marks as seen every readable message it examines (not from
    the user, with a text, at most five minutes old) in the private chats
    among the first ten, whether or not the message fits under [limit]; so a
    message that the limit cut off is not returned by any of the calls that
    follow either, as long as [resetMessageTracking()] is not called. *)
Theorem X22_a_message_cut_by_the_limit_is_not_delivered_later :
  forall (limit : nat) (seen : list string) (chats : list Api.Chat)
         (chat : Api.Chat) (msgs : list Api.Message) (msg : Api.Message)
         (later : list Api.Call),
    In chat (firstn 10 chats) ->
    Api.isPrivateChat (Api.chat_id chat) = true ->
    Api.chat_messages chat = Some msgs ->
    In msg msgs ->
    readable msg ->
    ~ In Api.CReset later ->
    let r := Api.fetchIncomingMessages limit false seen (Some chats) in
    In (Api.msg_id msg) (fst r) /\
    forall r', In r' (snd (Api.calls (Api.mkState false (fst r)) later)) ->
    forall m', In m' (Api.messages r') -> Api.in_id m' <> Api.msg_id msg.
Proof.
  intros limit seen chats chat msgs msg later Hchat Hpriv Hmsgs Hmsg Hread Hno r.
  assert (Hseen : In (Api.msg_id msg) (fst r)).
  { unfold r, Api.fetchIncomingMessages.
    assert (H : forall cs st, In chat cs ->
                In (Api.msg_id msg) (fst (fold_left Api.readChat cs st))).
    { induction cs as [|c rest IH]; intros st Hin; [destruct Hin|].
      cbn [fold_left]. destruct Hin as [-> | Hin]; [|now apply IH].
      apply readChats_grow. unfold Api.readChat. rewrite Hpriv, Hmsgs. cbn [negb].
      now apply readMessages_mark. }
    specialize (H (firstn 10 chats) (seen, []) Hchat).
    destruct (fold_left Api.readChat (firstn 10 chats) (seen, [])) as [seen' new].
    exact H. }
  split; [exact Hseen|].
  intros r' Hr' m' Hm' E.
  destruct (calls_return_unseen later (Api.mkState false (fst r)) Hno) as [_ Hnew].
  apply (Hnew r' Hr' m' Hm'). cbn [Api.st_seen]. rewrite E. exact Hseen.
Qed.

(** Two fresh messages of one private chat, polled with a limit of one. *)
Definition twoMessages : list Api.Message :=
  [Api.mkMessage "a1" false (utf16 "first") 1000 1000000;
   Api.mkMessage "a2" false (utf16 "second") 999 1000000].

Definition oneChat : Api.Chat :=
  Api.mkChat "972501111111@c.us" "Dana" (Some twoMessages).

Lemma oneChat_polled :
  map Api.in_id
      (Api.messages (snd (Api.fetchIncomingMessages 1 false [] (Some [oneChat]))))
  = ["a1"%string].
Proof. vm_compute. reflexivity. Qed.

(** The polls that follow: one in demo mode, two live ones. *)
Definition laterPolls : list Api.Call :=
  [Api.CSetDemoMode true; Api.CFetch 5 (Some [oneChat]);
   Api.CSetDemoMode false; Api.CFetch 5 (Some [oneChat]);
   Api.CFetch 5 (Some [oneChat])].

Lemma laterPolls_no_reset : ~ In Api.CReset laterPolls.
Proof. intros H. repeat (destruct H as [H | H]; [discriminate H|]). exact H. Qed.

(** After a reset both messages are returned, the first one again. *)
Lemma reset_returns_again :
  map (fun r => map Api.in_id (Api.messages r))
      (snd (Api.calls
              (Api.mkState false
                 (fst (Api.fetchIncomingMessages 1 false [] (Some [oneChat]))))
              [Api.CReset; Api.CFetch 5 (Some [oneChat])]))
  = [["a1"; "a2"]%string].
Proof. vm_compute. reflexivity. Qed.

Lemma X22_witness :
  map Api.in_id
      (Api.messages (snd (Api.fetchIncomingMessages 1 false [] (Some [oneChat]))))
  = ["a1"%string] /\
  forall r',
    In r' (snd (Api.calls
                  (Api.mkState false
                     (fst (Api.fetchIncomingMessages 1 false [] (Some [oneChat]))))
                  laterPolls)) ->
    forall m', In m' (Api.messages r') -> Api.in_id m' <> "a2"%string.
Proof.
  split; [exact oneChat_polled|].
  assert (Hchat : In oneChat (firstn 10 [oneChat])) by (left; reflexivity).
  assert (Hpriv : Api.isPrivateChat (Api.chat_id oneChat) = true) by reflexivity.
  assert (Hmsg : In (Api.mkMessage "a2" false (utf16 "second") 999 1000000) twoMessages)
    by (right; left; reflexivity).
  assert (Hread : readable (Api.mkMessage "a2" false (utf16 "second") 999 1000000)).
  { split; [reflexivity|]. split; discriminate. }
  exact (proj2 (X22_a_message_cut_by_the_limit_is_not_delivered_later
                  1 [] [oneChat] oneChat twoMessages
                  (Api.mkMessage "a2" false (utf16 "second") 999 1000000)
                  laterPolls Hchat Hpriv eq_refl Hmsg Hread laterPolls_no_reset)).
Defined.

(** The message the first poll returned. *)
Definition polledFirst : Api.Incoming :=
  Api.mkIncoming "a1" "972501111111" "972501111111@c.us" (utf16 "first") "Dana"
    1000 false.

Lemma polledFirst_returned :
  In polledFirst
     (Api.messages (snd (Api.fetchIncomingMessages 1 false [] (Some [oneChat])))).
Proof. vm_compute. left. reflexivity. Qed.

Lemma X21_witness :
  (length (Api.messages (snd (Api.fetchIncomingMessages 1 false [] (Some [oneChat]))))
   <= 1)%nat /\
  forall r',
    In r' (snd (Api.calls
                  (Api.mkState false
                     (fst (Api.fetchIncomingMessages 1 false [] (Some [oneChat]))))
                  laterPolls)) ->
    forall m', In m' (Api.messages r') -> Api.in_id polledFirst <> Api.in_id m'.
Proof.
  destruct (X21_a_poll_returns_new_messages_once 1 [] [oneChat] laterPolls)
    as (Hlen & _ & _ & _ & H & _).
  split; [exact Hlen|].
  intros r' Hr' m' Hm'.
  exact (H laterPolls_no_reset r' Hr' polledFirst m' polledFirst_returned Hm').
Defined.

(** ** A serve that sends a message *)

Lemma find_by_id (l d : list Customer.t) (i : nat) (c : Customer.t) :
  NoDup (map Customer.id l) -> nth_error l i = Some c ->
  find (fun c0 => Nat.eqb (Customer.id c0) (Customer.id c)) (l ++ d) = Some c.
Proof.
  revert i. induction l as [|h t IH]; intros [|i] Hnd Hn; cbn [nth_error] in Hn;
    try discriminate.
  - injection Hn as ->. cbn [app find]. now rewrite Nat.eqb_refl.
  - cbn [map] in Hnd. inversion Hnd as [|? ? Hh Ht]; subst.
    cbn [app find]. destruct (Nat.eqb (Customer.id h) (Customer.id c)) eqn:E.
    + apply Nat.eqb_eq in E. exfalso. apply Hh. rewrite E.
      apply in_map. apply (nth_error_In _ _ Hn).
    + now apply (IH i).
Qed.

Lemma remove_nth_last {A : Type} (l : list A) (a : A) :
  nth_error (l ++ [a]) (length l) = Some a /\
  Game.remove_nth (length l) (l ++ [a]) = l.
Proof.
  induction l as [|h t [IH1 IH2]]; [split; reflexivity|].
  cbn [app length nth_error Game.remove_nth]. now rewrite IH2.
Qed.

(** X23: the serve of a real customer in live mode has two halves.  When
    [serveCustomer] accepts it, the customer turns happy at once, but the
    score, the counters and the bottles are as before: the bottle is not on
    cooldown yet.  When the send returns, whatever it answered, the serve is
    scored with the patience the customer was served with, in percent as
    [getPatiencePercent()] rounds it, and the combo of that moment, and the
    bottle goes through [use()] at the time of the return. *)
Theorem X23_a_live_serve_scores_when_the_send_returns :
  forall (now now' : Z) (i : nat) (g : Game.t) (bi : nat) (c : Customer.t),
    Game_ok g ->
    Servable now i g bi c ->
    Customer.isReal c && negb (Game.demoMode g) = true ->
    let g1 := Game.serveCustomer now i g in
    let g2 := Game.serveCustomer_resume now' (length (Game.servesInFlight g)) g1 in
    (nth_error (Game.customers g1) i = Some (served c) /\
     Game.score g1 = Game.score g /\
     Game.customersServed g1 = Game.customersServed g /\
     Game.comboCount g1 = Game.comboCount g /\
     Game.bottles g1 = Game.bottles g /\
     Game.servesInFlight g1 = Game.servesInFlight g ++ [(Customer.id c, bi)]) /\
    (Game.score g2
     = Game.score g
       + (GAME_CONFIG.BASE_SCORE
          + Qfloor (Double.mul (Customer.getPatiencePercent c)
                               GAME_CONFIG.PATIENCE_BONUS_MULTIPLIER)
          + Game.comboCount g * GAME_CONFIG.COMBO_BONUS) /\
     Game.customersServed g2 = Game.customersServed g + 1 /\
     Game.comboCount g2 = Game.comboCount g + 1 /\
     Game.servesInFlight g2 = Game.servesInFlight g /\
     forall bottle, nth_error (Game.bottles g) bi = Some bottle ->
       Game.bottles g2 = array_set (Game.bottles g) bi (snd (Bottle.use now' bottle))).
Proof.
  intros now now' i g bi c Hok Hsv Hlive g1 g2.
  assert (E1 : g1 = Game.set_servesInFlight
                      (Game.servesInFlight g ++ [(Customer.id c, bi)])
                      (withServed i c g)).
  { unfold g1.
    destruct (serveCustomer_cases now i g) as [E | (bi' & c' & Hsv' & Hcases)].
    - exfalso. revert E. unfold Game.serveCustomer.
      rewrite (servable_selected _ _ _ _ _ Hsv).
      destruct (servable_bottle _ _ _ _ _ Hsv) as (bottle & -> & -> & ->).
      rewrite (servable_customer _ _ _ _ _ Hsv). unfold Customer.serve.
      rewrite (servable_isServed _ _ _ _ _ Hsv), (servable_isLeaving _ _ _ _ _ Hsv).
      cbn [orb negb]. customer_fields. game_fields. rewrite Hlive. intros E.
      apply (f_equal (fun g0 => length (Game.servesInFlight g0))) in E.
      revert E. game_fields. rewrite length_app. cbn [length]. lia.
    - assert (bi' = bi).
      { pose proof (servable_selected _ _ _ _ _ Hsv).
        pose proof (servable_selected _ _ _ _ _ Hsv'). congruence. }
      assert (c' = c).
      { pose proof (servable_customer _ _ _ _ _ Hsv).
        pose proof (servable_customer _ _ _ _ _ Hsv'). congruence. }
      subst bi' c'.
      destruct Hcases as [[_ E] | [E _]]; [exact E | congruence]. }
  assert (Hi : (i < length (Game.customers g))%nat)
    by (apply (nth_error_lt _ _ _ (servable_customer _ _ _ _ _ Hsv))).
  assert (Hc1 : nth_error (Game.customers g1) i = Some (served c)).
  { rewrite E1. unfold withServed. game_fields. now apply array_set_same. }
  split.
  { split; [exact Hc1|]. rewrite E1. unfold withServed. game_fields. auto. }
  destruct (remove_nth_last (Game.servesInFlight g) (Customer.id c, bi)) as [Hk Hrm].
  assert (Hnd : NoDup (map Customer.id (Game.customers g1))).
  { rewrite E1. unfold withServed. game_fields.
    rewrite (array_set_map Customer.id _ _ (served c) c
               (servable_customer _ _ _ _ _ Hsv) eq_refl).
    pose proof (seated_nodup _ _ _ (ok_seated g Hok)) as H.
    unfold roster in H. rewrite map_map in H. exact H. }
  assert (E2 : g2 = Game.scoreServe now' (served c) bi
                      (Game.set_servesInFlight (Game.servesInFlight g)
                         (withServed i c g))).
  { unfold g2, Game.serveCustomer_resume.
    assert (Hs1 : Game.servesInFlight g1
                  = Game.servesInFlight g ++ [(Customer.id c, bi)])
      by (rewrite E1; reflexivity).
    rewrite Hs1, Hk, Hrm. unfold Game.findCustomer. game_fields.
    change (Customer.id c) with (Customer.id (served c)).
    rewrite (find_by_id _ _ i (served c) Hnd Hc1).
    rewrite E1. reflexivity. }
  set (g1' := Game.set_servesInFlight (Game.servesInFlight g) (withServed i c g)) in E2.
  destruct (scoreServe_tally g1' now' (served c) bi) as (S1 & S2 & S3 & _).
  destruct (scoreServe_bottles now' (served c) bi g1') as (B & _ & F).
  rewrite <- E2 in S1, S2, S3, B, F.
  split; [exact S1|]. split; [exact S2|]. split; [exact S3|]. split; [exact F|].
  intros bottle Hb. rewrite B.
  change (Game.bottles g1') with (Game.bottles g). now rewrite Hb.
Qed.

(** The live round of [liveEvents], then a click on the first bottle. *)
Definition liveServeEvents : list Game.Event :=
  liveEvents ++ [Game.EClick 0 250 130].

Abbreviation liveServeGame := (Game.run liveServeEvents Game.new).

Lemma liveServeGame_servable :
  Servable 0 0 liveServeGame 0 (nth 0 (Game.customers liveServeGame) idleCustomer).
Proof.
  constructor.
  - vm_compute. reflexivity.
  - exists (nth 0 (Game.bottles liveServeGame) welcomeBottle).
    repeat split; vm_compute; reflexivity.
  - vm_compute. reflexivity.
  - vm_compute. reflexivity.
  - vm_compute. reflexivity.
Qed.

Lemma liveServeGame_live :
  Customer.isReal (nth 0 (Game.customers liveServeGame) idleCustomer)
  && negb (Game.demoMode liveServeGame) = true.
Proof. vm_compute. reflexivity. Qed.

Lemma X23_witness :
  Game.score (Game.serveCustomer 0 0 liveServeGame) = Game.score liveServeGame /\
  Game.customersServed
    (Game.serveCustomer_resume 500 (length (Game.servesInFlight liveServeGame))
       (Game.serveCustomer 0 0 liveServeGame))
  = Game.customersServed liveServeGame + 1.
Proof.
  destruct (X23_a_live_serve_scores_when_the_send_returns 0 500 0 liveServeGame 0
              (nth 0 (Game.customers liveServeGame) idleCustomer)
              (proj1 (reachable_inv liveServeEvents))
              liveServeGame_servable liveServeGame_live)
    as ((_ & H1 & _) & (_ & H2 & _)).
  split; [exact H1 | exact H2].
Defined.
